(** * CP-SAT presolve and integer trail: a shallow embedding

    This development embeds in Rocq the parts of
    [ortools/sat/cp_model_presolve.cc] and [ortools/sat/integer.cc] that the
    specification of the presolve / propagation core talks about, and proves
    (or refutes) the properties stated there.

    Conventions.
    - C++ [int] / [int64] values are modelled as [Z]; the arithmetic of the
      modelled functions is the mathematical one (signed overflow is undefined
      behaviour in C++ and the model validator bounds the magnitudes).
    - A [std::vector] is a [list], indexed with stdpp's lookup [l !! i].
    - A function containing a [CHECK] (or an access that would be out of
      range) returns an [option]: [None] is the aborted run.
    - A [ConstraintProto*] into the working model is modelled either by
      passing the constraint in and out, or by its index in the model. *)

From Stdlib Require Import ZArith Lia Bool.
From stdpp Require Import base option list gmap strings sorting.

Open Scope Z_scope.

(** ** Variable references (cp_model_utils.h) *)

(** Modelled from the spec: the reference helpers of [cp_model_utils.h] are
    not part of the sources at hand.  "A signed integer index; positive
    references name variable [i], the bitwise negation names its arithmetic
    opposite."  The bitwise negation of [ref] is [-ref - 1]. *)
Definition NegatedRef (ref : Z) : Z := - ref - 1.

(** Modelled from the spec: see [NegatedRef]. *)
Definition RefIsPositive (ref : Z) : bool := 0 <=? ref.

(** Modelled from the spec: see [NegatedRef]; the variable a reference names. *)
Definition PositiveRef (ref : Z) : Z := Z.max ref (NegatedRef ref).

(** The conversion of an [int64] to an [int] (32 bits, two's complement):
    the value is taken modulo 2^32 into the range of [int]. *)
Definition narrow_to_int (x : Z) : Z := (x + 2 ^ 31) mod 2 ^ 32 - 2 ^ 31.

(** ** Domains (util/sorted_interval_list.h) *)

Definition kint64min : Z := - 2 ^ 63.
Definition kint64max : Z := 2 ^ 63 - 1.

Record ClosedInterval := MkInterval { start : Z; end_ : Z }.

#[global] Instance ClosedInterval_eq_dec : EqDecision ClosedInterval.
Proof. solve_decision. Defined.

(** Modelled from the spec: the [Domain] class is not part of the sources at
    hand.  "An ordered sequence of closed integer intervals, pairwise disjoint
    and non-adjacent, with total value-set semantics."  The operations below
    are the ones the modelled code calls; they are defined on the interval
    list and act on the value set as their names say (see the [Domain]
    lemmas in the second part).  Values are unbounded integers. *)
Module Domain.

Definition t := list ClosedInterval.

(** [Domain(value)]. *)
Definition Singleton (v : Z) : t := [MkInterval v v].

(** [Domain(left, right)]: empty when [left > right]. *)
Definition FromInterval (l r : Z) : t :=
  if l <=? r then [MkInterval l r] else [].

Definition IsEmpty (d : t) : bool :=
  match d with [] => true | _ => false end.

Definition NumIntervals (d : t) : Z := Z.of_nat (length d).

(** [front()] and [back()]; only called on non-empty domains. *)
Definition front (d : t) : ClosedInterval := List.hd (MkInterval 0 0) d.
Definition back (d : t) : ClosedInterval := List.last d (MkInterval 0 0).

Definition Min (d : t) : Z := start (front d).
Definition Max (d : t) : Z := end_ (back d).

Definition in_interval (v : Z) (i : ClosedInterval) : bool :=
  (start i <=? v) && (v <=? end_ i).

Definition Contains (d : t) (v : Z) : bool := existsb (in_interval v) d.

Definition interval_included (i j : ClosedInterval) : bool :=
  (start j <=? start i) && (end_ i <=? end_ j).

Definition IsIncludedIn (d other : t) : bool :=
  forallb (fun i => existsb (interval_included i) other) d.

Definition interval_inter (i j : ClosedInterval) : t :=
  FromInterval (Z.max (start i) (start j)) (Z.min (end_ i) (end_ j)).

Definition IntersectionWith (d other : t) : t :=
  flat_map (fun i => flat_map (interval_inter i) other) d.

Definition Negation (d : t) : t :=
  rev (map (fun i => MkInterval (- end_ i) (- start i)) d).

(** Representation invariant: non-empty intervals, increasing, and
    neither overlapping nor adjacent. *)
Fixpoint wf (d : t) : Prop :=
  match d with
  | [] => True
  | i :: rest =>
      start i <= end_ i /\
      match rest with
      | [] => True
      | j :: _ => end_ i + 1 < start j
      end /\ wf rest
  end.

(** The value set of a domain. *)
Definition elem (v : Z) (d : t) : Prop := Contains d v = true.

End Domain.

(** ** The model protos (cp_model.proto), restricted to what is used *)

Record LinearConstraintProto := MkLinear {
  lin_vars : list Z;
  lin_coeffs : list Z;
  lin_domain : list Z   (* flattened [lb0, ub0, lb1, ub1, ...] *)
}.

Record IntervalConstraintProto := MkIntervalCt {
  itv_start : Z;
  itv_end : Z;
  itv_size : Z
}.

Record CumulativeConstraintProto := MkCumulative {
  cum_capacity : Z;
  cum_intervals : list Z;
  cum_demands : list Z
}.

(** The [oneof constraint] of a [ConstraintProto].  The kinds whose
    rewriters are not modelled are gathered under [kOtherConstraint]. *)
Inductive ConstraintCase :=
| CONSTRAINT_NOT_SET
| kBoolOr (literals : list Z)
| kBoolAnd (literals : list Z)
| kAtMostOne (literals : list Z)
| kLinear (arg : LinearConstraintProto)
| kInterval (arg : IntervalConstraintProto)
| kAllDiff (vars : list Z)
| kNoOverlap (intervals : list Z)
| kNoOverlap2D (x_intervals y_intervals : list Z)
| kCumulative (arg : CumulativeConstraintProto)
| kOtherConstraint (tag : nat) (refs : list Z).

Record ConstraintProto := MkConstraint {
  enforcement_literal : list Z;
  constraint : ConstraintCase
}.

(** [ConstraintProto::Clear()] / a freshly added constraint. *)
Definition empty_constraint : ConstraintProto := MkConstraint [] CONSTRAINT_NOT_SET.

(** Modelled from the spec: [HasEnforcementLiteral] of [cp_model_utils.h] is
    not part of the sources at hand; a constraint "has enforcement literals"
    when its list of them is not empty. *)
Definition HasEnforcementLiteral (ct : ConstraintProto) : bool :=
  match enforcement_literal ct with [] => false | _ => true end.

Record CpObjectiveProto := MkObjective {
  obj_vars : list Z;
  obj_coeffs : list Z;
  obj_domain : list Z
}.

Record CpModelProto := MkModel {
  variables : list (list Z);          (* the flattened domain of each variable *)
  constraints : list ConstraintProto;
  objective : option CpObjectiveProto;
  search_strategy : list (list Z);
  solution_hint : option (list Z * list Z)
}.

(** [CpModelProto::Clear()]. *)
Definition cleared_model : CpModelProto := MkModel [] [] None [] None.

(** [model->add_constraints()]: appends an empty constraint, which the caller
    then fills; [add_constraint ct] is the append of the filled constraint. *)
Definition add_constraint (ct : ConstraintProto) (m : CpModelProto) : CpModelProto :=
  MkModel (variables m) (constraints m ++ [ct]) (objective m)
          (search_strategy m) (solution_hint m).

Definition set_constraint (c : nat) (ct : ConstraintProto) (m : CpModelProto) : CpModelProto :=
  MkModel (variables m) (<[c := ct]> (constraints m)) (objective m)
          (search_strategy m) (solution_hint m).

(** [ReadDomainFromProto]: pairs up the flattened bounds. *)
Fixpoint ReadDomainFromProto (flat : list Z) : Domain.t :=
  match flat with
  | l :: r :: rest => MkInterval l r :: ReadDomainFromProto rest
  | _ => []
  end.

(** ** The affine-relation repository (util/affine_relation.h) *)

(** The [AffineRelation] class is not part of the sources at hand; the
    presolve context only calls its [TryAdd] and [Get].  It is kept abstract:
    an interface, as in the source. *)
Record Relation := MkRelation { representative : Z; rel_coeff : Z; rel_offset : Z }.

Class AffineRelationOps (AR : Type) := {
  (* The default-constructed repository. *)
  NewAffineRelation : AR;
  TryAdd : Z -> Z -> Z -> Z -> bool -> bool -> AR -> bool * AR;
  Get : Z -> AR -> Relation
}.

(** ** The presolve context *)

Record PresolveContext {AR : Type} := MkContext {
  affine_relations : AR;
  var_equiv_relations : AR;
  (* Pointers to constraints of the working model, as their indices. *)
  affine_constraints : gset nat;
  constant_to_ref : gmap Z Z;
  constraint_to_vars : list (list Z);
  var_to_constraints : list (gset Z);
  working_model : CpModelProto;
  mapping_model : CpModelProto;
  is_unsat : bool;
  enumerate_all_solutions : bool;
  stats_by_rule_name : gmap string nat;
  tmp_literals : list Z;
  (* SparseBitset: the positions set at least once, in the order set. *)
  modified_domains : list Z;
  domains : list Domain.t
}.
Arguments PresolveContext : clear implicits.
Arguments MkContext {AR}.

Section Context.
Context {AR : Type} `{!AffineRelationOps AR}.
Local Abbreviation Ctx := (PresolveContext AR).

Definition set_is_unsat (b : bool) (ctx : Ctx) : Ctx :=
  MkContext (affine_relations ctx) (var_equiv_relations ctx)
    (affine_constraints ctx) (constant_to_ref ctx) (constraint_to_vars ctx)
    (var_to_constraints ctx) (working_model ctx) (mapping_model ctx)
    b (enumerate_all_solutions ctx) (stats_by_rule_name ctx)
    (tmp_literals ctx) (modified_domains ctx) (domains ctx).

Definition set_domains (ds : list Domain.t) (ctx : Ctx) : Ctx :=
  MkContext (affine_relations ctx) (var_equiv_relations ctx)
    (affine_constraints ctx) (constant_to_ref ctx) (constraint_to_vars ctx)
    (var_to_constraints ctx) (working_model ctx) (mapping_model ctx)
    (is_unsat ctx) (enumerate_all_solutions ctx) (stats_by_rule_name ctx)
    (tmp_literals ctx) (modified_domains ctx) ds.

Definition set_modified_domains (md : list Z) (ctx : Ctx) : Ctx :=
  MkContext (affine_relations ctx) (var_equiv_relations ctx)
    (affine_constraints ctx) (constant_to_ref ctx) (constraint_to_vars ctx)
    (var_to_constraints ctx) (working_model ctx) (mapping_model ctx)
    (is_unsat ctx) (enumerate_all_solutions ctx) (stats_by_rule_name ctx)
    (tmp_literals ctx) md (domains ctx).

Definition set_tmp_literals (tl : list Z) (ctx : Ctx) : Ctx :=
  MkContext (affine_relations ctx) (var_equiv_relations ctx)
    (affine_constraints ctx) (constant_to_ref ctx) (constraint_to_vars ctx)
    (var_to_constraints ctx) (working_model ctx) (mapping_model ctx)
    (is_unsat ctx) (enumerate_all_solutions ctx) (stats_by_rule_name ctx)
    tl (modified_domains ctx) (domains ctx).

Definition set_stats (st : gmap string nat) (ctx : Ctx) : Ctx :=
  MkContext (affine_relations ctx) (var_equiv_relations ctx)
    (affine_constraints ctx) (constant_to_ref ctx) (constraint_to_vars ctx)
    (var_to_constraints ctx) (working_model ctx) (mapping_model ctx)
    (is_unsat ctx) (enumerate_all_solutions ctx) st
    (tmp_literals ctx) (modified_domains ctx) (domains ctx).

Definition set_working_model (m : CpModelProto) (ctx : Ctx) : Ctx :=
  MkContext (affine_relations ctx) (var_equiv_relations ctx)
    (affine_constraints ctx) (constant_to_ref ctx) (constraint_to_vars ctx)
    (var_to_constraints ctx) m (mapping_model ctx)
    (is_unsat ctx) (enumerate_all_solutions ctx) (stats_by_rule_name ctx)
    (tmp_literals ctx) (modified_domains ctx) (domains ctx).

Definition set_graph (c2v : list (list Z)) (v2c : list (gset Z)) (ctx : Ctx) : Ctx :=
  MkContext (affine_relations ctx) (var_equiv_relations ctx)
    (affine_constraints ctx) (constant_to_ref ctx) c2v v2c
    (working_model ctx) (mapping_model ctx)
    (is_unsat ctx) (enumerate_all_solutions ctx) (stats_by_rule_name ctx)
    (tmp_literals ctx) (modified_domains ctx) (domains ctx).

Definition set_relations (ar ve : AR) (ac : gset nat) (c2r : gmap Z Z) (ctx : Ctx) : Ctx :=
  MkContext ar ve ac c2r (constraint_to_vars ctx)
    (var_to_constraints ctx) (working_model ctx) (mapping_model ctx)
    (is_unsat ctx) (enumerate_all_solutions ctx) (stats_by_rule_name ctx)
    (tmp_literals ctx) (modified_domains ctx) (domains ctx).

(** [domains[var]]; an index out of range is an aborted run. *)
Definition domain_at (ctx : Ctx) (var : Z) : option Domain.t :=
  if 0 <=? var then domains ctx !! Z.to_nat var else None.

Definition DomainIsEmpty (ctx : Ctx) (ref : Z) : option bool :=
  d ← domain_at ctx (PositiveRef ref); Some (Domain.IsEmpty d).

(** [CHECK(!DomainIsEmpty(ref))] followed by reading the domain. *)
Definition checked_domain (ctx : Ctx) (ref : Z) : option Domain.t :=
  d ← domain_at ctx (PositiveRef ref);
  if Domain.IsEmpty d then None else Some d.

Definition IsFixed (ctx : Ctx) (ref : Z) : option bool :=
  d ← checked_domain ctx ref; Some (Domain.Min d =? Domain.Max d).

Definition LiteralIsTrue (ctx : Ctx) (lit : Z) : option bool :=
  d ← checked_domain ctx lit;
  if negb (Domain.Min d =? Domain.Max d) then Some false
  else if RefIsPositive lit then Some (Domain.Min d =? 1)
  else Some (Domain.Max d =? 0).

Definition LiteralIsFalse (ctx : Ctx) (lit : Z) : option bool :=
  d ← checked_domain ctx lit;
  if negb (Domain.Min d =? Domain.Max d) then Some false
  else if RefIsPositive lit then Some (Domain.Max d =? 0)
  else Some (Domain.Min d =? 1).

Definition MinOf (ctx : Ctx) (ref : Z) : option Z :=
  d ← checked_domain ctx ref;
  Some (if RefIsPositive ref then Domain.Min d else - Domain.Max d).

Definition MaxOf (ctx : Ctx) (ref : Z) : option Z :=
  d ← checked_domain ctx ref;
  Some (if RefIsPositive ref then Domain.Max d else - Domain.Min d).

(** Returns true if this ref only appears in one constraint. *)
Definition VariableIsUniqueAndRemovable (ctx : Ctx) (ref : Z) : option bool :=
  let var := PositiveRef ref in
  s ← (if 0 <=? var then var_to_constraints ctx !! Z.to_nat var else None);
  Some ((size s =? 1)%nat && negb (enumerate_all_solutions ctx)).

Definition DomainOf (ctx : Ctx) (ref : Z) : option Domain.t :=
  d ← domain_at ctx (PositiveRef ref);
  Some (if RefIsPositive ref then d else Domain.Negation d).

(** [modified_domains.Set(var)]. *)
Definition bitset_set (var : Z) (positions : list Z) : list Z :=
  if decide (var ∈ positions) then positions else positions ++ [var].

(** Returns true iff the domain changed. *)
Definition IntersectDomainWith (ref : Z) (domain : Domain.t) (ctx : Ctx)
  : option (bool * Ctx) :=
  d ← checked_domain ctx ref;
  let var := PositiveRef ref in
  let other := if RefIsPositive ref then domain else Domain.Negation domain in
  if Domain.IsIncludedIn d other then Some (false, ctx)
  else
    let d' := Domain.IntersectionWith d other in
    let ctx1 := set_domains (<[Z.to_nat var := d']> (domains ctx)) ctx in
    let ctx2 := set_modified_domains (bitset_set var (modified_domains ctx1)) ctx1 in
    let ctx3 := if Domain.IsEmpty d' then set_is_unsat true ctx2 else ctx2 in
    Some (true, ctx3).

Definition SetLiteralToFalse (lit : Z) (ctx : Ctx) : option Ctx :=
  let var := PositiveRef lit in
  let value := if RefIsPositive lit then 0 else 1 in
  b ← IsFixed ctx var;
  if b : bool then
    fixed_value ← MinOf ctx var;
    Some (if negb (value =? fixed_value) then set_is_unsat true ctx else ctx)
  else
    r ← IntersectDomainWith var (Domain.Singleton value) ctx; Some (snd r).

Definition SetLiteralToTrue (lit : Z) (ctx : Ctx) : option Ctx :=
  SetLiteralToFalse (NegatedRef lit) ctx.

Definition UpdateRuleStats (name : string) (ctx : Ctx) : Ctx :=
  set_stats (<[name := S (default 0%nat (stats_by_rule_name ctx !! name))]>
               (stats_by_rule_name ctx)) ctx.

(** *** The constraint <-> variable graph *)

Definition graph_alter (f : gset Z -> gset Z) (v : Z) (g : list (gset Z))
  : option (list (gset Z)) :=
  if 0 <=? v then s ← g !! Z.to_nat v; Some (<[Z.to_nat v := f s]> g) else None.

Fixpoint graph_alter_all (f : gset Z -> gset Z) (vs : list Z) (g : list (gset Z))
  : option (list (gset Z)) :=
  match vs with
  | [] => Some g
  | v :: rest => g' ← graph_alter f v g; graph_alter_all f rest g'
  end.

Definition refs_of_case (k : ConstraintCase) : list Z :=
  match k with
  | CONSTRAINT_NOT_SET => []
  | kBoolOr l | kBoolAnd l | kAtMostOne l => l
  | kLinear a => lin_vars a
  | kInterval a => [itv_start a; itv_end a; itv_size a]
  | kAllDiff vs => vs
  | kNoOverlap _ | kNoOverlap2D _ _ => []
  | kCumulative a => cum_capacity a :: cum_demands a
  | kOtherConstraint _ refs => refs
  end.

(** Modelled from the spec: [UsedVariables] of [cp_model_utils.h] is not
    part of the sources at hand.  "The vector list is sorted and contains
    unique elements": the variables of all the references of the
    constraint, its enforcement literals included. *)
Definition UsedVariables (ct : ConstraintProto) : list Z :=
  merge_sort Z.le
    (remove_dups (map PositiveRef (enforcement_literal ct ++ refs_of_case (constraint ct)))).

Definition constraints_size (ctx : Ctx) : nat :=
  length (constraints (working_model ctx)).

(** Update the constraints <-> variables graph after constraint [c] was
    modified. *)
Definition UpdateConstraintVariableUsage (c : nat) (ctx : Ctx) : option Ctx :=
  guard (length (constraint_to_vars ctx) = constraints_size ctx);;
  ct ← constraints (working_model ctx) !! c;
  old ← constraint_to_vars ctx !! c;
  g1 ← graph_alter_all (fun s => s ∖ {[Z.of_nat c]}) old (var_to_constraints ctx);
  let used := UsedVariables ct in
  g2 ← graph_alter_all (fun s => {[Z.of_nat c]} ∪ s) used g1;
  Some (set_graph (<[c := used]> (constraint_to_vars ctx)) g2 ctx).

Fixpoint add_new_usage (c : nat) (cts : list ConstraintProto)
    (c2v : list (list Z)) (v2c : list (gset Z))
  : option (list (list Z) * list (gset Z)) :=
  match cts with
  | [] => Some (c2v, v2c)
  | ct :: rest =>
      let used := UsedVariables ct in
      g ← graph_alter_all (fun s => {[Z.of_nat c]} ∪ s) used v2c;
      add_new_usage (S c) rest (c2v ++ [used]) g
  end.

(** Calls [UpdateConstraintVariableUsage] on all newly created constraints. *)
Definition UpdateNewConstraintsVariableUsage (ctx : Ctx) : option Ctx :=
  let old_size := length (constraint_to_vars ctx) in
  let new_size := constraints_size ctx in
  guard (old_size <= new_size)%nat;;
  r ← add_new_usage old_size (drop old_size (constraints (working_model ctx)))
        (constraint_to_vars ctx) (var_to_constraints ctx);
  Some (set_graph (fst r) (snd r) ctx).

(** *** Boolean equality relations *)

Definition boolean_equality_constraint (ref_a ref_b : Z) : ConstraintProto :=
  if Bool.eqb (RefIsPositive ref_a) (RefIsPositive ref_b)
  then (* a = b *)
    MkConstraint [] (kLinear (MkLinear [PositiveRef ref_a; PositiveRef ref_b] [1; -1] [0; 0]))
  else (* a = 1 - b *)
    MkConstraint [] (kLinear (MkLinear [PositiveRef ref_a; PositiveRef ref_b] [1; 1] [1; 1])).

Definition AddBooleanEqualityRelation (ref_a ref_b : Z) (ctx : Ctx) : option Ctx :=
  if ref_a =? ref_b then Some ctx
  else if ref_a =? NegatedRef ref_b then Some (set_is_unsat true ctx)
  else
    let '(added, ar, ve) :=
      if Bool.eqb (RefIsPositive ref_a) (RefIsPositive ref_b) then
        let '(added1, ar) :=
          TryAdd (PositiveRef ref_a) (PositiveRef ref_b) 1 0 true true (affine_relations ctx) in
        let '(added2, ve) :=
          TryAdd (PositiveRef ref_a) (PositiveRef ref_b) 1 0 true true (var_equiv_relations ctx) in
        (added1 || added2, ar, ve)
      else
        let '(added1, ar) :=
          TryAdd (PositiveRef ref_a) (PositiveRef ref_b) (-1) 1 true true (affine_relations ctx) in
        (added1, ar, var_equiv_relations ctx) in
    let ctx1 := set_relations ar ve (affine_constraints ctx) (constant_to_ref ctx) ctx in
    if negb added then Some ctx1
    else
      let ctx2 :=
        set_modified_domains
          (bitset_set (PositiveRef ref_b)
             (bitset_set (PositiveRef ref_a) (modified_domains ctx1))) ctx1 in
      (* The new constraint is the last one of the working model. *)
      let ct_index := constraints_size ctx2 in
      let ctx3 :=
        set_working_model
          (add_constraint (boolean_equality_constraint ref_a ref_b) (working_model ctx2)) ctx2 in
      let ctx4 :=
        set_relations (affine_relations ctx3) (var_equiv_relations ctx3)
          ({[ct_index]} ∪ affine_constraints ctx3) (constant_to_ref ctx3) ctx3 in
      UpdateNewConstraintsVariableUsage ctx4.

(** *** Boolean rewriters *)

(** [ct->Clear(); return true;] *)
Definition RemoveConstraint (ct : ConstraintProto) (ctx : Ctx)
  : bool * ConstraintProto * Ctx := (true, empty_constraint, ctx).

(** Proto accessors: a field of a [oneof] that is not the active one reads
    as empty. *)
Definition bool_or_literals (ct : ConstraintProto) : list Z :=
  match constraint ct with kBoolOr l => l | _ => [] end.

Definition bool_and_literals (ct : ConstraintProto) : list Z :=
  match constraint ct with kBoolAnd l => l | _ => [] end.

Definition at_most_one_literals (ct : ConstraintProto) : list Z :=
  match constraint ct with kAtMostOne l => l | _ => [] end.

(** Outcome of the scan of the literals of a clause: either the rewriter
    returned from inside the loop, or the loop ran to its end. *)
Inductive scan_result :=
| ScanReturned (r : bool * ConstraintProto * Ctx)
| ScanDone (changed : bool) (ctx : Ctx).

Fixpoint bool_or_scan (ct : ConstraintProto) (lits : list Z) (changed : bool) (ctx : Ctx)
  : option scan_result :=
  match lits with
  | [] => Some (ScanDone changed ctx)
  | literal :: rest =>
      is_false ← LiteralIsFalse ctx literal;
      if is_false : bool then bool_or_scan ct rest true ctx
      else
        is_true ← LiteralIsTrue ctx literal;
        if is_true : bool then
          Some (ScanReturned (RemoveConstraint ct (UpdateRuleStats "bool_or: always true" ctx)))
        else
          unique ← VariableIsUniqueAndRemovable ctx literal;
          if unique : bool then
            ctx' ← SetLiteralToTrue literal (UpdateRuleStats "bool_or: singleton" ctx);
            Some (ScanReturned (RemoveConstraint ct ctx'))
          else
            bool_or_scan ct rest changed
              (set_tmp_literals (tmp_literals ctx ++ [literal]) ctx)
  end.

Definition PresolveBoolOr (ct : ConstraintProto) (ctx : Ctx)
  : option (bool * ConstraintProto * Ctx) :=
  (* Move the enforcement literals inside the clause if any. *)
  let '(ct, ctx) :=
    if HasEnforcementLiteral ct then
      (MkConstraint []
         (kBoolOr (bool_or_literals ct ++ map NegatedRef (enforcement_literal ct))),
       UpdateRuleStats "bool_or: removed enforcement literal" ctx)
    else (ct, ctx) in
  (* Inspect the literals and deal with the fixed ones. *)
  r ← bool_or_scan ct (bool_or_literals ct) false (set_tmp_literals [] ctx);
  match r with
  | ScanReturned res => Some res
  | ScanDone changed ctx =>
      match tmp_literals ctx with
      | [] =>
          Some (true, ct, set_is_unsat true (UpdateRuleStats "bool_or: empty" ctx))
      | [l0] =>
          ctx' ← SetLiteralToTrue l0 (UpdateRuleStats "bool_or: only one literal" ctx);
          Some (RemoveConstraint ct ctx')
      | [l0; l1] =>
          Some (changed,
                MkConstraint (enforcement_literal ct ++ [NegatedRef l0]) (kBoolAnd [l1]),
                UpdateRuleStats "bool_or: implications" ctx)
      | tmp =>
          if changed
          then Some (changed, MkConstraint (enforcement_literal ct) (kBoolOr tmp),
                     UpdateRuleStats "bool_or: fixed literals" ctx)
          else Some (changed, ct, ctx)
      end
  end.

Definition MarkConstraintAsFalse (ct : ConstraintProto) (ctx : Ctx)
  : option (bool * ConstraintProto * Ctx) :=
  if HasEnforcementLiteral ct then
    (* Change the constraint to a bool_or. *)
    PresolveBoolOr
      (MkConstraint [] (kBoolOr (map NegatedRef (enforcement_literal ct)))) ctx
  else Some (RemoveConstraint ct (set_is_unsat true ctx)).

Fixpoint set_literals_to_true (lits : list Z) (ctx : Ctx) : option Ctx :=
  match lits with
  | [] => Some ctx
  | literal :: rest => ctx' ← SetLiteralToTrue literal ctx; set_literals_to_true rest ctx'
  end.

Fixpoint bool_and_scan (ct : ConstraintProto) (lits : list Z) (changed : bool) (ctx : Ctx)
  : option scan_result :=
  match lits with
  | [] => Some (ScanDone changed ctx)
  | literal :: rest =>
      is_false ← LiteralIsFalse ctx literal;
      if is_false : bool then
        r ← MarkConstraintAsFalse ct (UpdateRuleStats "bool_and: always false" ctx);
        Some (ScanReturned r)
      else
        is_true ← LiteralIsTrue ctx literal;
        if is_true : bool then bool_and_scan ct rest true ctx
        else
          unique ← VariableIsUniqueAndRemovable ctx literal;
          if unique : bool then
            ctx' ← SetLiteralToTrue literal ctx;
            bool_and_scan ct rest true ctx'
          else
            bool_and_scan ct rest changed
              (set_tmp_literals (tmp_literals ctx ++ [literal]) ctx)
  end.

Definition PresolveBoolAnd (ct : ConstraintProto) (ctx : Ctx)
  : option (bool * ConstraintProto * Ctx) :=
  if negb (HasEnforcementLiteral ct) then
    ctx' ← set_literals_to_true (bool_and_literals ct)
             (UpdateRuleStats "bool_and: non-reified." ctx);
    Some (RemoveConstraint ct ctx')
  else
    r ← bool_and_scan ct (bool_and_literals ct) false (set_tmp_literals [] ctx);
    match r with
    | ScanReturned res => Some res
    | ScanDone changed ctx =>
        match tmp_literals ctx with
        | [] => Some (RemoveConstraint ct ctx)
        | tmp =>
            if changed
            then Some (changed, MkConstraint (enforcement_literal ct) (kBoolAnd tmp),
                       UpdateRuleStats "bool_and: fixed literals" ctx)
            else Some (changed, ct, ctx)
        end
    end.

(** *** Linear constraints on Booleans *)

Definition linear_arg (ct : ConstraintProto) : LinearConstraintProto :=
  match constraint ct with kLinear a => a | _ => MkLinear [] [] [] end.

Record bool_sums := MkSums {
  min_coeff : Z; max_coeff : Z; min_sum : Z; max_sum : Z
}.

(** The first loop of [PresolveLinearOnBooleans].  [Some None] is the
    [return false] from inside the loop. *)
Fixpoint linear_bool_scan (vars coeffs : list Z) (acc : bool_sums) (ctx : Ctx)
  : option (option bool_sums) :=
  match vars, coeffs with
  | [], _ => Some (Some acc)
  | _ :: _, [] => None
  | var :: vars', coeff :: coeffs' =>
      guard (RefIsPositive var = true);;
      guard (coeff ≠ 0);;
      mn ← MinOf ctx var;
      if negb (mn =? 0) then Some None
      else
        mx ← MaxOf ctx var;
        if negb (mx =? 1) then Some None
        else
          linear_bool_scan vars' coeffs'
            (if 0 <? coeff then
               MkSums (Z.min (min_coeff acc) coeff) (Z.min (max_coeff acc) coeff)
                      (min_sum acc) (max_sum acc + coeff)
             else
               (* We replace the Boolean ref by a ref to its negation (1 - x). *)
               MkSums (Z.min (min_coeff acc) (- coeff)) (Z.min (max_coeff acc) (- coeff))
                      (min_sum acc + coeff) (max_sum acc))
            ctx
  end.

(** [coeffs(i) > 0 ? vars(i) : NegatedRef(vars(i))] for every term. *)
Definition positive_literals (arg : LinearConstraintProto) : list Z :=
  zip_with (fun var coeff => if 0 <? coeff then var else NegatedRef var)
           (lin_vars arg) (lin_coeffs arg).

(** [coeffs(i) > 0 ? NegatedRef(vars(i)) : vars(i)] for every term. *)
Definition negative_literals (arg : LinearConstraintProto) : list Z :=
  zip_with (fun var coeff => if 0 <? coeff then NegatedRef var else var)
           (lin_vars arg) (lin_coeffs arg).

Definition mask_bit (mask : nat) (i : nat) : bool :=
  Z.testbit (Z.of_nat mask) (Z.of_nat i).

Definition mask_value (coeffs : list Z) (mask : nat) : Z :=
  foldr Z.add 0 (imap (fun i coeff => if mask_bit mask i then coeff else 0) coeffs).

Definition mask_clause (ct : ConstraintProto) (vars : list Z) (mask : nat) : ConstraintProto :=
  MkConstraint (enforcement_literal ct)
    (kBoolOr (imap (fun i var => if mask_bit mask i then NegatedRef var else var) vars)).

(** The clauses excluding the assignments of the Booleans that violate the
    constraint, in increasing order of [mask]. *)
Definition small_expression_clauses (ct : ConstraintProto) (domain : Domain.t)
  : list ConstraintProto :=
  let arg := linear_arg ct in
  omap (fun mask =>
          if Domain.Contains domain (mask_value (lin_coeffs arg) mask)
          then None else Some (mask_clause ct (lin_vars arg) mask))
       (seq 0 (2 ^ length (lin_vars arg))).


(** *** Scheduling constraints *)

(** [context->working_model->constraints(index)]. *)
Definition constraint_at (ctx : Ctx) (index : Z) : option ConstraintProto :=
  if 0 <=? index then constraints (working_model ctx) !! Z.to_nat index else None.

Definition is_not_set (ct : ConstraintProto) : bool :=
  match constraint ct with CONSTRAINT_NOT_SET => true | _ => false end.

Definition store_constraint (c : nat) (ct : ConstraintProto) (ctx : Ctx) : Ctx :=
  set_working_model (set_constraint c ct (working_model ctx)) ctx.

Definition append_constraint (ct : ConstraintProto) (ctx : Ctx) : Ctx :=
  set_working_model (add_constraint ct (working_model ctx)) ctx.

Definition no_overlap_intervals (ct : ConstraintProto) : list Z :=
  match constraint ct with kNoOverlap l => l | _ => [] end.

Fixpoint filter_absent_intervals (intervals : list Z) (ctx : Ctx) : option (list Z) :=
  match intervals with
  | [] => Some []
  | i :: rest =>
      ct_i ← constraint_at ctx i;
      kept ← filter_absent_intervals rest ctx;
      Some (if is_not_set ct_i then kept else i :: kept)
  end.

Definition PresolveNoOverlap (c : nat) (ctx : Ctx) : option (bool * Ctx) :=
  ct ← constraints (working_model ctx) !! c;
  (* Filter absent intervals. *)
  kept ← filter_absent_intervals (no_overlap_intervals ct) ctx;
  let ctx1 := store_constraint c (MkConstraint (enforcement_literal ct) (kNoOverlap kept)) ctx in
  match kept with
  | [_] =>
      Some (true, store_constraint c empty_constraint
                    (UpdateRuleStats "no_overlap: only one interval" ctx1))
  | [] =>
      Some (true, store_constraint c empty_constraint
                    (UpdateRuleStats "no_overlap: no intervals" ctx1))
  | _ => Some (false, ctx1)
  end.

Definition cumulative_arg (ct : ConstraintProto) : CumulativeConstraintProto :=
  match constraint ct with kCumulative a => a | _ => MkCumulative 0 [] [] end.

Definition interval_arg (ct : ConstraintProto) : IntervalConstraintProto :=
  match constraint ct with kInterval a => a | _ => MkIntervalCt 0 0 0 end.

(** The in-place filter of the intervals and demands of a cumulative;
    [demands] are the demands from the current interval on: the demand of
    an interval is read only when the interval is kept. *)
Fixpoint filter_absent_demands (intervals demands : list Z) (ctx : Ctx)
  : option (list Z * list Z) :=
  match intervals with
  | [] => Some ([], [])
  | i :: rest =>
      ct_i ← constraint_at ctx i;
      kept ← filter_absent_demands rest (tail demands) ctx;
      if is_not_set ct_i then Some kept
      else d ← head demands; Some (i :: fst kept, d :: snd kept)
  end.

Record cumulative_counts := MkCounts {
  start_indices : list Z;
  num_duration_one : nat;
  num_greater_half_capacity : nat;
  has_optional_interval : bool
}.

(** Outcome of the loop over the intervals of a cumulative: [return false]
    from inside the loop, or the loop ran to its end. *)
Inductive cumulative_loop :=
| CumReturned (ctx : Ctx)
| CumDone (counts : cumulative_counts) (ctx : Ctx).

Fixpoint cumulative_scan (capacity : Z) (intervals demands : list Z)
    (acc : cumulative_counts) (ctx : Ctx) : option cumulative_loop :=
  match intervals, demands with
  | [], _ => Some (CumDone acc ctx)
  | _ :: _, [] => None
  | interval_index :: rest, demand_ref :: drest =>
      ct ← constraint_at ctx interval_index;
      let optional := HasEnforcementLiteral ct in
      let interval := interval_arg ct in
      let duration_ref := itv_size interval in
      duration_fixed ← IsFixed ctx duration_ref;
      duration_min ← MinOf ctx duration_ref;
      if duration_min =? 0 then
        (* The behaviour for zero-duration intervals is not the same in the
           no-overlap and the cumulative constraint. *)
        Some (CumReturned ctx)
      else
        demand_min ← MinOf ctx demand_ref;
        demand_max ← MaxOf ctx demand_ref;
        let acc' :=
          MkCounts (start_indices acc ++ [itv_start interval])
            (if duration_fixed && (duration_min =? 1)
             then S (num_duration_one acc) else num_duration_one acc)
            (if Z.quot capacity 2 <? demand_min
             then S (num_greater_half_capacity acc) else num_greater_half_capacity acc)
            (has_optional_interval acc || optional) in
        if capacity <? demand_min then
          let ctx1 := UpdateRuleStats "cumulative: demand_min exceeds capacity" ctx in
          match enforcement_literal ct with
          | [] => Some (CumReturned (set_is_unsat true ctx1))
          | [lit] => ctx2 ← SetLiteralToFalse lit ctx1; Some (CumReturned ctx2)
          | _ => None
          end
        else if capacity <? demand_max then
          if optional then
            Some (CumReturned
                    (UpdateRuleStats
                       "cumulative: demand_max of optional interval exceeds capacity." ctx))
          else
            r ← IntersectDomainWith demand_ref (Domain.FromInterval kint64min capacity)
                  (UpdateRuleStats "cumulative: demand_max exceeds capacity." ctx);
            cumulative_scan capacity rest drest acc' (snd r)
        else cumulative_scan capacity rest drest acc' ctx
  end.

Definition PresolveCumulative (c : nat) (ctx : Ctx) : option (bool * Ctx) :=
  ct ← constraints (working_model ctx) !! c;
  let proto := cumulative_arg ct in
  (* Filter absent intervals. *)
  kept ← filter_absent_demands (cum_intervals proto) (cum_demands proto) ctx;
  let changed := (length (fst kept) <? length (cum_intervals proto))%nat in
  let proto :=
    if changed then MkCumulative (cum_capacity proto) (fst kept) (snd kept) else proto in
  let ct := if changed then MkConstraint (enforcement_literal ct) (kCumulative proto) else ct in
  let ctx := if changed then store_constraint c ct ctx else ctx in
  if HasEnforcementLiteral ct then Some (false, ctx)
  else
    capacity_fixed ← IsFixed ctx (cum_capacity proto);
    if negb capacity_fixed then Some (false, ctx)
    else
      capacity ← MinOf ctx (cum_capacity proto);
      let size := length (cum_intervals proto) in
      r ← cumulative_scan capacity (cum_intervals proto) (cum_demands proto)
            (MkCounts [] 0 0 false) ctx;
      match r with
      | CumReturned ctx => Some (false, ctx)
      | CumDone counts ctx =>
          if (num_greater_half_capacity counts =? size)%nat then
            if (num_duration_one counts =? size)%nat && negb (has_optional_interval counts)
            then
              Some (true,
                    store_constraint c empty_constraint
                      (append_constraint (MkConstraint [] (kAllDiff (start_indices counts)))
                         (UpdateRuleStats "cumulative: convert to all_different" ctx)))
            else
              Some (true,
                    store_constraint c empty_constraint
                      (append_constraint (MkConstraint [] (kNoOverlap (cum_intervals proto)))
                         (UpdateRuleStats "cumulative: convert to no_overlap" ctx)))
          else Some (changed, ctx)
      end.

(** *** Fixed domains *)

(** Regroups fixed variables with the same value.  The value is kept in an
    [int] ([const int min = MinOf(var);]) before it is used as a key of
    [constant_to_ref]. *)
Definition ExploitFixedDomain (var : Z) (ctx : Ctx) : option Ctx :=
  is_fixed ← IsFixed ctx var;
  guard (is_fixed = true);;
  min ← MinOf ctx var;
  let min := narrow_to_int min in
  match constant_to_ref ctx !! min with
  | Some representative =>
      if representative =? var then Some ctx
      else
        let ar := snd (TryAdd var representative 1 0 true true (affine_relations ctx)) in
        let ve := snd (TryAdd var representative 1 0 true true (var_equiv_relations ctx)) in
        Some (set_relations ar ve (affine_constraints ctx) (constant_to_ref ctx) ctx)
  | None =>
      Some (set_relations (affine_relations ctx) (var_equiv_relations ctx)
              (affine_constraints ctx) (<[min := var]> (constant_to_ref ctx)) ctx)
  end.

(** The loop of [InitializeNewDomains] over the variables that have no
    domain yet; [i] is the index of the first of them. *)
Fixpoint initialize_domains (vars : list (list Z)) (i : Z) (ctx : Ctx) : option Ctx :=
  match vars with
  | [] => Some ctx
  | proto :: rest =>
      let ctx := set_domains (domains ctx ++ [ReadDomainFromProto proto]) ctx in
      is_fixed ← IsFixed ctx i;
      ctx ← (if is_fixed : bool then ExploitFixedDomain i ctx else Some ctx);
      initialize_domains rest (i + 1) ctx
  end.

(** Create the internal structure for any new variables in working_model. *)
Definition InitializeNewDomains (ctx : Ctx) : option Ctx :=
  let n := length (domains ctx) in
  ctx ← initialize_domains (drop n (variables (working_model ctx))) (Z.of_nat n) ctx;
  (* The bitset of modified domains is resized: its positions do not change. *)
  Some (set_graph (constraint_to_vars ctx)
          (resize (length (domains ctx)) ∅ (var_to_constraints ctx)) ctx).

(** *** Vocabulary for the properties of the rewriters *)

(** What the scan of a cumulative reads of the interval at [index]. *)
Definition interval_constraint (ctx : Ctx) (index : Z) : ConstraintProto :=
  default empty_constraint (constraint_at ctx index).

Definition interval_start (ctx : Ctx) (index : Z) : Z :=
  itv_start (interval_arg (interval_constraint ctx index)).

Definition interval_duration (ctx : Ctx) (index : Z) : Z :=
  itv_size (interval_arg (interval_constraint ctx index)).

Definition interval_is_optional (ctx : Ctx) (index : Z) : bool :=
  HasEnforcementLiteral (interval_constraint ctx index).

(** The duration of the interval is fixed to 1. *)
Definition duration_is_one (ctx : Ctx) (index : Z) : bool :=
  match IsFixed ctx (interval_duration ctx index),
        MinOf ctx (interval_duration ctx index) with
  | Some true, Some m => m =? 1
  | _, _ => false
  end.

(** The conditions on one interval of a cumulative and its demand: the
    interval was not cleared, its duration cannot be zero, and its minimum
    demand exceeds half the capacity. *)
Definition cumulative_interval_ok (ctx : Ctx) (capacity : Z) (index demand_ref : Z) : Prop :=
  (exists ct, constraint_at ctx index = Some ct /\ is_not_set ct = false) /\
  (exists m, MinOf ctx (interval_duration ctx index) = Some m /\ m <> 0) /\
  (exists dmin dmax,
      MinOf ctx demand_ref = Some dmin /\ MaxOf ctx demand_ref = Some dmax /\
      capacity < 2 * dmin).

(** The demand can never exceed the capacity. *)
Definition demand_fits (ctx : Ctx) (capacity : Z) (demand_ref : Z) : Prop :=
  exists dmin dmax,
    MinOf ctx demand_ref = Some dmin /\ MaxOf ctx demand_ref = Some dmax /\
    dmin <= capacity /\ dmax <= capacity.

(** The demand does not force the interval out, and the demand of an
    optional interval always fits the capacity. *)
Definition demand_admissible (ctx : Ctx) (capacity : Z) (index demand_ref : Z) : Prop :=
  exists dmin dmax,
    MinOf ctx demand_ref = Some dmin /\ MaxOf ctx demand_ref = Some dmax /\
    dmin <= capacity /\
    (capacity < dmax -> interval_is_optional ctx index = false).

(** What the scan of a cumulative leaves of the context once it has dealt
    with an interval whose demand passed its tests: the demand of an
    interval that is not optional, when it can exceed the capacity, has
    been reduced to the capacity. *)
Definition demand_reduced (capacity : Z) (index demand_ref : Z) (ctx : Ctx) : Ctx :=
  match MaxOf ctx demand_ref with
  | Some dmax =>
      if (capacity <? dmax) && negb (interval_is_optional ctx index) then
        match IntersectDomainWith demand_ref (Domain.FromInterval kint64min capacity)
                (UpdateRuleStats "cumulative: demand_max exceeds capacity." ctx) with
        | Some r => snd r
        | None => ctx
        end
      else ctx
  | None => ctx
  end.

(** The context when the scan has dealt with all the intervals. *)
Fixpoint demands_reduced (capacity : Z) (intervals demands : list Z) (ctx : Ctx) : Ctx :=
  match intervals, demands with
  | i :: rest, d :: drest => demands_reduced capacity rest drest (demand_reduced capacity i d ctx)
  | _, _ => ctx
  end.

(** The conditions on the intervals of a cumulative and their demands,
    each interval being looked at when the scan reaches it, that is once
    the demands of the intervals before it have been reduced. *)
Fixpoint cumulative_intervals_ok (ctx : Ctx) (capacity : Z) (intervals demands : list Z)
  : Prop :=
  match intervals, demands with
  | [], [] => True
  | i :: rest, d :: drest =>
      cumulative_interval_ok ctx capacity i d /\
      demand_admissible ctx capacity i d /\
      cumulative_intervals_ok (demand_reduced capacity i d ctx) capacity rest drest
  | _, _ => False
  end.

(** For each interval, whether its duration is fixed to 1 when the scan
    reaches it. *)
Fixpoint durations_read_as_one (ctx : Ctx) (capacity : Z) (intervals demands : list Z)
  : list bool :=
  match intervals, demands with
  | i :: rest, d :: drest =>
      duration_is_one ctx i
      :: durations_read_as_one (demand_reduced capacity i d ctx) capacity rest drest
  | _, _ => []
  end.

(** The constraint a degenerate cumulative is replaced by: an
    all-different over the start variables when every duration is fixed to
    1 when the scan reaches it and no interval is optional, a no-overlap
    over the same intervals otherwise. *)
Definition cumulative_rewritten (ctx : Ctx) (capacity : Z) (intervals demands : list Z)
  : ConstraintProto :=
  if forallb id (durations_read_as_one ctx capacity intervals demands)
     && forallb (fun i => negb (interval_is_optional ctx i)) intervals
  then MkConstraint [] (kAllDiff (map (interval_start ctx) intervals))
  else MkConstraint [] (kNoOverlap intervals).

(** The conditions under which a cumulative is said to degenerate:
    constraint [c] is a cumulative without enforcement literal, of fixed
    capacity, whose intervals all satisfy [cumulative_interval_ok]. *)
Definition cumulative_conditions (ctx : Ctx) (c : nat) (capacity : Z)
    (intervals demands : list Z) : Prop :=
  exists capacity_ref,
    constraints (working_model ctx) !! c
    = Some (MkConstraint [] (kCumulative (MkCumulative capacity_ref intervals demands))) /\
    IsFixed ctx capacity_ref = Some true /\
    MinOf ctx capacity_ref = Some capacity /\
    Forall2 (cumulative_interval_ok ctx capacity) intervals demands.

(** The constraint a degenerate cumulative is replaced by: an
    all-different over the start variables when every duration is fixed to
    1 and no interval is optional, a no-overlap over the same intervals
    otherwise. *)
Definition cumulative_replacement (ctx : Ctx) (intervals : list Z) : ConstraintProto :=
  if forallb (duration_is_one ctx) intervals
     && forallb (fun i => negb (interval_is_optional ctx i)) intervals
  then MkConstraint [] (kAllDiff (map (interval_start ctx) intervals))
  else MkConstraint [] (kNoOverlap intervals).

(** Constraint [c] was cleared and its replacement appended. *)
Definition cumulative_replaced (ctx : Ctx) (c : nat) (intervals : list Z) (ctx' : Ctx)
  : Prop :=
  constraints (working_model ctx')
  = <[c := empty_constraint]> (constraints (working_model ctx))
    ++ [cumulative_replacement ctx intervals].

(** Two contexts that the literal queries cannot tell apart. *)
Definition same_view (ctx1 ctx2 : Ctx) : Prop :=
  domains ctx1 = domains ctx2 /\
  var_to_constraints ctx1 = var_to_constraints ctx2 /\
  enumerate_all_solutions ctx1 = enumerate_all_solutions ctx2.

(** A literal of a Boolean variable: the variable exists, its domain is
    one of {0}, {1}, {0,1}, and it is a vertex of the usage graph. *)
Definition boolean_literal (ctx : Ctx) (lit : Z) : Prop :=
  (exists d, domain_at ctx (PositiveRef lit) = Some d /\
             (d = [MkInterval 0 0] \/ d = [MkInterval 1 1] \/ d = [MkInterval 0 1])) /\
  is_Some (var_to_constraints ctx !! Z.to_nat (PositiveRef lit)).

(** The three queries of the scan, as total Boolean tests. *)
Definition fixed_false (ctx : Ctx) (lit : Z) : bool := default false (LiteralIsFalse ctx lit).
Definition fixed_true (ctx : Ctx) (lit : Z) : bool := default false (LiteralIsTrue ctx lit).
Definition singleton_removable (ctx : Ctx) (lit : Z) : bool :=
  default false (VariableIsUniqueAndRemovable ctx lit).
Definition satisfies_clause (ctx : Ctx) (lit : Z) : bool :=
  fixed_true ctx lit || singleton_removable ctx lit.

(** The literals of the clause that are not fixed to false. *)
Definition remaining_literals (ctx : Ctx) (lits : list Z) : list Z :=
  List.filter (fun l => negb (fixed_false ctx l)) lits.

(** The literals [PresolveBoolOr] scans: those of the clause, followed by
    the negated enforcement literals. *)
Definition clause_literals (ct : ConstraintProto) : list Z :=
  bool_or_literals ct ++ map NegatedRef (enforcement_literal ct).

End Context.

(** A repository of affine relations that records nothing: enough to run
    the rewriters on concrete models. *)
#[global] Instance no_affine_relations : AffineRelationOps unit :=
  {| NewAffineRelation := tt;
     TryAdd := fun _ _ _ _ _ _ ar => (false, ar);
     Get := fun v _ => MkRelation v 1 0 |}.

(** ** Assignments and the meaning of the Boolean constraints *)

(** A (Boolean) assignment gives a value to every variable. *)
Definition assignment := Z -> Z.

Definition ref_value (a : assignment) (ref : Z) : Z :=
  if RefIsPositive ref then a ref else - a (PositiveRef ref).

(** A literal is true when its variable has the value its sign asks for. *)
Definition literal_holds (a : assignment) (lit : Z) : bool :=
  if RefIsPositive lit then a lit =? 1 else a (PositiveRef lit) =? 0.

Definition is_boolean_on (a : assignment) (vars : list Z) : Prop :=
  Forall (fun v => a v = 0 \/ a v = 1) vars.

Definition linear_value (a : assignment) (arg : LinearConstraintProto) : Z :=
  foldr Z.add 0 (zip_with (fun var coeff => coeff * ref_value a var)
                          (lin_vars arg) (lin_coeffs arg)).

Definition linear_holds (a : assignment) (arg : LinearConstraintProto) : bool :=
  Domain.Contains (ReadDomainFromProto (lin_domain arg)) (linear_value a arg).

Definition count_true (a : assignment) (lits : list Z) : nat :=
  length (filter (fun l => literal_holds a l = true) lits).

Definition at_most_one_holds (a : assignment) (lits : list Z) : bool :=
  (count_true a lits <=? 1)%nat.

(** Feasibility of an assignment for an (unenforced) constraint of one of
    the kinds the Boolean specialisation reads or emits. *)
Definition constraint_holds (a : assignment) (ct : ConstraintProto) : bool :=
  match constraint ct with
  | kLinear arg => linear_holds a arg
  | kAtMostOne lits => at_most_one_holds a lits
  | kBoolOr lits => existsb (literal_holds a) lits
  | kBoolAnd lits => forallb (literal_holds a) lits
  | _ => true
  end.

(** ** Concrete models *)

(** A context over the repository that records nothing, for the given
    working model, usage graph and domains. *)
Definition example_context (model : CpModelProto) (graph : list (gset Z))
    (ds : list Domain.t) : PresolveContext unit :=
  MkContext tt tt ∅ ∅ (map UsedVariables (constraints model)) graph model cleared_model
    false false ∅ [] [] ds.

(** [x + 3 y <= 1] over two Booleans. *)
Definition linear_example_constraint : ConstraintProto :=
  MkConstraint [] (kLinear (MkLinear [0; 1] [1; 3] [kint64min; 1])).

Definition linear_example : PresolveContext unit :=
  example_context
    (MkModel [[0; 1]; [0; 1]] [linear_example_constraint] None [] None)
    [{[0]}; {[0]}]
    [[MkInterval 0 1]; [MkInterval 0 1]].

(** The assignment [x = 0, y = 1]. *)
Definition linear_example_assignment : assignment :=
  fun v => if v =? 1 then 1 else 0.

(** A cumulative of capacity 2 over one interval of duration 1 whose demand
    is the variable 4, of domain [[demand_min, demand_max]].  The variables
    are: 0 start, 1 end, 2 size, 3 capacity, 4 demand. *)
Definition cumulative_example (demand_min demand_max : Z) : PresolveContext unit :=
  example_context
    (MkModel [[0; 10]; [1; 11]; [1; 1]; [2; 2]; [demand_min; demand_max]]
       [MkConstraint [] (kInterval (MkIntervalCt 0 1 2));
        MkConstraint [] (kCumulative (MkCumulative 3 [0] [4]))]
       None [] None)
    [{[0]}; {[0]}; {[0]}; {[1]}; {[1]}]
    [[MkInterval 0 10]; [MkInterval 1 11]; [MkInterval 1 1]; [MkInterval 2 2];
     [MkInterval demand_min demand_max]].

(** The same cumulative over an optional interval: the variable 5 is the
    presence literal of the interval. *)
Definition optional_cumulative_example (demand_min demand_max : Z) : PresolveContext unit :=
  example_context
    (MkModel [[0; 10]; [1; 11]; [1; 1]; [2; 2]; [demand_min; demand_max]; [0; 1]]
       [MkConstraint [5] (kInterval (MkIntervalCt 0 1 2));
        MkConstraint [] (kCumulative (MkCumulative 3 [0] [4]))]
       None [] None)
    [{[0]}; {[0]}; {[0]}; {[1]}; {[1]}; {[0]}]
    [[MkInterval 0 10]; [MkInterval 1 11]; [MkInterval 1 1]; [MkInterval 2 2];
     [MkInterval demand_min demand_max]; [MkInterval 0 1]].

(** A cumulative of capacity 1 over two intervals: the first has the
    duration 1 and the demand [1, 5] (the variable 4), the second has the
    demand 1 and, as its size, the variable 4 again.  The variables are: 0
    start, 1 end, 2 size of the first interval, 3 capacity, 4 demand of the
    first interval and size of the second one, 5 start, 6 end, 7 demand of
    the second interval. *)
Definition shared_demand_example : PresolveContext unit :=
  example_context
    (MkModel [[0; 10]; [1; 11]; [1; 1]; [1; 1]; [1; 5]; [0; 10]; [1; 15]; [1; 1]]
       [MkConstraint [] (kInterval (MkIntervalCt 0 1 2));
        MkConstraint [] (kInterval (MkIntervalCt 5 6 4));
        MkConstraint [] (kCumulative (MkCumulative 3 [0; 1] [4; 7]))]
       None [] None)
    [{[0]}; {[0]}; {[0]}; {[2]}; {[1; 2]}; {[1]}; {[1]}; {[2]}]
    [[MkInterval 0 10]; [MkInterval 1 11]; [MkInterval 1 1]; [MkInterval 1 1];
     [MkInterval 1 5]; [MkInterval 0 10]; [MkInterval 1 15]; [MkInterval 1 1]].

(** A clause over three free Booleans, each used by another constraint as
    well. *)
Definition clause_example (lits : list Z) : PresolveContext unit :=
  example_context
    (MkModel [[0; 1]; [0; 1]; [0; 1]]
       [MkConstraint [] (kBoolOr lits); MkConstraint [] (kAtMostOne [0; 1; 2])]
       None [] None)
    [{[0; 1]}; {[0; 1]}; {[0; 1]}]
    [[MkInterval 0 1]; [MkInterval 0 1]; [MkInterval 0 1]].

(** ** The fixpoint driver *)

(** The rewriters and stages of the presolve that are not modelled here
    (most constraint kinds, probing, the pure-SAT presolve, the finalisation
    after the infeasibility test) are taken through an interface: the driver
    is studied for every behaviour they may have. *)
Class PresolveStages (AR : Type) := {
  (** [PresolveOneConstraint(c, context)]. *)
  PresolveOneConstraint : nat -> PresolveContext AR -> option (bool * PresolveContext AR);
  (** [EncodeObjectiveAsSingleVariable(working_model)]. *)
  EncodeObjectiveAsSingleVariable : CpModelProto -> CpModelProto;
  (** What [Probe] does after its test of the infeasibility flag. *)
  ProbeAfterGuard : PresolveContext AR -> option (PresolveContext AR);
  (** What [PresolvePureSatPart] does after its guard. *)
  PresolvePureSatPartAfterGuard : PresolveContext AR -> option (PresolveContext AR);
  (** What [RemoveUnusedEquivalentVariables] does after its guard. *)
  RemoveUnusedEquivalentVariablesAfterGuard :
    PresolveContext AR -> option (PresolveContext AR);
  (** [ExtractAtMostOneFromLinear(ct, context)], [ct] given by its index. *)
  ExtractAtMostOneFromLinear : nat -> PresolveContext AR -> option (PresolveContext AR);
  (** Everything [PresolveCpModel] does after the infeasibility test: merging
      of no-overlaps, objective expansion, compaction, variable mapping. *)
  FinishPresolve : PresolveContext AR -> option (CpModelProto * CpModelProto * list Z)
}.


(** A presolve that only knows the rewriters of clauses: the other
    constraint kinds are left alone, the objective is kept as it is, and the
    other stages do nothing. *)
#[global] Instance clause_stages : PresolveStages unit :=
  {| PresolveOneConstraint := fun c ctx =>
       ct ← constraints (working_model ctx) !! c;
       match constraint ct with
       | kBoolOr _ =>
           r ← PresolveBoolOr ct ctx;
           Some (fst (fst r), store_constraint c (snd (fst r)) (snd r))
       | kBoolAnd _ =>
           r ← PresolveBoolAnd ct ctx;
           Some (fst (fst r), store_constraint c (snd (fst r)) (snd r))
       | _ => Some (false, ctx)
       end;
     EncodeObjectiveAsSingleVariable := fun m => m;
     ProbeAfterGuard := Some;
     PresolvePureSatPartAfterGuard := Some;
     RemoveUnusedEquivalentVariablesAfterGuard := Some;
     ExtractAtMostOneFromLinear := fun _ => Some;
     FinishPresolve := fun ctx => Some (working_model ctx, mapping_model ctx, []) |}.


(** The local state of the loops of [PresolveToFixPoint]. *)
Record FixPointState {AR : Type} := MkFixPoint {
  var_constraint_pair_already_called : gset (nat * Z);
  in_queue : list bool;
  queue : list nat;
  fp_context : PresolveContext AR
}.
Arguments FixPointState : clear implicits.
Arguments MkFixPoint {AR}.

Section Driver.
Context {AR : Type} `{!AffineRelationOps AR} `{!PresolveStages AR}.
Local Abbreviation Ctx := (PresolveContext AR).
Local Abbreviation State := (FixPointState AR).
























End Driver.

(** ** The integer trail (integer.h / integer.cc) *)

(** Modelled from the spec: [NegationOf] of [integer.h] is not part of the
    sources at hand.  Variables are created in pairs, a variable at an even
    index and its negation at the next one ([AddIntegerVariable] checks
    [NegationOf(i).value() == vars_.size()] right after pushing [i]). *)
Definition NegationOf (i : Z) : Z := Z.lxor i 1.

Record IntegerLiteral := MkIntegerLiteral { il_var : Z; il_bound : Z }.

(** Modelled from the spec: the constructors of [IntegerLiteral] in
    [integer.h]; "bound literals (v >= k)", an upper bound on [v] being a
    lower bound on its negation. *)
Definition GreaterOrEqual (i : Z) (bound : Z) : IntegerLiteral :=
  MkIntegerLiteral i bound.

(** Modelled from the spec: see [GreaterOrEqual]. *)
Definition LowerOrEqual (i : Z) (bound : Z) : IntegerLiteral :=
  MkIntegerLiteral (NegationOf i) (- bound).

Definition kNoLiteralIndex : Z := -1.
Definition kNoIntegerVariable : Z := -1.
Definition kNoBooleanVariable : Z := -1.

Record VarInfo := MkVarInfo {
  current_bound : Z;
  current_trail_index : Z
}.

Record TrailEntry := MkTrailEntry {
  bound : Z;
  var : Z;
  prev_trail_index : Z;
  reason_index : Z
}.

(** [entry.bound = b]. *)
Definition set_entry_bound (b : Z) (entry : TrailEntry) : TrailEntry :=
  MkTrailEntry b (var entry) (prev_trail_index entry) (reason_index entry).

(** The Boolean side of the solver (the SAT [Trail], its assignment, and the
    [IntegerEncoder]) is not part of the integer trail; it is reached through
    the calls below. *)
Class BooleanSide (B : Type) := {
  CurrentDecisionLevel : B -> Z;
  AssignmentLiteralIsTrue : B -> Z -> bool;
  AssignmentLiteralIsFalse : B -> Z -> bool;
  TrailIndex : B -> Z;
  (** [trail_->Info(trail_->ReferenceVarWithSameReason(literal.Variable()))]:
      the propagator type and the trail index. *)
  ReferenceInfo : B -> Z -> Z * Z;
  EnqueueWithUnitReason : Z -> B -> B;
  EnqueueWithSameReasonAs : Z -> Z -> B -> B;
  (** [trail_->Enqueue(literal, propagator_id_)]. *)
  EnqueueFromPropagator : Z -> Z -> B -> B;
  (** [*trail_->MutableConflict() = literals]. *)
  SetConflict : list Z -> B -> B;
  (** [rev->SetLevel(level)] for the registered reversible classes. *)
  SetReversibleLevel : Z -> B -> B;
  (** [encoder_->SearchForLiteralAtOrBefore(i_lit)]. *)
  SearchForLiteralAtOrBefore : IntegerLiteral -> B -> Z;
  (** [encoder_->PartialDomainEncoding(var)]: (value, literal) pairs. *)
  PartialDomainEncoding : Z -> B -> list (Z * Z);
  (** [literal.Negated()] and [literal.Variable()]. *)
  NegatedLiteral : Z -> Z;
  LiteralVariable : Z -> Z;
  (** The literals [MergeReasonInto] appends to a conflict for the given
      integer literals; the reason-merge algorithm is not modelled. *)
  MergeReasonInto : list TrailEntry -> list IntegerLiteral -> list Z -> list Z
}.

(** Modelled from the spec: the [RevMap] class of [util/rev.h] is not part of
    the sources at hand.  "Reversible state: any data whose value at decision
    level l must be restored on untrailing below l": a map with a log of the
    overwritten entries and, per level, the length of the log when the level
    was entered. *)
Record RevMap := MkRevMap {
  rev_map : gmap Z Z;
  operation_stack : list (Z * option Z);
  first_op_index_of_next_level : list nat
}.

Definition RevMap_Level (m : RevMap) : nat := length (first_op_index_of_next_level m).

Definition RevMap_undo (m : gmap Z Z) (op : Z * option Z) : gmap Z Z :=
  match snd op with
  | Some old => <[fst op := old]> m
  | None => delete (fst op) m
  end.

(** Modelled from the spec: see [RevMap]. *)
Definition RevMap_SetLevel (level : nat) (m : RevMap) : RevMap :=
  if (level <? RevMap_Level m)%nat then
    let backtrack := default 0%nat (first_op_index_of_next_level m !! level) in
    MkRevMap
      (foldl RevMap_undo (rev_map m) (rev (drop backtrack (operation_stack m))))
      (take backtrack (operation_stack m))
      (take level (first_op_index_of_next_level m))
  else
    MkRevMap (rev_map m) (operation_stack m)
      (resize level (length (operation_stack m)) (first_op_index_of_next_level m)).

(** Modelled from the spec: see [RevMap]. *)
Definition RevMap_Set (key value : Z) (m : RevMap) : RevMap :=
  MkRevMap (<[key := value]> (rev_map m))
    (if (0 <? RevMap_Level m)%nat
     then operation_stack m ++ [(key, rev_map m !! key)]
     else operation_stack m)
    (first_op_index_of_next_level m).

(** Modelled from the spec: see [RevMap]; [None] is the "or die". *)
Definition RevMap_FindOrDie (key : Z) (m : RevMap) : option Z := rev_map m !! key.

Record IntegerTrail {B : Type} := MkIntegerTrail {
  vars_ : list VarInfo;
  integer_trail_ : list TrailEntry;
  domains_ : list Domain.t;
  integer_search_levels_ : list Z;
  reason_decision_levels_ : list Z;
  literals_reason_starts_ : list Z;
  literals_reason_buffer_ : list Z;
  bounds_reason_starts_ : list Z;
  bounds_reason_buffer_ : list IntegerLiteral;
  boolean_trail_index_to_integer_one_ : list Z;
  is_ignored_literals_ : list Z;
  var_to_current_lb_interval_index_ : RevMap;
  var_trail_index_cache_ : list Z;
  (* The registered watcher bitsets, each as the list of positions set. *)
  watchers_ : list (list Z);
  num_enqueues_ : Z;
  propagation_trail_index_ : Z;
  propagator_id_ : Z;
  trail_ : B
}.
Arguments IntegerTrail : clear implicits.
Arguments MkIntegerTrail {B}.

(** [v[i]] for an [int] index; out of range is an aborted run. *)
Definition at_index {A : Type} (l : list A) (i : Z) : option A :=
  if 0 <=? i then l !! Z.to_nat i else None.

(** [v[i] = x]. *)
Definition store_at {A : Type} (l : list A) (i : Z) (x : A) : option (list A) :=
  if (0 <=? i) && (i <? Z.of_nat (length l)) then Some (<[Z.to_nat i := x]> l) else None.

Section IntegerTrail.
Context {B : Type} `{!BooleanSide B}.
Local Abbreviation Trail := (IntegerTrail B).

(** The extreme integer values, constants of [integer.h], which is not
    part of the sources at hand. *)
Variables (kMinIntegerValue kMaxIntegerValue : Z).

Definition with_trail_ (sat : B) (t : Trail) : Trail :=
  MkIntegerTrail (vars_ t) (integer_trail_ t) (domains_ t) (integer_search_levels_ t)
    (reason_decision_levels_ t) (literals_reason_starts_ t) (literals_reason_buffer_ t)
    (bounds_reason_starts_ t) (bounds_reason_buffer_ t)
    (boolean_trail_index_to_integer_one_ t) (is_ignored_literals_ t)
    (var_to_current_lb_interval_index_ t) (var_trail_index_cache_ t) (watchers_ t)
    (num_enqueues_ t) (propagation_trail_index_ t) (propagator_id_ t) sat.

Definition with_vars_trail (vs : list VarInfo) (tr : list TrailEntry) (t : Trail) : Trail :=
  MkIntegerTrail vs tr (domains_ t) (integer_search_levels_ t)
    (reason_decision_levels_ t) (literals_reason_starts_ t) (literals_reason_buffer_ t)
    (bounds_reason_starts_ t) (bounds_reason_buffer_ t)
    (boolean_trail_index_to_integer_one_ t) (is_ignored_literals_ t)
    (var_to_current_lb_interval_index_ t) (var_trail_index_cache_ t) (watchers_ t)
    (num_enqueues_ t) (propagation_trail_index_ t) (propagator_id_ t) (trail_ t).

Definition with_domains_ (ds : list Domain.t) (t : Trail) : Trail :=
  MkIntegerTrail (vars_ t) (integer_trail_ t) ds (integer_search_levels_ t)
    (reason_decision_levels_ t) (literals_reason_starts_ t) (literals_reason_buffer_ t)
    (bounds_reason_starts_ t) (bounds_reason_buffer_ t)
    (boolean_trail_index_to_integer_one_ t) (is_ignored_literals_ t)
    (var_to_current_lb_interval_index_ t) (var_trail_index_cache_ t) (watchers_ t)
    (num_enqueues_ t) (propagation_trail_index_ t) (propagator_id_ t) (trail_ t).

Definition with_levels (sl rl : list Z) (t : Trail) : Trail :=
  MkIntegerTrail (vars_ t) (integer_trail_ t) (domains_ t) sl rl
    (literals_reason_starts_ t) (literals_reason_buffer_ t)
    (bounds_reason_starts_ t) (bounds_reason_buffer_ t)
    (boolean_trail_index_to_integer_one_ t) (is_ignored_literals_ t)
    (var_to_current_lb_interval_index_ t) (var_trail_index_cache_ t) (watchers_ t)
    (num_enqueues_ t) (propagation_trail_index_ t) (propagator_id_ t) (trail_ t).

Definition with_reasons (ls : list Z) (lb : list Z) (bs : list Z) (bb : list IntegerLiteral)
    (t : Trail) : Trail :=
  MkIntegerTrail (vars_ t) (integer_trail_ t) (domains_ t) (integer_search_levels_ t)
    (reason_decision_levels_ t) ls lb bs bb
    (boolean_trail_index_to_integer_one_ t) (is_ignored_literals_ t)
    (var_to_current_lb_interval_index_ t) (var_trail_index_cache_ t) (watchers_ t)
    (num_enqueues_ t) (propagation_trail_index_ t) (propagator_id_ t) (trail_ t).

Definition with_boolean_index (bi : list Z) (t : Trail) : Trail :=
  MkIntegerTrail (vars_ t) (integer_trail_ t) (domains_ t) (integer_search_levels_ t)
    (reason_decision_levels_ t) (literals_reason_starts_ t) (literals_reason_buffer_ t)
    (bounds_reason_starts_ t) (bounds_reason_buffer_ t)
    bi (is_ignored_literals_ t)
    (var_to_current_lb_interval_index_ t) (var_trail_index_cache_ t) (watchers_ t)
    (num_enqueues_ t) (propagation_trail_index_ t) (propagator_id_ t) (trail_ t).

Definition with_ignored_cache (ig : list Z) (cache : list Z) (t : Trail) : Trail :=
  MkIntegerTrail (vars_ t) (integer_trail_ t) (domains_ t) (integer_search_levels_ t)
    (reason_decision_levels_ t) (literals_reason_starts_ t) (literals_reason_buffer_ t)
    (bounds_reason_starts_ t) (bounds_reason_buffer_ t)
    (boolean_trail_index_to_integer_one_ t) ig
    (var_to_current_lb_interval_index_ t) cache (watchers_ t)
    (num_enqueues_ t) (propagation_trail_index_ t) (propagator_id_ t) (trail_ t).

Definition with_interval_index (m : RevMap) (t : Trail) : Trail :=
  MkIntegerTrail (vars_ t) (integer_trail_ t) (domains_ t) (integer_search_levels_ t)
    (reason_decision_levels_ t) (literals_reason_starts_ t) (literals_reason_buffer_ t)
    (bounds_reason_starts_ t) (bounds_reason_buffer_ t)
    (boolean_trail_index_to_integer_one_ t) (is_ignored_literals_ t)
    m (var_trail_index_cache_ t) (watchers_ t)
    (num_enqueues_ t) (propagation_trail_index_ t) (propagator_id_ t) (trail_ t).

Definition with_watchers (w : list (list Z)) (t : Trail) : Trail :=
  MkIntegerTrail (vars_ t) (integer_trail_ t) (domains_ t) (integer_search_levels_ t)
    (reason_decision_levels_ t) (literals_reason_starts_ t) (literals_reason_buffer_ t)
    (bounds_reason_starts_ t) (bounds_reason_buffer_ t)
    (boolean_trail_index_to_integer_one_ t) (is_ignored_literals_ t)
    (var_to_current_lb_interval_index_ t) (var_trail_index_cache_ t) w
    (num_enqueues_ t) (propagation_trail_index_ t) (propagator_id_ t) (trail_ t).

Definition with_counters (ne pti : Z) (t : Trail) : Trail :=
  MkIntegerTrail (vars_ t) (integer_trail_ t) (domains_ t) (integer_search_levels_ t)
    (reason_decision_levels_ t) (literals_reason_starts_ t) (literals_reason_buffer_ t)
    (bounds_reason_starts_ t) (bounds_reason_buffer_ t)
    (boolean_trail_index_to_integer_one_ t) (is_ignored_literals_ t)
    (var_to_current_lb_interval_index_ t) (var_trail_index_cache_ t) (watchers_ t)
    ne pti (propagator_id_ t) (trail_ t).

Definition size_ {A : Type} (l : list A) : Z := Z.of_nat (length l).

(** Modelled from the spec: the bound accessors of [integer.h] are not part
    of the sources at hand.  "The current lower bound of [v] is cached in
    [vars[v].current_bound]"; the upper bound of [v] is kept as the lower
    bound of its negation (see [AddIntegerVariable]). *)
Definition LowerBound (t : Trail) (i : Z) : option Z :=
  v ← at_index (vars_ t) i; Some (current_bound v).

(** Modelled from the spec: see [LowerBound]. *)
Definition UpperBound (t : Trail) (i : Z) : option Z :=
  v ← at_index (vars_ t) (NegationOf i); Some (- current_bound v).

(** Modelled from the spec: see [LowerBound]; the level-zero bound of a
    variable is the bound of its own (first) trail entry. *)
Definition LevelZeroBound (t : Trail) (i : Z) : option Z :=
  e ← at_index (integer_trail_ t) i; Some (bound e).

(** Modelled from the spec: "optional variables (identified by an
    [is_ignored] literal)". *)
Definition IsOptional (t : Trail) (i : Z) : option bool :=
  l ← at_index (is_ignored_literals_ t) i; Some (negb (l =? kNoLiteralIndex)).

(** Modelled from the spec: see [IsOptional]; the variable is currently
    ignored when its [is_ignored] literal is true. *)
Definition IsCurrentlyIgnored (t : Trail) (i : Z) : option bool :=
  l ← at_index (is_ignored_literals_ t) i;
  Some (negb (l =? kNoLiteralIndex) && AssignmentLiteralIsTrue (trail_ t) l).

Definition VariableIsAssigned (t : Trail) (literal : Z) : bool :=
  AssignmentLiteralIsTrue (trail_ t) literal || AssignmentLiteralIsFalse (trail_ t) literal.

(** Modelled from the spec: [ReportConflict] of [integer.h]; the conflict
    is the literal reason merged with the explanation of the integer
    reason, and the call returns false. *)
Definition ReportConflict (literal_reason : list Z) (integer_reason : list IntegerLiteral)
    (t : Trail) : bool * Trail :=
  (false,
   with_trail_
     (SetConflict (MergeReasonInto (integer_trail_ t) integer_reason literal_reason)
        (trail_ t)) t).

Definition AddIntegerVariable (lower_bound upper_bound : Z) (t : Trail)
  : option (Z * Trail) :=
  guard (kMinIntegerValue <= lower_bound);;
  guard (lower_bound <= kMaxIntegerValue);;
  guard (kMinIntegerValue <= upper_bound);;
  guard (upper_bound <= kMaxIntegerValue);;
  guard (integer_search_levels_ t = []);;
  guard (length (vars_ t) = length (integer_trail_ t));;
  let i := size_ (vars_ t) in
  let ig := is_ignored_literals_ t ++ [kNoLiteralIndex] in
  let vs := vars_ t ++ [MkVarInfo lower_bound (size_ (integer_trail_ t))] in
  let cache := var_trail_index_cache_ t ++ [size_ (integer_trail_ t)] in
  let tr := integer_trail_ t ++ [MkTrailEntry lower_bound i 0 0] in
  let ds := domains_ t ++ [Domain.FromInterval lower_bound upper_bound] in
  guard (NegationOf i = size_ vs);;
  let ig := ig ++ [kNoLiteralIndex] in
  let vs' := vs ++ [MkVarInfo (- upper_bound) (size_ tr)] in
  let cache := cache ++ [size_ tr] in
  let tr' := tr ++ [MkTrailEntry (- upper_bound) (NegationOf i) 0 0] in
  let ds := ds ++ [Domain.FromInterval (- upper_bound) (- lower_bound)] in
  (* The watcher bitsets are resized; the positions set do not change. *)
  Some (i, with_ignored_cache ig cache (with_domains_ ds (with_vars_trail vs' tr' t))).

(** The reversal of the trail entries [target .. size-1], last first. *)
Fixpoint untrail_entries (entries : list TrailEntry) (trail : list TrailEntry)
    (vs : list VarInfo) : option (list VarInfo) :=
  match entries with
  | [] => Some vs
  | entry :: rest =>
      if var entry <? 0 then untrail_entries rest trail vs
      else
        prev ← at_index trail (prev_trail_index entry);
        vs' ← store_at vs (var entry) (MkVarInfo (bound prev) (prev_trail_index entry));
        untrail_entries rest trail vs'
  end.

Definition Untrail (literal_trail_index : Z) (t : Trail) : option Trail :=
  let level := CurrentDecisionLevel (trail_ t) in
  let t := with_trail_ (SetReversibleLevel level (trail_ t)) t in
  let t := with_interval_index
             (RevMap_SetLevel (Z.to_nat level) (var_to_current_lb_interval_index_ t)) t in
  let t := with_counters (num_enqueues_ t)
             (Z.min (propagation_trail_index_ t) literal_trail_index) t in
  if size_ (integer_search_levels_ t) <=? level then Some t
  else
    target ← at_index (integer_search_levels_ t) level;
    let t := with_levels (take (Z.to_nat level) (integer_search_levels_ t))
               (reason_decision_levels_ t) t in
    guard (size_ (vars_ t) <= target);;
    guard (target <= size_ (integer_trail_ t));;
    vs ← untrail_entries (rev (drop (Z.to_nat target) (integer_trail_ t)))
            (integer_trail_ t) (vars_ t);
    let t := with_vars_trail vs (take (Z.to_nat target) (integer_trail_ t)) t in
    (* Clear reason. *)
    old_size ← at_index (reason_decision_levels_ t) level;
    let t := with_levels (integer_search_levels_ t)
               (take (Z.to_nat level) (reason_decision_levels_ t)) t in
    if old_size <? size_ (literals_reason_starts_ t) then
      lstart ← at_index (literals_reason_starts_ t) old_size;
      bstart ← at_index (bounds_reason_starts_ t) old_size;
      Some (with_reasons
              (take (Z.to_nat old_size) (literals_reason_starts_ t))
              (take (Z.to_nat lstart) (literals_reason_buffer_ t))
              (take (Z.to_nat old_size) (bounds_reason_starts_ t))
              (take (Z.to_nat bstart) (bounds_reason_buffer_ t)) t)
    else Some t.

(** The beginning of [Propagate]: the reversible structures are set to the
    current level, and a new decision level records the size of the trail.
    The rest of [Propagate] is a sequence of calls to [Enqueue]. *)
Definition Propagate_enter_level (t : Trail) : option Trail :=
  let level := CurrentDecisionLevel (trail_ t) in
  let t := with_trail_ (SetReversibleLevel level (trail_ t)) t in
  t ← (if size_ (integer_search_levels_ t) <? level then
         let t := with_levels (integer_search_levels_ t ++ [size_ (integer_trail_ t)])
                    (reason_decision_levels_ t ++ [size_ (literals_reason_starts_ t)]) t in
         guard (level = size_ (integer_search_levels_ t));;
         Some t
       else Some t);
  Some (with_interval_index
          (RevMap_SetLevel (Z.to_nat level) (var_to_current_lb_interval_index_ t)) t).

(** [boolean_trail_index_to_integer_one_[trail_index] = value], resizing
    the vector when needed. *)
Definition set_boolean_index (trail_index value : Z) (t : Trail) : Trail :=
  let b := boolean_trail_index_to_integer_one_ t in
  let b := if size_ b <=? trail_index then resize (Z.to_nat (trail_index + 1)) 0 b else b in
  with_boolean_index (<[Z.to_nat trail_index := value]> b) t.

Definition EnqueueAssociatedLiteral (literal : Z) (trail_index_with_same_reason : Z)
    (literal_reason : list Z) (integer_reason : list IntegerLiteral)
    (variable_with_same_reason : Z) (t : Trail) : option (bool * Trail) :=
  if negb (VariableIsAssigned t literal) then
    match integer_search_levels_ t with
    | [] => Some (true, with_trail_ (EnqueueWithUnitReason literal (trail_ t)) t)
    | _ =>
        if negb (variable_with_same_reason =? kNoBooleanVariable) then
          Some (true,
                with_trail_
                  (EnqueueWithSameReasonAs literal variable_with_same_reason (trail_ t)) t)
        else
          let t := set_boolean_index (TrailIndex (trail_ t)) trail_index_with_same_reason t in
          Some (true,
                with_trail_ (EnqueueFromPropagator literal (propagator_id_ t) (trail_ t)) t)
    end
  else if AssignmentLiteralIsFalse (trail_ t) literal then
    let info := ReferenceInfo (trail_ t) (LiteralVariable literal) in
    let b := boolean_trail_index_to_integer_one_ t in
    let push :=
      negb (fst info =? propagator_id_ t)
      || (size_ b <=? snd info)
      || negb (default 0 (at_index b (snd info)) =? size_ (integer_trail_ t)) in
    let conflict := if push then literal_reason ++ [literal] else literal_reason in
    Some (false,
          with_trail_
            (SetConflict (MergeReasonInto (integer_trail_ t) integer_reason conflict)
               (trail_ t)) t)
  else Some (true, t).

Definition EnqueueLiteral (literal : Z) (literal_reason : list Z)
    (integer_reason : list IntegerLiteral) (t : Trail) : Trail :=
  match integer_search_levels_ t with
  | [] =>
      (* Level zero. We don't keep any reason. *)
      with_trail_ (EnqueueWithUnitReason literal (trail_ t)) t
  | _ =>
      let t := set_boolean_index (TrailIndex (trail_ t)) (size_ (integer_trail_ t)) t in
      let t := with_vars_trail (vars_ t)
                 (integer_trail_ t
                  ++ [MkTrailEntry 0 kNoIntegerVariable (-1) (size_ (literals_reason_starts_ t))])
                 t in
      let t := with_reasons
                 (literals_reason_starts_ t ++ [size_ (literals_reason_buffer_ t)])
                 (literals_reason_buffer_ t ++ literal_reason)
                 (bounds_reason_starts_ t ++ [size_ (bounds_reason_buffer_ t)])
                 (bounds_reason_buffer_ t ++ integer_reason) t in
      with_trail_ (EnqueueFromPropagator literal (propagator_id_ t) (trail_ t)) t
  end.

(** [while (index < size && bound > domain[index].end) ++index;] on the
    intervals from [index] on. *)
Fixpoint advance_interval_index (intervals : list ClosedInterval) (index : Z) (b : Z) : Z :=
  match intervals with
  | [] => index
  | i :: rest => if end_ i <? b then advance_interval_index rest (index + 1) b else index
  end.

(** The canonicalisation step of [Enqueue]: [Some None] is the conflict
    (no interval left), [Some (Some (index, bound))] the new cached index
    and the bound raised to the start of its interval. *)
Definition canonicalize_bound (domain : Domain.t) (index : Z) (b : Z)
  : option (option (Z * Z)) :=
  guard (0 <= index);;
  let index' := advance_interval_index (drop (Z.to_nat index) domain) index b in
  if index' =? size_ domain then Some None
  else i ← at_index domain index'; Some (Some (index', Z.max b (start i))).

(** [while (i < domain.NumIntervals() && value > domain[i].end) ++i;]
    on the intervals from [i] on. *)
Fixpoint skip_ended_intervals (value : Z) (intervals : list ClosedInterval)
  : list ClosedInterval :=
  match intervals with
  | [] => []
  | i :: rest => if end_ i <? value then skip_ended_intervals value rest else intervals
  end.

(** The loop of [UpdateInitialDomain] over the encoded values: the
    literals of the values left out of the domain are set to false. *)
Fixpoint exclude_encoded_values (encoding : list (Z * Z)) (intervals : list ClosedInterval)
    (sat : B) : bool * B :=
  match encoding with
  | [] => (true, sat)
  | (value, literal) :: rest =>
      let intervals := skip_ended_intervals value intervals in
      let excluded :=
        match intervals with
        | [] => true
        | i :: _ => value <? start i
        end in
      if excluded then
        if AssignmentLiteralIsTrue sat literal then (false, sat)
        else
          exclude_encoded_values rest intervals
            (if negb (AssignmentLiteralIsFalse sat literal)
             then EnqueueWithUnitReason (NegatedLiteral literal) sat else sat)
      else exclude_encoded_values rest intervals sat
  end.

(** [UpdateInitialDomain], the calls to [Enqueue] being made through
    [enqueue]. *)
Definition UpdateInitialDomain_with
    (enqueue : IntegerLiteral -> list Z -> list IntegerLiteral -> Trail -> option (bool * Trail))
    (var : Z) (domain : Domain.t) (t : Trail) : option (bool * Trail) :=
  guard (CurrentDecisionLevel (trail_ t) = 0);;
  old_domain ← at_index (domains_ t) var;
  let domain := Domain.IntersectionWith domain old_domain in
  if decide ((old_domain : list ClosedInterval) = domain) then Some (true, t)
  else if Domain.IsEmpty domain then Some (false, t)
  else
    ds ← store_at (domains_ t) var domain;
    ds ← store_at ds (NegationOf var) (Domain.Negation domain);
    let t := with_domains_ ds t in
    let t :=
      if 1 <? Domain.NumIntervals domain then
        with_interval_index
          (RevMap_Set (NegationOf var) 0
             (RevMap_Set var 0 (var_to_current_lb_interval_index_ t))) t
      else t in
    r ← enqueue (GreaterOrEqual var (Domain.Min domain)) [] [] t;
    guard (fst r = true);;
    r ← enqueue (LowerOrEqual var (Domain.Max domain)) [] [] (snd r);
    guard (fst r = true);;
    let t := snd r in
    (* Set to false excluded literals. *)
    let res := exclude_encoded_values (PartialDomainEncoding var (trail_ t)) domain (trail_ t) in
    Some (fst res, with_trail_ (snd res) t).

(** The canonicalisation of the literal against the domain of its
    variable: [Some None] is the conflict (no interval left), otherwise
    the new bound and the trail with the cached interval index advanced. *)
Definition canonicalize_literal (i_lit : IntegerLiteral) (t : Trail)
  : option (option (Z * Trail)) :=
  domain ← at_index (domains_ t) (il_var i_lit);
  if 1 <? Domain.NumIntervals domain then
    index ← RevMap_FindOrDie (il_var i_lit) (var_to_current_lb_interval_index_ t);
    canon ← canonicalize_bound domain index (il_bound i_lit);
    Some (match canon with
          | None => None
          | Some (index', new_bound) =>
              Some (new_bound,
                    with_interval_index
                      (RevMap_Set (il_var i_lit) index'
                         (var_to_current_lb_interval_index_ t)) t)
          end)
  else Some (Some (il_bound i_lit, t)).

(** The branch of [Enqueue] taken when the new bound exceeds the upper
    bound: a conflict, or, for an optional variable that is not known to
    be present, the literal that makes it ignored. *)
Definition enqueue_empty_domain (var new_bound : Z) (literal_reason : list Z)
    (integer_reason : list IntegerLiteral) (t : Trail) : option (bool * Trail) :=
  (* We relax the upper bound as much as possible to still have a conflict. *)
  let ub_reason := LowerOrEqual var (new_bound - 1) in
  optional ← IsOptional t var;
  is_ignored ← at_index (is_ignored_literals_ t) var;
  if negb optional || AssignmentLiteralIsFalse (trail_ t) is_ignored then
    let conflict := if optional then literal_reason ++ [is_ignored] else literal_reason in
    Some (false,
          with_trail_
            (SetConflict
               (MergeReasonInto (integer_trail_ t) (integer_reason ++ [ub_reason]) conflict)
               (trail_ t)) t)
  else
    match integer_search_levels_ t with
    | [] => Some (true, with_trail_ (EnqueueWithUnitReason is_ignored (trail_ t)) t)
    | _ =>
        let t := EnqueueLiteral is_ignored literal_reason integer_reason t in
        Some (true,
              with_reasons (literals_reason_starts_ t) (literals_reason_buffer_ t)
                (bounds_reason_starts_ t) (bounds_reason_buffer_ t ++ [ub_reason]) t)
    end.

(** The reason index of the new entry: a new reason saved in the buffers,
    or the reason of the entry at [trail_index_with_same_reason]. *)
Definition save_reason (literal_reason : list Z) (integer_reason : list IntegerLiteral)
    (trail_index_with_same_reason : Z) (t : Trail) : option (Z * Trail) :=
  if size_ (integer_trail_ t) <=? trail_index_with_same_reason then
    (* Save the reason into our internal buffers. *)
    guard (head (map il_var integer_reason) ≠ Some kNoIntegerVariable);;
    Some (size_ (literals_reason_starts_ t),
          with_reasons
            (literals_reason_starts_ t ++ [size_ (literals_reason_buffer_ t)])
            (literals_reason_buffer_ t ++ literal_reason)
            (bounds_reason_starts_ t ++ [size_ (bounds_reason_buffer_ t)])
            (bounds_reason_buffer_ t ++ integer_reason) t)
  else
    e ← at_index (integer_trail_ t) trail_index_with_same_reason;
    Some (reason_index e, t).

(** The end of [Enqueue] at a search level: the new entry is pushed and
    becomes the current one of the variable. *)
Definition push_bound (var new_bound reason : Z) (t : Trail) : option Trail :=
  old ← at_index (vars_ t) var;
  let tr := integer_trail_ t
            ++ [MkTrailEntry new_bound var (current_trail_index old) reason] in
  vs ← store_at (vars_ t) var (MkVarInfo new_bound (size_ tr - 1));
  Some (with_vars_trail vs tr t).

(** The end of [Enqueue] at level zero: the bound of the variable and of
    its first trail entry are overwritten, and the initial domain
    updated. *)
Definition enqueue_at_level_zero
    (enqueue : IntegerLiteral -> list Z -> list IntegerLiteral -> Trail -> option (bool * Trail))
    (var new_bound : Z) (t : Trail) : option (bool * Trail) :=
  old ← at_index (vars_ t) var;
  vs ← store_at (vars_ t) var (MkVarInfo new_bound (current_trail_index old));
  entry ← at_index (integer_trail_ t) var;
  tr ← store_at (integer_trail_ t) var (set_entry_bound new_bound entry);
  let t := with_vars_trail vs tr t in
  (* We also update the initial domain. If this fails, since we are at
     level zero, we don't care about the reason. *)
  let t := with_trail_ (SetConflict [] (trail_ t)) t in
  lb ← LowerBound t var;
  ub ← UpperBound t var;
  UpdateInitialDomain_with enqueue var (Domain.FromInterval lb ub) t.

(** [Enqueue] once the bound is known to improve the current one. *)
Definition enqueue_better_bound
    (enqueue : IntegerLiteral -> list Z -> list IntegerLiteral -> Trail -> option (bool * Trail))
    (i_lit : IntegerLiteral) (literal_reason : list Z)
    (integer_reason : list IntegerLiteral) (trail_index_with_same_reason : option Z)
    (t : Trail) : option (bool * Trail) :=
  let t := with_counters (num_enqueues_ t + 1) (propagation_trail_index_ t) t in
  let var := il_var i_lit in
  (* If the domain of var is not a single interval and i_lit.bound falls
     into a "hole", we increase it to the next possible value. *)
  canon ← canonicalize_literal i_lit t;
  match canon with
  | None => Some (ReportConflict literal_reason integer_reason t)
  | Some (new_bound, t) =>
      let i_lit := MkIntegerLiteral var new_bound in
      ub ← UpperBound t var;
      (* Check if the integer variable has an empty domain. *)
      if ub <? new_bound then
        enqueue_empty_domain var new_bound literal_reason integer_reason t
      else
        (* Notify the watchers. *)
        let t := with_watchers (map (bitset_set var) (watchers_ t)) t in
        (* Enqueue the strongest associated Boolean literal implied by
           this one. *)
        let literal_index := SearchForLiteralAtOrBefore i_lit (trail_ t) in
        r ← (if negb (literal_index =? kNoLiteralIndex) then
               EnqueueAssociatedLiteral literal_index (size_ (integer_trail_ t))
                 literal_reason integer_reason kNoBooleanVariable t
             else Some (true, t));
        if negb (fst r) then Some (false, snd r)
        else
          let t := snd r in
          match integer_search_levels_ t with
          | [] =>
              (* Special case for level zero. *)
              enqueue_at_level_zero enqueue var new_bound t
          | _ =>
              let same :=
                match trail_index_with_same_reason with
                | Some idx => idx
                | None => size_ (integer_trail_ t)
                end in
              r ← save_reason literal_reason integer_reason same t;
              t ← push_bound var new_bound (fst r) (snd r);
              Some (true, t)
          end
  end.

(** [Enqueue(i_lit, literal_reason, integer_reason,
    trail_index_with_same_reason)]; [None] for the last argument is the
    three-argument [Enqueue], which passes the size of the trail.  At
    level zero [Enqueue] and [UpdateInitialDomain] call each other; [fuel]
    bounds the depth of these calls. *)
Fixpoint Enqueue_same_reason (fuel : nat) (i_lit : IntegerLiteral) (literal_reason : list Z)
    (integer_reason : list IntegerLiteral) (trail_index_with_same_reason : option Z)
    (t : Trail) : option (bool * Trail) :=
  match fuel with
  | O => None
  | S fuel' =>
      (* No point doing work if the variable is already ignored. *)
      ignored ← IsCurrentlyIgnored t (il_var i_lit);
      if ignored : bool then Some (true, t)
      else
        info ← at_index (vars_ t) (il_var i_lit);
        (* Nothing to do if the bound is not better than the current one. *)
        if il_bound i_lit <=? current_bound info then Some (true, t)
        else
          enqueue_better_bound
            (fun l lr ir t' => Enqueue_same_reason fuel' l lr ir None t')
            i_lit literal_reason integer_reason trail_index_with_same_reason t
  end.

(** The three-argument [Enqueue]: the reason is a new one. *)
Definition Enqueue (fuel : nat) (i_lit : IntegerLiteral) (literal_reason : list Z)
    (integer_reason : list IntegerLiteral) (t : Trail) : option (bool * Trail) :=
  Enqueue_same_reason fuel i_lit literal_reason integer_reason None t.

Definition UpdateInitialDomain (fuel : nat) (var : Z) (domain : Domain.t) (t : Trail)
  : option (bool * Trail) :=
  UpdateInitialDomain_with (Enqueue fuel) var domain t.

(** [AddIntegerVariable(const Domain&)]. *)
Definition AddIntegerVariableWithDomain (fuel : nat) (domain : Domain.t) (t : Trail)
  : option (Z * Trail) :=
  guard (Domain.IsEmpty domain = false);;
  r ← AddIntegerVariable (Domain.Min domain) (Domain.Max domain) t;
  r' ← UpdateInitialDomain fuel (fst r) domain (snd r);
  guard (fst r' = true);;
  Some (fst r, snd r').

(** *** Vocabulary for the properties of the integer trail *)

(** What happens between the root node and a backtrack to it: the Boolean
    side moves (decisions, SAT propagation), [Propagate] enters a new
    decision level, bounds are enqueued. *)
Inductive search_op :=
| OpBoolean (f : B -> B)
| OpEnterLevel
| OpEnqueue (i_lit : IntegerLiteral) (literal_reason : list Z)
    (integer_reason : list IntegerLiteral) (trail_index_with_same_reason : option Z).

(** Runs a sequence of operations in which every [Enqueue] is made at a
    decision level >= 1 (a level was entered) and succeeds; [None]
    otherwise. *)
Fixpoint run_search_ops (fuel : nat) (ops : list search_op) (t : Trail) : option Trail :=
  match ops with
  | [] => Some t
  | OpBoolean f :: rest => run_search_ops fuel rest (with_trail_ (f (trail_ t)) t)
  | OpEnterLevel :: rest => t' ← Propagate_enter_level t; run_search_ops fuel rest t'
  | OpEnqueue i_lit lr ir same :: rest =>
      guard (integer_search_levels_ t ≠ []);;
      r ← Enqueue_same_reason fuel i_lit lr ir same t;
      guard (fst r = true);;
      run_search_ops fuel rest (snd r)
  end.

(** Every variable points to a trail entry that carries its bound. *)
Definition bounds_linked (vs : list VarInfo) (tr : list TrailEntry) : Prop :=
  forall (v : nat) info,
    vs !! v = Some info ->
    exists e, at_index tr (current_trail_index info) = Some e /\
              bound e = current_bound info.

(** The state of the trail at the root node: no search level, every
    variable points to its own (level-zero) entry. *)
Definition level_zero_state (t : Trail) : Prop :=
  integer_search_levels_ t = [] /\
  reason_decision_levels_ t = [] /\
  length (bounds_reason_starts_ t) = length (literals_reason_starts_ t) /\
  (length (vars_ t) <= length (integer_trail_ t))%nat /\
  bounds_linked (vars_ t) (integer_trail_ t) /\
  forall (v : nat) info,
    vars_ t !! v = Some info -> current_trail_index info = Z.of_nat v.

(** The parts of the trail that only [Enqueue] and [Untrail] write. *)
Definition same_core (t1 t2 : Trail) : Prop :=
  vars_ t1 = vars_ t2 /\ integer_trail_ t1 = integer_trail_ t2 /\
  domains_ t1 = domains_ t2 /\
  integer_search_levels_ t1 = integer_search_levels_ t2 /\
  reason_decision_levels_ t1 = reason_decision_levels_ t2 /\
  literals_reason_starts_ t1 = literals_reason_starts_ t2 /\
  bounds_reason_starts_ t1 = bounds_reason_starts_ t2 /\
  is_ignored_literals_ t1 = is_ignored_literals_ t2.

(** What a successful [Enqueue] made at a search level does to the trail:
    nothing, or it appends an entry for a literal (no variable), or it
    appends an entry for the variable, raising its bound. *)
Inductive enqueue_effect (i_lit : IntegerLiteral) (t t' : Trail) : Prop :=
| effect_none :
    vars_ t' = vars_ t -> integer_trail_ t' = integer_trail_ t ->
    enqueue_effect i_lit t t'
| effect_literal e :
    vars_ t' = vars_ t -> var e < 0 ->
    integer_trail_ t' = integer_trail_ t ++ [e] ->
    enqueue_effect i_lit t t'
| effect_bound info new_bound r :
    at_index (vars_ t) (il_var i_lit) = Some info ->
    il_bound i_lit <= new_bound ->
    current_bound info < new_bound ->
    integer_trail_ t' =
      integer_trail_ t
      ++ [MkTrailEntry new_bound (il_var i_lit) (current_trail_index info) r] ->
    vars_ t' =
      <[Z.to_nat (il_var i_lit) := MkVarInfo new_bound (size_ (integer_trail_ t))]> (vars_ t) ->
    enqueue_effect i_lit t t'.

(** The state of the trail during the search that started at [t0]: the
    entries pushed since then undo to the variables of [t0]. *)
Definition search_state (t0 t : Trail) : Prop :=
  exists ext,
    integer_trail_ t = integer_trail_ t0 ++ ext /\
    untrail_entries (rev ext) (integer_trail_ t) (vars_ t) = Some (vars_ t0) /\
    bounds_linked (vars_ t) (integer_trail_ t) /\
    (length (vars_ t) = length (vars_ t0) /\
     (length (vars_ t0) <= length (integer_trail_ t0))%nat) /\
    (integer_search_levels_ t = [] -> ext = []) /\
    (forall l ls, integer_search_levels_ t = l :: ls -> l = size_ (integer_trail_ t0)) /\
    length (reason_decision_levels_ t) = length (integer_search_levels_ t) /\
    Forall (fun x => 0 <= x) (reason_decision_levels_ t) /\
    length (bounds_reason_starts_ t) = length (literals_reason_starts_ t).

(** The domain of the negation of a variable is the negation of its
    domain, and every variable has a domain. *)
Definition negation_linked (t : Trail) : Prop :=
  length (domains_ t) = length (vars_ t) /\
  forall v d,
    at_index (domains_ t) v = Some d ->
    at_index (domains_ t) (NegationOf v) = Some (Domain.Negation d).

(** [nb] is the least value of the domain that is at least [b]. *)
Definition least_value_from (d : Domain.t) (b nb : Z) : Prop :=
  Domain.elem nb d /\ b <= nb /\
  forall x, Domain.elem x d -> b <= x -> nb <= x.

(** The cached interval index of a variable is behind the bound [b]:
    the intervals before it end below [b]. *)
Definition interval_index_behind (d : Domain.t) (index b : Z) : Prop :=
  0 <= index <= Domain.NumIntervals d /\
  Forall (fun i => end_ i < b) (take (Z.to_nat index) d).

(** The cached interval index of the variable [v] is behind its bound: the
    intervals of its domain before the cached index end at or below its
    current lower bound, so that they end below every bound above it.  (A
    variable whose domain is a single interval has no cached index.) *)
Definition index_behind (t : Trail) (v : Z) : Prop :=
  forall d,
    at_index (domains_ t) v = Some d -> 1 < Domain.NumIntervals d ->
    exists index info,
      RevMap_FindOrDie v (var_to_current_lb_interval_index_ t) = Some index /\
      at_index (vars_ t) v = Some info /\
      interval_index_behind d index (current_bound info + 1).

(** The bound [b] lies in a hole of the domain [d]: it is not a value of
    [d], which has a value below it and a value above it. *)
Definition in_hole (d : Domain.t) (b : Z) : Prop :=
  ~ Domain.elem b d /\
  exists x y, Domain.elem x d /\ Domain.elem y d /\ x < b < y.

(** No trail entry's bound lies in a hole of the domain of its variable. *)
Definition entries_outside_holes (t : Trail) : Prop :=
  forall (i : nat) e d,
    integer_trail_ t !! i = Some e ->
    at_index (domains_ t) (var e) = Some d ->
    ~ in_hole d (bound e).

(** The shape of the trail that [AddIntegerVariable] sets up: the domains
    are in normal form and linked by negation, and the first entries of
    the trail are those of the variables, in order. *)
Definition trail_well_formed (t : Trail) : Prop :=
  negation_linked t /\
  Forall Domain.wf (domains_ t) /\
  (length (vars_ t) <= length (integer_trail_ t))%nat /\
  forall (v : nat) e,
    (v < length (vars_ t))%nat -> integer_trail_ t !! v = Some e -> var e = Z.of_nat v.

(** The parts of the trail that the bounds and their canonicalisation
    read and write. *)
Definition same_bounds_state (t1 t2 : Trail) : Prop :=
  vars_ t1 = vars_ t2 /\ integer_trail_ t1 = integer_trail_ t2 /\
  domains_ t1 = domains_ t2 /\
  integer_search_levels_ t1 = integer_search_levels_ t2 /\
  var_to_current_lb_interval_index_ t1 = var_to_current_lb_interval_index_ t2.

(** Every value of the domain of [v] is at or above its lower bound. *)
Definition bound_below_domain (t : Trail) (v : Z) : Prop :=
  forall d x,
    at_index (domains_ t) v = Some d -> Domain.elem x d ->
    exists lb, LowerBound t v = Some lb /\ lb <= x.

(** The trail at the root node: no search level, one entry per variable,
    which carries its bound; the initial domains are within the bounds,
    and every cached interval index is behind its bound. *)
Definition root_canonical (t : Trail) : Prop :=
  integer_search_levels_ t = [] /\
  length (integer_trail_ t) = length (vars_ t) /\
  trail_well_formed t /\
  (forall (v : nat) info e,
      vars_ t !! v = Some info -> integer_trail_ t !! v = Some e ->
      bound e = current_bound info /\ current_trail_index info = Z.of_nat v) /\
  (forall v, bound_below_domain t v) /\
  forall v, index_behind t v.

(** [t] is a state of the search below the decision level that [Propagate]
    entered from the state [h]: the entries pushed since then undo to the
    variables of [h], and the cached interval indices written since then
    undo to those of [h]. *)
Definition searched_below (h t : Trail) : Prop :=
  exists ext ops more more',
    integer_trail_ t = integer_trail_ h ++ ext /\
    untrail_entries (rev ext) (integer_trail_ t) (vars_ t) = Some (vars_ h) /\
    domains_ t = domains_ h /\
    integer_search_levels_ t
    = integer_search_levels_ h ++ size_ (integer_trail_ h) :: more /\
    operation_stack (var_to_current_lb_interval_index_ t)
    = operation_stack (var_to_current_lb_interval_index_ h) ++ ops /\
    foldl RevMap_undo (rev_map (var_to_current_lb_interval_index_ t)) (rev ops)
    = rev_map (var_to_current_lb_interval_index_ h) /\
    first_op_index_of_next_level (var_to_current_lb_interval_index_ t)
    = first_op_index_of_next_level (var_to_current_lb_interval_index_ h)
      ++ length (operation_stack (var_to_current_lb_interval_index_ h)) :: more' /\
    length more' = length more /\
    RevMap_Level (var_to_current_lb_interval_index_ h)
    = length (integer_search_levels_ h) /\
    (length (vars_ h) <= length (integer_trail_ h))%nat /\
    bounds_linked (vars_ h) (integer_trail_ h) /\
    bounds_linked (vars_ t) (integer_trail_ t).

(** The states of the search below the state [h] from which [Propagate]
    entered a new decision level, until the trail is backtracked to [h]:
    the Boolean side moves, bounds are enqueued (whatever the result of
    [Enqueue]), deeper levels are entered and left. *)
Inductive entered_from : Trail -> Trail -> Prop :=
| entered_level h t :
    size_ (integer_search_levels_ h) < CurrentDecisionLevel (trail_ h) ->
    Propagate_enter_level h = Some t ->
    entered_from h t
| entered_boolean h t sat :
    entered_from h t -> entered_from h (with_trail_ sat t)
| entered_enqueue h t fuel i_lit literal_reason integer_reason same r :
    entered_from h t ->
    Enqueue_same_reason fuel i_lit literal_reason integer_reason same t = Some r ->
    entered_from h (snd r)
| entered_deeper h t t' :
    entered_from h t ->
    size_ (integer_search_levels_ t) <= CurrentDecisionLevel (trail_ t) ->
    Propagate_enter_level t = Some t' ->
    entered_from h t'
| entered_untrail h h1 t literal_trail_index t' :
    entered_from h h1 -> entered_from h1 t ->
    CurrentDecisionLevel (trail_ t) = size_ (integer_search_levels_ h1) ->
    Untrail literal_trail_index t = Some t' ->
    entered_from h t'
| entered_untrail_nothing h t literal_trail_index t' :
    entered_from h t ->
    CurrentDecisionLevel (trail_ t) = size_ (integer_search_levels_ t) ->
    Untrail literal_trail_index t = Some t' ->
    entered_from h t'.

(** The states that the trail reaches with no conflict pending: from the
    trail as constructed, variables are added and initial domains updated
    at the root node; the Boolean side moves; [Propagate] enters the
    decision levels; [Enqueue] is called and establishes its literal (the
    lower bound of the variable is at or above the bound afterwards);
    [Untrail] brings the trail back to the state from which a level was
    entered, whatever was enqueued below, conflicts included. *)
Inductive canonical_run : Trail -> Prop :=
| run_initial t :
    vars_ t = [] -> integer_trail_ t = [] -> domains_ t = [] ->
    integer_search_levels_ t = [] ->
    var_to_current_lb_interval_index_ t = MkRevMap ∅ [] [] ->
    canonical_run t
| run_add_variable t lower_bound upper_bound i t' :
    canonical_run t ->
    AddIntegerVariable lower_bound upper_bound t = Some (i, t') ->
    canonical_run t'
| run_update_domain t fuel var domain t' :
    canonical_run t ->
    integer_search_levels_ t = [] -> Domain.wf domain ->
    UpdateInitialDomain fuel var domain t = Some (true, t') ->
    canonical_run t'
| run_enqueue_root t fuel i_lit literal_reason integer_reason same t' :
    canonical_run t ->
    integer_search_levels_ t = [] ->
    Enqueue_same_reason fuel i_lit literal_reason integer_reason same t = Some (true, t') ->
    canonical_run t'
| run_boolean t sat :
    canonical_run t -> canonical_run (with_trail_ sat t)
| run_enter_level t t' :
    canonical_run t ->
    size_ (integer_search_levels_ t) <= CurrentDecisionLevel (trail_ t) ->
    Propagate_enter_level t = Some t' ->
    canonical_run t'
| run_enqueue t fuel i_lit literal_reason integer_reason same r lb :
    canonical_run t ->
    integer_search_levels_ t <> [] ->
    Enqueue_same_reason fuel i_lit literal_reason integer_reason same t = Some r ->
    LowerBound (snd r) (il_var i_lit) = Some lb -> il_bound i_lit <= lb ->
    canonical_run (snd r)
| run_untrail h t literal_trail_index t' :
    canonical_run h -> entered_from h t ->
    CurrentDecisionLevel (trail_ t) = size_ (integer_search_levels_ h) ->
    Untrail literal_trail_index t = Some t' ->
    canonical_run t'
| run_untrail_nothing t literal_trail_index t' :
    canonical_run t ->
    CurrentDecisionLevel (trail_ t) = size_ (integer_search_levels_ t) ->
    Untrail literal_trail_index t = Some t' ->
    canonical_run t'.

(** What a successful [Enqueue] of a bound above the current one records
    for the variable [v], [nb] being the canonical bound: at a search
    level a new trail entry with that bound (or, the bound being above the
    upper bound of an optional variable, an entry for its [is_ignored]
    literal); at level zero the bound of the variable and of its first
    entry, after which the initial domain is updated. *)
Inductive bound_recorded (fuel : nat) (v nb : Z) (info : VarInfo) (t t' : Trail) : Prop :=
| recorded_entry r :
    integer_search_levels_ t <> [] ->
    integer_trail_ t' =
      integer_trail_ t ++ [MkTrailEntry nb v (current_trail_index info) r] ->
    LowerBound t' v = Some nb ->
    bound_recorded fuel v nb info t t'
| recorded_ignored_entry e ub :
    integer_search_levels_ t <> [] ->
    UpperBound t v = Some ub -> ub < nb ->
    var e < 0 ->
    integer_trail_ t' = integer_trail_ t ++ [e] ->
    vars_ t' = vars_ t ->
    bound_recorded fuel v nb info t t'
| recorded_ignored_at_level_zero ub :
    integer_search_levels_ t = [] ->
    UpperBound t v = Some ub -> ub < nb ->
    integer_trail_ t' = integer_trail_ t ->
    vars_ t' = vars_ t ->
    bound_recorded fuel v nb info t t'
| recorded_at_level_zero t_mid ub :
    integer_search_levels_ t = [] ->
    LowerBound t_mid v = Some nb ->
    LevelZeroBound t_mid v = Some nb ->
    UpperBound t_mid v = Some ub ->
    domains_ t_mid = domains_ t ->
    UpdateInitialDomain fuel v (Domain.FromInterval nb ub) t_mid = Some (true, t') ->
    bound_recorded fuel v nb info t t'.

End IntegerTrail.

(** ** Concrete trails *)

(** A Boolean side for the examples: a decision level, the literals
    assigned true in the order of their assignment, and the last conflict.
    There is no encoder: no literal is associated with a bound. *)
Record BooleanTrail := MkBooleanTrail {
  decision_level : Z;
  true_literals : list Z;
  last_conflict : list Z
}.

Definition assign_true (literal : Z) (s : BooleanTrail) : BooleanTrail :=
  MkBooleanTrail (decision_level s) (true_literals s ++ [literal]) (last_conflict s).

#[global] Instance example_boolean_side : BooleanSide BooleanTrail := {|
  CurrentDecisionLevel := decision_level;
  AssignmentLiteralIsTrue s l := bool_decide (l ∈ true_literals s);
  AssignmentLiteralIsFalse s l := bool_decide (Z.lxor l 1 ∈ true_literals s);
  TrailIndex s := Z.of_nat (length (true_literals s));
  ReferenceInfo _ _ := (0, 0);
  EnqueueWithUnitReason l s := assign_true l s;
  EnqueueWithSameReasonAs l _ s := assign_true l s;
  EnqueueFromPropagator l _ s := assign_true l s;
  SetConflict c s := MkBooleanTrail (decision_level s) (true_literals s) c;
  SetReversibleLevel _ s := s;
  SearchForLiteralAtOrBefore _ _ := kNoLiteralIndex;
  PartialDomainEncoding _ _ := [];
  NegatedLiteral l := Z.lxor l 1;
  LiteralVariable l := Z.shiftr l 1;
  MergeReasonInto _ _ literal_reason := literal_reason
|}.

Definition empty_trail (sat : BooleanTrail) : IntegerTrail BooleanTrail :=
  MkIntegerTrail [] [] [] [] [] [] [] [] [] [] [] (MkRevMap ∅ [] []) [] [] 0 0 0 sat.

(** The trail after [AddIntegerVariable(0, 10)] at the root node: the
    variable 0 in [0, 10] and its negation, the variable 1. *)
Definition example_trail : IntegerTrail BooleanTrail :=
  MkIntegerTrail
    [MkVarInfo 0 0; MkVarInfo (-10) 1]
    [MkTrailEntry 0 0 0 0; MkTrailEntry (-10) 1 0 0]
    [[MkInterval 0 10]; [MkInterval (-10) 0]]
    [] [] [] [] [] [] [] [kNoLiteralIndex; kNoLiteralIndex]
    (MkRevMap ∅ [] []) [0; 1] [] 0 0 0 (MkBooleanTrail 0 [] []).

(** A decision (the literal 2) opens the level 1, then [x >= 3] and
    [x <= 7] are enqueued. *)
Definition example_search : list (search_op (B := BooleanTrail)) :=
  [OpBoolean (fun s => MkBooleanTrail 1 (true_literals s ++ [2]) (last_conflict s));
   OpEnterLevel;
   OpEnqueue (GreaterOrEqual 0 3) [] [] None;
   OpEnqueue (LowerOrEqual 0 7) [2] [] None].

Definition example_searched : IntegerTrail BooleanTrail :=
  default example_trail (run_search_ops 2 example_search example_trail).

(** The variable 0 with the domain [0, 3] u [7, 10], at the decision level
    1 opened by the literal [ignored] (4 in the examples) being [true] or
    [false]; the variable is optional and [4] is its [is_ignored] literal. *)
Definition holes_trail (decision : Z) : IntegerTrail BooleanTrail :=
  MkIntegerTrail
    [MkVarInfo 0 0; MkVarInfo (-10) 1]
    [MkTrailEntry 0 0 0 0; MkTrailEntry (-10) 1 0 0]
    [[MkInterval 0 3; MkInterval 7 10]; [MkInterval (-10) (-7); MkInterval (-3) 0]]
    [2] [0] [] [] [] [] [] [4; 4]
    (MkRevMap (<[0 := 0]> (<[1 := 0]> ∅)) [] [0%nat]) [0; 1] [] 0 0 0
    (MkBooleanTrail 1 [decision] []).

(** A run of the trail: the variable 0 is added with the bounds [0, 10] at
    the root node, its initial domain is updated to [0, 3] u [7, 10], the
    literal 5 is decided and [Propagate] enters the decision level 1. *)
Definition holes_run_added : IntegerTrail BooleanTrail :=
  default (empty_trail (MkBooleanTrail 0 [] []))
    (snd <$> AddIntegerVariable (- (kint64max - 1)) (kint64max - 1) 0 10
               (empty_trail (MkBooleanTrail 0 [] []))).

Definition holes_run_root : IntegerTrail BooleanTrail :=
  default holes_run_added
    (snd <$> UpdateInitialDomain 1 0 [MkInterval 0 3; MkInterval 7 10] holes_run_added).

Definition holes_run : IntegerTrail BooleanTrail :=
  default holes_run_root
    (Propagate_enter_level (with_trail_ (MkBooleanTrail 1 [5] []) holes_run_root)).

(** The variable 0 with the domain [0, 3] u [7, 10] u [20, 30] and the
    lower bound 0 at the decision level 1, its cached interval index being
    2: ahead of the bound. *)
Definition index_ahead_trail : IntegerTrail BooleanTrail :=
  MkIntegerTrail
    [MkVarInfo 0 0; MkVarInfo (-30) 1]
    [MkTrailEntry 0 0 0 0; MkTrailEntry (-30) 1 0 0]
    [[MkInterval 0 3; MkInterval 7 10; MkInterval 20 30];
     [MkInterval (-30) (-20); MkInterval (-10) (-7); MkInterval (-3) 0]]
    [2] [0] [] [] [] [] [] [4; 4]
    (MkRevMap (<[0 := 2]> (<[1 := 0]> ∅)) [] [0%nat]) [0; 1] [] 0 0 0
    (MkBooleanTrail 1 [5] []).

(** ** The propagator scheduler (GenericLiteralWatcher) *)

(** What the scheduler reaches outside of itself: the Boolean trail, the
    integer trail (its enqueue counter and the bitset of modified variables
    it fills for the scheduler), the registered propagators and their
    reversible state. *)
Class PropagatorWorld (W : Type) := {
  (** [trail->CurrentDecisionLevel()], [trail->Index()], the index of the literal at a trail position. *)
  world_level : W -> Z;
  world_trail_index : W -> Z;
  world_trail_literal : W -> Z -> Z;
  (** [integer_trail_->num_enqueues()] and [NumIntegerVariables()]. *)
  world_num_enqueues : W -> Z;
  world_num_integer_variables : W -> Z;
  (** [modified_vars_.PositionsSetAtLeastOnce()] and [ClearAndResize]. *)
  world_modified_vars : W -> list Z;
  world_clear_modified_vars : W -> W;
  (** [watchers_[id]->Propagate()] and [->IncrementalPropagate(indices)]. *)
  run_Propagate : Z -> W -> bool * W;
  run_IncrementalPropagate : Z -> list Z -> W -> bool * W;
  (** [rev->SetLevel(level)] and [rev_int_repository_->SaveState(rev_int)]. *)
  reversible_SetLevel : Z -> Z -> W -> W;
  reversible_SaveState : Z -> W -> W
}.

Record WatchEntry := MkWatch { watch_id : Z; watch_index : Z }.

Record GenericLiteralWatcher {W : Type} := MkWatcher {
  queue_by_priority_ : list (list Z);
  in_queue_ : list bool;
  id_to_priority_ : list Z;
  id_to_idempotence_ : list bool;
  id_to_watch_indices_ : list (list Z);
  id_to_level_at_last_call_ : list Z;
  id_to_greatest_common_level_since_last_call_ : list Z;
  id_to_reversible_classes_ : list (list Z);
  id_to_reversible_ints_ : list (list Z);
  literal_to_watcher_ : list (list WatchEntry);
  var_to_watcher_ : list (list WatchEntry);
  watcher_propagation_trail_index_ : Z;
  world : W
}.
Arguments GenericLiteralWatcher : clear implicits.
Arguments MkWatcher {W}.

Section Scheduler.
Context {W : Type} `{!PropagatorWorld W}.
Local Abbreviation Watcher := (GenericLiteralWatcher W).

Definition with_world (w : W) (g : Watcher) : Watcher :=
  MkWatcher (queue_by_priority_ g) (in_queue_ g) (id_to_priority_ g)
    (id_to_idempotence_ g) (id_to_watch_indices_ g) (id_to_level_at_last_call_ g)
    (id_to_greatest_common_level_since_last_call_ g) (id_to_reversible_classes_ g)
    (id_to_reversible_ints_ g) (literal_to_watcher_ g) (var_to_watcher_ g)
    (watcher_propagation_trail_index_ g) w.

Definition with_queues (q : list (list Z)) (inq : list bool) (wi : list (list Z))
    (g : Watcher) : Watcher :=
  MkWatcher q inq (id_to_priority_ g)
    (id_to_idempotence_ g) wi (id_to_level_at_last_call_ g)
    (id_to_greatest_common_level_since_last_call_ g) (id_to_reversible_classes_ g)
    (id_to_reversible_ints_ g) (literal_to_watcher_ g) (var_to_watcher_ g)
    (watcher_propagation_trail_index_ g) (world g).

Definition with_levels_at_call (last common : list Z) (g : Watcher) : Watcher :=
  MkWatcher (queue_by_priority_ g) (in_queue_ g) (id_to_priority_ g)
    (id_to_idempotence_ g) (id_to_watch_indices_ g) last common
    (id_to_reversible_classes_ g)
    (id_to_reversible_ints_ g) (literal_to_watcher_ g) (var_to_watcher_ g)
    (watcher_propagation_trail_index_ g) (world g).

Definition with_propagation_index (i : Z) (g : Watcher) : Watcher :=
  MkWatcher (queue_by_priority_ g) (in_queue_ g) (id_to_priority_ g)
    (id_to_idempotence_ g) (id_to_watch_indices_ g) (id_to_level_at_last_call_ g)
    (id_to_greatest_common_level_since_last_call_ g) (id_to_reversible_classes_ g)
    (id_to_reversible_ints_ g) (literal_to_watcher_ g) (var_to_watcher_ g)
    i (world g).

(** The body shared by the two loops of [UpdateCallingNeeds]: queue the
    propagators watching a literal or a variable. *)
Fixpoint wake_up (entries : list WatchEntry) (g : Watcher) : option Watcher :=
  match entries with
  | [] => Some g
  | entry :: rest =>
      let id := watch_id entry in
      queued ← at_index (in_queue_ g) id;
      g ← (if queued : bool then Some g
           else
             priority ← at_index (id_to_priority_ g) id;
             q ← at_index (queue_by_priority_ g) priority;
             inq ← store_at (in_queue_ g) id true;
             qs ← store_at (queue_by_priority_ g) priority (q ++ [id]);
             Some (with_queues qs inq (id_to_watch_indices_ g) g));
      g ← (if 0 <=? watch_index entry then
             wi ← at_index (id_to_watch_indices_ g) id;
             wis ← store_at (id_to_watch_indices_ g) id (wi ++ [watch_index entry]);
             Some (with_queues (queue_by_priority_ g) (in_queue_ g) wis g)
           else Some g);
      wake_up rest g
  end.

(** Process any new literal on the trail: the literals at the trail
    positions [positions]. *)
Fixpoint wake_up_literals (positions : list Z) (g : Watcher) : option Watcher :=
  match positions with
  | [] => Some g
  | i :: rest =>
      let literal := world_trail_literal (world g) i in
      let g := with_propagation_index (i + 1) g in
      if size_ (literal_to_watcher_ g) <=? literal then wake_up_literals rest g
      else
        entries ← at_index (literal_to_watcher_ g) literal;
        g ← wake_up entries g;
        wake_up_literals rest g
  end.

Fixpoint wake_up_variables (vars : list Z) (g : Watcher) : option Watcher :=
  match vars with
  | [] => Some g
  | v :: rest =>
      if size_ (var_to_watcher_ g) <=? v then wake_up_variables rest g
      else
        entries ← at_index (var_to_watcher_ g) v;
        g ← wake_up entries g;
        wake_up_variables rest g
  end.

Definition UpdateCallingNeeds (g : Watcher) : option Watcher :=
  let from := watcher_propagation_trail_index_ g in
  let to := world_trail_index (world g) in
  (* Process any new Literal on the trail. *)
  g ← wake_up_literals (map (fun k => from + Z.of_nat k) (seq 0 (Z.to_nat (to - from)))) g;
  (* Process the newly changed variables lower bounds. *)
  g ← wake_up_variables (world_modified_vars (world g)) g;
  Some (with_world (world_clear_modified_vars (world g)) g).

(** Before we propagate, make sure any reversible structure is up to date. *)
Definition update_reversible (id : Z) (level : Z) (g : Watcher) : option Watcher :=
  low ← at_index (id_to_greatest_common_level_since_last_call_ g) id;
  high ← at_index (id_to_level_at_last_call_ g) id;
  if (low <? high) || (low <? level) then
    last ← store_at (id_to_level_at_last_call_ g) id level;
    common ← store_at (id_to_greatest_common_level_since_last_call_ g) id level;
    let g := with_levels_at_call last common g in
    classes ← at_index (id_to_reversible_classes_ g) id;
    ints ← at_index (id_to_reversible_ints_ g) id;
    let w :=
      foldl (fun w rev =>
               let w := if low <? high then reversible_SetLevel rev low w else w in
               if low <? level then reversible_SetLevel rev level w else w)
            (world g) classes in
    let w := foldl (fun w rev_int => reversible_SaveState rev_int w) w ints in
    Some (with_world w g)
  else Some g.

(** What one turn of the [while (!queue.empty())] loop decides. *)
Inductive turn_result :=
| TurnReturn (result : bool) (g : Watcher)
| TurnContinue (priority : Z) (g : Watcher).

(** One turn of the inner loop of [Propagate]: the propagator [id], just
    read at the front of the queue of priority [current], is popped and
    run.  [priority] is the loop variable of the enclosing [for]. *)
Definition run_front (level : Z) (current priority : Z) (id : Z) (rest : list Z)
    (g : Watcher) : option turn_result :=
  qs ← store_at (queue_by_priority_ g) current rest;
  let g := with_queues qs (in_queue_ g) (id_to_watch_indices_ g) g in
  g ← update_reversible id level g;
  (* This is needed to detect if the propagator propagated anything or not. *)
  let old_integer_timestamp := world_num_enqueues (world g) in
  let old_boolean_timestamp := world_trail_index (world g) in
  watch_indices ← at_index (id_to_watch_indices_ g) id;
  let r :=
    match watch_indices with
    | [] => run_Propagate id (world g)
    | _ => run_IncrementalPropagate id watch_indices (world g)
    end in
  let g := with_world (snd r) g in
  wis ← store_at (id_to_watch_indices_ g) id [];
  inq ← store_at (in_queue_ g) id false;
  if negb (fst r) then
    Some (TurnReturn false (with_queues (queue_by_priority_ g) inq wis g))
  else
    idempotent ← at_index (id_to_idempotence_ g) id;
    g ← (if idempotent : bool then
           g ← UpdateCallingNeeds g;
           wis ← store_at (id_to_watch_indices_ g) id [];
           inq ← store_at (in_queue_ g) id false;
           Some (with_queues (queue_by_priority_ g) inq wis g)
         else
           UpdateCallingNeeds (with_queues (queue_by_priority_ g) inq wis g));
    (* If the propagator pushed an integer bound, we revert to priority = 0. *)
    let priority :=
      if old_integer_timestamp <? world_num_enqueues (world g)
      then -1 (* Because of the ++priority in the for loop. *)
      else priority in
    (* If the propagator pushed a literal, we exit in order to rerun all
       SAT only propagators first. *)
    if old_boolean_timestamp <? world_trail_index (world g)
    then Some (TurnReturn true g)
    else Some (TurnContinue priority g).

(** The two nested loops of [Propagate].  [current] is the priority whose
    queue the inner [while] is bound to ([None] at the head of the [for]),
    [priority] the loop variable of the [for]. *)
Fixpoint propagate_loops (fuel : nat) (level : Z) (current : option Z) (priority : Z)
    (g : Watcher) : option (bool * Watcher) :=
  match fuel with
  | O => None
  | S fuel' =>
      match current with
      | None =>
          if priority <? size_ (queue_by_priority_ g)
          then propagate_loops fuel' level (Some priority) priority g
          else Some (true, g)
      | Some cur =>
          q ← at_index (queue_by_priority_ g) cur;
          match q with
          | [] => propagate_loops fuel' level None (priority + 1) g
          | id :: rest =>
              r ← run_front level cur priority id rest g;
              match r with
              | TurnReturn result g => Some (result, g)
              | TurnContinue priority g =>
                  propagate_loops fuel' level (Some cur) priority g
              end
          end
      end
  end.

Definition Propagate (fuel : nat) (g : Watcher) : option (bool * Watcher) :=
  let level := world_level (world g) in
  g ← UpdateCallingNeeds g;
  propagate_loops fuel level None 0 g.

End Scheduler.

(** ** A concrete scheduler *)

(** What a registered propagator does when it is run. *)
Inductive propagator_action :=
| PushNothing
| PushBound (v : Z)
| PushLiteral (literal : Z)
| FailPropagation.

(** A world for the examples: every propagator has a script, the actions of
    its successive runs (nothing once the script is over); the world logs
    the ids of the propagators in the order they are run. *)
Record ScriptedWorld := MkWorld {
  sw_level : Z;
  sw_trail : list Z;
  sw_num_enqueues : Z;
  sw_num_integer_variables : Z;
  sw_modified_vars : list Z;
  sw_calls : list Z;
  sw_scripts : list (list propagator_action)
}.

Definition run_scripted (id : Z) (w : ScriptedWorld) : bool * ScriptedWorld :=
  let script := default [] (at_index (sw_scripts w) id) in
  let scripts := <[Z.to_nat id := tail script]> (sw_scripts w) in
  let calls := sw_calls w ++ [id] in
  match head script with
  | None | Some PushNothing =>
      (true, MkWorld (sw_level w) (sw_trail w) (sw_num_enqueues w)
               (sw_num_integer_variables w) (sw_modified_vars w) calls scripts)
  | Some (PushBound v) =>
      (true, MkWorld (sw_level w) (sw_trail w) (sw_num_enqueues w + 1)
               (sw_num_integer_variables w) (sw_modified_vars w ++ [v]) calls scripts)
  | Some (PushLiteral literal) =>
      (true, MkWorld (sw_level w) (sw_trail w ++ [literal]) (sw_num_enqueues w)
               (sw_num_integer_variables w) (sw_modified_vars w) calls scripts)
  | Some FailPropagation =>
      (false, MkWorld (sw_level w) (sw_trail w) (sw_num_enqueues w)
                (sw_num_integer_variables w) (sw_modified_vars w) calls scripts)
  end.

#[global] Instance scripted_world : PropagatorWorld ScriptedWorld := {|
  world_level := sw_level;
  world_trail_index w := Z.of_nat (length (sw_trail w));
  world_trail_literal w i := default 0 (at_index (sw_trail w) i);
  world_num_enqueues := sw_num_enqueues;
  world_num_integer_variables := sw_num_integer_variables;
  world_modified_vars := sw_modified_vars;
  world_clear_modified_vars w :=
    MkWorld (sw_level w) (sw_trail w) (sw_num_enqueues w) (sw_num_integer_variables w)
      [] (sw_calls w) (sw_scripts w);
  run_Propagate := run_scripted;
  run_IncrementalPropagate id _ := run_scripted id;
  reversible_SetLevel _ _ w := w;
  reversible_SaveState _ w := w
|}.

(** Three propagators: 0 and 1 have the priority 1 and watch the literal 0,
    2 has the priority 0 and watches the integer variable 0.  The literal 0
    has just been assigned; the propagator [first] (0 in the examples) does
    [action] on its first run. *)
Definition example_watcher (action : propagator_action)
  : GenericLiteralWatcher ScriptedWorld :=
  MkWatcher
    [[]; []] [false; false; false] [1; 1; 0] [false; false; false]
    [[]; []; []] [0; 0; 0] [0; 0; 0] [[]; []; []] [[]; []; []]
    [[MkWatch 0 (-1); MkWatch 1 (-1)]] [[MkWatch 2 (-1)]] 0
    (MkWorld 0 [0] 0 2 [] [] [[action]; []; []]).

(** The result of [Propagate] and the order in which the propagators were
    run. *)
Definition propagation_order (fuel : nat) (g : GenericLiteralWatcher ScriptedWorld)
  : option (bool * list Z) :=
  r ← Propagate fuel g; Some (fst r, sw_calls (world (snd r))).

(** ** More rewriters of the presolve *)

Section MoreRewriters.
Context {AR : Type} `{!AffineRelationOps AR}.
Local Abbreviation Ctx := (PresolveContext AR).

(** Returns true if our current constraints <-> variables graph is ok. *)
Definition ConstraintVariableUsageIsConsistent (ctx : Ctx) : bool :=
  if is_unsat ctx then true
  else if negb (length (constraint_to_vars ctx) =? constraints_size ctx)%nat then false
  else
    forallb (fun p => bool_decide (fst p = UsedVariables (snd p)))
      (zip (constraint_to_vars ctx) (constraints (working_model ctx))).

(** The loop of [PresolveEnforcementLiteral]: [None] is the return from
    inside the loop (the constraint is removed), [Some kept] the
    enforcement literals written back when the loop ran to its end. *)
Fixpoint enforcement_scan (lits kept : list Z) (ctx : Ctx) : option (option (list Z) * Ctx) :=
  match lits with
  | [] => Some (Some kept, ctx)
  | literal :: rest =>
      is_true ← LiteralIsTrue ctx literal;
      if is_true : bool then
        (* Remove true literal. *)
        enforcement_scan rest kept (UpdateRuleStats "true enforcement literal" ctx)
      else
        is_false ← LiteralIsFalse ctx literal;
        if is_false : bool then
          Some (None, UpdateRuleStats "false enforcement literal" ctx)
        else
          unique ← VariableIsUniqueAndRemovable ctx literal;
          if unique : bool then
            (* We can simply set it to false and ignore the constraint in
               this case. *)
            ctx' ← SetLiteralToFalse literal
                     (UpdateRuleStats "enforcement literal not used" ctx);
            Some (None, ctx')
          else enforcement_scan rest (kept ++ [literal]) ctx
  end.

Definition PresolveEnforcementLiteral (ct : ConstraintProto) (ctx : Ctx)
  : option (bool * ConstraintProto * Ctx) :=
  if negb (HasEnforcementLiteral ct) then Some (false, ct, ctx)
  else
    r ← enforcement_scan (enforcement_literal ct) [] ctx;
    match fst r with
    | None => Some (RemoveConstraint ct (snd r))
    | Some kept =>
        Some (negb (length kept =? length (enforcement_literal ct))%nat,
              MkConstraint kept (constraint ct), snd r)
    end.

(** The inner loop of [PresolveAtMostOne]: every literal of the
    constraint other than [literal] is set to false. *)
Fixpoint set_others_to_false (literal : Z) (others : list Z) (ctx : Ctx) : option Ctx :=
  match others with
  | [] => Some ctx
  | other :: rest =>
      if other =? literal then set_others_to_false literal rest ctx
      else ctx' ← SetLiteralToFalse other ctx; set_others_to_false literal rest ctx'
  end.

(** The loop of [PresolveAtMostOne] over the literals [lits] that remain
    to be scanned; [all] is the whole list of literals of the constraint. *)
Fixpoint at_most_one_scan (ct : ConstraintProto) (all lits : list Z) (changed : bool)
    (ctx : Ctx) : option scan_result :=
  match lits with
  | [] => Some (ScanDone changed ctx)
  | literal :: rest =>
      is_true ← LiteralIsTrue ctx literal;
      if is_true : bool then
        ctx' ← set_others_to_false literal all
                 (UpdateRuleStats "at_most_one: satisfied" ctx);
        Some (ScanReturned (RemoveConstraint ct ctx'))
      else
        is_false ← LiteralIsFalse ctx literal;
        if is_false : bool then at_most_one_scan ct all rest true ctx
        else
          at_most_one_scan ct all rest changed
            (set_tmp_literals (tmp_literals ctx ++ [literal]) ctx)
  end.

Definition PresolveAtMostOne (ct : ConstraintProto) (ctx : Ctx)
  : option (bool * ConstraintProto * Ctx) :=
  guard (HasEnforcementLiteral ct = false);;
  r ← at_most_one_scan ct (at_most_one_literals ct) (at_most_one_literals ct) false
        (set_tmp_literals [] ctx);
  match r with
  | ScanReturned res => Some res
  | ScanDone changed ctx =>
      match tmp_literals ctx with
      | [] => Some (RemoveConstraint ct ctx)
      | tmp =>
          if changed
          then Some (changed, MkConstraint (enforcement_literal ct) (kAtMostOne tmp),
                     UpdateRuleStats "at_most_one: removed literals" ctx)
          else Some (changed, ct, ctx)
      end
  end.

(** *** Vocabulary for the properties of these rewriters *)

(** The variable of the literal exists and its domain is one of {0}, {1},
    {0,1}. *)
Definition boolean_domain (ctx : Ctx) (lit : Z) : Prop :=
  exists d, domain_at ctx (PositiveRef lit) = Some d /\
            (d = [MkInterval 0 0] \/ d = [MkInterval 1 1] \/ d = [MkInterval 0 1]).

(** The two directions of the usage graph agree: the constraint [c] is
    recorded for the variable [v] exactly when [v] is recorded for [c]. *)
Definition usage_graph_linked (c2v : list (list Z)) (v2c : list (gset Z)) : Prop :=
  forall (c v : nat) s,
    v2c !! v = Some s ->
    (Z.of_nat c ∈ s <-> exists vars, c2v !! c = Some vars /\ Z.of_nat v ∈ vars).

(** The context [ctx'] knows at least what [ctx] knows: Boolean domains
    stay Boolean, fixed literals stay fixed, the unsat flag stays set. *)
Definition fixes_more (ctx ctx' : Ctx) : Prop :=
  (forall l, boolean_domain ctx l -> boolean_domain ctx' l) /\
  (forall l, LiteralIsFalse ctx l = Some true -> LiteralIsFalse ctx' l = Some true) /\
  (forall l, LiteralIsTrue ctx l = Some true -> LiteralIsTrue ctx' l = Some true) /\
  (is_unsat ctx = true -> is_unsat ctx' = true).

(** Every key of [constant_to_ref] is mapped to a reference that is fixed,
    to a value that the conversion to [int] sends to the key: the value
    itself when it is in the range of [int]. *)
Definition constants_fixed (ctx : Ctx) : Prop :=
  forall key ref,
    constant_to_ref ctx !! key = Some ref ->
    exists value,
      MinOf ctx ref = Some value /\ MaxOf ctx ref = Some value /\
      narrow_to_int value = key.

(** The intervals of a no-overlap that were not cleared. *)
Definition present_intervals (ctx : Ctx) (intervals : list Z) : list Z :=
  List.filter (fun i => negb (is_not_set (interval_constraint ctx i))) intervals.

End MoreRewriters.

(** *** Concrete models for these rewriters *)

(** Three Booleans: 0 is free, 1 is fixed to 1 and 2 is fixed to 0.  [ct]
    is the first constraint of the model. *)
Definition fixed_example (ct : ConstraintProto) : PresolveContext unit :=
  example_context
    (MkModel [[0; 1]; [1; 1]; [0; 0]] [ct; MkConstraint [] (kBoolOr [0; 1; 2])] None [] None)
    [{[0; 1]}; {[0; 1]}; {[0; 1]}]
    [[MkInterval 0 1]; [MkInterval 1 1]; [MkInterval 0 0]].

(** A no-overlap (the constraint 3) over three intervals, the second of
    which was cleared. *)
Definition no_overlap_example : PresolveContext unit :=
  example_context
    (MkModel [[0; 10]; [1; 11]; [1; 1]]
       [MkConstraint [] (kInterval (MkIntervalCt 0 1 2));
        empty_constraint;
        MkConstraint [] (kInterval (MkIntervalCt 0 1 2));
        MkConstraint [] (kNoOverlap [0; 1; 2])]
       None [] None)
    [{[0; 2]}; {[0; 2]}; {[0; 2]}]
    [[MkInterval 0 10]; [MkInterval 1 11]; [MkInterval 1 1]].

(** A context that has not read the domains of its three variables yet. *)
Definition new_variables_example : PresolveContext unit :=
  example_context (MkModel [[0; 1]; [1; 1]; [1; 1]] [] None [] None) [] [].

(** ** More of the integer trail and of the encoder *)

(** The loop of [IntegerEncoder::Canonicalize] over the intervals of the
    domain; [previous] is the end of the interval before the first one of
    [intervals]. *)
Fixpoint canonicalize_scan (intervals : list ClosedInterval) (previous before after : Z)
  : Z * Z :=
  match intervals with
  | [] => (before, after)
  | interval :: rest =>
      let before :=
        if (previous <? before) && (before <? start interval) then previous else before in
      let after :=
        if (previous <? after) && (after <? start interval) then start interval else after in
      if after <=? end_ interval then (before, after)
      else canonicalize_scan rest (end_ interval) before after
  end.

(** [IntegerEncoder::Canonicalize]: the literals [(var >= after)] and
    [(var <= before)]; [domains] is the vector [*domains_] of the encoder. *)
Definition Canonicalize (domains : list Domain.t) (i_lit : IntegerLiteral)
  : option (IntegerLiteral * IntegerLiteral) :=
  let var := il_var i_lit in
  let after := il_bound i_lit in
  let before := il_bound i_lit - 1 in
  d ← at_index domains var;
  guard (Domain.Min d <= before);;
  guard (after <= Domain.Max d);;
  let r := canonicalize_scan d kint64min before after in
  Some (GreaterOrEqual var (snd r), LowerOrEqual var (fst r)).

Section TrailQueries.
Context {B : Type} `{!BooleanSide B}.
Local Abbreviation Trail := (IntegerTrail B).

(** The [while (true)] loop of [FindLowestTrailIndexThatExplainBound]. *)
Fixpoint explain_bound_loop (fuel : nat) (trail : list TrailEntry) (b : Z)
    (trail_index prev_index : Z) : option Z :=
  match fuel with
  | O => None
  | S fuel' =>
      entry ← at_index trail trail_index;
      if bound entry =? b then Some trail_index
      else if bound entry <? b then Some prev_index
      else explain_bound_loop fuel' trail b (prev_trail_index entry) trail_index
  end.

(** Returns the lowest trail index of a trail entry for the variable of
    the literal that explains its bound, and caches it; -1 when the bound
    holds at level zero. *)
Definition FindLowestTrailIndexThatExplainBound (fuel : nat) (i_lit : IntegerLiteral)
    (t : Trail) : option (Z * Trail) :=
  lzb ← LevelZeroBound t (il_var i_lit);
  if il_bound i_lit <=? lzb then Some (-1, t)
  else
    info ← at_index (vars_ t) (il_var i_lit);
    let trail_index := current_trail_index info in
    (* Check the validity of the cached index and use it if possible. *)
    cached_index ← at_index (var_trail_index_cache_ t) (il_var i_lit);
    trail_index ←
      (if cached_index <? trail_index then
         entry ← at_index (integer_trail_ t) cached_index;
         Some (if (var entry =? il_var i_lit) && (il_bound i_lit <=? bound entry)
               then cached_index else trail_index)
       else Some trail_index);
    r ← explain_bound_loop fuel (integer_trail_ t) (il_bound i_lit) trail_index trail_index;
    cache ← store_at (var_trail_index_cache_ t) (il_var i_lit) r;
    Some (r, with_ignored_cache (is_ignored_literals_ t) cache t).

(** The in-place filter of [RemoveLevelZeroBounds]. *)
Fixpoint RemoveLevelZeroBounds (reason : list IntegerLiteral) (t : Trail)
  : option (list IntegerLiteral) :=
  match reason with
  | [] => Some []
  | literal :: rest =>
      lzb ← LevelZeroBound t (il_var literal);
      kept ← RemoveLevelZeroBounds rest t;
      Some (if il_bound literal <=? lzb then kept else literal :: kept)
  end.

(** The loop of [AppendNewBounds] over the trail entries pushed since
    level zero; [marked] is the bitset [tmp_marked_], resized to
    [num_vars]. *)
Fixpoint append_new_bounds (entries : list TrailEntry) (num_vars : Z) (marked : list Z)
    (output : list IntegerLiteral) : option (list IntegerLiteral) :=
  match entries with
  | [] => Some output
  | entry :: rest =>
      if var entry =? kNoIntegerVariable then append_new_bounds rest num_vars marked output
      else
        guard (0 <= var entry < num_vars);;
        if decide (var entry ∈ marked) then append_new_bounds rest num_vars marked output
        else
          append_new_bounds rest num_vars (marked ++ [var entry])
            (output ++ [GreaterOrEqual (var entry) (bound entry)])
  end.

Definition AppendNewBounds (output : list IntegerLiteral) (t : Trail)
  : option (list IntegerLiteral) :=
  append_new_bounds (drop (length (vars_ t)) (integer_trail_ t)) (size_ (vars_ t)) [] output.

(** *** Vocabulary for the properties of these functions *)

(** The entry at the index [i] of the trail is linked as [Enqueue] links
    it: an entry below the number of variables is the level-zero entry of
    the variable [i]; an entry above it, when it is the entry of a
    variable, points to an earlier entry of the same variable with a
    smaller bound. *)
Definition entry_chained (t : Trail) (i : nat) (e : TrailEntry) : bool :=
  if (i <? length (vars_ t))%nat then var e =? Z.of_nat i
  else if var e <? 0 then true
  else
    (0 <=? prev_trail_index e) && (prev_trail_index e <? Z.of_nat i)
    && match at_index (integer_trail_ t) (prev_trail_index e) with
       | Some p => (var p =? var e) && (bound p <? bound e)
       | None => false
       end.

(** The variable [v] points to an entry of its own that carries its
    bound, and its cached trail index is not negative. *)
Definition var_chained (t : Trail) (v : nat) (info : VarInfo) : bool :=
  match at_index (integer_trail_ t) (current_trail_index info),
        var_trail_index_cache_ t !! v with
  | Some e, Some cached =>
      (var e =? Z.of_nat v) && (bound e =? current_bound info) && (0 <=? cached)
  | _, _ => false
  end.

(** The invariant of the trail that the explanation of a bound relies
    on, as a test. *)
Definition trail_chained (t : Trail) : bool :=
  (length (vars_ t) <=? length (integer_trail_ t))%nat
  && forallb (fun p => entry_chained t (fst p) (snd p)) (imap pair (integer_trail_ t))
  && forallb (fun p => var_chained t (fst p) (snd p)) (imap pair (vars_ t)).

(** What [Enqueue] may do to the bounds and to its counter: no lower bound
    decreases, no variable appears or disappears, the counter of enqueues
    does not decrease. *)
Definition bounds_not_lowered (t t' : Trail) : Prop :=
  length (vars_ t') = length (vars_ t) /\
  num_enqueues_ t <= num_enqueues_ t' /\
  forall v lb, LowerBound t v = Some lb ->
               exists lb', LowerBound t' v = Some lb' /\ lb <= lb'.

End TrailQueries.

(** ** More of the propagator scheduler *)

Module Watcher.

Section Registration.
Context {W : Type} `{!PropagatorWorld W}.
Local Abbreviation Watcher := (GenericLiteralWatcher W).

(** [id_to_watch_indices_[id].clear()] for every queued [id]. *)
Fixpoint clear_watch_indices (ids : list Z) (wis : list (list Z))
  : option (list (list Z)) :=
  match ids with
  | [] => Some wis
  | id :: rest => wis' ← store_at wis id []; clear_watch_indices rest wis'
  end.

(** [GenericLiteralWatcher::Untrail].  The vectors [watchers_],
    [in_queue_] and [id_to_...] only grow in [Register], by one element
    each: [watchers_.size()] is read as the size of [in_queue_]. *)
Definition Untrail (trail_index : Z) (g : Watcher) : option Watcher :=
  if watcher_propagation_trail_index_ g <=? trail_index then
    (* Nothing to do since we found a conflict before Propagate() was
       called. *)
    guard (watcher_propagation_trail_index_ g = trail_index);;
    Some g
  else
    (* We need to clear the watch indices on untrail. *)
    wis ← clear_watch_indices (concat (queue_by_priority_ g)) (id_to_watch_indices_ g);
    let level := world_level (world g) in
    Some (MkWatcher
            (map (fun _ => []) (queue_by_priority_ g))
            (replicate (length (in_queue_ g)) false)
            (id_to_priority_ g) (id_to_idempotence_ g) wis
            (id_to_level_at_last_call_ g)
            (map (fun ref => Z.min ref level)
               (id_to_greatest_common_level_since_last_call_ g))
            (id_to_reversible_classes_ g) (id_to_reversible_ints_ g)
            (literal_to_watcher_ g) (var_to_watcher_ g)
            trail_index
            (world_clear_modified_vars (world g))).

(** Registers a propagator and returns its unique id. *)
Definition Register (g : Watcher) : option (Z * Watcher) :=
  let id := size_ (in_queue_ g) in
  (* Call this propagator at least once the next time Propagate() is
     called. *)
  q ← at_index (queue_by_priority_ g) 1;
  qs ← store_at (queue_by_priority_ g) 1 (q ++ [id]);
  Some (id,
        MkWatcher qs (in_queue_ g ++ [true])
          (id_to_priority_ g ++ [1]) (id_to_idempotence_ g ++ [true])
          (id_to_watch_indices_ g ++ [[]])
          (id_to_level_at_last_call_ g ++ [0])
          (id_to_greatest_common_level_since_last_call_ g ++ [0])
          (id_to_reversible_classes_ g ++ [[]]) (id_to_reversible_ints_ g ++ [[]])
          (literal_to_watcher_ g) (var_to_watcher_ g)
          (watcher_propagation_trail_index_ g) (world g)).

(** [SetPropagatorPriority].  The test [priority >= size()] compares an
    [int] with an unsigned size: a negative priority passes it, and the
    vector is resized to [priority + 1] converted to an unsigned size,
    that is to 0 elements for -1 and to a size that cannot be allocated
    below -1. *)
Definition SetPropagatorPriority (id priority : Z) (g : Watcher) : option Watcher :=
  priorities ← store_at (id_to_priority_ g) id priority;
  queues ←
    (if priority <? 0 then (if priority =? -1 then Some [] else None)
     else if size_ (queue_by_priority_ g) <=? priority
          then Some (resize (Z.to_nat (priority + 1)) [] (queue_by_priority_ g))
          else Some (queue_by_priority_ g));
  Some (MkWatcher queues (in_queue_ g) priorities (id_to_idempotence_ g)
          (id_to_watch_indices_ g) (id_to_level_at_last_call_ g)
          (id_to_greatest_common_level_since_last_call_ g)
          (id_to_reversible_classes_ g) (id_to_reversible_ints_ g)
          (literal_to_watcher_ g) (var_to_watcher_ g)
          (watcher_propagation_trail_index_ g) (world g)).

(** *** Vocabulary for the properties of the scheduler *)

(** No propagator is queued twice, and every queued propagator is
    flagged in [in_queue_]. *)
Definition queues_consistent (g : Watcher) : Prop :=
  NoDup (concat (queue_by_priority_ g)) /\
  Forall (fun id => at_index (in_queue_ g) id = Some true)
    (concat (queue_by_priority_ g)).

(** What waking propagators up does to the queues: the queues stay
    consistent, and a propagator that is flagged but not queued (the one
    being run) is not queued. *)
Definition wakes (g g' : Watcher) : Prop :=
  queues_consistent g ->
  queues_consistent g' /\
  forall x, (x ∉ concat (queue_by_priority_ g)) ->
            at_index (in_queue_ g) x = Some true ->
            (x ∉ concat (queue_by_priority_ g')) /\ at_index (in_queue_ g') x = Some true.

(** Everything on the Boolean trail and every modified variable has
    been dispatched to the propagators that watch it. *)
Definition all_dispatched (g : Watcher) : Prop :=
  world_modified_vars (world g) = [] /\
  world_trail_index (world g) <= watcher_propagation_trail_index_ g.

(** What the scheduler assumes of the world it drives: a run of a
    propagator moves the Boolean trail and the counter of enqueues
    forward only, and marks a variable as modified only when it
    enqueues; the reversible structures and the reset of the modified
    variables touch neither the trail nor the counter. *)
Definition run_moves_forward (run : W -> bool * W) : Prop :=
  forall w,
    world_trail_index w <= world_trail_index (snd (run w)) /\
    world_num_enqueues w <= world_num_enqueues (snd (run w)) /\
    (world_modified_vars w = [] ->
     world_num_enqueues (snd (run w)) = world_num_enqueues w ->
     world_modified_vars (snd (run w)) = []).

Definition keeps_timestamps (f : W -> W) : Prop :=
  forall w,
    world_trail_index (f w) = world_trail_index w /\
    world_num_enqueues (f w) = world_num_enqueues w /\
    world_modified_vars (f w) = world_modified_vars w.

Definition well_behaved_world : Prop :=
  (forall id, run_moves_forward (run_Propagate id)) /\
  (forall id indices, run_moves_forward (run_IncrementalPropagate id indices)) /\
  (forall rev level, keeps_timestamps (reversible_SetLevel rev level)) /\
  (forall rev_int, keeps_timestamps (reversible_SaveState rev_int)) /\
  (forall w,
      world_modified_vars (world_clear_modified_vars w) = [] /\
      world_trail_index (world_clear_modified_vars w) = world_trail_index w /\
      world_num_enqueues (world_clear_modified_vars w) = world_num_enqueues w).

End Registration.

End Watcher.

(** * Part II: properties *)

(** ** Facts about references *)

Lemma NegatedRef_involutive ref : NegatedRef (NegatedRef ref) = ref.
Proof. unfold NegatedRef. lia. Qed.

Lemma PositiveRef_nonneg ref : 0 <= PositiveRef ref.
Proof. unfold PositiveRef, NegatedRef. lia. Qed.

Lemma PositiveRef_positive ref : RefIsPositive ref = true -> PositiveRef ref = ref.
Proof. unfold RefIsPositive, PositiveRef, NegatedRef. intros H%Z.leb_le. lia. Qed.

Lemma PositiveRef_negative ref :
  RefIsPositive ref = false -> PositiveRef ref = NegatedRef ref.
Proof. unfold RefIsPositive, PositiveRef, NegatedRef. intros H%Z.leb_gt. lia. Qed.

Lemma PositiveRef_NegatedRef ref : PositiveRef (NegatedRef ref) = PositiveRef ref.
Proof. unfold PositiveRef, NegatedRef. lia. Qed.

Lemma RefIsPositive_NegatedRef ref :
  RefIsPositive (NegatedRef ref) = negb (RefIsPositive ref).
Proof.
  unfold RefIsPositive, NegatedRef.
  destruct (Z.leb_spec 0 ref), (Z.leb_spec 0 (- ref - 1)); simpl; auto; lia.
Qed.

(** ** Facts about domains *)

Section DomainFacts.
Import Domain.

Lemma in_interval_iff v i : in_interval v i = true <-> start i <= v <= end_ i.
Proof. unfold in_interval. rewrite andb_true_iff, !Z.leb_le. tauto. Qed.

Lemma elem_iff v (d : t) : elem v d <-> exists i, In i d /\ start i <= v <= end_ i.
Proof.
  unfold elem, Contains. rewrite existsb_exists.
  split; intros (i & Hi & H); exists i; split; auto; apply in_interval_iff; auto.
Qed.

Lemma elem_nil v : ~ elem v [].
Proof. rewrite elem_iff. intros (i & [] & _). Qed.

Lemma elem_cons v i (d : t) :
  elem v (i :: d) <-> start i <= v <= end_ i \/ elem v d.
Proof.
  rewrite !elem_iff. split.
  - intros (j & [-> | Hj] & H); [left; auto | right; eauto].
  - intros [H | (j & Hj & H)]; [exists i | exists j]; simpl; auto.
Qed.

Lemma elem_app v (d1 d2 : t) : elem v (d1 ++ d2) <-> elem v d1 \/ elem v d2.
Proof.
  rewrite !elem_iff. setoid_rewrite in_app_iff. split.
  - intros (i & [H | H] & Hv); [left | right]; eauto.
  - intros [(i & H & Hv) | (i & H & Hv)]; eauto.
Qed.

Lemma elem_flat_map v (f : ClosedInterval -> t) (d : t) :
  elem v (flat_map f d) <-> exists i, In i d /\ elem v (f i).
Proof.
  induction d as [| a d IH]; simpl.
  - split; [intros H; destruct (elem_nil _ H) | intros (i & [] & _)].
  - rewrite elem_app, IH. split.
    + intros [H | (i & Hi & H)]; eauto.
    + intros (i & [-> | Hi] & H); eauto.
Qed.

Lemma elem_FromInterval v l r : elem v (FromInterval l r) <-> l <= v <= r.
Proof.
  unfold FromInterval. destruct (Z.leb_spec l r).
  - rewrite elem_cons. simpl. split; [intros [Hv | Hv]; auto; destruct (elem_nil _ Hv) | auto].
  - split; [intros Hv; destruct (elem_nil _ Hv) | lia].
Qed.

Lemma elem_Singleton v x : elem v (Singleton x) <-> v = x.
Proof.
  unfold Singleton. rewrite elem_cons. simpl.
  split; [intros [H | H]; [lia | destruct (elem_nil _ H)] | intros ->; left; lia].
Qed.

Lemma elem_interval_inter v i j :
  elem v (interval_inter i j) <-> (start i <= v <= end_ i) /\ (start j <= v <= end_ j).
Proof. unfold interval_inter. rewrite elem_FromInterval. lia. Qed.

(** The intersection has the intersection of the value sets. *)
Lemma elem_IntersectionWith v (d other : t) :
  elem v (IntersectionWith d other) <-> elem v d /\ elem v other.
Proof.
  unfold IntersectionWith. rewrite elem_flat_map. setoid_rewrite elem_flat_map.
  setoid_rewrite elem_interval_inter. rewrite !elem_iff. split.
  - intros (i & Hi & j & Hj & H1 & H2). eauto 6.
  - intros [(i & Hi & H1) (j & Hj & H2)]. eauto 8.
Qed.

(** The negation has the opposite values. *)
Lemma elem_Negation v (d : t) : elem v (Negation d) <-> elem (- v) d.
Proof.
  unfold Negation. rewrite !elem_iff. split.
  - intros (i & Hi & H). apply in_rev, in_map_iff in Hi as (j & <- & Hj).
    simpl in H. exists j. split; auto. lia.
  - intros (j & Hj & H). exists (MkInterval (- end_ j) (- start j)). split.
    + apply in_rev. rewrite rev_involutive. apply in_map_iff. eauto.
    + simpl. lia.
Qed.

Lemma wf_nonempty_intervals (d : t) i : wf d -> In i d -> start i <= end_ i.
Proof.
  induction d as [| a d IH]; simpl; [tauto |].
  intros (H1 & _ & H3) [-> | Hi]; auto.
Qed.

Lemma wf_tail a (d : t) : wf (a :: d) -> wf d.
Proof. simpl. tauto. Qed.

Lemma wf_head_separated a (d : t) j : wf (a :: d) -> In j d -> end_ a + 1 < start j.
Proof.
  revert a. induction d as [| b d IH]; simpl; [tauto |].
  intros a (Ha & Hab & Hb & Hbd & Hd) [-> | Hj]; auto.
  assert (end_ b + 1 < start j) by (apply IH; simpl; auto).
  lia.
Qed.

Lemma wf_separated (d : t) i j :
  wf d -> In i d -> In j d ->
  i = j \/ end_ i + 1 < start j \/ end_ j + 1 < start i.
Proof.
  induction d as [| a d IH]; simpl; [tauto |].
  intros Hwf [-> | Hi] [-> | Hj]; auto.
  - right; left. eapply wf_head_separated; eauto.
  - right; right. eapply wf_head_separated; eauto.
  - apply IH; tauto.
Qed.

(** An empty domain has no value, and conversely for a well-formed one. *)
Lemma IsEmpty_no_elem (d : t) : IsEmpty d = true -> forall v, ~ elem v d.
Proof. destruct d; [intros _; apply elem_nil | discriminate]. Qed.

Lemma not_IsEmpty_elem (d : t) : wf d -> IsEmpty d = false -> elem (Min d) d.
Proof.
  destruct d as [| a d]; [discriminate |]. intros (Ha & _) _.
  apply elem_cons. left. unfold Min, front. simpl. lia.
Qed.

Lemma IsEmpty_IntersectionWith (d other : t) :
  IsEmpty (IntersectionWith d other) = true <->
  forall v, ~ (elem v d /\ elem v other).
Proof.
  split.
  - intros H v Hv. apply elem_IntersectionWith in Hv. eapply IsEmpty_no_elem; eauto.
  - intros H. destruct (IntersectionWith d other) as [| a r] eqn:E; auto.
    exfalso. assert (Ha : In a (IntersectionWith d other)) by (rewrite E; simpl; auto).
    unfold IntersectionWith in Ha.
    apply in_flat_map in Ha as (i & Hi & Ha). apply in_flat_map in Ha as (j & Hj & Ha).
    unfold interval_inter, FromInterval in Ha.
    destruct (Z.leb_spec (Z.max (start i) (start j)) (Z.min (end_ i) (end_ j)));
      [| destruct Ha].
    apply (H (Z.max (start i) (start j))). rewrite !elem_iff. split.
    + exists i. split; auto. lia.
    + exists j. split; auto. lia.
Qed.

(** Inclusion of the interval lists is inclusion of the value sets. *)
Lemma IsIncludedIn_spec (d other : t) :
  wf d -> wf other ->
  (IsIncludedIn d other = true <-> forall v, elem v d -> elem v other).
Proof.
  intros Hd Ho. unfold IsIncludedIn. rewrite forallb_forall. split.
  - intros H v (i & Hi & Hv)%elem_iff.
    specialize (H i Hi). apply existsb_exists in H as (j & Hj & Hij).
    unfold interval_included in Hij. apply andb_true_iff in Hij as [H1%Z.leb_le H2%Z.leb_le].
    apply elem_iff. exists j. split; auto. lia.
  - intros H i Hi. apply existsb_exists.
    pose proof (wf_nonempty_intervals _ _ Hd Hi) as Hne.
    assert (Hs : elem (start i) other).
    { apply H, elem_iff. exists i. split; auto. lia. }
    apply elem_iff in Hs as (j & Hj & Hsj).
    exists j. split; auto. unfold interval_included.
    apply andb_true_iff. rewrite !Z.leb_le. split; [lia |].
    destruct (Z.le_gt_cases (end_ i) (end_ j)) as [| Hgt]; auto. exfalso.
    assert (Hn : elem (end_ j + 1) other).
    { apply H, elem_iff. exists i. split; auto. lia. }
    apply elem_iff in Hn as (k & Hk & Hnk).
    destruct (wf_separated _ _ _ Ho Hj Hk) as [-> | [Hsep | Hsep]]; lia.
Qed.

Lemma forallb_false_witness {A} (f : A -> bool) (l : list A) :
  forallb f l = false -> exists x, In x l /\ f x = false.
Proof.
  induction l as [| a l IH]; simpl; [discriminate |].
  intros [E | E]%andb_false_iff; [exists a; auto |].
  destruct (IH E) as (x & Hx & H). exists x; auto.
Qed.

(** When the inclusion test fails, some value of the first domain is
    missing from the second. *)
Lemma not_IsIncludedIn_witness (d other : t) :
  wf d -> wf other ->
  IsIncludedIn d other = false ->
  exists v, elem v d /\ ~ elem v other.
Proof.
  intros Hd Ho H. apply forallb_false_witness in H as (i & Hi & Hno).
  pose proof (wf_nonempty_intervals _ _ Hd Hi) as Hne.
  assert (Hin : forall v, start i <= v <= end_ i -> elem v d).
  { intros v Hv. apply elem_iff. eauto. }
  destruct (Contains other (start i)) eqn:Es.
  - apply elem_iff in Es as (j & Hj & Hsj).
    assert (Hlt : end_ j < end_ i).
    { destruct (Z.lt_ge_cases (end_ j) (end_ i)) as [| Hge]; auto. exfalso.
      assert (Hc : existsb (interval_included i) other = true).
      { apply existsb_exists. exists j. split; auto. unfold interval_included.
        apply andb_true_iff. rewrite !Z.leb_le. lia. }
      congruence. }
    exists (end_ j + 1). split; [apply Hin; lia |].
    intros (k & Hk & Hnk)%elem_iff.
    destruct (wf_separated _ _ _ Ho Hj Hk) as [-> | [Hsep | Hsep]]; lia.
  - exists (start i). split; [apply Hin; lia |].
    unfold elem. congruence.
Qed.

Lemma wf_snoc (d : t) x :
  wf (d ++ [x]) <->
  wf d /\ start x <= end_ x /\ (forall y, In y d -> end_ y + 1 < start x).
Proof.
  induction d as [| a d IH].
  - simpl. split; [intros (H & _); repeat split; auto; intros y [] | tauto].
  - change ((a :: d) ++ [x]) with (a :: (d ++ [x])).
    split.
    + intros Hwf. pose proof (wf_tail _ _ Hwf) as Ht. apply IH in Ht as (Hd & Hx & Hsep).
      repeat split; auto.
      * simpl in Hwf. tauto.
      * destruct d; simpl in *; tauto.
      * intros y [-> | Hy]; auto.
        eapply wf_head_separated; eauto. apply in_app_iff. simpl. auto.
    + intros ((Ha & Had & Hd) & Hx & Hsep). simpl. repeat split; auto.
      * destruct d as [| b d]; simpl; [apply Hsep; simpl; auto | exact Had].
      * apply IH. repeat split; auto. intros y Hy. apply Hsep. simpl. auto.
Qed.

(** Negation keeps the representation invariant. *)
Lemma wf_Negation (d : t) : wf d -> wf (Negation d).
Proof.
  unfold Negation. induction d as [| a d IH]; simpl; auto.
  intros Hwf. apply wf_snoc. repeat split.
  - apply IH. eapply wf_tail; eauto.
  - simpl. destruct Hwf. lia.
  - intros y Hy. apply in_rev, in_map_iff in Hy as (j & <- & Hj). simpl.
    pose proof (wf_head_separated _ _ _ Hwf Hj). lia.
Qed.

Lemma wf_FromInterval l r : wf (FromInterval l r).
Proof. unfold FromInterval. destruct (Z.leb_spec l r); simpl; auto. Qed.

Lemma wf_Singleton v : wf (Singleton v).
Proof. simpl. lia. Qed.

End DomainFacts.

(** ** The presolve context *)

Section ContextFacts.
Context {AR : Type} `{!AffineRelationOps AR}.
Implicit Type ctx : PresolveContext AR.

Lemma bitset_set_elem var positions : var ∈ bitset_set var positions.
Proof.
  unfold bitset_set. destruct (decide (var ∈ positions)); auto.
  apply elem_of_app. right. apply list_elem_of_singleton. reflexivity.
Qed.

Lemma domain_at_in_range ctx var d :
  domain_at ctx var = Some d ->
  0 <= var /\ domains ctx !! Z.to_nat var = Some d.
Proof.
  unfold domain_at. destruct (Z.leb_spec 0 var); [auto | discriminate].
Qed.

Lemma IsEmpty_Negation (d : Domain.t) :
  Domain.IsEmpty (Domain.Negation d) = Domain.IsEmpty d.
Proof.
  unfold Domain.Negation. destruct d as [| a d]; simpl; auto.
  destruct (rev _ ++ _) eqn:E; auto. apply app_eq_nil in E as [_ E]. discriminate.
Qed.

Lemma DomainOf_view ctx ref cur :
  domain_at ctx (PositiveRef ref) = Some cur ->
  DomainOf ctx ref
  = Some (if RefIsPositive ref then cur else Domain.Negation cur).
Proof. intros H. unfold DomainOf. rewrite H. reflexivity. Qed.

(** Membership in the domain of a reference, seen from its variable. *)
Lemma elem_view ref v (cur : Domain.t) :
  Domain.elem v (if RefIsPositive ref then cur else Domain.Negation cur)
  <-> Domain.elem (if RefIsPositive ref then v else - v) cur.
Proof. destruct (RefIsPositive ref); [tauto | apply elem_Negation]. Qed.

(** What [IntersectDomainWith] computes, on the variable of the
    reference. *)
Lemma IntersectDomainWith_unfold ctx ref (d cur : Domain.t) :
  domain_at ctx (PositiveRef ref) = Some cur ->
  Domain.IsEmpty cur = false ->
  let other := if RefIsPositive ref then d else Domain.Negation d in
  let new := Domain.IntersectionWith cur other in
  IntersectDomainWith ref d ctx
  = Some
      (if Domain.IsIncludedIn cur other then (false, ctx)
       else
         (true,
          let ctx2 :=
            set_modified_domains (bitset_set (PositiveRef ref) (modified_domains ctx))
              (set_domains (<[Z.to_nat (PositiveRef ref) := new]> (domains ctx)) ctx) in
          if Domain.IsEmpty new then set_is_unsat true ctx2 else ctx2)).
Proof.
  intros Hcur Hne. unfold IntersectDomainWith, checked_domain.
  rewrite Hcur. simpl. rewrite Hne. simpl.
  destruct (Domain.IsIncludedIn cur _); reflexivity.
Qed.

(** C3.  [IntersectDomainWith(ref, d)], called on a reference whose
    current domain is not empty, replaces the domain of the reference by
    its intersection with [d]; it returns false exactly when the current
    domain is included in [d] (and then changes nothing) and true exactly
    when the domain strictly shrank; when it returns true the variable is
    marked in [modified_domains]; the unsat flag is set exactly when the
    intersection is empty. *)
Theorem IntersectDomainWith_spec ctx ref (d cur : Domain.t) :
  domain_at ctx (PositiveRef ref) = Some cur ->
  Domain.IsEmpty cur = false ->
  Domain.wf cur -> Domain.wf d ->
  exists changed ctx' before after,
    IntersectDomainWith ref d ctx = Some (changed, ctx') /\
    DomainOf ctx ref = Some before /\
    DomainOf ctx' ref = Some after /\
    (forall v, Domain.elem v after <-> Domain.elem v before /\ Domain.elem v d) /\
    (changed = false <-> forall v, Domain.elem v before -> Domain.elem v d) /\
    (changed = true <-> exists v, Domain.elem v before /\ ~ Domain.elem v after) /\
    (changed = false -> ctx' = ctx) /\
    (changed = true -> PositiveRef ref ∈ modified_domains ctx') /\
    is_unsat ctx' = is_unsat ctx || Domain.IsEmpty after /\
    (Domain.IsEmpty after = true
     <-> forall v, ~ (Domain.elem v before /\ Domain.elem v d)).
Proof.
  intros Hcur Hne Hwf Hwfd.
  pose proof (IntersectDomainWith_unfold ctx ref d cur Hcur Hne) as Hrun.
  cbv zeta in Hrun.
  set (other := if RefIsPositive ref then d else Domain.Negation d) in *.
  set (new := Domain.IntersectionWith cur other) in *.
  set (before := if RefIsPositive ref then cur else Domain.Negation cur).
  assert (Hwfo : Domain.wf other).
  { unfold other. destruct (RefIsPositive ref); auto using wf_Negation. }
  (* Values of the reference against values of its variable. *)
  assert (Hother : forall v,
             Domain.elem (if RefIsPositive ref then v else - v) other <-> Domain.elem v d).
  { intros v. unfold other. destruct (RefIsPositive ref); [tauto |].
    rewrite elem_Negation. replace (- - v) with v by lia. tauto. }
  assert (Hbefore : forall v,
             Domain.elem v before
             <-> Domain.elem (if RefIsPositive ref then v else - v) cur).
  { intros v. apply elem_view. }
  assert (Hincl : Domain.IsIncludedIn cur other = true
                  <-> forall v, Domain.elem v before -> Domain.elem v d).
  { rewrite (IsIncludedIn_spec cur other Hwf Hwfo). split.
    - intros H v Hv. apply Hother, H, Hbefore, Hv.
    - intros H v Hv.
      specialize (H (if RefIsPositive ref then v else - v)).
      rewrite Hbefore, <- Hother in H.
      destruct (RefIsPositive ref); [auto |].
      replace (- - v) with v in H by lia. auto. }
  destruct (domain_at_in_range _ _ _ Hcur) as [Hpos Hlook].
  destruct (Domain.IsIncludedIn cur other) eqn:Einc.
  - (* Already included: nothing changes. *)
    exists false, ctx, before, before.
    assert (Hall : forall v, Domain.elem v before -> Domain.elem v d) by (apply Hincl; auto).
    split; [exact Hrun |].
    split; [apply DomainOf_view; auto |].
    split; [apply DomainOf_view; auto |].
    split; [intros v; split; [intros Hv; split; auto | tauto] |].
    split; [tauto |].
    split; [split; [discriminate | intros (v & Hv & Hn); tauto] |].
    split; [auto |].
    split; [discriminate |].
    assert (Hbne : Domain.IsEmpty before = false).
    { unfold before. destruct (RefIsPositive ref); [auto | rewrite IsEmpty_Negation; auto]. }
    split; [rewrite Hbne, orb_false_r; reflexivity |].
    rewrite Hbne. split; [discriminate |].
    intros Hno. exfalso.
    assert (Hwfb : Domain.wf before).
    { unfold before. destruct (RefIsPositive ref); auto using wf_Negation. }
    pose proof (not_IsEmpty_elem before Hwfb Hbne) as Hmin.
    apply (Hno (Domain.Min before)). split; auto.
  - (* The domain shrinks. *)
    set (ctx2 := set_modified_domains _ _) in Hrun.
    set (ctx' := if Domain.IsEmpty new then set_is_unsat true ctx2 else ctx2) in Hrun.
    set (after := if RefIsPositive ref then new else Domain.Negation new).
    assert (Hdom' : domain_at ctx' (PositiveRef ref) = Some new).
    { unfold domain_at. destruct (Z.leb_spec 0 (PositiveRef ref)); [| lia].
      assert (Hd2 : domains ctx' = <[Z.to_nat (PositiveRef ref) := new]> (domains ctx)).
      { unfold ctx'. destruct (Domain.IsEmpty new); reflexivity. }
      rewrite Hd2. apply list_lookup_insert_eq. eapply lookup_lt_Some; eauto. }
    assert (Hafter : forall v,
               Domain.elem v after <-> Domain.elem v before /\ Domain.elem v d).
    { intros v. unfold after. rewrite elem_view. unfold new.
      rewrite elem_IntersectionWith, Hbefore, Hother. tauto. }
    assert (Hnot : ~ forall v, Domain.elem v before -> Domain.elem v d).
    { intros H. apply Hincl in H. congruence. }
    exists true, ctx', before, after.
    split; [exact Hrun |].
    split; [apply DomainOf_view; auto |].
    split; [apply DomainOf_view; auto |].
    split; [exact Hafter |].
    split; [split; [discriminate | tauto] |].
    split.
    { split; [intros _ | auto].
      (* Some value of the old domain is outside [d]. *)
      destruct (not_IsIncludedIn_witness cur other Hwf Hwfo Einc) as (v & Hv & Hn).
      exists (if RefIsPositive ref then v else - v).
      assert (Hvv : (if RefIsPositive ref
                     then (if RefIsPositive ref then v else - v)
                     else - (if RefIsPositive ref then v else - v)) = v).
      { destruct (RefIsPositive ref); lia. }
      split.
      - apply Hbefore. rewrite Hvv. exact Hv.
      - intros [_ Hd]%Hafter. apply Hother in Hd. rewrite Hvv in Hd. auto. }
    split; [discriminate |].
    split.
    { intros _. unfold ctx'.
      assert (PositiveRef ref ∈ modified_domains ctx2) by apply bitset_set_elem.
      destruct (Domain.IsEmpty new); auto. }
    assert (Hie : Domain.IsEmpty after = Domain.IsEmpty new).
    { unfold after. destruct (RefIsPositive ref); [auto | apply IsEmpty_Negation]. }
    split.
    { rewrite Hie. unfold ctx'. destruct (Domain.IsEmpty new); simpl;
        [rewrite orb_true_r | rewrite orb_false_r]; reflexivity. }
    rewrite Hie. unfold new. rewrite IsEmpty_IntersectionWith. split.
    + intros H v [Hb Hd]. apply (H (if RefIsPositive ref then v else - v)).
      rewrite <- Hbefore, Hother. auto.
    + intros H v [Hc Ho].
      apply (H (if RefIsPositive ref then v else - v)).
      rewrite Hbefore, <- Hother.
      destruct (RefIsPositive ref); [auto |].
      replace (- - v) with v by lia. auto.
Qed.

End ContextFacts.

(** ** Boolean equality relations *)

Section EqualityFacts.
Context {AR : Type} `{!AffineRelationOps AR}.
Implicit Type ctx : PresolveContext AR.

(** C10.  [AddBooleanEqualityRelation(ref_a, ref_b)] with [ref_a] equal
    to [ref_b] leaves the context unchanged; with [ref_a] equal to the
    negation of [ref_b] it sets the unsat flag and changes nothing else
    (domains, relations, working and mapping model, graph are the same). *)
Theorem AddBooleanEqualityRelation_same_or_opposite ctx ref :
  AddBooleanEqualityRelation ref ref ctx = Some ctx /\
  exists ctx',
    AddBooleanEqualityRelation (NegatedRef ref) ref ctx = Some ctx' /\
    is_unsat ctx' = true /\
    ctx' = set_is_unsat true ctx /\
    domains ctx' = domains ctx /\
    modified_domains ctx' = modified_domains ctx /\
    affine_relations ctx' = affine_relations ctx /\
    var_equiv_relations ctx' = var_equiv_relations ctx /\
    affine_constraints ctx' = affine_constraints ctx /\
    constant_to_ref ctx' = constant_to_ref ctx /\
    working_model ctx' = working_model ctx /\
    mapping_model ctx' = mapping_model ctx /\
    constraint_to_vars ctx' = constraint_to_vars ctx /\
    var_to_constraints ctx' = var_to_constraints ctx /\
    stats_by_rule_name ctx' = stats_by_rule_name ctx.
Proof.
  split.
  - unfold AddBooleanEqualityRelation. rewrite Z.eqb_refl. reflexivity.
  - exists (set_is_unsat true ctx). split; [| repeat split].
    unfold AddBooleanEqualityRelation.
    assert (Hne : (NegatedRef ref =? ref) = false).
    { apply Z.eqb_neq. unfold NegatedRef. lia. }
    rewrite Hne, Z.eqb_refl. reflexivity.
Qed.

End EqualityFacts.

(** ** Clauses *)

Section BoolOrFacts.
Context {AR : Type} `{!AffineRelationOps AR}.
Implicit Type ctx : PresolveContext AR.

Lemma same_view_refl ctx : same_view ctx ctx.
Proof. repeat split. Qed.

Lemma same_view_queries ctx1 ctx2 lit :
  same_view ctx1 ctx2 ->
  LiteralIsFalse ctx1 lit = LiteralIsFalse ctx2 lit /\
  LiteralIsTrue ctx1 lit = LiteralIsTrue ctx2 lit /\
  VariableIsUniqueAndRemovable ctx1 lit = VariableIsUniqueAndRemovable ctx2 lit.
Proof.
  intros (Hd & Hg & He).
  unfold LiteralIsFalse, LiteralIsTrue, VariableIsUniqueAndRemovable,
    checked_domain, domain_at.
  rewrite Hd, Hg, He. auto.
Qed.

Lemma boolean_literal_queries ctx lit :
  boolean_literal ctx lit ->
  LiteralIsFalse ctx lit = Some (fixed_false ctx lit) /\
  LiteralIsTrue ctx lit = Some (fixed_true ctx lit) /\
  VariableIsUniqueAndRemovable ctx lit = Some (singleton_removable ctx lit).
Proof.
  intros [(d & Hd & Hcase) [s Hs]].
  unfold fixed_false, fixed_true, singleton_removable,
    LiteralIsFalse, LiteralIsTrue, VariableIsUniqueAndRemovable, checked_domain.
  rewrite Hd.
  pose proof (PositiveRef_nonneg lit) as Hpos.
  destruct (Z.leb_spec 0 (PositiveRef lit)); [| lia].
  rewrite Hs.
  destruct Hcase as [-> | [-> | ->]]; simpl; destruct (RefIsPositive lit); auto.
Qed.

(** A free Boolean literal is neither fixed true nor fixed false; setting
    it to true fixes it to true and reports no infeasibility. *)
Lemma free_literal ctx lit :
  boolean_literal ctx lit ->
  fixed_false ctx lit = false -> fixed_true ctx lit = false ->
  domain_at ctx (PositiveRef lit) = Some [MkInterval 0 1].
Proof.
  intros [(d & Hd & Hcase) _]. unfold fixed_false, fixed_true,
    LiteralIsFalse, LiteralIsTrue, checked_domain.
  rewrite Hd.
  destruct Hcase as [-> | [-> | ->]]; simpl; auto;
    destruct (RefIsPositive lit); simpl; discriminate.
Qed.

Lemma SetLiteralToTrue_free ctx lit :
  domain_at ctx (PositiveRef lit) = Some [MkInterval 0 1] ->
  exists ctx',
    SetLiteralToTrue lit ctx = Some ctx' /\
    LiteralIsTrue ctx' lit = Some true /\
    is_unsat ctx' = is_unsat ctx.
Proof.
  intros Hd.
  destruct (domain_at_in_range _ _ _ Hd) as [Hpos Hlook].
  assert (Hpp : PositiveRef (PositiveRef lit) = PositiveRef lit).
  { apply PositiveRef_positive. unfold RefIsPositive. apply Z.leb_le. exact Hpos. }
  assert (Hrp : RefIsPositive (PositiveRef lit) = true).
  { unfold RefIsPositive. apply Z.leb_le. exact Hpos. }
  unfold SetLiteralToTrue, SetLiteralToFalse.
  rewrite PositiveRef_NegatedRef, RefIsPositive_NegatedRef.
  unfold IsFixed, checked_domain. rewrite Hpp, Hd. simpl.
  rewrite (IntersectDomainWith_unfold ctx (PositiveRef lit) _ [MkInterval 0 1]);
    [| rewrite Hpp; exact Hd | reflexivity].
  rewrite Hrp, Hpp. simpl.
  assert (Hlen : (Z.to_nat (PositiveRef lit) < length (domains ctx))%nat).
  { eapply lookup_lt_Some; eauto. }
  destruct (RefIsPositive lit) eqn:Er; simpl.
  - eexists. split; [reflexivity |]. split; [| reflexivity].
    unfold LiteralIsTrue, checked_domain, domain_at. simpl.
    destruct (Z.leb_spec 0 (PositiveRef lit)); [| lia].
    rewrite list_lookup_insert_eq by exact Hlen. simpl. rewrite Er. reflexivity.
  - eexists. split; [reflexivity |]. split; [| reflexivity].
    unfold LiteralIsTrue, checked_domain, domain_at. simpl.
    destruct (Z.leb_spec 0 (PositiveRef lit)); [| lia].
    rewrite list_lookup_insert_eq by exact Hlen. simpl. rewrite Er. reflexivity.
Qed.

Lemma boolean_literal_same_view ctx1 ctx2 lit :
  same_view ctx1 ctx2 -> boolean_literal ctx2 lit -> boolean_literal ctx1 lit.
Proof.
  intros (Hd & Hg & _) [(d & Hdom & Hc) Hs]. split.
  - exists d. split; auto. unfold domain_at in *. rewrite Hd. exact Hdom.
  - rewrite Hg. exact Hs.
Qed.

Lemma fixed_false_same_view ctx1 ctx2 :
  same_view ctx1 ctx2 ->
  forall lit, fixed_false ctx1 lit = fixed_false ctx2 lit /\
              fixed_true ctx1 lit = fixed_true ctx2 lit /\
              singleton_removable ctx1 lit = singleton_removable ctx2 lit.
Proof.
  intros Hv lit. destruct (same_view_queries ctx1 ctx2 lit Hv) as (H1 & H2 & H3).
  unfold fixed_false, fixed_true, singleton_removable. rewrite H1, H2, H3. auto.
Qed.

Lemma filter_length_eq {A} (f : A -> bool) (l : list A) :
  length (List.filter f l) = length l -> List.filter f l = l.
Proof.
  induction l as [| a l IH]; simpl; auto.
  destruct (f a); simpl; intros H.
  - f_equal. apply IH. lia.
  - pose proof (filter_length_le f l). lia.
Qed.

(** The scan of the literals against its description: it returns, having
    removed the constraint, at the first remaining literal that is fixed
    true or singleton-removable (which it sets to true); otherwise it
    leaves the remaining literals in [tmp_literals], and reports a change
    when a literal was dropped. *)
Lemma bool_or_scan_spec ct ctx0 lits :
  Forall (boolean_literal ctx0) lits ->
  forall changed ctx,
    same_view ctx ctx0 ->
    exists r,
      bool_or_scan ct lits changed ctx = Some r /\
      match List.find (satisfies_clause ctx0) (remaining_literals ctx0 lits) with
      | Some l0 =>
          exists ctx',
            r = ScanReturned (true, empty_constraint, ctx') /\
            LiteralIsTrue ctx' l0 = Some true /\
            is_unsat ctx' = is_unsat ctx
      | None =>
          r = ScanDone
                (changed
                 || (length (remaining_literals ctx0 lits) <? length lits)%nat)
                (set_tmp_literals (tmp_literals ctx ++ remaining_literals ctx0 lits) ctx)
      end.
Proof.
  induction 1 as [| lit lits Hlit Hall IH]; intros changed ctx Hview.
  - simpl. eexists. split; [reflexivity |].
    rewrite app_nil_r, orb_false_r. destruct ctx; reflexivity.
  - pose proof (boolean_literal_same_view _ _ _ Hview Hlit) as Hlit'.
    destruct (boolean_literal_queries ctx lit Hlit') as (Hf & Ht & Hu).
    destruct (fixed_false_same_view ctx ctx0 Hview lit) as (Ef & Et & Eu).
    simpl bool_or_scan. rewrite Hf. simpl.
    unfold remaining_literals. simpl List.filter. rewrite <- Ef.
    fold (remaining_literals ctx0 lits).
    pose proof (filter_length_le (fun l => negb (fixed_false ctx0 l)) lits) as Hle.
    fold (remaining_literals ctx0 lits) in Hle.
    destruct (fixed_false ctx lit) eqn:Efalse; simpl.
    + (* Fixed false: dropped. *)
      destruct (IH true ctx Hview) as (r & Hr & Hspec). exists r. split; [exact Hr |].
      destruct (List.find _ _); [exact Hspec |].
      rewrite Hspec. f_equal. rewrite orb_true_l. simpl length.
      destruct (Nat.ltb_spec (length (remaining_literals ctx0 lits)) (S (length lits)));
        [symmetry; apply orb_true_r | lia].
    + rewrite Ht. simpl. unfold satisfies_clause at 1. rewrite <- Et, <- Eu.
      destruct (fixed_true ctx lit) eqn:Etrue; simpl.
      * (* Fixed true: the constraint is removed. *)
        eexists. split; [reflexivity |]. eexists. split; [reflexivity |].
        split; [| reflexivity].
        rewrite <- Ht. apply same_view_queries. repeat split.
      * rewrite Hu. simpl.
        destruct (singleton_removable ctx lit) eqn:Euniq; simpl.
        -- (* Singleton: set to true, the constraint is removed. *)
           pose proof (free_literal ctx lit Hlit' Efalse Etrue) as Hfree.
           destruct (SetLiteralToTrue_free
                       (UpdateRuleStats "bool_or: singleton" ctx) lit Hfree)
             as (ctx' & Hset & Htrue & Hunsat).
           rewrite Hset. simpl.
           eexists. split; [reflexivity |]. exists ctx'. split; [reflexivity |].
           split; [exact Htrue | exact Hunsat].
        -- (* Kept. *)
           set (ctx1 := set_tmp_literals (tmp_literals ctx ++ [lit]) ctx).
           assert (Hview1 : same_view ctx1 ctx0).
           { destruct Hview as (H1 & H2 & H3). repeat split; assumption. }
           destruct (IH changed ctx1 Hview1) as (r & Hr & Hspec).
           exists r. split; [exact Hr |].
           destruct (List.find _ _).
           ++ destruct Hspec as (ctx' & H1 & H2 & H3). exists ctx'. auto.
           ++ rewrite Hspec. f_equal.
              unfold ctx1. simpl. rewrite <- app_assoc. reflexivity.
Qed.

(** C6.  [PresolveBoolOr] on a clause over Boolean literals: fixed-false
    literals are dropped; if a remaining literal is fixed true or is a
    singleton removable literal, the constraint is removed and that
    literal is (set) true.  Otherwise, with no remaining literal the unsat
    flag is set; with exactly one, it is fixed true and the constraint is
    removed; with exactly two, the constraint becomes a bool_and whose
    enforcement literal is the negation of the first and whose body is the
    second; with more, the clause keeps the remaining literals. *)
Theorem PresolveBoolOr_spec ct ctx :
  Forall (boolean_literal ctx) (clause_literals ct) ->
  exists changed ct' ctx',
    PresolveBoolOr ct ctx = Some (changed, ct', ctx') /\
    let kept := remaining_literals ctx (clause_literals ct) in
    match List.find (satisfies_clause ctx) kept with
    | Some l0 =>
        ct' = empty_constraint /\ changed = true /\
        LiteralIsTrue ctx' l0 = Some true /\ is_unsat ctx' = is_unsat ctx
    | None =>
        match kept with
        | [] => is_unsat ctx' = true /\ changed = true
        | [a] =>
            LiteralIsTrue ctx' a = Some true /\ ct' = empty_constraint /\
            is_unsat ctx' = is_unsat ctx
        | [a; b] =>
            ct' = MkConstraint [NegatedRef a] (kBoolAnd [b]) /\
            is_unsat ctx' = is_unsat ctx
        | _ =>
            ct' = MkConstraint [] (kBoolOr kept) /\ is_unsat ctx' = is_unsat ctx
        end
    end.
Proof.
  intros Hall. unfold PresolveBoolOr.
  (* The clause after the enforcement literals were moved into it. *)
  set (pre := if HasEnforcementLiteral ct then _ else _).
  assert (Hpre : exists ct1 ctx1,
             pre = (ct1, ctx1) /\ same_view ctx1 ctx /\ is_unsat ctx1 = is_unsat ctx /\
             bool_or_literals ct1 = clause_literals ct /\
             enforcement_literal ct1 = [] /\
             (clause_literals ct <> [] -> ct1 = MkConstraint [] (kBoolOr (clause_literals ct)))).
  { unfold pre, HasEnforcementLiteral, clause_literals.
    destruct (enforcement_literal ct) as [| e es] eqn:Ee.
    - exists ct, ctx. rewrite app_nil_r. repeat split; auto.
      intros Hne. destruct ct as [enf k]. simpl in *. subst enf.
      unfold bool_or_literals in *. simpl in *. destruct k; try congruence.
    - eexists _, _. split; [reflexivity |]. repeat split. }
  destruct Hpre as (ct1 & ctx1 & -> & Hview & Hunsat1 & Hlits & Henf & Hct1).
  rewrite Hlits.
  set (ctx2 := set_tmp_literals [] ctx1).
  assert (Hview2 : same_view ctx2 ctx).
  { destruct Hview as (H1 & H2 & H3). repeat split; assumption. }
  destruct (bool_or_scan_spec ct1 ctx (clause_literals ct) Hall false ctx2 Hview2)
    as (r & Hr & Hspec).
  rewrite Hr. simpl. cbv zeta.
  destruct (List.find _ _) as [l0 |] eqn:Efind.
  - destruct Hspec as (ctx' & -> & Htrue & Hun).
    exists true, empty_constraint, ctx'. split; [reflexivity |].
    repeat split; auto. rewrite Hun. exact Hunsat1.
  - subst r. simpl.
    set (kept := remaining_literals ctx (clause_literals ct)) in *.
    assert (Hkept_lit : forall a, In a kept ->
               boolean_literal ctx a /\ fixed_false ctx a = false
               /\ fixed_true ctx a = false).
    { intros a Ha. pose proof Ha as Hin. unfold kept, remaining_literals in Hin.
      apply filter_In in Hin as [Hin Hnf]. split; [| split].
      - rewrite Forall_forall in Hall. apply Hall. apply list_elem_of_In. exact Hin.
      - destruct (fixed_false ctx a); [discriminate | reflexivity].
      - pose proof (find_none _ _ Efind a Ha) as Hns.
        unfold satisfies_clause in Hns. apply orb_false_iff in Hns. tauto. }
    destruct kept as [| a [| b [| c rest]]] eqn:Ek.
    + eexists _, _, _. split; [reflexivity |]. split; reflexivity.
    + (* One literal left: unit propagation. *)
      destruct (Hkept_lit a) as (Hb & Hnf & Hnt); [simpl; auto |].
      pose proof (free_literal ctx a Hb Hnf Hnt) as Hfree.
      set (ctx3 := UpdateRuleStats "bool_or: only one literal" _).
      assert (Hfree3 : domain_at ctx3 (PositiveRef a) = Some [MkInterval 0 1]).
      { unfold domain_at in *. destruct Hview as (Hd & _). simpl. rewrite Hd. exact Hfree. }
      destruct (SetLiteralToTrue_free ctx3 a Hfree3) as (ctx' & Hset & Htrue & Hun).
      rewrite Hset. simpl.
      eexists _, _, _. split; [reflexivity |].
      split; [exact Htrue |]. split; [reflexivity |].
      rewrite Hun. simpl. exact Hunsat1.
    + eexists _, _, _. split; [reflexivity |]. rewrite Henf. split; [reflexivity |].
      simpl. exact Hunsat1.
    + assert (Hne : clause_literals ct <> []).
      { intros E. unfold kept, remaining_literals in Ek. rewrite E in Ek. discriminate. }
      specialize (Hct1 Hne).
      destruct (Nat.ltb_spec (length (a :: b :: c :: rest))
                  (length (clause_literals ct))) as [Hlt | Hge]; simpl orb; cbv iota.
      * eexists _, _, _. split; [reflexivity |]. rewrite Henf.
        split; [reflexivity | exact Hunsat1].
      * assert (Hsame : a :: b :: c :: rest = clause_literals ct).
        { rewrite <- Ek. apply filter_length_eq.
          pose proof (filter_length_le (fun l => negb (fixed_false ctx l))
                        (clause_literals ct)) as Hle.
          unfold kept, remaining_literals in Ek. rewrite Ek in *. lia. }
        eexists _, _, _. split; [reflexivity |].
        split; [rewrite Hsame; exact Hct1 |].
        simpl. exact Hunsat1.
Qed.

End BoolOrFacts.

(** ** Examples of the rewriters of clauses and domains *)

Lemma IntersectDomainWith_spec_witness :
  exists changed ctx' after,
    IntersectDomainWith 0 [MkInterval 5 20] (cumulative_example 2 2) = Some (changed, ctx')
    /\ DomainOf ctx' 0 = Some after
    /\ (forall v, Domain.elem v after <-> 0 <= v <= 10 /\ 5 <= v <= 20).
Proof.
  destruct (IntersectDomainWith_spec (cumulative_example 2 2) 0
              [MkInterval 5 20] [MkInterval 0 10])
    as (changed & ctx' & before & after & Hrun & Hbefore & Hafter & Hinter & _);
    [reflexivity | reflexivity | simpl; lia | simpl; lia |].
  exists changed, ctx', after. split; [exact Hrun |]. split; [exact Hafter |].
  intros v. rewrite Hinter.
  injection Hbefore as <-.
  rewrite !elem_cons. simpl.
  split.
  - intros [[H1 | H1] [H2 | H2]];
      try (exfalso; eapply elem_nil; eassumption); auto.
  - intros [H1 H2]. auto.
Defined.

Lemma clause_example_boolean lits :
  Forall (fun l => -3 <= l <= 2) lits ->
  Forall (boolean_literal (clause_example lits))
    (clause_literals (MkConstraint [] (kBoolOr lits))).
Proof.
  intros H. unfold clause_literals. simpl. rewrite app_nil_r.
  eapply Forall_impl; [exact H |]. intros l Hl. simpl in Hl.
  assert (Hcases : l = -3 \/ l = -2 \/ l = -1 \/ l = 0 \/ l = 1 \/ l = 2) by lia.
  split.
  - exists [MkInterval 0 1].
    destruct Hcases as [-> | [-> | [-> | [-> | [-> | ->]]]]]; split; auto.
  - destruct Hcases as [-> | [-> | [-> | [-> | [-> | ->]]]]]; eexists; reflexivity.
Qed.

Lemma PresolveBoolOr_spec_witness :
  exists changed ctx',
    PresolveBoolOr (MkConstraint [] (kBoolOr [0; -2])) (clause_example [0; -2])
    = Some (changed, MkConstraint [-1] (kBoolAnd [-2]), ctx').
Proof.
  destruct (PresolveBoolOr_spec (MkConstraint [] (kBoolOr [0; -2])) (clause_example [0; -2]))
    as (changed & ct' & ctx' & Hrun & Hspec).
  { apply clause_example_boolean. repeat constructor; lia. }
  exists changed, ctx'. rewrite Hrun.
  vm_compute in Hspec. destruct Hspec as [-> _]. reflexivity.
Defined.

(** ** Linear constraints on Booleans *)

Section LinearOnBooleansFacts.
Context {AR : Type} `{!AffineRelationOps AR}.
Implicit Type ctx : PresolveContext AR.

(** The largest coefficient computed by the first loop of
    [PresolveLinearOnBooleans] is always zero: it starts at zero and is
    updated with [std::min] against positive values only. *)
Lemma linear_bool_scan_max_coeff vars coeffs acc ctx r :
  linear_bool_scan vars coeffs acc ctx = Some (Some r) ->
  max_coeff acc = 0 -> max_coeff r = 0.
Proof.
  revert coeffs acc. induction vars as [| var vars IH]; intros coeffs acc Hrun Hacc.
  - simpl in Hrun. assert (acc = r) by congruence. subst r. exact Hacc.
  - destruct coeffs as [| coeff coeffs]; [discriminate |].
    simpl in Hrun. repeat case_guard; simpl in Hrun; try discriminate Hrun.
    destruct (MinOf ctx var) as [mn |]; [| discriminate]. simpl in Hrun.
    destruct (mn =? 0); [| discriminate]. simpl in Hrun.
    destruct (MaxOf ctx var) as [mx |]; [| discriminate]. simpl in Hrun.
    destruct (mx =? 1); [| discriminate]. simpl in Hrun.
    apply IH in Hrun; auto.
    destruct (Z.ltb_spec 0 coeff); simpl; lia.
Qed.

End LinearOnBooleansFacts.


(** ** The at-most-one rewriting of a linear constraint *)

Section AtMostOneFacts.
Context {AR : Type} `{!AffineRelationOps AR}.
Implicit Type ctx : PresolveContext AR.
Implicit Type a : assignment.

Lemma count_true_cons a lit lits :
  count_true a (lit :: lits)
  = ((if literal_holds a lit then 1 else 0) + count_true a lits)%nat.
Proof.
  unfold count_true. destruct (literal_holds a lit) eqn:E.
  - rewrite filter_cons_True by exact E. reflexivity.
  - rewrite filter_cons_False by (rewrite E; discriminate). reflexivity.
Qed.

Lemma literal_holds_negated a var :
  RefIsPositive var = true -> literal_holds a (NegatedRef var) = (a var =? 0).
Proof.
  intros Hpos. unfold literal_holds.
  rewrite RefIsPositive_NegatedRef, Hpos, PositiveRef_NegatedRef. simpl.
  rewrite (PositiveRef_positive _ Hpos). reflexivity.
Qed.

(** What the first loop of [PresolveLinearOnBooleans] computes, read on a
    Boolean assignment: the value of the expression is the sum of the
    negative coefficients plus the magnitudes of the coefficients whose
    literal is true; the smallest magnitude is below every magnitude. *)
Lemma linear_bool_scan_value a ctx M vars : forall coeffs acc r,
  linear_bool_scan vars coeffs acc ctx = Some (Some r) ->
  is_boolean_on a vars ->
  Forall (fun coeff => Z.abs coeff <= M) coeffs ->
  (0 < min_coeff acc -> 0 < min_coeff r) /\
  exists extra,
    foldr Z.add 0 (zip_with (fun var coeff => coeff * ref_value a var) vars coeffs)
    = min_sum r - min_sum acc + extra /\
    Z.of_nat (count_true a (zip_with (fun var coeff =>
                                        if 0 <? coeff then var else NegatedRef var)
                                     vars coeffs))
    * min_coeff r <= extra /\
    extra <= Z.of_nat (count_true a (zip_with (fun var coeff =>
                                                 if 0 <? coeff then var else NegatedRef var)
                                              vars coeffs))
             * M /\
    min_coeff r <= min_coeff acc.
Proof.
  induction vars as [| var vars IH]; intros coeffs acc r Hrun Hbool Hfit.
  - simpl in Hrun. assert (acc = r) by congruence. subst r.
    split; [auto |]. exists 0. simpl. unfold count_true. simpl. lia.
  - destruct coeffs as [| coeff coeffs]; [discriminate |].
    simpl in Hrun.
    destruct (guard (RefIsPositive var = true)) as [Hpos |]; [| discriminate].
    simpl in Hrun.
    destruct (guard (coeff ≠ 0)) as [Hnz |]; [| discriminate]. simpl in Hrun.
    destruct (MinOf ctx var) as [mn |]; [| discriminate]. simpl in Hrun.
    destruct (mn =? 0); [| discriminate]. simpl in Hrun.
    destruct (MaxOf ctx var) as [mx |]; [| discriminate]. simpl in Hrun.
    destruct (mx =? 1); [| discriminate]. simpl in Hrun.
    apply Forall_cons in Hbool as [Hvar Hbool].
    apply Forall_cons in Hfit as [Hcoeff Hfit].
    destruct (IH _ _ _ Hrun Hbool Hfit) as (Hposr & extra & Hsum & Hlow & Hhigh & Hmin).
    simpl zip_with. simpl foldr. rewrite Hsum, count_true_cons.
    unfold ref_value. rewrite Hpos.
    destruct (Z.ltb_spec 0 coeff) as [Hc | Hc]; simpl in Hmin, Hsum, Hposr |- *.
    + split; [intros; apply Hposr; lia |].
      unfold literal_holds. rewrite Hpos.
      destruct Hvar as [-> | ->]; simpl.
      * exists extra. repeat split; try lia.
      * exists (extra + coeff). repeat split; try lia; nia.
    + split; [intros; apply Hposr; lia |].
      rewrite (literal_holds_negated _ _ Hpos).
      destruct Hvar as [-> | ->]; simpl.
      * exists (extra - coeff). repeat split; try lia; nia.
      * exists extra. repeat split; try lia.
Qed.

(** A domain whose last interval starts at the least integer contains,
    among the values that are not below it, those up to its maximum. *)
Lemma Contains_up_to_Max (d : Domain.t) v :
  Domain.wf d -> Domain.IsEmpty d = false ->
  start (Domain.back d) = kint64min -> kint64min <= v ->
  Domain.Contains d v = (v <=? Domain.Max d).
Proof.
  intros Hwf Hne Hstart Hv.
  assert (Hd : d = removelast d ++ [Domain.back d]).
  { apply app_removelast_last. destruct d; [discriminate | discriminate]. }
  rewrite Hd in Hwf. apply wf_snoc in Hwf as (_ & Hback & Hsep).
  unfold Domain.Max.
  destruct (Z.leb_spec v (end_ (Domain.back d))) as [Hle | Hgt].
  - apply elem_iff. exists (Domain.back d). split; [| lia].
    rewrite Hd at 2. apply in_app_iff. right. left. reflexivity.
  - destruct (Domain.Contains d v) eqn:E; [| reflexivity].
    apply elem_iff in E as (i & Hi & Hvi). rewrite Hd in Hi.
    apply in_app_iff in Hi as [Hi | [<- | []]].
    + specialize (Hsep i Hi). lia.
    + lia.
Qed.

(** The same value read from the sum of the positive coefficients. *)
Lemma linear_bool_scan_value_negative a ctx M vars : forall coeffs acc r,
  linear_bool_scan vars coeffs acc ctx = Some (Some r) ->
  is_boolean_on a vars ->
  Forall (fun coeff => Z.abs coeff <= M) coeffs ->
  exists extra,
    foldr Z.add 0 (zip_with (fun var coeff => coeff * ref_value a var) vars coeffs)
    = max_sum r - max_sum acc - extra /\
    Z.of_nat (count_true a (zip_with (fun var coeff =>
                                        if 0 <? coeff then NegatedRef var else var)
                                     vars coeffs))
    * min_coeff r <= extra /\
    extra <= Z.of_nat (count_true a (zip_with (fun var coeff =>
                                                 if 0 <? coeff then NegatedRef var else var)
                                              vars coeffs))
             * M /\
    min_coeff r <= min_coeff acc.
Proof.
  induction vars as [| var vars IH]; intros coeffs acc r Hrun Hbool Hfit.
  - simpl in Hrun. assert (acc = r) by congruence. subst r.
    exists 0. simpl. unfold count_true. simpl. lia.
  - destruct coeffs as [| coeff coeffs]; [discriminate |].
    simpl in Hrun.
    destruct (guard (RefIsPositive var = true)) as [Hpos |]; [| discriminate].
    simpl in Hrun.
    destruct (guard (coeff ≠ 0)) as [Hnz |]; [| discriminate]. simpl in Hrun.
    destruct (MinOf ctx var) as [mn |]; [| discriminate]. simpl in Hrun.
    destruct (mn =? 0); [| discriminate]. simpl in Hrun.
    destruct (MaxOf ctx var) as [mx |]; [| discriminate]. simpl in Hrun.
    destruct (mx =? 1); [| discriminate]. simpl in Hrun.
    apply Forall_cons in Hbool as [Hvar Hbool].
    apply Forall_cons in Hfit as [Hcoeff Hfit].
    destruct (IH _ _ _ Hrun Hbool Hfit) as (extra & Hsum & Hlow & Hhigh & Hmin).
    simpl zip_with. simpl foldr. rewrite Hsum, count_true_cons.
    unfold ref_value. rewrite Hpos.
    destruct (Z.ltb_spec 0 coeff) as [Hc | Hc]; simpl in Hmin, Hsum |- *.
    + rewrite (literal_holds_negated _ _ Hpos).
      destruct Hvar as [-> | ->]; simpl.
      * exists (extra + coeff). repeat split; try lia; nia.
      * exists extra. repeat split; try lia.
    + unfold literal_holds. rewrite Hpos.
      destruct Hvar as [-> | ->]; simpl.
      * exists extra. repeat split; try lia.
      * exists (extra - coeff). repeat split; try lia; nia.
Qed.

(** A domain whose first interval ends at the greatest integer contains,
    among the values that are not above it, those from its minimum on. *)
Lemma Contains_from_Min (d : Domain.t) v :
  Domain.wf d -> Domain.IsEmpty d = false ->
  end_ (Domain.front d) = kint64max -> v <= kint64max ->
  Domain.Contains d v = (Domain.Min d <=? v).
Proof.
  intros Hwf Hne Hend Hv.
  destruct d as [| i d]; [discriminate |].
  unfold Domain.Min, Domain.front in *. simpl hd in *.
  destruct (Z.leb_spec (start i) v) as [Hle | Hgt].
  - apply elem_iff. exists i. split; [left; reflexivity | lia].
  - destruct (Domain.Contains (i :: d) v) eqn:E; [| reflexivity].
    apply elem_iff in E as (j & Hj & Hvj).
    destruct Hj as [<- | Hj]; [lia |].
    pose proof (wf_head_separated _ _ _ Hwf Hj). lia.
Qed.

(** With the test on the largest coefficient that the rewriting into an
    at-most-one means to make (no single literal takes the expression
    above the bound), "at most one Boolean is true" has the feasible
    assignments of the linear constraint. *)
Theorem positive_at_most_one_equivalent a ctx arg sums :
  linear_bool_scan (lin_vars arg) (lin_coeffs arg) (MkSums kint64max 0 0 0) ctx
  = Some (Some sums) ->
  is_boolean_on a (lin_vars arg) ->
  Domain.wf (ReadDomainFromProto (lin_domain arg)) ->
  Domain.IsEmpty (ReadDomainFromProto (lin_domain arg)) = false ->
  start (Domain.back (ReadDomainFromProto (lin_domain arg))) = kint64min ->
  min_sum sums + max_coeff sums <= Domain.Max (ReadDomainFromProto (lin_domain arg)) ->
  Domain.Max (ReadDomainFromProto (lin_domain arg)) < min_sum sums + 2 * min_coeff sums ->
  kint64min <= min_sum sums ->
  Forall (fun coeff =>
            min_sum sums + Z.abs coeff <= Domain.Max (ReadDomainFromProto (lin_domain arg)))
         (lin_coeffs arg) ->
  linear_holds a arg = at_most_one_holds a (positive_literals arg).
Proof.
  intros Hscan Hbool Hwf Hne Hstart Hcheck Htwice Hmin Hfit.
  set (domain := ReadDomainFromProto (lin_domain arg)) in *.
  pose proof (linear_bool_scan_max_coeff _ _ _ _ _ Hscan eq_refl) as Hzero.
  destruct (linear_bool_scan_value a ctx (Domain.Max domain - min_sum sums)
              _ _ _ _ Hscan Hbool) as (Hpos & extra & Hsum & Hlow & Hhigh & _).
  { eapply Forall_impl; [exact Hfit |]. simpl. intros; lia. }
  simpl in Hsum, Hpos.
  assert (Hmc : 0 < min_coeff sums) by (apply Hpos; reflexivity).
  unfold linear_holds, linear_value, at_most_one_holds, positive_literals.
  fold domain. rewrite Hsum.
  set (k := count_true a _) in *.
  rewrite Contains_up_to_Max by (auto; nia).
  destruct (Nat.leb_spec k 1) as [Hk | Hk].
  - apply Z.leb_le. nia.
  - apply Z.leb_gt. nia.
Qed.

(** The same for "at most one Boolean is false". *)
Theorem negative_at_most_one_equivalent a ctx arg sums :
  linear_bool_scan (lin_vars arg) (lin_coeffs arg) (MkSums kint64max 0 0 0) ctx
  = Some (Some sums) ->
  is_boolean_on a (lin_vars arg) ->
  Domain.wf (ReadDomainFromProto (lin_domain arg)) ->
  Domain.IsEmpty (ReadDomainFromProto (lin_domain arg)) = false ->
  end_ (Domain.front (ReadDomainFromProto (lin_domain arg))) = kint64max ->
  Domain.Min (ReadDomainFromProto (lin_domain arg)) <= max_sum sums - max_coeff sums ->
  max_sum sums - 2 * min_coeff sums < Domain.Min (ReadDomainFromProto (lin_domain arg)) ->
  max_sum sums <= kint64max ->
  Forall (fun coeff =>
            Domain.Min (ReadDomainFromProto (lin_domain arg)) <= max_sum sums - Z.abs coeff)
         (lin_coeffs arg) ->
  linear_holds a arg = at_most_one_holds a (negative_literals arg).
Proof.
  intros Hscan Hbool Hwf Hne Hend Hcheck Htwice Hmax Hfit.
  set (domain := ReadDomainFromProto (lin_domain arg)) in *.
  pose proof (linear_bool_scan_max_coeff _ _ _ _ _ Hscan eq_refl) as Hzero.
  destruct (linear_bool_scan_value a ctx (max_sum sums - Domain.Min domain)
              _ _ _ _ Hscan Hbool) as (Hpos & _).
  { eapply Forall_impl; [exact Hfit |]. simpl. intros; lia. }
  destruct (linear_bool_scan_value_negative a ctx (max_sum sums - Domain.Min domain)
              _ _ _ _ Hscan Hbool) as (extra & Hsum & Hlow & Hhigh & _).
  { eapply Forall_impl; [exact Hfit |]. simpl. intros; lia. }
  simpl in Hsum, Hpos.
  assert (Hmc : 0 < min_coeff sums) by (apply Hpos; reflexivity).
  unfold linear_holds, linear_value, at_most_one_holds, negative_literals.
  fold domain. rewrite Hsum.
  set (k := count_true a _) in *.
  rewrite Contains_from_Min by (auto; nia).
  destruct (Nat.leb_spec k 1) as [Hk | Hk].
  - apply Z.leb_le. nia.
  - apply Z.leb_gt. nia.
Qed.

End AtMostOneFacts.

(** [x + y <= 1] over two Booleans has the feasible assignments of
    [at_most_one(x, y)]. *)
Lemma positive_at_most_one_example a :
  is_boolean_on a [0; 1] ->
  linear_holds a (MkLinear [0; 1] [1; 1] [kint64min; 1]) = at_most_one_holds a [0; 1].
Proof.
  intros Hbool.
  apply (positive_at_most_one_equivalent a linear_example
           (MkLinear [0; 1] [1; 1] [kint64min; 1]) (MkSums 1 0 0 2));
    try reflexivity; try exact Hbool.
  - vm_compute. split; [discriminate | auto].
  - vm_compute. discriminate.
  - vm_compute. discriminate.
  - repeat constructor; vm_compute; discriminate.
Qed.

(** ** Cumulative constraints *)

Section CumulativeFacts.
Context {AR : Type} `{!AffineRelationOps AR}.
Implicit Type ctx : PresolveContext AR.

Lemma filter_absent_demands_present ctx capacity intervals demands :
  Forall2 (cumulative_interval_ok ctx capacity) intervals demands ->
  filter_absent_demands intervals demands ctx = Some (intervals, demands).
Proof.
  induction 1 as [| i d intervals demands Hok _ IH]; [reflexivity |].
  destruct Hok as ((ct & Hct & Hset) & _).
  simpl. rewrite Hct. simpl. rewrite IH. simpl. rewrite Hset. reflexivity.
Qed.

Lemma MinOf_IsFixed ctx ref m :
  MinOf ctx ref = Some m -> exists b, IsFixed ctx ref = Some b.
Proof.
  unfold MinOf, IsFixed. destruct (checked_domain ctx ref); [| discriminate].
  simpl. eauto.
Qed.

Lemma half_capacity capacity dmin :
  capacity < 2 * dmin -> dmin <= capacity -> (Z.quot capacity 2 <? dmin) = true.
Proof.
  intros H1 H2. apply Z.ltb_lt.
  rewrite Z.quot_div_nonneg by lia.
  apply Z.div_lt_upper_bound; lia.
Qed.

Lemma filter_all_length {A} (f : A -> bool) (l : list A) :
  (length (List.filter f l) =? length l)%nat = forallb f l.
Proof.
  induction l as [| a l IH]; [reflexivity |]. simpl.
  pose proof (filter_length_le f l) as Hle.
  destruct (f a); simpl; [exact IH |].
  apply Nat.eqb_neq. lia.
Qed.

Lemma negb_existsb {A} (f : A -> bool) (l : list A) :
  negb (existsb f l) = forallb (fun x => negb (f x)) l.
Proof.
  induction l as [| a l IH]; [reflexivity |]. simpl.
  rewrite negb_orb, IH. reflexivity.
Qed.

(** The loop over the intervals, when every demand fits the capacity: it
    runs to its end without touching the context, and counts. *)
Lemma cumulative_scan_all ctx capacity intervals demands :
  Forall2 (cumulative_interval_ok ctx capacity) intervals demands ->
  Forall (demand_fits ctx capacity) demands ->
  forall acc,
    cumulative_scan capacity intervals demands acc ctx
    = Some (CumDone
              (MkCounts
                 (start_indices acc ++ map (interval_start ctx) intervals)
                 (num_duration_one acc
                  + length (List.filter (duration_is_one ctx) intervals))
                 (num_greater_half_capacity acc + length intervals)
                 (has_optional_interval acc
                  || existsb (interval_is_optional ctx) intervals))
              ctx).
Proof.
  induction 1 as [| i d intervals demands Hok _ IH]; intros Hfit acc.
  - simpl. rewrite app_nil_r, !Nat.add_0_r, orb_false_r. destruct acc; reflexivity.
  - apply Forall_cons in Hfit as [Hd Hfit].
    destruct Hok as ((ct & Hct & Hset) & (m & Hm & Hm0) & (dmin & dmax & Hmin & Hmax & Hhalf)).
    destruct Hd as (dmin' & dmax' & Hmin' & Hmax' & Hle1 & Hle2).
    rewrite Hmin in Hmin'. injection Hmin' as <-.
    rewrite Hmax in Hmax'. injection Hmax' as <-.
    assert (Eic : interval_constraint ctx i = ct).
    { unfold interval_constraint. rewrite Hct. reflexivity. }
    unfold interval_duration in Hm. rewrite Eic in Hm.
    destruct (MinOf_IsFixed _ _ _ Hm) as (fixed & Hfixed).
    simpl. rewrite Hct. simpl. rewrite Hfixed. simpl. rewrite Hm. simpl.
    destruct (Z.eqb_spec m 0) as [| _]; [contradiction |].
    rewrite Hmin. simpl. rewrite Hmax. simpl.
    rewrite (half_capacity capacity dmin Hhalf Hle1).
    destruct (Z.ltb_spec capacity dmin); [lia |].
    destruct (Z.ltb_spec capacity dmax); [lia |].
    rewrite IH by exact Hfit. simpl.
    assert (Eone : duration_is_one ctx i = fixed && (m =? 1)).
    { unfold duration_is_one, interval_duration. rewrite Eic, Hfixed, Hm.
      destruct fixed; reflexivity. }
    assert (Eopt : interval_is_optional ctx i = HasEnforcementLiteral ct).
    { unfold interval_is_optional. rewrite Eic. reflexivity. }
    assert (Est : interval_start ctx i = itv_start (interval_arg ct)).
    { unfold interval_start. rewrite Eic. reflexivity. }
    rewrite Eone, Eopt, Est. do 2 f_equal.
    rewrite <- app_assoc, <- orb_assoc. simpl app.
    replace (num_greater_half_capacity acc + S (length intervals))%nat
      with (S (num_greater_half_capacity acc + length intervals)) by lia.
    destruct (fixed && (m =? 1)); simpl length; [| reflexivity].
    replace (num_duration_one acc
             + S (length (List.filter (duration_is_one ctx) intervals)))%nat
      with (S (num_duration_one acc)
            + length (List.filter (duration_is_one ctx) intervals))%nat by lia.
    reflexivity.
Qed.

(** *** Demands above the capacity *)

Lemma checked_domain_frame ctx ctx' ref :
  domain_at ctx' (PositiveRef ref) = domain_at ctx (PositiveRef ref) ->
  checked_domain ctx' ref = checked_domain ctx ref.
Proof. unfold checked_domain. intros ->. reflexivity. Qed.

Lemma reads_frame ctx ctx' ref :
  domain_at ctx' (PositiveRef ref) = domain_at ctx (PositiveRef ref) ->
  MinOf ctx' ref = MinOf ctx ref /\ MaxOf ctx' ref = MaxOf ctx ref /\
  IsFixed ctx' ref = IsFixed ctx ref.
Proof.
  intros H. unfold MinOf, MaxOf, IsFixed.
  rewrite (checked_domain_frame _ _ _ H). auto.
Qed.

(** [IntersectDomainWith] only writes the domain of the variable of the
    reference. *)
Lemma IntersectDomainWith_frame ctx ref dom b ctx' :
  IntersectDomainWith ref dom ctx = Some (b, ctx') ->
  working_model ctx' = working_model ctx /\
  forall var, var <> PositiveRef ref -> domain_at ctx' var = domain_at ctx var.
Proof.
  unfold IntersectDomainWith. intros Hrun.
  destruct (checked_domain ctx ref) as [d |]; [| discriminate]. simpl in Hrun.
  destruct (Domain.IsIncludedIn d _).
  - injection Hrun as _ <-. auto.
  - injection Hrun as _ <-.
    split; [destruct (Domain.IsEmpty _); reflexivity |].
    intros var Hne.
    assert (Hdom : forall c : PresolveContext AR,
               domains c = <[Z.to_nat (PositiveRef ref) := Domain.IntersectionWith d
                  (if RefIsPositive ref then dom else Domain.Negation dom)]> (domains ctx) ->
               domain_at c var = domain_at ctx var).
    { intros c Hc. unfold domain_at. rewrite Hc.
      destruct (Z.leb_spec 0 var); [| reflexivity].
      apply list_lookup_insert_ne. pose proof (PositiveRef_nonneg ref). lia. }
    destruct (Domain.IsEmpty _); apply Hdom; reflexivity.
Qed.

(** Reducing a demand leaves the working model alone. *)
Lemma demand_reduced_model capacity i d ctx :
  working_model (demand_reduced capacity i d ctx) = working_model ctx.
Proof.
  unfold demand_reduced. destruct (MaxOf ctx d) as [dmax |]; [| reflexivity].
  destruct ((capacity <? dmax) && negb (interval_is_optional ctx i)); [| reflexivity].
  destruct (IntersectDomainWith d _ _) as [[b ctx1] |] eqn:Ei; [| reflexivity].
  apply IntersectDomainWith_frame in Ei as [Hmodel _]. exact Hmodel.
Qed.

Lemma existsb_pointwise {A} (f g : A -> bool) (l : list A) :
  (forall x, f x = g x) -> existsb f l = existsb g l.
Proof.
  intros H. induction l as [| a l IH]; [reflexivity |]. simpl. rewrite H, IH. reflexivity.
Qed.

Lemma forallb_id_map {A} (f : A -> bool) (l : list A) :
  forallb id (map f l) = forallb f l.
Proof. induction l as [| a l IH]; [reflexivity |]. simpl. rewrite IH. reflexivity. Qed.

Lemma interval_reads_model ctx1 ctx2 i :
  working_model ctx1 = working_model ctx2 ->
  constraint_at ctx1 i = constraint_at ctx2 i /\
  interval_start ctx1 i = interval_start ctx2 i /\
  interval_is_optional ctx1 i = interval_is_optional ctx2 i.
Proof.
  intros H.
  unfold interval_start, interval_is_optional, interval_constraint, constraint_at.
  rewrite H. auto.
Qed.

Lemma filter_absent_demands_model ctx1 ctx2 intervals :
  working_model ctx1 = working_model ctx2 ->
  forall demands,
    filter_absent_demands intervals demands ctx1
    = filter_absent_demands intervals demands ctx2.
Proof.
  intros H. induction intervals as [| i rest IH]; intros demands; [reflexivity |].
  simpl. destruct (interval_reads_model ctx1 ctx2 i H) as (-> & _).
  rewrite IH. reflexivity.
Qed.

Lemma filter_absent_demands_all_present capacity intervals :
  forall demands ctx,
    cumulative_intervals_ok ctx capacity intervals demands ->
    filter_absent_demands intervals demands ctx = Some (intervals, demands).
Proof.
  induction intervals as [| i rest IH]; intros [| d drest] ctx Hok;
    try contradiction; [reflexivity |].
  destruct Hok as (((ct & Hct & Hset) & _) & _ & Hrest).
  simpl. rewrite Hct. simpl.
  rewrite <- (filter_absent_demands_model _ ctx rest (demand_reduced_model capacity i d ctx)).
  rewrite (IH _ _ Hrest). simpl. rewrite Hset. reflexivity.
Qed.

(** The loop over the intervals when each of them, as the loop reaches it,
    passes the tests: it runs to its end, reduces the demands that can
    exceed the capacity, and counts. *)
Lemma cumulative_scan_ok capacity intervals :
  forall demands ctx acc,
    cumulative_intervals_ok ctx capacity intervals demands ->
    cumulative_scan capacity intervals demands acc ctx
    = Some (CumDone
              (MkCounts
                 (start_indices acc ++ map (interval_start ctx) intervals)
                 (num_duration_one acc
                  + length (List.filter id
                              (durations_read_as_one ctx capacity intervals demands)))
                 (num_greater_half_capacity acc + length intervals)
                 (has_optional_interval acc
                  || existsb (interval_is_optional ctx) intervals))
              (demands_reduced capacity intervals demands ctx)).
Proof.
  induction intervals as [| i rest IH]; intros [| d drest] ctx acc Hok;
    try contradiction.
  - simpl. rewrite app_nil_r, !Nat.add_0_r, orb_false_r. destruct acc; reflexivity.
  - destruct Hok as (Hok & Hadm & Hrest).
    destruct Hok as ((ct & Hct & Hset) & (m & Hm & Hm0) & (dmin & dmax & Hmin & Hmax & Hhalf)).
    destruct Hadm as (dmin' & dmax' & Hmin' & Hmax' & Hle & Hopt).
    rewrite Hmin in Hmin'. injection Hmin' as <-.
    rewrite Hmax in Hmax'. injection Hmax' as <-.
    assert (Eic : interval_constraint ctx i = ct).
    { unfold interval_constraint. rewrite Hct. reflexivity. }
    assert (Eopt : interval_is_optional ctx i = HasEnforcementLiteral ct).
    { unfold interval_is_optional. rewrite Eic. reflexivity. }
    assert (Est : interval_start ctx i = itv_start (interval_arg ct)).
    { unfold interval_start. rewrite Eic. reflexivity. }
    unfold interval_duration in Hm. rewrite Eic in Hm.
    destruct (MinOf_IsFixed _ _ _ Hm) as (fixed & Hfixed).
    assert (Eone : duration_is_one ctx i = fixed && (m =? 1)).
    { unfold duration_is_one, interval_duration. rewrite Eic, Hfixed, Hm.
      destruct fixed; reflexivity. }
    set (ctx1 := demand_reduced capacity i d ctx).
    pose proof (demand_reduced_model capacity i d ctx) as Hmodel1. fold ctx1 in Hmodel1.
    assert (Hnext : forall acc',
               (if capacity <? dmax then
                  if HasEnforcementLiteral ct then
                    Some (CumReturned
                            (UpdateRuleStats
                               "cumulative: demand_max of optional interval exceeds capacity."
                               ctx))
                  else
                    r ← IntersectDomainWith d (Domain.FromInterval kint64min capacity)
                          (UpdateRuleStats "cumulative: demand_max exceeds capacity." ctx);
                    cumulative_scan capacity rest drest acc' (snd r)
                else cumulative_scan capacity rest drest acc' ctx)
               = cumulative_scan capacity rest drest acc' ctx1).
    { intros acc'. unfold ctx1, demand_reduced. rewrite Hmax.
      destruct (Z.ltb_spec capacity dmax) as [Hexceeds | Hfits]; [| reflexivity].
      rewrite (Hopt Hexceeds). rewrite <- Eopt, (Hopt Hexceeds). simpl.
      destruct (IntersectDomainWith d _ _) as [[b ctx2] |] eqn:Ei; [reflexivity |].
      exfalso. unfold IntersectDomainWith in Ei.
      change (checked_domain (UpdateRuleStats "cumulative: demand_max exceeds capacity." ctx) d)
        with (checked_domain ctx d) in Ei.
      unfold MinOf in Hmin.
      destruct (checked_domain ctx d) as [dd |]; [| discriminate].
      simpl in Ei. destruct (Domain.IsIncludedIn dd _); discriminate. }
    simpl cumulative_scan. rewrite Hct. simpl. rewrite Hfixed. simpl. rewrite Hm. simpl.
    destruct (Z.eqb_spec m 0) as [| _]; [contradiction |].
    rewrite Hmin. simpl. rewrite Hmax. simpl.
    rewrite (half_capacity capacity dmin Hhalf Hle).
    destruct (Z.ltb_spec capacity dmin); [lia |].
    rewrite Hnext. rewrite (IH drest ctx1 _ Hrest). simpl.
    do 2 f_equal.
    assert (Hstarts : map (interval_start ctx1) rest = map (interval_start ctx) rest).
    { apply map_ext. intros k. apply (interval_reads_model ctx1 ctx k Hmodel1). }
    assert (Hopts : existsb (interval_is_optional ctx1) rest
                    = existsb (interval_is_optional ctx) rest).
    { apply existsb_pointwise. intros k.
      apply (interval_reads_model ctx1 ctx k Hmodel1). }
    rewrite Hstarts, Hopts, Est, Eopt, <- Eone.
    rewrite <- app_assoc, <- orb_assoc. simpl app. f_equal; [| lia].
    fold ctx1. destruct (duration_is_one ctx i); simpl; lia.
Qed.

(** When no demand can exceed the capacity, the rewriting leaves the
    domains and the unsat flag alone. *)
Lemma PresolveCumulative_demands_fit ctx c capacity intervals demands :
  cumulative_conditions ctx c capacity intervals demands ->
  Forall (demand_fits ctx capacity) demands ->
  exists ctx',
    PresolveCumulative c ctx = Some (true, ctx') /\
    cumulative_replaced ctx c intervals ctx' /\
    domains ctx' = domains ctx /\
    is_unsat ctx' = is_unsat ctx.
Proof.
  intros (capacity_ref & Hct & Hfixed & Hcap & Hok) Hfit.
  unfold PresolveCumulative. rewrite Hct. simpl.
  rewrite (filter_absent_demands_present _ _ _ _ Hok). simpl.
  rewrite Nat.ltb_irrefl. simpl. rewrite Hfixed. simpl. rewrite Hcap. simpl.
  rewrite (cumulative_scan_all _ _ _ _ Hok Hfit). simpl.
  rewrite Nat.eqb_refl, filter_all_length, negb_existsb.
  pose proof (lookup_lt_Some _ _ _ Hct) as Hlt.
  unfold cumulative_replaced, cumulative_replacement.
  destruct (forallb (duration_is_one ctx) intervals
            && forallb (fun i => negb (interval_is_optional ctx i)) intervals);
    eexists; (split; [reflexivity |]); simpl;
    (split; [apply insert_app_l; exact Hlt | split; reflexivity]).
Qed.

Lemma demands_reduced_model capacity intervals :
  forall demands ctx,
    working_model (demands_reduced capacity intervals demands ctx) = working_model ctx.
Proof.
  induction intervals as [| i rest IH]; intros [| d drest] ctx; try reflexivity.
  simpl. rewrite IH. apply demand_reduced_model.
Qed.

(** When the demands all fit the capacity nothing is reduced, and the
    durations are read as they were. *)
Lemma demands_fit_nothing_reduced capacity intervals :
  forall demands ctx,
    length intervals = length demands ->
    Forall (demand_fits ctx capacity) demands ->
    demands_reduced capacity intervals demands ctx = ctx /\
    durations_read_as_one ctx capacity intervals demands
    = map (duration_is_one ctx) intervals.
Proof.
  induction intervals as [| i rest IH]; intros [| d drest] ctx Hlen Hfit;
    try discriminate; [auto |].
  apply Forall_cons in Hfit as [(dmin & dmax & Hmin & Hmax & Hle1 & Hle2) Hfit].
  assert (Hsame : demand_reduced capacity i d ctx = ctx).
  { unfold demand_reduced. rewrite Hmax.
    destruct (Z.ltb_spec capacity dmax); [lia | reflexivity]. }
  simpl. rewrite Hsame.
  destruct (IH drest ctx) as [-> ->]; auto.
Qed.

(** C7 (amended).  A cumulative without enforcement literal and of fixed
    capacity in which every interval, when the scan reaches it (the
    demands of the intervals before it that could exceed the capacity
    having been reduced to it), is not cleared, cannot have the duration
    zero, has a minimum demand above half the capacity and not above the
    capacity and, if it is optional, a maximum demand not above the
    capacity: the constraint is cleared and replaced by a new constraint,
    an all-different over the start variables when every duration is
    fixed to 1 when the scan reaches it and no interval is optional, a
    no-overlap over the same intervals otherwise.  What the scan changes
    is the domains of the demands that could exceed the capacity; when no
    demand can exceed it, the domains and the unsat flag are untouched and
    the durations are read as they were before the call. *)
Theorem PresolveCumulative_degenerate ctx c capacity capacity_ref intervals demands :
  constraints (working_model ctx) !! c
  = Some (MkConstraint [] (kCumulative (MkCumulative capacity_ref intervals demands))) ->
  IsFixed ctx capacity_ref = Some true ->
  MinOf ctx capacity_ref = Some capacity ->
  cumulative_intervals_ok ctx capacity intervals demands ->
  exists ctx',
    PresolveCumulative c ctx = Some (true, ctx') /\
    constraints (working_model ctx')
    = <[c := empty_constraint]> (constraints (working_model ctx))
      ++ [cumulative_rewritten ctx capacity intervals demands] /\
    domains ctx' = domains (demands_reduced capacity intervals demands ctx) /\
    (forall var,
        Forall (fun d => PositiveRef d <> var) demands ->
        domain_at ctx' var = domain_at ctx var) /\
    (Forall (demand_fits ctx capacity) demands ->
     domains ctx' = domains ctx /\ is_unsat ctx' = is_unsat ctx /\
     cumulative_rewritten ctx capacity intervals demands
     = cumulative_replacement ctx intervals).
Proof.
  intros Hct Hfixed Hcap Hok.
  assert (Hlen : forall intervals demands ctx,
             cumulative_intervals_ok ctx capacity intervals demands ->
             length intervals = length demands).
  { clear. induction intervals as [| i rest IH]; intros [| d drest] ctx Hok;
      try contradiction; [reflexivity |].
    simpl. f_equal. destruct Hok as (_ & _ & Hrest). exact (IH _ _ Hrest). }
  assert (Hcount : forall l : list bool,
             (length (List.filter id l) =? length l)%nat = forallb id l)
    by (intros l; apply filter_all_length).
  assert (Hreads : length (durations_read_as_one ctx capacity intervals demands)
                   = length intervals).
  { clear - Hok. revert demands ctx Hok.
    induction intervals as [| i rest IH]; intros [| d drest] ctx Hok;
      try contradiction; [reflexivity |].
    simpl. f_equal. destruct Hok as (_ & _ & Hrest). exact (IH _ _ Hrest). }
  pose proof (lookup_lt_Some _ _ _ Hct) as Hlt.
  assert (Hrun : exists ctx',
             PresolveCumulative c ctx = Some (true, ctx') /\
             constraints (working_model ctx')
             = <[c := empty_constraint]> (constraints (working_model ctx))
               ++ [cumulative_rewritten ctx capacity intervals demands] /\
             domains ctx' = domains (demands_reduced capacity intervals demands ctx) /\
             is_unsat ctx' = is_unsat (demands_reduced capacity intervals demands ctx)).
  { unfold PresolveCumulative. rewrite Hct. simpl.
    rewrite (filter_absent_demands_all_present _ _ _ _ Hok). simpl.
    rewrite Nat.ltb_irrefl. simpl. rewrite Hfixed. simpl. rewrite Hcap. simpl.
    rewrite (cumulative_scan_ok _ _ _ _ _ Hok). simpl.
    rewrite Nat.eqb_refl.
    replace (length (List.filter id (durations_read_as_one ctx capacity intervals demands))
             =? length intervals)%nat
      with (forallb id (durations_read_as_one ctx capacity intervals demands))
      by (rewrite <- Hreads; symmetry; apply Hcount).
    rewrite negb_existsb.
    unfold cumulative_rewritten.
    destruct (forallb id (durations_read_as_one ctx capacity intervals demands)
              && forallb (fun i => negb (interval_is_optional ctx i)) intervals);
      eexists; (split; [reflexivity |]); simpl;
      rewrite demands_reduced_model;
      (split; [apply insert_app_l; exact Hlt | split; reflexivity]). }
  destruct Hrun as (ctx' & Hrun & Hrep & Hdoms & Hunsat).
  exists ctx'. split; [exact Hrun |]. split; [exact Hrep |]. split; [exact Hdoms |].
  split.
  - intros var Hvar. unfold domain_at. rewrite Hdoms.
    clear - Hvar. revert demands ctx Hvar.
    induction intervals as [| i rest IH]; intros [| d drest] ctx Hvar; try reflexivity.
    apply Forall_cons in Hvar as [Hd Hvar]. simpl.
    change (domain_at (demands_reduced capacity rest drest (demand_reduced capacity i d ctx))
              var = domain_at ctx var).
    unfold domain_at in IH. unfold domain_at at 1. rewrite (IH drest _ Hvar).
    change (domain_at (demand_reduced capacity i d ctx) var = domain_at ctx var).
    unfold demand_reduced. destruct (MaxOf ctx d) as [dmax |]; [| reflexivity].
    destruct ((capacity <? dmax) && negb (interval_is_optional ctx i)); [| reflexivity].
    destruct (IntersectDomainWith d _ _) as [[b ctx1] |] eqn:Ei; [| reflexivity].
    apply IntersectDomainWith_frame in Ei as [_ Hdom].
    simpl. rewrite Hdom by congruence. reflexivity.
  - intros Hfit.
    destruct (demands_fit_nothing_reduced capacity intervals demands ctx
                (Hlen _ _ _ Hok) Hfit) as [Hsame Hread].
    rewrite Hsame in Hdoms, Hunsat. split; [exact Hdoms |]. split; [exact Hunsat |].
    unfold cumulative_rewritten, cumulative_replacement. rewrite Hread.
    rewrite forallb_id_map. reflexivity.
Qed.

End CumulativeFacts.

Lemma cumulative_example_conditions dmin dmax :
  dmin <= dmax -> 2 < 2 * dmin ->
  cumulative_conditions (cumulative_example dmin dmax) 1 2 [0] [4].
Proof.
  intros Hle Hhalf. exists 3. split; [reflexivity |].
  split; [reflexivity |]. split; [reflexivity |].
  constructor; [| constructor]. split; [| split].
  - eexists. split; reflexivity.
  - exists 1. split; [reflexivity | lia].
  - exists dmin, dmax. split; [reflexivity |]. split; [reflexivity | lia].
Qed.

(** The cumulative whose first demand is also the size of its second
    interval: the demand [1, 5] is reduced to the capacity 1 before the
    second interval is read, whose duration is then fixed to 1, and the
    cumulative becomes an all-different. *)
Lemma PresolveCumulative_degenerate_witness :
  cumulative_intervals_ok shared_demand_example 1 [0; 1] [4; 7] /\
  exists ctx',
    PresolveCumulative 2 shared_demand_example = Some (true, ctx') /\
    constraints (working_model ctx')
    = [MkConstraint [] (kInterval (MkIntervalCt 0 1 2));
       MkConstraint [] (kInterval (MkIntervalCt 5 6 4));
       empty_constraint;
       MkConstraint [] (kAllDiff [0; 5])] /\
    domain_at ctx' 4 = Some [MkInterval 1 1] /\
    domain_at ctx' 0 = Some [MkInterval 0 10].
Proof.
  assert (Hok : cumulative_intervals_ok shared_demand_example 1 [0; 1] [4; 7]).
  { split; [| split; [| split; [| split; [| exact I]]]].
    - split; [eexists; split; reflexivity |].
      split; [exists 1; split; [reflexivity | lia] |].
      exists 1, 5. split; [reflexivity |]. split; [reflexivity | lia].
    - exists 1, 5. split; [reflexivity |]. split; [reflexivity |].
      split; [lia | reflexivity].
    - split; [eexists; split; reflexivity |].
      split; [exists 1; split; [reflexivity | lia] |].
      exists 1, 1. split; [reflexivity |]. split; [reflexivity | lia].
    - exists 1, 1. split; [reflexivity |]. split; [reflexivity |].
      split; [lia | intros; lia]. }
  split; [exact Hok |].
  destruct (PresolveCumulative_degenerate shared_demand_example 2 1 3 [0; 1] [4; 7]
              eq_refl eq_refl eq_refl Hok)
    as (ctx' & Hrun & Hrep & Hdoms & Hframe & _).
  exists ctx'. split; [exact Hrun |]. split; [rewrite Hrep; reflexivity |].
  split.
  - unfold domain_at. rewrite Hdoms. reflexivity.
  - apply Hframe. repeat constructor; discriminate.
Defined.

Lemma PresolveCumulative_reduces_demand :
  option_map (fun r => domain_at (snd r) 4) (PresolveCumulative 1 (cumulative_example 2 5))
  = Some (Some [MkInterval 2 2]).
Proof. vm_compute. reflexivity. Qed.

(** C7 does not hold when a demand can exceed the capacity.  With the
    capacity 2 and a demand fixed to 3, every condition holds (the demand
    exceeds half the capacity), yet the rewriter reports infeasibility and
    leaves the cumulative in place instead of replacing it.  With the demand
    [2, 5] of an optional interval, the rewriter leaves the cumulative in
    place as well.  With the demand [1, 5] of an interval that is not
    optional, under the capacity 1, the demand is reduced to 1; its
    variable being the size of the second interval, whose duration was not
    fixed to 1, the cumulative is replaced by an all-different where the
    claim has a no-overlap. *)
Lemma PresolveCumulative_demand_exceeds_capacity :
  (cumulative_conditions (cumulative_example 3 3) 1 2 [0] [4] /\
   exists ctx',
     PresolveCumulative 1 (cumulative_example 3 3) = Some (false, ctx') /\
     is_unsat ctx' = true /\
     working_model ctx' = working_model (cumulative_example 3 3) /\
     ~ cumulative_replaced (cumulative_example 3 3) 1 [0] ctx') /\
  (cumulative_conditions (optional_cumulative_example 2 5) 1 2 [0] [4] /\
   exists ctx',
     PresolveCumulative 1 (optional_cumulative_example 2 5) = Some (false, ctx') /\
     working_model ctx' = working_model (optional_cumulative_example 2 5) /\
     ~ cumulative_replaced (optional_cumulative_example 2 5) 1 [0] ctx') /\
  (cumulative_conditions shared_demand_example 2 1 [0; 1] [4; 7] /\
   duration_is_one shared_demand_example 1 = false /\
   cumulative_replacement shared_demand_example [0; 1] = MkConstraint [] (kNoOverlap [0; 1]) /\
   exists ctx',
     PresolveCumulative 2 shared_demand_example = Some (true, ctx') /\
     constraints (working_model ctx') !! 3%nat = Some (MkConstraint [] (kAllDiff [0; 5])) /\
     ~ cumulative_replaced shared_demand_example 2 [0; 1] ctx').
Proof.
  split; [| split].
  - split; [apply cumulative_example_conditions; lia |].
    eexists. split; [vm_compute; reflexivity |].
    split; [reflexivity |]. split; [reflexivity |].
    unfold cumulative_replaced. simpl. discriminate.
  - split.
    + exists 3. split; [reflexivity |]. split; [reflexivity |]. split; [reflexivity |].
      constructor; [| constructor]. split; [| split].
      * eexists. split; reflexivity.
      * exists 1. split; [reflexivity | lia].
      * exists 2, 5. split; [reflexivity |]. split; [reflexivity | lia].
    + eexists. split; [vm_compute; reflexivity |].
      split; [reflexivity |].
      unfold cumulative_replaced. simpl. discriminate.
  - split.
    + exists 3. split; [reflexivity |]. split; [reflexivity |]. split; [reflexivity |].
      constructor; [| constructor; [| constructor]]; (split; [| split]).
      * eexists. split; reflexivity.
      * exists 1. split; [reflexivity | lia].
      * exists 1, 5. split; [reflexivity |]. split; [reflexivity | lia].
      * eexists. split; reflexivity.
      * exists 1. split; [reflexivity | lia].
      * exists 1, 1. split; [reflexivity |]. split; [reflexivity | lia].
    + split; [reflexivity |]. split; [reflexivity |].
      eexists. split; [vm_compute; reflexivity |].
      split; [reflexivity |].
      unfold cumulative_replaced. simpl. discriminate.
Qed.

(** ** The fixpoint driver and the infeasibility flag *)

Section DriverFacts.
Context {AR : Type} `{!AffineRelationOps AR} `{!PresolveStages AR}.
Implicit Type ctx : PresolveContext AR.
Implicit Type st : FixPointState AR.











End DriverFacts.


(** ** The integer trail *)

Section TrailFacts.
Context {B : Type} `{!BooleanSide B}.
Implicit Type t : IntegerTrail B.

Lemma at_index_Some {A} (l : list A) i x :
  at_index l i = Some x -> 0 <= i /\ l !! Z.to_nat i = Some x.
Proof. unfold at_index. destruct (Z.leb_spec 0 i); [auto | discriminate]. Qed.

Lemma at_index_nat {A} (l : list A) (n : nat) : at_index l (Z.of_nat n) = l !! n.
Proof.
  unfold at_index. destruct (Z.leb_spec 0 (Z.of_nat n)); [| lia].
  rewrite Nat2Z.id. reflexivity.
Qed.

Lemma store_at_Some {A} (l : list A) i x l' :
  store_at l i x = Some l' ->
  0 <= i /\ (Z.to_nat i < length l)%nat /\ l' = <[Z.to_nat i := x]> l.
Proof.
  unfold store_at. unfold size_.
  destruct (Z.leb_spec 0 i), (Z.ltb_spec i (Z.of_nat (length l)));
    simpl; try discriminate.
  intros [= <-]. repeat split; auto. lia.
Qed.

Lemma same_core_refl t : same_core t t.
Proof. repeat split. Qed.

Lemma EnqueueAssociatedLiteral_core literal idx lr ir same t b t' :
  EnqueueAssociatedLiteral literal idx lr ir same t = Some (b, t') -> same_core t' t.
Proof.
  unfold EnqueueAssociatedLiteral. intros Hrun.
  destruct (negb (VariableIsAssigned t literal)).
  - destruct (integer_search_levels_ t);
      [| destruct (negb (same =? kNoBooleanVariable))];
      injection Hrun as <- <-; repeat split.
  - destruct (AssignmentLiteralIsFalse (trail_ t) literal);
      injection Hrun as <- <-; repeat split.
Qed.

Lemma canonicalize_bound_ge domain index b index' b' :
  canonicalize_bound domain index b = Some (Some (index', b')) -> b <= b'.
Proof.
  unfold canonicalize_bound. intros Hrun.
  case_guard; simpl in Hrun; [| discriminate].
  destruct (_ =? _); [discriminate |].
  destruct (at_index domain _) as [i |]; [| discriminate]. simpl in Hrun.
  injection Hrun as _ <-. lia.
Qed.

Lemma canonicalize_literal_core i_lit t new_bound t1 :
  canonicalize_literal i_lit t = Some (Some (new_bound, t1)) ->
  same_core t1 t /\ trail_ t1 = trail_ t /\ il_bound i_lit <= new_bound /\
  bounds_reason_starts_ t1 = bounds_reason_starts_ t.
Proof.
  unfold canonicalize_literal. intros Hrun.
  destruct (at_index (domains_ t) (il_var i_lit)) as [domain |]; [| discriminate].
  simpl in Hrun. destruct (1 <? Domain.NumIntervals domain).
  - destruct (RevMap_FindOrDie _ _) as [index |]; [| discriminate]. simpl in Hrun.
    destruct (canonicalize_bound domain index (il_bound i_lit))
      as [[[index' b'] |] |] eqn:Ec; try discriminate.
    simpl in Hrun. injection Hrun as <- <-.
    apply canonicalize_bound_ge in Ec. repeat split; auto.
  - injection Hrun as <- <-. repeat split; auto. lia.
Qed.

Lemma enqueue_empty_domain_effect v new_bound lr ir t t' :
  integer_search_levels_ t <> [] ->
  enqueue_empty_domain v new_bound lr ir t = Some (true, t') ->
  vars_ t' = vars_ t /\
  (exists e, var e < 0 /\ integer_trail_ t' = integer_trail_ t ++ [e]) /\
  domains_ t' = domains_ t /\
  integer_search_levels_ t' = integer_search_levels_ t /\
  reason_decision_levels_ t' = reason_decision_levels_ t /\
  literals_reason_starts_ t'
  = literals_reason_starts_ t ++ [size_ (literals_reason_buffer_ t)] /\
  bounds_reason_starts_ t'
  = bounds_reason_starts_ t ++ [size_ (bounds_reason_buffer_ t)].
Proof.
  intros Hlevel. unfold enqueue_empty_domain. intros Hrun.
  destruct (IsOptional t v) as [optional |]; [| discriminate]. simpl in Hrun.
  destruct (at_index (is_ignored_literals_ t) v) as [ig |]; [| discriminate].
  simpl in Hrun.
  destruct (negb optional || _); [discriminate |].
  unfold EnqueueLiteral in Hrun.
  destruct (integer_search_levels_ t) eqn:El; [contradiction |].
  injection Hrun as <-. simpl. rewrite El.
  repeat split; auto.
  eexists. split; [| reflexivity]. simpl. unfold kNoIntegerVariable. lia.
Qed.

Lemma save_reason_effect lr ir same t r t1 :
  save_reason lr ir same t = Some (r, t1) ->
  vars_ t1 = vars_ t /\ integer_trail_ t1 = integer_trail_ t /\
  domains_ t1 = domains_ t /\
  integer_search_levels_ t1 = integer_search_levels_ t /\
  reason_decision_levels_ t1 = reason_decision_levels_ t /\
  (length (bounds_reason_starts_ t) = length (literals_reason_starts_ t) ->
   length (bounds_reason_starts_ t1) = length (literals_reason_starts_ t1)).
Proof.
  unfold save_reason. intros Hrun.
  destruct (_ <=? _).
  - case_guard; simpl in Hrun; [| discriminate]. injection Hrun as <- <-.
    simpl. repeat split; auto. intros E. rewrite !length_app, E. reflexivity.
  - destruct (at_index _ _); [| discriminate]. simpl in Hrun.
    injection Hrun as <- <-. repeat split; auto.
Qed.

Lemma push_bound_effect v new_bound reason t t' :
  push_bound v new_bound reason t = Some t' ->
  exists info,
    at_index (vars_ t) v = Some info /\
    integer_trail_ t' =
      integer_trail_ t ++ [MkTrailEntry new_bound v (current_trail_index info) reason] /\
    vars_ t' = <[Z.to_nat v := MkVarInfo new_bound (size_ (integer_trail_ t))]> (vars_ t) /\
    domains_ t' = domains_ t /\
    integer_search_levels_ t' = integer_search_levels_ t /\
    reason_decision_levels_ t' = reason_decision_levels_ t /\
    literals_reason_starts_ t' = literals_reason_starts_ t /\
    bounds_reason_starts_ t' = bounds_reason_starts_ t.
Proof.
  unfold push_bound. intros Hrun.
  destruct (at_index (vars_ t) v) as [info |]; [| discriminate]. simpl in Hrun.
  destruct (store_at _ _ _) as [vs |] eqn:Es; [| discriminate]. simpl in Hrun.
  injection Hrun as <-. apply store_at_Some in Es as (_ & _ & ->).
  exists info. simpl. repeat split; auto.
  unfold size_. rewrite length_app. simpl.
  replace (Z.of_nat (length (integer_trail_ t) + 1) - 1)
    with (Z.of_nat (length (integer_trail_ t))) by lia.
  reflexivity.
Qed.

Lemma Enqueue_same_reason_unfold fuel i_lit lr ir same t :
  Enqueue_same_reason (S fuel) i_lit lr ir same t
  = (ignored ← IsCurrentlyIgnored t (il_var i_lit);
     if ignored : bool then Some (true, t)
     else
       info ← at_index (vars_ t) (il_var i_lit);
       if il_bound i_lit <=? current_bound info then Some (true, t)
       else
         enqueue_better_bound
           (fun l lr ir t' => Enqueue_same_reason fuel l lr ir None t')
           i_lit lr ir same t).
Proof. reflexivity. Qed.

Lemma Enqueue_at_search_level fuel i_lit lr ir same t t' :
  integer_search_levels_ t <> [] ->
  Enqueue_same_reason fuel i_lit lr ir same t = Some (true, t') ->
  enqueue_effect i_lit t t' /\
  domains_ t' = domains_ t /\
  integer_search_levels_ t' = integer_search_levels_ t /\
  reason_decision_levels_ t' = reason_decision_levels_ t /\
  (length (bounds_reason_starts_ t) = length (literals_reason_starts_ t) ->
   length (bounds_reason_starts_ t') = length (literals_reason_starts_ t')).
Proof.
  intros Hlevel Hrun. destruct fuel as [| fuel]; [discriminate |].
  rewrite Enqueue_same_reason_unfold in Hrun.
  destruct (IsCurrentlyIgnored t (il_var i_lit)) as [ignored |]; [| discriminate].
  simpl in Hrun.
  destruct ignored.
  { injection Hrun as <-. split; [apply effect_none; reflexivity | auto]. }
  destruct (at_index (vars_ t) (il_var i_lit)) as [info |] eqn:Hinfo; [| discriminate].
  simpl in Hrun.
  destruct (Z.leb_spec (il_bound i_lit) (current_bound info)) as [| Hgt].
  { injection Hrun as <-. split; [apply effect_none; reflexivity | auto]. }
  unfold enqueue_better_bound in Hrun.
  set (t0 := with_counters _ _ t) in Hrun.
  destruct (canonicalize_literal i_lit t0) as [[[new_bound t1] |] |] eqn:Ec;
    try discriminate; simpl in Hrun.
  apply canonicalize_literal_core in Ec
    as ((Hv1 & Ht1 & Hd1 & Hl1 & Hr1 & Hls1 & Hbs1 & _) & _ & Hge & _).
  simpl in Hv1, Ht1, Hd1, Hl1, Hr1, Hls1, Hbs1.
  destruct (UpperBound t1 (il_var i_lit)) as [ub |]; [| discriminate]. simpl in Hrun.
  destruct (Z.ltb_spec ub new_bound) as [Hub | Hub].
  - (* Above the upper bound: the variable becomes ignored. *)
    apply enqueue_empty_domain_effect in Hrun; [| congruence].
    destruct Hrun as (Hv & (e & He & Htr) & Hd & Hl & Hr & Hls & Hbs).
    split; [apply (effect_literal _ _ _ e); congruence |].
    repeat split; try congruence.
    intros E. rewrite Hls, Hbs, !length_app, Hls1, Hbs1, E. reflexivity.
  - set (t2 := with_watchers _ t1) in Hrun.
    destruct (if negb (_ =? kNoLiteralIndex) then _ else Some (true, t2))
      as [[b t3] |] eqn:Ea; [| discriminate].
    simpl in Hrun.
    assert (Hcore : same_core t3 t2).
    { destruct (negb (_ =? kNoLiteralIndex)).
      - eapply EnqueueAssociatedLiteral_core; eauto.
      - injection Ea as <- <-. apply same_core_refl. }
    destruct Hcore as (Hv3 & Ht3 & Hd3 & Hl3 & Hr3 & Hls3 & Hbs3 & _).
    simpl in Hv3, Ht3, Hd3, Hl3, Hr3, Hls3, Hbs3.
    destruct b; simpl in Hrun; [| discriminate].
    destruct (integer_search_levels_ t3) eqn:El3; [congruence |].
    destruct (save_reason _ _ _ t3) as [[r t4] |] eqn:Es; [| discriminate].
    simpl in Hrun.
    destruct (push_bound _ _ _ t4) as [t5 |] eqn:Ep; [| discriminate].
    simpl in Hrun. injection Hrun as <-.
    apply save_reason_effect in Es as (Hv4 & Ht4 & Hd4 & Hl4 & Hr4 & Hlen4).
    apply push_bound_effect in Ep
      as (info' & Hinfo' & Htr5 & Hv5 & Hd5 & Hl5 & Hr5 & Hls5 & Hbs5).
    assert (info' = info) by congruence. subst info'.
    split.
    + apply (effect_bound _ _ _ info new_bound r); auto; try lia.
      * congruence.
      * rewrite Hv5. congruence.
    + repeat split; try congruence.
      intros E. rewrite Hls5, Hbs5. apply Hlen4. congruence.
Qed.

(** *** Untrail undoes the entries pushed since the root node *)

Lemma untrail_entries_extend entries tr extra vs vs' :
  untrail_entries entries tr vs = Some vs' ->
  untrail_entries entries (tr ++ extra) vs = Some vs'.
Proof.
  revert vs. induction entries as [| e entries IH]; intros vs Hrun; simpl in *; auto.
  destruct (var e <? 0); auto.
  destruct (at_index tr (prev_trail_index e)) as [prev |] eqn:Ep; [| discriminate].
  simpl in Hrun.
  assert (Ep' : at_index (tr ++ extra) (prev_trail_index e) = Some prev).
  { apply at_index_Some in Ep as [Hpos Hlook]. unfold at_index.
    destruct (Z.leb_spec 0 (prev_trail_index e)); [| lia].
    apply lookup_app_l_Some. exact Hlook. }
  rewrite Ep'. simpl.
  destruct (store_at vs (var e) _) as [vs1 |]; [| discriminate]. simpl in *.
  apply IH. exact Hrun.
Qed.

Lemma bounds_linked_extend vs tr extra :
  bounds_linked vs tr -> bounds_linked vs (tr ++ extra).
Proof.
  intros H v info Hv. destruct (H v info Hv) as (e & He & Hb).
  exists e. split; auto.
  apply at_index_Some in He as [Hpos Hlook]. unfold at_index.
  destruct (Z.leb_spec 0 (current_trail_index info)); [| lia].
  apply lookup_app_l_Some. exact Hlook.
Qed.

Lemma at_index_size_app {A} (l : list A) x : at_index (l ++ [x]) (size_ l) = Some x.
Proof.
  unfold size_. rewrite at_index_nat. rewrite lookup_app_r by lia.
  rewrite Nat.sub_diag. reflexivity.
Qed.

Lemma search_state_start t0 : level_zero_state t0 -> search_state t0 t0.
Proof.
  intros (Hl & Hr & Hlen & Hle & Hlink & _). exists [].
  rewrite app_nil_r, Hl, Hr. repeat split; auto. discriminate.
Qed.

Lemma search_state_boolean t0 t sat :
  search_state t0 t -> search_state t0 (with_trail_ sat t).
Proof. intros H. exact H. Qed.

Lemma search_state_enter_level t0 t t' :
  search_state t0 t -> Propagate_enter_level t = Some t' -> search_state t0 t'.
Proof.
  intros (ext & Htr & Hun & Hlink & [Hlen Hle0] & Hnil & Hhead & Hrl & Hpos & Hbs) Hrun.
  unfold Propagate_enter_level in Hrun.
  destruct (size_ (integer_search_levels_ _) <? CurrentDecisionLevel (trail_ t)) eqn:Elt;
    simpl in Hrun.
  - case_guard; simpl in Hrun; [| discriminate]. injection Hrun as <-.
    exists ext. simpl. repeat split; auto.
    + intros E. apply app_eq_nil in E as [_ E]. discriminate.
    + intros l ls E. destruct (integer_search_levels_ t) as [| l0 ls0] eqn:El.
      * simpl in E. injection E as <- _. rewrite Htr, (Hnil eq_refl), app_nil_r. reflexivity.
      * simpl in E. injection E as <- _. eapply Hhead; eauto.
    + rewrite !length_app. simpl. lia.
    + apply Forall_app. split; auto. constructor; [unfold size_; lia | constructor].
  - injection Hrun as <-. exists ext. simpl. repeat split; auto.
Qed.

Lemma search_state_enqueue fuel i_lit lr ir same t0 t t' :
  search_state t0 t ->
  integer_search_levels_ t <> [] ->
  Enqueue_same_reason fuel i_lit lr ir same t = Some (true, t') ->
  search_state t0 t'.
Proof.
  intros (ext & Htr & Hun & Hlink & [Hlen Hle0] & Hnil & Hhead & Hrl & Hpos & Hbs) Hlevel Hrun.
  destruct (Enqueue_at_search_level _ _ _ _ _ _ _ Hlevel Hrun)
    as (Heff & Hd & Hl & Hr & Hlens).
  destruct Heff as [Hv Ht | e Hv He Ht | info new_bound r Hinfo Hge Hgt Ht Hv].
  - exists ext. rewrite Hv, Ht, Hl, Hr. repeat split; auto.
  - exists (ext ++ [e]). rewrite Hv, Ht, Hl, Hr. repeat split; auto.
    + rewrite Htr, app_assoc. reflexivity.
    + rewrite rev_app_distr. simpl.
      destruct (Z.ltb_spec (var e) 0); [| lia].
      apply untrail_entries_extend. exact Hun.
    + apply bounds_linked_extend. exact Hlink.
    + intros E. contradiction.
  - apply at_index_Some in Hinfo as [Hpos' Hlook].
    pose proof (lookup_lt_Some _ _ _ Hlook) as Hlt.
    set (e := MkTrailEntry new_bound (il_var i_lit) (current_trail_index info) r) in *.
    exists (ext ++ [e]). rewrite Hv, Ht, Hl, Hr. repeat split; auto.
    + rewrite Htr, app_assoc. reflexivity.
    + rewrite rev_app_distr. simpl.
      destruct (Z.ltb_spec (il_var i_lit) 0); [lia |].
      destruct (Hlink _ _ Hlook) as (e0 & He0 & Hb0).
      assert (He0' : at_index (integer_trail_ t ++ [e]) (current_trail_index info) = Some e0).
      { apply at_index_Some in He0 as [Hp Hl0]. unfold at_index.
        destruct (Z.leb_spec 0 (current_trail_index info)); [| lia].
        apply lookup_app_l_Some. exact Hl0. }
      rewrite He0'. simpl.
      unfold store_at, size_. rewrite length_insert.
      destruct (Z.leb_spec 0 (il_var i_lit)); [| lia].
      destruct (Z.ltb_spec (il_var i_lit) (Z.of_nat (length (vars_ t)))); [| lia].
      simpl. rewrite list_insert_insert_eq, Hb0.
      replace (MkVarInfo (current_bound info) (current_trail_index info)) with info
        by (destruct info; reflexivity).
      rewrite list_insert_id by exact Hlook.
      apply untrail_entries_extend. exact Hun.
    + intros v info' Hv'.
      destruct (decide (v = Z.to_nat (il_var i_lit))) as [-> | Hne].
      * rewrite list_lookup_insert_eq in Hv' by exact Hlt. injection Hv' as <-.
        exists e. simpl. split; [apply at_index_size_app | reflexivity].
      * rewrite list_lookup_insert_ne in Hv' by auto.
        apply (bounds_linked_extend _ _ [e] Hlink v info' Hv').
    + rewrite length_insert. exact Hlen.
    + intros E. contradiction.
Qed.

Lemma search_state_run fuel ops : forall t0 t t',
  search_state t0 t -> run_search_ops fuel ops t = Some t' -> search_state t0 t'.
Proof.
  induction ops as [| op ops IH]; intros t0 t t' Hst Hrun; simpl in Hrun.
  - injection Hrun as <-. exact Hst.
  - destruct op as [f | | i_lit lr ir same].
    + eapply IH; [| exact Hrun]. apply search_state_boolean. exact Hst.
    + destruct (Propagate_enter_level t) as [t1 |] eqn:E; [| discriminate].
      simpl in Hrun. eapply IH; [| exact Hrun].
      eapply search_state_enter_level; eauto.
    + case_guard; simpl in Hrun; [| discriminate].
      destruct (Enqueue_same_reason fuel i_lit lr ir same t) as [[b t1] |] eqn:E;
        [| discriminate].
      simpl in Hrun. case_guard; simpl in Hrun; [| discriminate].
      simpl in *. subst b.
      eapply IH; [| exact Hrun].
      eapply search_state_enqueue; eauto.
Qed.

(** Backtracking to the root node from a search state. *)
Lemma Untrail_search_state t0 t idx :
  search_state t0 t ->
  CurrentDecisionLevel (trail_ t) = 0 ->
  exists t2,
    Untrail idx t = Some t2 /\
    vars_ t2 = vars_ t0 /\ integer_trail_ t2 = integer_trail_ t0 /\
    integer_search_levels_ t2 = [].
Proof.
  intros (ext & Htr & Hun & Hlink & [Hlen Hle0] & Hnil & Hhead & Hrl & Hpos & Hbs) Hlevel.
  unfold Untrail. rewrite Hlevel. simpl.
  destruct (integer_search_levels_ t) as [| l ls] eqn:El.
  - simpl. eexists. split; [reflexivity |]. simpl.
    specialize (Hnil eq_refl). subst ext. rewrite app_nil_r in Htr.
    simpl in Hun. injection Hun as Hun. auto.
  - assert (Hsz : (size_ (l :: ls) <=? 0) = false).
    { apply Z.leb_gt. unfold size_. simpl. lia. }
    rewrite Hsz.
    pose proof (Hhead l ls eq_refl) as ->.
    change (at_index (size_ (integer_trail_ t0) :: ls) 0)
      with (Some (size_ (integer_trail_ t0))).
    cbn [mbind option_bind].
    assert (Hg1 : size_ (vars_ t) <= size_ (integer_trail_ t0)) by (unfold size_; lia).
    assert (Hg2 : size_ (integer_trail_ t0) <= size_ (integer_trail_ t)).
    { unfold size_. rewrite Htr, length_app. lia. }
    rewrite (option_guard_True _ _ Hg1), (option_guard_True _ _ Hg2).
    assert (Hdrop : drop (Z.to_nat (size_ (integer_trail_ t0))) (integer_trail_ t) = ext).
    { unfold size_. rewrite Nat2Z.id, Htr. apply drop_app_length. }
    assert (Htake : take (Z.to_nat (size_ (integer_trail_ t0))) (integer_trail_ t)
                    = integer_trail_ t0).
    { unfold size_. rewrite Nat2Z.id, Htr. apply take_app_length. }
    rewrite Hdrop, Hun, Htake. cbn [mbind option_bind].
    destruct (reason_decision_levels_ t) as [| old_size rest] eqn:Er;
      [simpl in Hrl; discriminate |].
    change (at_index (old_size :: rest) 0) with (Some old_size).
    cbn [mbind option_bind].
    apply Forall_cons in Hpos as [Hold _].
    destruct (Z.ltb_spec old_size (size_ (literals_reason_starts_ t))) as [Hlt | Hge].
    + assert (Hl1 : exists x, at_index (literals_reason_starts_ t) old_size = Some x).
      { unfold at_index. destruct (Z.leb_spec 0 old_size); [| lia].
        apply lookup_lt_is_Some. unfold size_ in Hlt. lia. }
      assert (Hl2 : exists x, at_index (bounds_reason_starts_ t) old_size = Some x).
      { unfold at_index. destruct (Z.leb_spec 0 old_size); [| lia].
        apply lookup_lt_is_Some. unfold size_ in Hlt. lia. }
      destruct Hl1 as (x1 & ->). destruct Hl2 as (x2 & ->).
      cbn [mbind option_bind].
      eexists. split; [reflexivity |]. simpl. auto.
    + eexists. split; [reflexivity |]. simpl. auto.
Qed.

(** C4.  From the root node, any sequence of successful [Enqueue] calls
    made at decision levels >= 1 (interleaved with moves of the Boolean
    side and entries into new levels), followed by [Untrail] back to level
    0, brings every variable back to its level-zero lower bound and the
    integer trail back to its initial length. *)
Theorem Untrail_restores_level_zero fuel ops t0 t1 sat literal_trail_index :
  level_zero_state t0 ->
  run_search_ops fuel ops t0 = Some t1 ->
  CurrentDecisionLevel sat = 0 ->
  exists t2,
    Untrail literal_trail_index (with_trail_ sat t1) = Some t2 /\
    vars_ t2 = vars_ t0 /\
    (forall v, LowerBound t2 v = LowerBound t0 v) /\
    (forall v b, LowerBound t0 v = Some b -> LevelZeroBound t2 v = Some b) /\
    length (integer_trail_ t2) = length (integer_trail_ t0) /\
    integer_trail_ t2 = integer_trail_ t0.
Proof.
  intros Hzero Hrun Hlevel.
  pose proof (search_state_run fuel ops t0 t0 t1 (search_state_start t0 Hzero) Hrun) as Hst.
  destruct (Untrail_search_state t0 (with_trail_ sat t1) literal_trail_index)
    as (t2 & Hun & Hv & Ht & _); [exact Hst | exact Hlevel |].
  exists t2. split; [exact Hun |]. split; [exact Hv |].
  split; [intros v; unfold LowerBound; rewrite Hv; reflexivity |].
  split; [| rewrite Ht; auto].
  intros v b Hb. unfold LowerBound in Hb. unfold LevelZeroBound. rewrite Ht.
  destruct (at_index (vars_ t0) v) as [info |] eqn:Hinfo; [| discriminate].
  simpl in Hb. injection Hb as <-.
  apply at_index_Some in Hinfo as [Hpos Hlook].
  destruct Hzero as (_ & _ & _ & _ & Hlink & Hown).
  destruct (Hlink _ _ Hlook) as (e & He & Hbound).
  rewrite (Hown _ _ Hlook), Z2Nat.id in He by exact Hpos.
  rewrite He. simpl. congruence.
Qed.

End TrailFacts.

(** ** Variables and their negations *)

Lemma NegationOf_involutive i : NegationOf (NegationOf i) = i.
Proof.
  unfold NegationOf. rewrite Z.lxor_assoc, Z.lxor_nilpotent, Z.lxor_0_r. reflexivity.
Qed.

Lemma NegationOf_nonneg i : 0 <= i -> 0 <= NegationOf i.
Proof. intros H. unfold NegationOf. apply Z.lxor_nonneg. lia. Qed.

Lemma NegationOf_ne i : NegationOf i <> i.
Proof.
  unfold NegationOf. intros E.
  assert (H : Z.testbit (Z.lxor i 1) 0 = Z.testbit i 0) by (rewrite E; reflexivity).
  rewrite Z.lxor_spec in H. change (Z.testbit 1 0) with true in H.
  destruct (Z.testbit i 0); discriminate.
Qed.

Lemma NegationOf_inj i j : NegationOf i = NegationOf j -> i = j.
Proof.
  intros E. rewrite <- (NegationOf_involutive i), E. apply NegationOf_involutive.
Qed.

Lemma Negation_involutive (d : Domain.t) : Domain.Negation (Domain.Negation d) = d.
Proof.
  unfold Domain.Negation. rewrite map_rev, rev_involutive, map_map.
  rewrite <- (map_id d) at 2. apply map_ext. intros [s e]. simpl.
  rewrite !Z.opp_involutive. reflexivity.
Qed.

Lemma Negation_FromInterval l r :
  Domain.Negation (Domain.FromInterval l r) = Domain.FromInterval (- r) (- l).
Proof.
  unfold Domain.FromInterval.
  destruct (Z.leb_spec l r), (Z.leb_spec (- r) (- l)); try lia; reflexivity.
Qed.

(** The outermost check of a run. *)
Ltac outer_guard H :=
  match type of H with
  | (guard ?P ≫= _) = _ => destruct (guard P) as [? |]; [simpl in H | discriminate H]
  end.

Section NegationFacts.
Context {B : Type} `{!BooleanSide B}.
Variables (kMinIntegerValue kMaxIntegerValue : Z).
Implicit Type t : IntegerTrail B.

Lemma at_index_app_l {A} (l extra : list A) i x :
  at_index l i = Some x -> at_index (l ++ extra) i = Some x.
Proof.
  intros H. apply at_index_Some in H as [Hpos Hlook]. unfold at_index.
  destruct (Z.leb_spec 0 i); [| lia]. apply lookup_app_l_Some. exact Hlook.
Qed.

Lemma at_index_lt {A} (l : list A) i x : at_index l i = Some x -> 0 <= i < size_ l.
Proof.
  intros H. apply at_index_Some in H as [Hpos Hlook].
  apply lookup_lt_Some in Hlook. unfold size_. lia.
Qed.

Lemma at_index_store_eq {A} (l l' : list A) i x :
  store_at l i x = Some l' -> at_index l' i = Some x.
Proof.
  intros H. apply store_at_Some in H as (Hpos & Hlt & ->). unfold at_index.
  destruct (Z.leb_spec 0 i); [| lia]. apply list_lookup_insert_eq. exact Hlt.
Qed.

Lemma at_index_store_ne {A} (l l' : list A) i j x :
  store_at l i x = Some l' -> 0 <= j -> j <> i -> at_index l' j = at_index l j.
Proof.
  intros H Hj Hne. apply store_at_Some in H as (Hpos & Hlt & ->). unfold at_index.
  destruct (Z.leb_spec 0 j); [| lia]. apply list_lookup_insert_ne. lia.
Qed.

Lemma store_at_length {A} (l l' : list A) i x :
  store_at l i x = Some l' -> length l' = length l.
Proof. intros H. apply store_at_Some in H as (_ & _ & ->). apply length_insert. Qed.

(** The invariant only reads the domains and the number of variables. *)
Lemma negation_linked_same t t' :
  domains_ t' = domains_ t -> length (vars_ t') = length (vars_ t) ->
  negation_linked t -> negation_linked t'.
Proof. unfold negation_linked. intros -> ->. auto. Qed.

Lemma negation_linked_store t v d ds1 ds2 :
  negation_linked t ->
  store_at (domains_ t) v d = Some ds1 ->
  store_at ds1 (NegationOf v) (Domain.Negation d) = Some ds2 ->
  negation_linked (with_domains_ ds2 t).
Proof.
  intros [Hlen Hneg] Hs1 Hs2. split.
  - simpl. rewrite (store_at_length _ _ _ _ Hs2), (store_at_length _ _ _ _ Hs1). exact Hlen.
  - simpl. intros v0 d0 Hv0.
    pose proof (at_index_lt _ _ _ Hv0) as [Hpos0 _].
    pose proof (store_at_Some _ _ _ _ Hs1) as (Hposv & _ & _).
    destruct (Z.eq_dec v0 (NegationOf v)) as [-> | Hne1].
    + rewrite (at_index_store_eq _ _ _ _ Hs2) in Hv0. injection Hv0 as <-.
      rewrite NegationOf_involutive, Negation_involutive.
      rewrite (at_index_store_ne _ _ _ _ _ Hs2) by (auto using not_eq_sym, NegationOf_ne).
      apply (at_index_store_eq _ _ _ _ Hs1).
    + rewrite (at_index_store_ne _ _ _ _ _ Hs2) in Hv0 by auto.
      destruct (Z.eq_dec v0 v) as [-> | Hne2].
      * rewrite (at_index_store_eq _ _ _ _ Hs1) in Hv0. injection Hv0 as <-.
        apply (at_index_store_eq _ _ _ _ Hs2).
      * rewrite (at_index_store_ne _ _ _ _ _ Hs1) in Hv0 by auto.
        rewrite (at_index_store_ne _ _ _ _ _ Hs2);
          [| apply NegationOf_nonneg; exact Hpos0
           | intros E; apply NegationOf_inj in E; contradiction].
        rewrite (at_index_store_ne _ _ _ _ _ Hs1);
          [| apply NegationOf_nonneg; exact Hpos0
           | intros E; apply Hne1; rewrite <- E; symmetry; apply NegationOf_involutive].
        apply Hneg. exact Hv0.
Qed.

Lemma exclude_encoded_values_total encoding intervals (sat : B) :
  exists b sat', exclude_encoded_values encoding intervals sat = (b, sat').
Proof. destruct (exclude_encoded_values encoding intervals sat); eauto. Qed.

(** [UpdateInitialDomain] keeps the invariant when the calls to [Enqueue]
    it makes do. *)
Lemma UpdateInitialDomain_with_negation_linked enqueue v d t b t' :
  (forall l lr ir s r, negation_linked s -> enqueue l lr ir s = Some r ->
                       negation_linked (snd r)) ->
  negation_linked t ->
  UpdateInitialDomain_with enqueue v d t = Some (b, t') ->
  negation_linked t'.
Proof.
  intros Henq Hinv Hrun. unfold UpdateInitialDomain_with in Hrun.
  case_guard; simpl in Hrun; [| discriminate].
  destruct (at_index (domains_ t) v) as [old |]; [| discriminate]. simpl in Hrun.
  case_decide.
  { injection Hrun as _ <-. exact Hinv. }
  destruct (Domain.IsEmpty _).
  { injection Hrun as _ <-. exact Hinv. }
  destruct (store_at (domains_ t) v _) as [ds1 |] eqn:Es1; [| discriminate].
  simpl in Hrun.
  destruct (store_at ds1 (NegationOf v) _) as [ds2 |] eqn:Es2; [| discriminate].
  simpl in Hrun.
  pose proof (negation_linked_store _ _ _ _ _ Hinv Es1 Es2) as Hinv1.
  set (t1 := if 1 <? _ then _ else with_domains_ ds2 t) in Hrun.
  assert (Hinv2 : negation_linked t1).
  { subst t1. destruct (1 <? _); [| exact Hinv1].
    eapply negation_linked_same; [| | exact Hinv1]; reflexivity. }
  destruct (enqueue (GreaterOrEqual v _) [] [] t1) as [r1 |] eqn:E1; [| discriminate].
  simpl in Hrun. case_guard; simpl in Hrun; [| discriminate].
  destruct (enqueue (LowerOrEqual v _) [] [] (snd r1)) as [r2 |] eqn:E2; [| discriminate].
  simpl in Hrun. case_guard; simpl in Hrun; [| discriminate].
  injection Hrun as _ <-.
  pose proof (Henq _ _ _ _ _ Hinv2 E1) as Hinv3.
  pose proof (Henq _ _ _ _ _ Hinv3 E2) as Hinv4.
  eapply negation_linked_same; [| | exact Hinv4]; reflexivity.
Qed.

Lemma enqueue_empty_domain_domains v new_bound lr ir t r :
  enqueue_empty_domain v new_bound lr ir t = Some r ->
  domains_ (snd r) = domains_ t /\ vars_ (snd r) = vars_ t.
Proof.
  unfold enqueue_empty_domain. intros Hrun.
  destruct (IsOptional t v) as [optional |]; [| discriminate]. simpl in Hrun.
  destruct (at_index (is_ignored_literals_ t) v) as [ig |]; [| discriminate].
  simpl in Hrun.
  destruct (negb optional || _).
  - injection Hrun as <-. split; reflexivity.
  - unfold EnqueueLiteral in Hrun.
    destruct (integer_search_levels_ t) eqn:El.
    + injection Hrun as <-. split; reflexivity.
    + injection Hrun as <-. split; reflexivity.
Qed.

Lemma enqueue_at_level_zero_negation_linked enqueue v new_bound t b t' :
  (forall l lr ir s r, negation_linked s -> enqueue l lr ir s = Some r ->
                       negation_linked (snd r)) ->
  negation_linked t ->
  enqueue_at_level_zero enqueue v new_bound t = Some (b, t') ->
  negation_linked t'.
Proof.
  intros Henq Hinv Hrun. unfold enqueue_at_level_zero in Hrun.
  destruct (at_index (vars_ t) v) as [old |]; [| discriminate]. simpl in Hrun.
  destruct (store_at (vars_ t) v _) as [vs |] eqn:Es; [| discriminate]. simpl in Hrun.
  destruct (at_index (integer_trail_ t) v) as [entry |]; [| discriminate]. simpl in Hrun.
  destruct (store_at (integer_trail_ t) v _) as [tr |]; [| discriminate]. simpl in Hrun.
  destruct (LowerBound _ v) as [lb |]; [| discriminate]. simpl in Hrun.
  destruct (UpperBound _ v) as [ub |]; [| discriminate]. simpl in Hrun.
  eapply UpdateInitialDomain_with_negation_linked; [exact Henq | | exact Hrun].
  eapply negation_linked_same; [| | exact Hinv]; [reflexivity |].
  simpl. apply (store_at_length _ _ _ _ Es).
Qed.

Lemma Enqueue_same_reason_negation_linked fuel :
  forall i_lit lr ir same t r,
    negation_linked t ->
    Enqueue_same_reason fuel i_lit lr ir same t = Some r ->
    negation_linked (snd r).
Proof.
  induction fuel as [| fuel IH]; intros i_lit lr ir same t r Hinv Hrun; [discriminate |].
  rewrite Enqueue_same_reason_unfold in Hrun.
  destruct (IsCurrentlyIgnored t (il_var i_lit)) as [ignored |]; [| discriminate].
  simpl in Hrun. destruct ignored.
  { injection Hrun as <-. exact Hinv. }
  destruct (at_index (vars_ t) (il_var i_lit)) as [info |] eqn:Hinfo; [| discriminate].
  simpl in Hrun.
  destruct (il_bound i_lit <=? current_bound info).
  { injection Hrun as <-. exact Hinv. }
  unfold enqueue_better_bound in Hrun.
  set (t0 := with_counters _ _ t) in Hrun.
  destruct (canonicalize_literal i_lit t0) as [[[new_bound t1] |] |] eqn:Ec;
    try discriminate; simpl in Hrun.
  2:{ injection Hrun as <-. exact Hinv. }
  apply canonicalize_literal_core in Ec as ((Hv1 & _ & Hd1 & _) & _).
  simpl in Hv1, Hd1.
  assert (Hinv1 : negation_linked t1).
  { eapply negation_linked_same; [exact Hd1 | rewrite Hv1; reflexivity | exact Hinv]. }
  destruct (UpperBound t1 (il_var i_lit)) as [ub |]; [| discriminate]. simpl in Hrun.
  destruct (ub <? new_bound).
  { apply enqueue_empty_domain_domains in Hrun as [Hd Hv].
    eapply negation_linked_same; [exact Hd | rewrite Hv; reflexivity | exact Hinv1]. }
  set (t2 := with_watchers _ t1) in Hrun.
  destruct (if negb (_ =? kNoLiteralIndex) then _ else Some (true, t2))
    as [[b t3] |] eqn:Ea; [| discriminate].
  simpl in Hrun.
  assert (Hcore : same_core t3 t2).
  { destruct (negb (_ =? kNoLiteralIndex)).
    - eapply EnqueueAssociatedLiteral_core; eauto.
    - injection Ea as <- <-. apply same_core_refl. }
  destruct Hcore as (Hv3 & _ & Hd3 & _). simpl in Hv3, Hd3.
  assert (Hinv3 : negation_linked t3).
  { eapply negation_linked_same; [exact Hd3 | rewrite Hv3; reflexivity | exact Hinv1]. }
  destruct b; simpl in Hrun; [| injection Hrun as <-; exact Hinv3].
  destruct (integer_search_levels_ t3) eqn:El3.
  - destruct r as [b' t']. simpl.
    eapply enqueue_at_level_zero_negation_linked; [| exact Hinv3 | exact Hrun].
    intros l lr' ir' s r' Hs Hr'. simpl in Hr'. exact (IH _ _ _ _ _ _ Hs Hr').
  - destruct (save_reason _ _ _ t3) as [[r0 t4] |] eqn:Es; [| discriminate].
    simpl in Hrun.
    destruct (push_bound _ _ _ t4) as [t5 |] eqn:Ep; [| discriminate].
    simpl in Hrun. injection Hrun as <-. simpl.
    apply save_reason_effect in Es as (Hv4 & _ & Hd4 & _).
    apply push_bound_effect in Ep as (info' & _ & _ & Hv5 & Hd5 & _).
    eapply negation_linked_same; [| | exact Hinv3].
    + congruence.
    + rewrite Hv5, length_insert, Hv4. reflexivity.
Qed.

Lemma untrail_entries_length entries tr : forall vs vs',
  untrail_entries entries tr vs = Some vs' -> length vs' = length vs.
Proof.
  induction entries as [| e entries IH]; intros vs vs' Hrun; simpl in Hrun.
  - injection Hrun as <-. reflexivity.
  - destruct (var e <? 0); [eauto |].
    destruct (at_index tr _) as [prev |]; [| discriminate]. simpl in Hrun.
    destruct (store_at vs _ _) as [vs1 |] eqn:Es; [| discriminate]. simpl in Hrun.
    rewrite (IH _ _ Hrun). apply (store_at_length _ _ _ _ Es).
Qed.

Lemma Untrail_negation_linked idx t t' :
  negation_linked t -> Untrail idx t = Some t' -> negation_linked t'.
Proof.
  intros Hinv Hrun. unfold Untrail in Hrun. simpl in Hrun.
  destruct (size_ (integer_search_levels_ t) <=? _).
  { injection Hrun as <-. apply (negation_linked_same t); [reflexivity | reflexivity | exact Hinv]. }
  destruct (at_index (integer_search_levels_ t) _) as [target |]; [| discriminate].
  simpl in Hrun.
  destruct (guard (size_ (vars_ t) <= target)); [| discriminate]. simpl in Hrun.
  destruct (guard (target <= size_ (integer_trail_ t))); [| discriminate]. simpl in Hrun.
  destruct (untrail_entries _ _ _) as [vs |] eqn:Eu; [| discriminate]. simpl in Hrun.
  apply untrail_entries_length in Eu.
  destruct (at_index (reason_decision_levels_ t) _) as [old_size |]; [| discriminate].
  simpl in Hrun.
  destruct (old_size <? _).
  - destruct (at_index (literals_reason_starts_ t) _); [| discriminate]. simpl in Hrun.
    destruct (at_index (bounds_reason_starts_ t) _); [| discriminate]. simpl in Hrun.
    injection Hrun as <-. apply (negation_linked_same t); [reflexivity | exact Eu | exact Hinv].
  - injection Hrun as <-. apply (negation_linked_same t); [reflexivity | exact Eu | exact Hinv].
Qed.

Lemma at_index_app_size {A} (l : list A) x extra :
  at_index (l ++ x :: extra) (size_ l) = Some x.
Proof.
  unfold size_. rewrite at_index_nat. rewrite lookup_app_r by lia.
  rewrite Nat.sub_diag. reflexivity.
Qed.

Lemma at_index_app_succ {A} (l : list A) x y extra :
  at_index (l ++ x :: y :: extra) (size_ l + 1) = Some y.
Proof.
  unfold size_. replace (Z.of_nat (length l) + 1) with (Z.of_nat (S (length l))) by lia.
  rewrite at_index_nat. rewrite lookup_app_r by lia.
  replace (S (length l) - length l)%nat with 1%nat by lia. reflexivity.
Qed.

Lemma AddIntegerVariable_spec lower_bound upper_bound t i t' :
  negation_linked t ->
  AddIntegerVariable kMinIntegerValue kMaxIntegerValue lower_bound upper_bound t
  = Some (i, t') ->
  i = size_ (vars_ t) /\ NegationOf i = i + 1 /\
  size_ (vars_ t') = i + 2 /\
  LowerBound t' i = Some lower_bound /\
  UpperBound t' i = Some upper_bound /\
  LowerBound t' (NegationOf i) = Some (- upper_bound) /\
  UpperBound t' (NegationOf i) = Some (- lower_bound) /\
  at_index (domains_ t') i = Some (Domain.FromInterval lower_bound upper_bound) /\
  at_index (domains_ t') (NegationOf i)
  = Some (Domain.Negation (Domain.FromInterval lower_bound upper_bound)) /\
  negation_linked t'.
Proof.
  intros [Hlen Hneg] Hrun. unfold AddIntegerVariable in Hrun.
  do 6 outer_guard Hrun.
  destruct (guard _) as [Hnext |]; [| discriminate]. simpl in Hrun.
  injection Hrun as <- <-.
  assert (Hnext' : NegationOf (size_ (vars_ t)) = size_ (vars_ t) + 1).
  { rewrite Hnext. unfold size_. rewrite length_app. simpl. lia. }
  assert (Hback : NegationOf (size_ (vars_ t) + 1) = size_ (vars_ t)).
  { rewrite <- Hnext'. apply NegationOf_involutive. }
  assert (Hds : size_ (domains_ t) = size_ (vars_ t)) by (unfold size_; lia).
  simpl. rewrite <- !app_assoc. simpl.
  unfold LowerBound, UpperBound. simpl. rewrite <- ?app_assoc. simpl.
  rewrite Hnext', Hback, Negation_FromInterval.
  rewrite !at_index_app_size, !at_index_app_succ.
  rewrite <- Hds, !at_index_app_size, !at_index_app_succ. simpl.
  rewrite Z.opp_involutive.
  repeat split; try reflexivity.
  - unfold size_. rewrite length_app. simpl. lia.
  - simpl. rewrite !length_app. simpl. lia.
  - simpl. intros v d Hv.
    destruct (Z.ltb_spec v (size_ (domains_ t))) as [Hlt | Hge].
    + assert (Hold : at_index (domains_ t) v = Some d).
      { apply at_index_Some in Hv as [Hpos Hlook]. unfold at_index.
        destruct (Z.leb_spec 0 v); [| lia].
        rewrite lookup_app_l in Hlook by (unfold size_ in Hlt; lia). exact Hlook. }
      apply at_index_app_l. apply Hneg. exact Hold.
    + pose proof (at_index_lt _ _ _ Hv) as [_ Hsz].
      unfold size_ in Hsz. rewrite length_app in Hsz. simpl in Hsz.
      assert (Hcase : v = size_ (domains_ t) \/ v = size_ (domains_ t) + 1)
        by (unfold size_ in *; lia).
      destruct Hcase as [-> | ->].
      * rewrite at_index_app_size in Hv. injection Hv as <-.
        rewrite Hds, Hnext', <- Hds, at_index_app_succ, Negation_FromInterval.
        reflexivity.
      * rewrite at_index_app_succ in Hv. injection Hv as <-.
        rewrite Hds, Hback, <- Hds, at_index_app_size, Negation_FromInterval.
        rewrite !Z.opp_involutive. reflexivity.
Qed.

Lemma LowerBound_NegationOf t v :
  LowerBound t (NegationOf v) = (ub ← UpperBound t v; Some (- ub)).
Proof.
  unfold LowerBound, UpperBound.
  destruct (at_index (vars_ t) (NegationOf v)) as [info |]; simpl; [| reflexivity].
  rewrite Z.opp_involutive. reflexivity.
Qed.

Lemma negation_linked_initial t :
  vars_ t = [] -> domains_ t = [] -> negation_linked t.
Proof.
  intros Hv Hd. split; [rewrite Hv, Hd; reflexivity |].
  intros v d. rewrite Hd. unfold at_index. destruct (0 <=? v); discriminate.
Qed.

(** C9.  The domain of the negation of a variable is the negation of the
    domain of the variable: this holds of a trail without variables and,
    from a trail where it holds, [AddIntegerVariable] creates a variable
    and, at the next index, its negation, whose lower bound is the
    opposite of the upper bound of the variable and whose domain is the
    negation of its domain; the lower bound of a negation is always the
    opposite of the upper bound of the variable, and the link between the
    domains is kept by [UpdateInitialDomain], [Enqueue] and [Untrail]. *)
Theorem negation_invariant :
  (forall t, vars_ t = [] -> domains_ t = [] -> negation_linked t) /\
  forall t,
    negation_linked t ->
    (forall lower_bound upper_bound i t',
        AddIntegerVariable kMinIntegerValue kMaxIntegerValue lower_bound upper_bound t
        = Some (i, t') ->
        NegationOf i = i + 1 /\
        size_ (vars_ t') = i + 2 /\
        LowerBound t' (NegationOf i) = Some (- upper_bound) /\
        UpperBound t' i = Some upper_bound /\
        (exists d, at_index (domains_ t') i = Some d /\
                   at_index (domains_ t') (NegationOf i) = Some (Domain.Negation d)) /\
        negation_linked t') /\
    (forall v, LowerBound t (NegationOf v) = (ub ← UpperBound t v; Some (- ub))) /\
    (forall v d, at_index (domains_ t) v = Some d ->
                 at_index (domains_ t) (NegationOf v) = Some (Domain.Negation d)) /\
    (forall fuel v domain b t',
        UpdateInitialDomain fuel v domain t = Some (b, t') -> negation_linked t') /\
    (forall fuel i_lit literal_reason integer_reason same b t',
        Enqueue_same_reason fuel i_lit literal_reason integer_reason same t = Some (b, t') ->
        negation_linked t') /\
    (forall literal_trail_index t',
        Untrail literal_trail_index t = Some t' -> negation_linked t').
Proof.
  split; [exact negation_linked_initial |].
  intros t Hinv.
  refine (conj _ (conj _ (conj _ (conj _ (conj _ _))))).
  - intros lower_bound upper_bound i t' Hrun.
    destruct (AddIntegerVariable_spec _ _ _ _ _ Hinv Hrun)
      as (_ & Hnext & Hsize & _ & Hub & Hlb & _ & Hd & Hn & Hinv').
    refine (conj Hnext (conj Hsize (conj Hlb (conj Hub (conj _ Hinv'))))).
    eexists. split; [exact Hd | exact Hn].
  - apply LowerBound_NegationOf.
  - apply Hinv.
  - intros fuel v domain b t' Hrun.
    eapply UpdateInitialDomain_with_negation_linked; [| exact Hinv | exact Hrun].
    intros l lr ir s r Hs Hr. exact (Enqueue_same_reason_negation_linked _ _ _ _ _ _ _ Hs Hr).
  - intros fuel i_lit lr ir same b t' Hrun.
    exact (Enqueue_same_reason_negation_linked _ _ _ _ _ _ _ Hinv Hrun).
  - intros idx t' Hrun. exact (Untrail_negation_linked _ _ _ Hinv Hrun).
Qed.

End NegationFacts.

(** ** Canonical bounds *)

Section CanonicalFacts.
Import Domain.

Lemma wf_suffix (l1 l2 : t) : wf (l1 ++ l2) -> wf l2.
Proof.
  induction l1 as [| a l1 IH]; simpl app; auto.
  intros H. apply IH. eapply wf_tail; eauto.
Qed.

(** The loop of the canonicalisation skips the intervals that end below
    the bound and stops at the first one that does not. *)
Lemma advance_interval_index_spec (rest : t) : forall index b,
  exists skipped kept,
    rest = skipped ++ kept /\
    Forall (fun i => end_ i < b) skipped /\
    advance_interval_index rest index b = index + Z.of_nat (length skipped) /\
    match kept with [] => True | i :: _ => b <= end_ i end.
Proof.
  induction rest as [| i rest IH]; intros index b; simpl.
  - exists [], []. repeat split; auto. simpl. lia.
  - destruct (Z.ltb_spec (end_ i) b) as [Hlt | Hge].
    + destruct (IH (index + 1) b) as (skipped & kept & -> & Hall & Hidx & Hkept).
      exists (i :: skipped), kept. repeat split; auto.
      rewrite Hidx. simpl length. lia.
    + exists [], (i :: rest). repeat split; auto. simpl. lia.
Qed.

Lemma canonicalize_bound_spec (d : t) index b :
  wf d -> interval_index_behind d index b ->
  (canonicalize_bound d index b = Some None /\ forall x, elem x d -> x < b) \/
  (exists index' nb i,
      canonicalize_bound d index b = Some (Some (index', nb)) /\
      In i d /\ nb = Z.max b (start i) /\ b <= end_ i /\
      least_value_from d b nb).
Proof.
  intros Hwf [[Hpos Hle] Hbehind]. unfold canonicalize_bound.
  rewrite (option_guard_True _ _ Hpos).
  destruct (advance_interval_index_spec (drop (Z.to_nat index) d) index b)
    as (skipped & kept & Hrest & Hall & Hidx & Hkept).
  rewrite Hidx.
  assert (Hd : d = (take (Z.to_nat index) d ++ skipped) ++ kept).
  { rewrite <- app_assoc, <- Hrest, take_drop. reflexivity. }
  assert (Hlen : index + Z.of_nat (length skipped)
                 = Z.of_nat (length (take (Z.to_nat index) d ++ skipped))).
  { rewrite length_app, length_take. unfold NumIntervals in Hle. lia. }
  assert (Hlow : Forall (fun i => end_ i < b) (take (Z.to_nat index) d ++ skipped)).
  { apply Forall_app. split; assumption. }
  set (low := take (Z.to_nat index) d ++ skipped) in *.
  destruct kept as [| i kept].
  - left. rewrite app_nil_r in Hd. rewrite Hlen, <- Hd.
    unfold size_. rewrite Z.eqb_refl. split; [reflexivity |].
    intros x (j & Hj & Hx)%elem_iff. rewrite Hd in Hj.
    rewrite List.Forall_forall in Hlow.
    specialize (Hlow j Hj). simpl in Hlow. lia.
  - right. exists (Z.of_nat (length low)), (Z.max b (start i)), i.
    assert (Hin : In i d) by (rewrite Hd; apply in_app_iff; right; left; reflexivity).
    pose proof (wf_nonempty_intervals _ _ Hwf Hin) as Hne.
    rewrite Hlen.
    assert (Hneq : (Z.of_nat (length low) =? size_ d) = false).
    { apply Z.eqb_neq. unfold size_. pose proof (f_equal length Hd) as Hl.
      rewrite length_app in Hl. simpl in Hl. lia. }
    assert (Hlook : at_index d (Z.of_nat (length low)) = Some i).
    { rewrite at_index_nat, Hd. apply list_lookup_middle. reflexivity. }
    rewrite Hneq, Hlook. simpl. repeat split; auto; try lia.
    + apply elem_iff. exists i. split; auto. lia.
    + intros x (j & Hj & Hx)%elem_iff Hbx.
      rewrite Hd in Hj. apply in_app_iff in Hj as [Hj | [<- | Hj]].
      * rewrite List.Forall_forall in Hlow.
        specialize (Hlow j Hj). simpl in Hlow. lia.
      * lia.
      * rewrite Hd in Hwf. apply wf_suffix in Hwf.
        pose proof (wf_head_separated _ _ _ Hwf Hj). lia.
Qed.

(** A bound in a hole of the domain is raised to the start of an
    interval. *)
Lemma canonical_in_hole (d : t) b i :
  ~ elem b d -> In i d -> b <= end_ i -> Z.max b (start i) = start i /\ b < start i.
Proof.
  intros Hhole Hin Hend.
  destruct (Z.ltb_spec b (start i)) as [Hlt | Hge].
  - lia.
  - exfalso. apply Hhole. apply elem_iff. exists i. split; auto.
Qed.

(** What the canonicalisation returns when it returns a bound: the
    intervals it skipped end below the bound, and the new bound is in the
    interval it stopped at. *)
Lemma canonicalize_bound_result (d : t) index b index' nb :
  canonicalize_bound d index b = Some (Some (index', nb)) ->
  0 <= index /\
  exists skipped i kept,
    d = take (Z.to_nat index) d ++ skipped ++ i :: kept /\
    Forall (fun j => end_ j < b) skipped /\
    index' = index + Z.of_nat (length skipped) /\
    index' < NumIntervals d /\
    b <= end_ i /\ nb = Z.max b (start i).
Proof.
  unfold canonicalize_bound. intros Hrun.
  case_guard; simpl in Hrun; [| discriminate]. split; [assumption |].
  destruct (advance_interval_index_spec (drop (Z.to_nat index) d) index b)
    as (skipped & kept & Hrest & Hall & Hidx & Hkept).
  rewrite Hidx in Hrun.
  destruct (Z.eqb_spec (index + Z.of_nat (length skipped)) (size_ d)) as [| Hne];
    [discriminate |].
  destruct (at_index d _) as [i |] eqn:Hi; [| discriminate]. simpl in Hrun.
  injection Hrun as <- <-.
  apply at_index_Some in Hi as [_ Hlook].
  pose proof (lookup_lt_Some _ _ _ Hlook) as Hlt.
  assert (Hd : d = take (Z.to_nat index) d ++ skipped ++ kept).
  { rewrite <- Hrest, take_drop. reflexivity. }
  assert (Hlen : length (take (Z.to_nat index) d) = Z.to_nat index).
  { rewrite length_take. lia. }
  destruct kept as [| i' kept].
  - exfalso. pose proof (f_equal length Hd) as Hl.
    rewrite !length_app, Hlen in Hl. simpl in Hl. lia.
  - exists skipped, i', kept.
    assert (i = i').
    { rewrite Hd in Hlook.
      rewrite lookup_app_r in Hlook by lia.
      rewrite lookup_app_r in Hlook by lia.
      replace (Z.to_nat (index + Z.of_nat (length skipped))
               - length (take (Z.to_nat index) d) - length skipped)%nat
        with 0%nat in Hlook by lia.
      simpl in Hlook. congruence. }
    subst i'. repeat split; auto. unfold NumIntervals. lia.
Qed.

Lemma in_interval_not_in_hole (d : t) i b :
  In i d -> start i <= b <= end_ i -> ~ in_hole d b.
Proof. intros Hin Hb [Hne _]. apply Hne. apply elem_iff. eauto. Qed.

(** A domain of at most one interval has no hole. *)
Lemma single_interval_no_hole (d : t) b : NumIntervals d <= 1 -> ~ in_hole d b.
Proof.
  unfold NumIntervals. intros Hn [Hne (x & y & Hx & Hy & Hlt)].
  destruct d as [| i [| j d]]; simpl in Hn; [| | lia].
  - destruct (elem_nil _ Hx).
  - apply Hne. apply elem_cons in Hx as [Hx | Hx]; [| destruct (elem_nil _ Hx)].
    apply elem_cons in Hy as [Hy | Hy]; [| destruct (elem_nil _ Hy)].
    apply elem_cons. left. lia.
Qed.

(** The intersection with an interval makes no hole around a bound. *)
Lemma in_hole_IntersectionWith_interval (d : t) lo hi b :
  in_hole (IntersectionWith (FromInterval lo hi) d) b -> in_hole d b.
Proof.
  intros [Hne (x & y & Hx & Hy & Hlt)].
  apply elem_IntersectionWith in Hx as [Hx1 Hx2].
  apply elem_IntersectionWith in Hy as [Hy1 Hy2].
  apply elem_FromInterval in Hx1, Hy1.
  split; [| eauto 6].
  intros Hb. apply Hne. apply elem_IntersectionWith. split; [| exact Hb].
  apply elem_FromInterval. lia.
Qed.

Lemma in_hole_Negation (d : t) b : in_hole (Negation d) b <-> in_hole d (- b).
Proof.
  unfold in_hole. rewrite elem_Negation. split.
  - intros [Hne (x & y & Hx & Hy & Hlt)]. split; [exact Hne |].
    apply elem_Negation in Hx, Hy. exists (- y), (- x). repeat split; auto; lia.
  - intros [Hne (x & y & Hx & Hy & Hlt)]. split; [exact Hne |].
    exists (- y), (- x). rewrite !elem_Negation, !Z.opp_involutive.
    repeat split; auto; lia.
Qed.

Lemma wf_cons_iff a (d : t) :
  wf (a :: d) <-> start a <= end_ a /\ (forall y, In y d -> end_ a + 1 < start y) /\ wf d.
Proof.
  split.
  - intros Hwf. split; [simpl in Hwf; tauto |]. split; [| eapply wf_tail; eauto].
    intros y Hy. eapply wf_head_separated; eauto.
  - intros (Ha & Hsep & Hd). simpl. repeat split; auto.
    destruct d as [| b d]; [exact I | apply Hsep; left; reflexivity].
Qed.

Lemma wf_app_iff (d1 d2 : t) :
  wf (d1 ++ d2) <->
  wf d1 /\ wf d2 /\ forall x y, In x d1 -> In y d2 -> end_ x + 1 < start y.
Proof.
  induction d1 as [| a d1 IH].
  - simpl. split; [intros H; repeat split; auto; intros x y [] | tauto].
  - change ((a :: d1) ++ d2) with (a :: (d1 ++ d2)).
    rewrite !wf_cons_iff, IH. split.
    + intros (Ha & Hsep & Hd1 & Hd2 & Hx). repeat split; auto.
      * intros y Hy. apply Hsep. apply in_app_iff. auto.
      * intros x y [-> | Hx'] Hy; [apply Hsep; apply in_app_iff; auto | auto].
    + intros ((Ha & Hsep & Hd1) & Hd2 & Hx). repeat split; auto.
      * intros y [Hy | Hy]%in_app_iff; [auto | apply Hx; simpl; auto].
      * intros x y Hx' Hy. apply Hx; simpl; auto.
Qed.

(** The intervals of an intersection are parts of the intervals of both
    domains. *)
Lemma In_interval_inter i o j :
  In j (interval_inter i o) ->
  start j <= end_ j /\ start i <= start j /\ end_ j <= end_ i /\
  start o <= start j /\ end_ j <= end_ o.
Proof.
  unfold interval_inter, FromInterval.
  destruct (Z.leb_spec (Z.max (start i) (start o)) (Z.min (end_ i) (end_ o)));
    [| intros []].
  intros [<- | []]. simpl. lia.
Qed.

Lemma wf_inter_one i (other : t) :
  wf other ->
  wf (flat_map (interval_inter i) other) /\
  forall j, In j (flat_map (interval_inter i) other) ->
            start i <= start j /\ end_ j <= end_ i /\
            exists o, In o other /\ start o <= start j /\ end_ j <= end_ o.
Proof.
  induction other as [| o other IH]; intros Hwf.
  - simpl. split; [exact I | intros j []].
  - destruct (IH (wf_tail _ _ Hwf)) as [Hw Hin].
    change (flat_map (interval_inter i) (o :: other))
      with (interval_inter i o ++ flat_map (interval_inter i) other).
    split.
    + apply wf_app_iff. split; [| split; [exact Hw |]].
      * unfold interval_inter. apply wf_FromInterval.
      * intros x y Hx Hy. apply In_interval_inter in Hx.
        destruct (Hin y Hy) as (_ & _ & o' & Ho' & Hs & _).
        pose proof (wf_head_separated _ _ _ Hwf Ho'). lia.
    + intros j [Hj | Hj]%in_app_iff.
      * apply In_interval_inter in Hj. repeat split; try lia.
        exists o. split; [left; reflexivity | lia].
      * destruct (Hin j Hj) as (H1 & H2 & o' & Ho' & H3). repeat split; auto.
        exists o'. split; [right; exact Ho' | exact H3].
Qed.

(** The intersection keeps the representation invariant. *)
Lemma wf_IntersectionWith (d other : t) :
  wf d -> wf other -> wf (IntersectionWith d other).
Proof.
  unfold IntersectionWith. intros Hd Ho.
  assert (H : wf (flat_map (fun i => flat_map (interval_inter i) other) d) /\
              forall j, In j (flat_map (fun i => flat_map (interval_inter i) other) d) ->
                        exists i, In i d /\ start i <= start j /\ end_ j <= end_ i);
    [| tauto].
  induction d as [| i d IH].
  - simpl. split; [exact I | intros j []].
  - destruct (IH (wf_tail _ _ Hd)) as [Hw Hin].
    destruct (wf_inter_one i other Ho) as [Hw1 Hin1].
    change (flat_map (fun i => flat_map (interval_inter i) other) (i :: d))
      with (flat_map (interval_inter i) other
            ++ flat_map (fun i => flat_map (interval_inter i) other) d).
    split.
    + apply wf_app_iff. split; [exact Hw1 |]. split; [exact Hw |].
      intros x y Hx Hy. destruct (Hin1 x Hx) as (_ & Hxe & _).
      destruct (Hin y Hy) as (i' & Hi' & Hs & _).
      pose proof (wf_head_separated _ _ _ Hd Hi'). lia.
    + intros j [Hj | Hj]%in_app_iff.
      * destruct (Hin1 j Hj) as (H1 & H2 & _). exists i. split; [left; reflexivity | lia].
      * destruct (Hin j Hj) as (i' & Hi' & H3). exists i'. split; [right; exact Hi' | exact H3].
Qed.

End CanonicalFacts.

Section EnqueueFacts.
Context {B : Type} `{!BooleanSide B}.
Implicit Type t : IntegerTrail B.

Lemma at_index_insert_eq {A} (l : list A) i x y :
  at_index l i = Some y -> at_index (<[Z.to_nat i := x]> l) i = Some x.
Proof.
  intros H. apply at_index_Some in H as [Hpos Hlook]. unfold at_index.
  destruct (Z.leb_spec 0 i); [| lia].
  apply list_lookup_insert_eq. eapply lookup_lt_Some; eauto.
Qed.

Lemma canonicalize_literal_holes i_lit t d index :
  at_index (domains_ t) (il_var i_lit) = Some d ->
  1 < Domain.NumIntervals d ->
  RevMap_FindOrDie (il_var i_lit) (var_to_current_lb_interval_index_ t) = Some index ->
  canonicalize_literal i_lit t
  = (canon ← canonicalize_bound d index (il_bound i_lit);
     Some (match canon with
           | None => None
           | Some (index', new_bound) =>
               Some (new_bound,
                     with_interval_index
                       (RevMap_Set (il_var i_lit) index'
                          (var_to_current_lb_interval_index_ t)) t)
           end)).
Proof.
  intros Hd Hn Hidx. unfold canonicalize_literal. rewrite Hd. simpl.
  destruct (Z.ltb_spec 1 (Domain.NumIntervals d)); [| lia].
  rewrite Hidx. reflexivity.
Qed.

Lemma enqueue_empty_domain_level_zero v new_bound lr ir t t' :
  integer_search_levels_ t = [] ->
  enqueue_empty_domain v new_bound lr ir t = Some (true, t') ->
  vars_ t' = vars_ t /\ integer_trail_ t' = integer_trail_ t.
Proof.
  intros Hlevel. unfold enqueue_empty_domain. intros Hrun.
  destruct (IsOptional t v) as [optional |]; [| discriminate]. simpl in Hrun.
  destruct (at_index (is_ignored_literals_ t) v) as [ig |]; [| discriminate].
  simpl in Hrun.
  destruct (negb optional || _); [discriminate |].
  rewrite Hlevel in Hrun. injection Hrun as <-. split; reflexivity.
Qed.

(** What [Enqueue] records once the bound is known to be better than the
    current one and has been made canonical. *)
Lemma enqueue_records fuel i_lit lr ir same t info nb t1 t' :
  at_index (vars_ t) (il_var i_lit) = Some info ->
  same_core t1 t -> 
  (let var := il_var i_lit in
   ub ← UpperBound t1 var;
   if ub <? nb then enqueue_empty_domain var nb lr ir t1
   else
     let t := with_watchers (map (bitset_set var) (watchers_ t1)) t1 in
     let literal_index := SearchForLiteralAtOrBefore (MkIntegerLiteral var nb) (trail_ t) in
     r ← (if negb (literal_index =? kNoLiteralIndex) then
            EnqueueAssociatedLiteral literal_index (size_ (integer_trail_ t))
              lr ir kNoBooleanVariable t
          else Some (true, t));
     if negb (fst r) then Some (false, snd r)
     else
       let t := snd r in
       match integer_search_levels_ t with
       | [] =>
           enqueue_at_level_zero
             (fun l lr ir t' => Enqueue_same_reason fuel l lr ir None t') var nb t
       | _ =>
           let same :=
             match same with
             | Some idx => idx
             | None => size_ (integer_trail_ t)
             end in
           r ← save_reason lr ir same t;
           t ← push_bound var nb (fst r) (snd r);
           Some (true, t)
       end) = Some (true, t') ->
  bound_recorded fuel (il_var i_lit) nb info t t'.
Proof.
  intros Hinfo (Hv1 & Ht1 & Hd1 & Hl1 & _) Hrun. cbv zeta in Hrun.
  destruct (UpperBound t1 (il_var i_lit)) as [ub |] eqn:Hub; [| discriminate].
  simpl in Hrun.
  assert (Hub' : UpperBound t (il_var i_lit) = Some ub).
  { unfold UpperBound in *. rewrite <- Hv1. exact Hub. }
  destruct (Z.ltb_spec ub nb) as [Hlt | Hge].
  - (* Above the upper bound of an optional variable. *)
    destruct (integer_search_levels_ t) as [| l ls] eqn:El.
    + apply enqueue_empty_domain_level_zero in Hrun as [Hv Ht]; [| congruence].
      apply (recorded_ignored_at_level_zero _ _ _ _ _ _ ub); congruence.
    + apply enqueue_empty_domain_effect in Hrun; [| congruence].
      destruct Hrun as (Hv & (e & He & Htr) & _).
      apply (recorded_ignored_entry _ _ _ _ _ _ e ub); congruence.
  - set (t2 := with_watchers _ t1) in Hrun.
    destruct (if negb (_ =? kNoLiteralIndex) then _ else Some (true, t2))
      as [[b t3] |] eqn:Ea; [| discriminate].
    simpl in Hrun.
    assert (Hcore : same_core t3 t2).
    { destruct (negb (_ =? kNoLiteralIndex)).
      - eapply EnqueueAssociatedLiteral_core; eauto.
      - injection Ea as <- <-. apply same_core_refl. }
    destruct Hcore as (Hv3 & Ht3 & Hd3 & Hl3 & _). simpl in Hv3, Ht3, Hd3, Hl3.
    destruct b; simpl in Hrun; [| discriminate].
    destruct (integer_search_levels_ t3) as [| l ls] eqn:El3.
    + (* Level zero. *)
      unfold enqueue_at_level_zero in Hrun.
      destruct (at_index (vars_ t3) (il_var i_lit)) as [old |] eqn:Hold; [| discriminate].
      simpl in Hrun.
      destruct (store_at (vars_ t3) _ _) as [vs |] eqn:Evs; [| discriminate].
      simpl in Hrun.
      destruct (at_index (integer_trail_ t3) _) as [entry |]; [| discriminate].
      simpl in Hrun.
      destruct (store_at (integer_trail_ t3) _ _) as [tr |] eqn:Etr; [| discriminate].
      simpl in Hrun.
      set (t_mid := with_trail_ _ (with_vars_trail vs tr t3)) in Hrun.
      destruct (LowerBound t_mid (il_var i_lit)) as [lb |] eqn:Hlb; [| discriminate].
      simpl in Hrun.
      destruct (UpperBound t_mid (il_var i_lit)) as [ub' |] eqn:Hub3; [| discriminate].
      simpl in Hrun.
      assert (Hlb' : lb = nb).
      { unfold LowerBound in Hlb. simpl in Hlb.
        rewrite (at_index_store_eq _ _ _ _ Evs) in Hlb. simpl in Hlb. congruence. }
      subst lb.
      apply (recorded_at_level_zero _ _ _ _ _ _ t_mid ub'); auto.
      * congruence.
      * unfold LevelZeroBound. simpl. rewrite (at_index_store_eq _ _ _ _ Etr).
        reflexivity.
      * simpl. congruence.
    + destruct (save_reason _ _ _ t3) as [[r t4] |] eqn:Es; [| discriminate].
      simpl in Hrun.
      destruct (push_bound _ _ _ t4) as [t5 |] eqn:Ep; [| discriminate].
      simpl in Hrun. injection Hrun as <-.
      apply save_reason_effect in Es as (Hv4 & Ht4 & _).
      apply push_bound_effect in Ep as (info' & Hinfo' & Htr5 & Hv5 & _).
      assert (info' = info) by congruence. subst info'.
      apply (recorded_entry _ _ _ _ _ _ r).
      * congruence.
      * rewrite Htr5. congruence.
      * unfold LowerBound. rewrite Hv5.
        rewrite (at_index_insert_eq _ _ _ info) by congruence. reflexivity.
Qed.

(** *** No entry in a hole *)

(** The two invariants only read the variables, the entries and the
    domains. *)
Lemma canonical_same t t' :
  vars_ t' = vars_ t -> integer_trail_ t' = integer_trail_ t ->
  domains_ t' = domains_ t ->
  trail_well_formed t /\ entries_outside_holes t ->
  trail_well_formed t' /\ entries_outside_holes t'.
Proof.
  unfold trail_well_formed, entries_outside_holes, negation_linked.
  intros -> -> ->. auto.
Qed.

(** An entry for a literal can be appended. *)
Lemma canonical_literal_entry t t' e :
  vars_ t' = vars_ t -> integer_trail_ t' = integer_trail_ t ++ [e] ->
  domains_ t' = domains_ t -> var e < 0 ->
  trail_well_formed t /\ entries_outside_holes t ->
  trail_well_formed t' /\ entries_outside_holes t'.
Proof.
  unfold trail_well_formed, entries_outside_holes, negation_linked.
  intros -> -> -> Hneg [(Hlink & Hwf & Hlen & Hown) Hout].
  split; [repeat split; try tauto |].
  - rewrite length_app. lia.
  - intros v e0 Hv He0. rewrite lookup_app_l in He0 by lia. eauto.
  - intros i e0 d He0 Hd.
    apply lookup_app_Some in He0 as [He0 | [_ He0]]; [eauto |].
    apply list_lookup_singleton_Some in He0 as [_ <-].
    apply at_index_Some in Hd. lia.
Qed.

(** The canonical bound is not in a hole of the domain. *)
Lemma canonical_not_in_hole i_lit t nb t1 d :
  canonicalize_literal i_lit t = Some (Some (nb, t1)) ->
  at_index (domains_ t) (il_var i_lit) = Some d ->
  Domain.wf d ->
  ~ in_hole d nb.
Proof.
  unfold canonicalize_literal. intros Hrun Hd Hwf. rewrite Hd in Hrun. simpl in Hrun.
  destruct (Z.ltb_spec 1 (Domain.NumIntervals d)) as [Hn | Hn].
  - destruct (RevMap_FindOrDie _ _) as [index |]; [| discriminate]. simpl in Hrun.
    destruct (canonicalize_bound d index (il_bound i_lit))
      as [[[index' b'] |] |] eqn:Ec; try discriminate.
    simpl in Hrun. injection Hrun as <- <-.
    apply canonicalize_bound_result in Ec
      as (_ & skipped & i & kept & Hd' & _ & _ & _ & Hend & ->).
    assert (Hin : In i d).
    { rewrite Hd'. apply in_app_iff. right. apply in_app_iff. right. left. reflexivity. }
    pose proof (wf_nonempty_intervals _ _ Hwf Hin).
    apply (in_interval_not_in_hole d i); [exact Hin | lia].
  - apply single_interval_no_hole. exact Hn.
Qed.

Lemma canonicalize_literal_domains i_lit t nb t1 :
  canonicalize_literal i_lit t = Some (Some (nb, t1)) ->
  vars_ t1 = vars_ t /\ integer_trail_ t1 = integer_trail_ t /\ domains_ t1 = domains_ t.
Proof.
  intros H. apply canonicalize_literal_core in H as ((Hv & Ht & Hd & _) & _). auto.
Qed.

Lemma enqueue_empty_domain_trail v new_bound lr ir t r :
  enqueue_empty_domain v new_bound lr ir t = Some r ->
  vars_ (snd r) = vars_ t /\ domains_ (snd r) = domains_ t /\
  (integer_trail_ (snd r) = integer_trail_ t \/
   exists e, var e < 0 /\ integer_trail_ (snd r) = integer_trail_ t ++ [e]).
Proof.
  unfold enqueue_empty_domain. intros Hrun.
  destruct (IsOptional t v) as [optional |]; [| discriminate]. simpl in Hrun.
  destruct (at_index (is_ignored_literals_ t) v) as [ig |]; [| discriminate].
  simpl in Hrun.
  destruct (negb optional || _).
  - injection Hrun as <-. simpl. auto.
  - unfold EnqueueLiteral in Hrun.
    destruct (integer_search_levels_ t) eqn:El.
    + injection Hrun as <-. simpl. auto.
    + injection Hrun as <-. simpl. repeat split; auto.
      right. eexists. split; [| reflexivity]. simpl. unfold kNoIntegerVariable. lia.
Qed.

(** The update of the initial domain that [Enqueue] makes at level zero,
    with the interval of the bounds. *)
Lemma UpdateInitialDomain_with_canonical enqueue v lo hi t b t' :
  (forall l lr ir s r,
      trail_well_formed s /\ entries_outside_holes s ->
      enqueue l lr ir s = Some r ->
      trail_well_formed (snd r) /\ entries_outside_holes (snd r)) ->
  trail_well_formed t /\ entries_outside_holes t ->
  UpdateInitialDomain_with enqueue v (Domain.FromInterval lo hi) t = Some (b, t') ->
  trail_well_formed t' /\ entries_outside_holes t'.
Proof.
  intros Henq Hinv Hrun. unfold UpdateInitialDomain_with in Hrun.
  case_guard; simpl in Hrun; [| discriminate].
  destruct (at_index (domains_ t) v) as [old |] eqn:Hold; [| discriminate]. simpl in Hrun.
  case_decide.
  { injection Hrun as _ <-. exact Hinv. }
  destruct (Domain.IsEmpty _).
  { injection Hrun as _ <-. exact Hinv. }
  destruct (store_at (domains_ t) v _) as [ds1 |] eqn:Es1; [| discriminate].
  simpl in Hrun.
  destruct (store_at ds1 (NegationOf v) _) as [ds2 |] eqn:Es2; [| discriminate].
  simpl in Hrun.
  set (d' := Domain.IntersectionWith (Domain.FromInterval lo hi) old) in *.
  assert (Hinv1 : trail_well_formed (with_domains_ ds2 t) /\
                  entries_outside_holes (with_domains_ ds2 t)).
  { destruct Hinv as [(Hlink & Hwf & Hlen & Hown) Hout].
    assert (Hwfold : Domain.wf old).
    { apply at_index_Some in Hold as [_ Hl].
      rewrite Forall_lookup in Hwf. eauto. }
    assert (Hwf' : Domain.wf d').
    { apply wf_IntersectionWith; [apply wf_FromInterval | exact Hwfold]. }
    pose proof (store_at_Some _ _ _ _ Es1) as (_ & _ & ->).
    pose proof (store_at_Some _ _ _ _ Es2) as (_ & _ & E2).
    split; [split; [| split; [| split]] |].
    - eapply negation_linked_store; eauto.
    - simpl. rewrite E2. apply Forall_insert; [apply Forall_insert; auto |].
      apply wf_Negation. exact Hwf'.
    - exact Hlen.
    - exact Hown.
    - intros i e d He Hd. simpl in He, Hd.
      destruct (Z.eq_dec (var e) (NegationOf v)) as [Ev | Hne1].
      + rewrite Ev, (at_index_store_eq _ _ _ _ Es2) in Hd. injection Hd as <-.
        intros Hh%in_hole_Negation%in_hole_IntersectionWith_interval.
        destruct Hlink as [_ Hneg].
        apply (Hout i e (Domain.Negation old) He).
        * rewrite Ev. apply Hneg. exact Hold.
        * apply in_hole_Negation. exact Hh.
      + pose proof (at_index_lt _ _ _ Hd) as [Hpos _].
        rewrite (at_index_store_ne _ _ _ _ _ Es2) in Hd by auto.
        destruct (Z.eq_dec (var e) v) as [Ev | Hne2].
        * rewrite Ev, (at_index_store_eq _ _ _ _ Es1) in Hd. injection Hd as <-.
          intros Hh%in_hole_IntersectionWith_interval.
          apply (Hout i e old He); [rewrite Ev; exact Hold | exact Hh].
        * rewrite (at_index_store_ne _ _ _ _ _ Es1) in Hd by auto.
          eauto. }
  set (t1 := if 1 <? _ then _ else with_domains_ ds2 t) in Hrun.
  assert (Hinv2 : trail_well_formed t1 /\ entries_outside_holes t1).
  { subst t1. destruct (1 <? _); [| exact Hinv1].
    eapply canonical_same; [| | | exact Hinv1]; reflexivity. }
  destruct (enqueue (GreaterOrEqual v _) [] [] t1) as [r1 |] eqn:E1; [| discriminate].
  simpl in Hrun. case_guard; simpl in Hrun; [| discriminate].
  destruct (enqueue (LowerOrEqual v _) [] [] (snd r1)) as [r2 |] eqn:E2; [| discriminate].
  simpl in Hrun. case_guard; simpl in Hrun; [| discriminate].
  injection Hrun as _ <-.
  pose proof (Henq _ _ _ _ _ Hinv2 E1) as Hinv3.
  pose proof (Henq _ _ _ _ _ Hinv3 E2) as Hinv4.
  eapply canonical_same; [| | | exact Hinv4]; reflexivity.
Qed.

Lemma enqueue_at_level_zero_canonical enqueue v new_bound t b t' :
  (forall l lr ir s r,
      trail_well_formed s /\ entries_outside_holes s ->
      enqueue l lr ir s = Some r ->
      trail_well_formed (snd r) /\ entries_outside_holes (snd r)) ->
  trail_well_formed t /\ entries_outside_holes t ->
  (forall d, at_index (domains_ t) v = Some d -> ~ in_hole d new_bound) ->
  enqueue_at_level_zero enqueue v new_bound t = Some (b, t') ->
  trail_well_formed t' /\ entries_outside_holes t'.
Proof.
  intros Henq Hinv Hnb Hrun. unfold enqueue_at_level_zero in Hrun.
  destruct (at_index (vars_ t) v) as [old |] eqn:Hold; [| discriminate]. simpl in Hrun.
  destruct (store_at (vars_ t) v _) as [vs |] eqn:Es; [| discriminate]. simpl in Hrun.
  destruct (at_index (integer_trail_ t) v) as [entry |] eqn:He; [| discriminate].
  simpl in Hrun.
  destruct (store_at (integer_trail_ t) v _) as [tr |] eqn:Et; [| discriminate].
  simpl in Hrun.
  destruct (LowerBound _ v) as [lb |]; [| discriminate]. simpl in Hrun.
  destruct (UpperBound _ v) as [ub |]; [| discriminate]. simpl in Hrun.
  eapply UpdateInitialDomain_with_canonical; [exact Henq | | exact Hrun].
  apply (canonical_same (with_vars_trail vs tr t)); try reflexivity.
  destruct Hinv as [(Hlink & Hwf & Hlen & Hown) Hout].
  pose proof (store_at_Some _ _ _ _ Es) as (Hpos & Hlt & ->).
  pose proof (store_at_Some _ _ _ _ Et) as (_ & Hlt' & ->).
  apply at_index_Some in He as [_ Hentry].
  assert (Hvar : var entry = v).
  { rewrite (Hown _ _ Hlt Hentry). lia. }
  split; [split; [| split; [| split]] |]; simpl.
  - eapply negation_linked_same; [| | exact Hlink]; simpl; [reflexivity |].
    apply length_insert.
  - exact Hwf.
  - rewrite !length_insert. exact Hlen.
  - intros v0 e0. rewrite length_insert. intros Hv0 He0.
    destruct (decide (v0 = Z.to_nat v)) as [-> | Hne].
    + rewrite list_lookup_insert_eq in He0 by exact Hlt'. injection He0 as <-.
      simpl. rewrite Hvar. lia.
    + rewrite list_lookup_insert_ne in He0 by auto. eauto.
  - intros i e d He0 Hd. simpl in He0, Hd.
    destruct (decide (i = Z.to_nat v)) as [-> | Hne].
    + rewrite list_lookup_insert_eq in He0 by exact Hlt'. injection He0 as <-.
      simpl in *. rewrite Hvar in Hd. auto.
    + rewrite list_lookup_insert_ne in He0 by auto. eauto.
Qed.

(** [Enqueue] keeps the shape of the trail and puts no entry in a hole,
    whatever the level and the result. *)
Lemma Enqueue_same_reason_canonical fuel :
  forall i_lit lr ir same t r,
    trail_well_formed t /\ entries_outside_holes t ->
    Enqueue_same_reason fuel i_lit lr ir same t = Some r ->
    trail_well_formed (snd r) /\ entries_outside_holes (snd r).
Proof.
  induction fuel as [| fuel IH]; intros i_lit lr ir same t r Hinv Hrun; [discriminate |].
  rewrite Enqueue_same_reason_unfold in Hrun.
  destruct (IsCurrentlyIgnored t (il_var i_lit)) as [ignored |]; [| discriminate].
  simpl in Hrun. destruct ignored.
  { injection Hrun as <-. exact Hinv. }
  destruct (at_index (vars_ t) (il_var i_lit)) as [info |] eqn:Hinfo; [| discriminate].
  simpl in Hrun.
  destruct (il_bound i_lit <=? current_bound info).
  { injection Hrun as <-. exact Hinv. }
  unfold enqueue_better_bound in Hrun.
  set (t0 := with_counters _ _ t) in Hrun.
  assert (Hinv0 : trail_well_formed t0 /\ entries_outside_holes t0).
  { apply (canonical_same t); auto. }
  destruct (canonicalize_literal i_lit t0) as [[[new_bound t1] |] |] eqn:Ec;
    try discriminate; simpl in Hrun.
  2:{ injection Hrun as <-. apply (canonical_same t); auto. }
  assert (Hnb : forall d, at_index (domains_ t) (il_var i_lit) = Some d ->
                          ~ in_hole d new_bound).
  { intros d Hd. eapply canonical_not_in_hole; [exact Ec | exact Hd |].
    destruct Hinv as [(_ & Hwf & _) _]. apply at_index_Some in Hd as [_ Hl].
    rewrite Forall_lookup in Hwf. eauto. }
  apply canonicalize_literal_domains in Ec as (Hv1 & Ht1 & Hd1).
  simpl in Hv1, Ht1, Hd1.
  assert (Hinv1 : trail_well_formed t1 /\ entries_outside_holes t1).
  { apply (canonical_same t); auto. }
  destruct (UpperBound t1 (il_var i_lit)) as [ub |]; [| discriminate]. simpl in Hrun.
  destruct (ub <? new_bound).
  { apply enqueue_empty_domain_trail in Hrun as (Hv & Hd & [Ht | (e & He & Ht)]).
    - apply (canonical_same t1); auto.
    - apply (canonical_literal_entry t1 _ e); auto. }
  set (t2 := with_watchers _ t1) in Hrun.
  destruct (if negb (_ =? kNoLiteralIndex) then _ else Some (true, t2))
    as [[b t3] |] eqn:Ea; [| discriminate].
  simpl in Hrun.
  assert (Hcore : same_core t3 t2).
  { destruct (negb (_ =? kNoLiteralIndex)).
    - eapply EnqueueAssociatedLiteral_core; eauto.
    - injection Ea as <- <-. apply same_core_refl. }
  destruct Hcore as (Hv3 & Ht3 & Hd3 & _). simpl in Hv3, Ht3, Hd3.
  assert (Hinv3 : trail_well_formed t3 /\ entries_outside_holes t3).
  { apply (canonical_same t1); auto. }
  destruct b; simpl in Hrun; [| injection Hrun as <-; exact Hinv3].
  destruct (integer_search_levels_ t3) eqn:El3.
  - destruct r as [b' t']. simpl.
    eapply enqueue_at_level_zero_canonical; [| exact Hinv3 | | exact Hrun].
    + intros l lr' ir' s r' Hs Hr'. simpl in Hr'. exact (IH _ _ _ _ _ _ Hs Hr').
    + intros d Hd. apply Hnb. congruence.
  - destruct (save_reason _ _ _ t3) as [[r0 t4] |] eqn:Es; [| discriminate].
    simpl in Hrun.
    destruct (push_bound _ _ _ t4) as [t5 |] eqn:Ep; [| discriminate].
    simpl in Hrun. injection Hrun as <-. simpl.
    apply save_reason_effect in Es as (Hv4 & Ht4 & Hd4 & _).
    apply push_bound_effect in Ep as (info' & Hinfo' & Htr5 & Hv5 & Hd5 & _).
    destruct Hinv3 as [(Hlink & Hwf & Hlen & Hown) Hout].
    apply at_index_Some in Hinfo' as [Hpos Hlook].
    pose proof (lookup_lt_Some _ _ _ Hlook) as Hlt.
    split; [split; [| split; [| split]] |].
    + eapply negation_linked_same; [| | exact Hlink]; [congruence |].
      rewrite Hv5, length_insert. congruence.
    + congruence.
    + rewrite Hv5, Htr5, length_insert, length_app, Hv4, Ht4. lia.
    + intros v e. rewrite Hv5, Htr5, length_insert, Hv4, Ht4. intros Hv He.
      rewrite lookup_app_l in He by lia. eauto.
    + intros i e d. rewrite Htr5, Hd5, Hd4, Ht4. intros He Hd.
      apply lookup_app_Some in He as [He | [_ He]]; [eauto |].
      apply list_lookup_singleton_Some in He as [_ <-]. simpl in *.
      apply Hnb. congruence.
Qed.

(** *** The cached interval index *)

Lemma EnqueueAssociatedLiteral_index literal idx lr ir same t b t' :
  EnqueueAssociatedLiteral literal idx lr ir same t = Some (b, t') ->
  var_to_current_lb_interval_index_ t' = var_to_current_lb_interval_index_ t.
Proof.
  unfold EnqueueAssociatedLiteral. intros Hrun.
  destruct (negb (VariableIsAssigned t literal)).
  - destruct (integer_search_levels_ t);
      [| destruct (negb (same =? kNoBooleanVariable))];
      injection Hrun as <- <-; reflexivity.
  - destruct (AssignmentLiteralIsFalse (trail_ t) literal);
      injection Hrun as <- <-; reflexivity.
Qed.

Lemma enqueue_empty_domain_index v new_bound lr ir t r :
  enqueue_empty_domain v new_bound lr ir t = Some r ->
  var_to_current_lb_interval_index_ (snd r) = var_to_current_lb_interval_index_ t.
Proof.
  unfold enqueue_empty_domain. intros Hrun.
  destruct (IsOptional t v) as [optional |]; [| discriminate]. simpl in Hrun.
  destruct (at_index (is_ignored_literals_ t) v) as [ig |]; [| discriminate].
  simpl in Hrun.
  destruct (negb optional || _).
  - injection Hrun as <-. reflexivity.
  - unfold EnqueueLiteral in Hrun.
    destruct (integer_search_levels_ t); injection Hrun as <-; reflexivity.
Qed.

Lemma save_reason_index lr ir same t r t1 :
  save_reason lr ir same t = Some (r, t1) ->
  var_to_current_lb_interval_index_ t1 = var_to_current_lb_interval_index_ t.
Proof.
  unfold save_reason. intros Hrun.
  destruct (_ <=? _).
  - case_guard; simpl in Hrun; [| discriminate]. injection Hrun as <- <-. reflexivity.
  - destruct (at_index _ _); [| discriminate]. simpl in Hrun.
    injection Hrun as <- <-. reflexivity.
Qed.

Lemma push_bound_index v new_bound reason t t' :
  push_bound v new_bound reason t = Some t' ->
  var_to_current_lb_interval_index_ t' = var_to_current_lb_interval_index_ t.
Proof.
  unfold push_bound. intros Hrun.
  destruct (at_index (vars_ t) v) as [info |]; [| discriminate]. simpl in Hrun.
  destruct (store_at _ _ _) as [vs |]; [| discriminate]. simpl in Hrun.
  injection Hrun as <-. reflexivity.
Qed.

(** The canonicalisation only moves the cached index of its variable,
    which it leaves behind the canonical bound. *)
Lemma canonicalize_literal_index i_lit t nb t1 :
  canonicalize_literal i_lit t = Some (Some (nb, t1)) ->
  (forall w, w <> il_var i_lit ->
             RevMap_FindOrDie w (var_to_current_lb_interval_index_ t1)
             = RevMap_FindOrDie w (var_to_current_lb_interval_index_ t)) /\
  forall d index b,
    at_index (domains_ t) (il_var i_lit) = Some d -> 1 < Domain.NumIntervals d ->
    RevMap_FindOrDie (il_var i_lit) (var_to_current_lb_interval_index_ t) = Some index ->
    interval_index_behind d index b -> b <= il_bound i_lit ->
    exists index',
      RevMap_FindOrDie (il_var i_lit) (var_to_current_lb_interval_index_ t1) = Some index' /\
      interval_index_behind d index' (nb + 1).
Proof.
  unfold canonicalize_literal. intros Hrun.
  destruct (at_index (domains_ t) (il_var i_lit)) as [domain |]; [| discriminate].
  simpl in Hrun.
  destruct (Z.ltb_spec 1 (Domain.NumIntervals domain)) as [Hn | Hn].
  - destruct (RevMap_FindOrDie _ _) as [index0 |]; [| discriminate]. simpl in Hrun.
    destruct (canonicalize_bound domain index0 (il_bound i_lit))
      as [[[index' b'] |] |] eqn:Ec; try discriminate.
    simpl in Hrun. injection Hrun as <- <-. split.
    + intros w Hw. unfold RevMap_FindOrDie, RevMap_Set. simpl.
      apply lookup_insert_ne. auto.
    + intros d index b [= <-] _ [= <-] [[Hpos Hle] Hbehind] Hb.
      exists index'. split.
      * unfold RevMap_FindOrDie, RevMap_Set. simpl. apply lookup_insert_eq.
      * apply canonicalize_bound_result in Ec
          as (_ & skipped & i & kept & Hd' & Hall & -> & Hlt & Hend & ->).
        split; [lia |].
        assert (Htake : take (Z.to_nat (index0 + Z.of_nat (length skipped))) domain
                        = take (Z.to_nat index0) domain ++ skipped).
        { rewrite Hd' at 1. unfold Domain.NumIntervals in Hle.
          rewrite take_app_ge by (rewrite length_take; lia).
          rewrite length_take.
          replace (Z.to_nat (index0 + Z.of_nat (length skipped))
                   - (Z.to_nat index0 `min` length domain))%nat
            with (length skipped) by lia.
          rewrite take_app_length. reflexivity. }
        rewrite Htake. apply Forall_app. split.
        -- eapply Forall_impl; [exact Hbehind |]. simpl. intros. lia.
        -- eapply Forall_impl; [exact Hall |]. simpl. intros. lia.
  - injection Hrun as <- <-. split; [reflexivity |].
    intros d index b [= <-]. lia.
Qed.

(** At a search level [Enqueue] leaves the cached index of the other
    variables behind their bounds, and that of its variable when the bound
    is recorded. *)
Lemma Enqueue_index_at_search_level fuel i_lit lr ir same t r :
  integer_search_levels_ t <> [] ->
  Enqueue_same_reason fuel i_lit lr ir same t = Some r ->
  (forall w, w <> il_var i_lit -> index_behind t w -> index_behind (snd r) w) /\
  (index_behind t (il_var i_lit) ->
   (exists lb, LowerBound (snd r) (il_var i_lit) = Some lb /\ il_bound i_lit <= lb) ->
   index_behind (snd r) (il_var i_lit)).
Proof.
  intros Hlevel Hrun. destruct fuel as [| fuel]; [discriminate |].
  rewrite Enqueue_same_reason_unfold in Hrun.
  destruct (IsCurrentlyIgnored t (il_var i_lit)) as [ignored |]; [| discriminate].
  simpl in Hrun.
  destruct ignored.
  { injection Hrun as <-. auto. }
  destruct (at_index (vars_ t) (il_var i_lit)) as [info |] eqn:Hinfo; [| discriminate].
  simpl in Hrun.
  destruct (Z.leb_spec (il_bound i_lit) (current_bound info)) as [| Hgt].
  { injection Hrun as <-. auto. }
  (* From here on the call changes the state; what matters is what it
     leaves of the variables, the domains and the cached indices. *)
  assert (Hkeep : forall t',
             vars_ t' = vars_ t -> domains_ t' = domains_ t ->
             (forall w, w <> il_var i_lit ->
                        RevMap_FindOrDie w (var_to_current_lb_interval_index_ t')
                        = RevMap_FindOrDie w (var_to_current_lb_interval_index_ t)) ->
             (forall w, w <> il_var i_lit -> index_behind t w -> index_behind t' w) /\
             (index_behind t (il_var i_lit) ->
              (exists lb, LowerBound t' (il_var i_lit) = Some lb /\ il_bound i_lit <= lb) ->
              index_behind t' (il_var i_lit))).
  { intros t' Hv Hd Hidx. split.
    - intros w Hw Hb d. rewrite Hd, Hv, (Hidx w Hw). apply Hb.
    - intros _ (lb & Hlb & Hle). unfold LowerBound in Hlb.
      rewrite Hv, Hinfo in Hlb. simpl in Hlb. injection Hlb as <-. lia. }
  unfold enqueue_better_bound in Hrun.
  set (t0 := with_counters _ _ t) in Hrun.
  destruct (canonicalize_literal i_lit t0) as [[[new_bound t1] |] |] eqn:Ec;
    try discriminate; simpl in Hrun.
  2:{ injection Hrun as <-. apply Hkeep; auto. }
  pose proof (canonicalize_literal_index _ _ _ _ Ec) as [Hother Hself].
  apply canonicalize_literal_core in Ec as ((Hv1 & Ht1 & Hd1 & Hl1 & _) & _ & Hge & _).
  simpl in Hv1, Ht1, Hd1, Hl1, Hother, Hself.
  destruct (UpperBound t1 (il_var i_lit)) as [ub |]; [| discriminate]. simpl in Hrun.
  destruct (Z.ltb_spec ub new_bound) as [Hub | Hub].
  { pose proof (enqueue_empty_domain_index _ _ _ _ _ _ Hrun) as Hi.
    apply enqueue_empty_domain_trail in Hrun as (Hv & Hd & _).
    apply Hkeep; [congruence | congruence |].
    intros w Hw. rewrite Hi. auto. }
  set (t2 := with_watchers _ t1) in Hrun.
  destruct (if negb (_ =? kNoLiteralIndex) then _ else Some (true, t2))
    as [[b t3] |] eqn:Ea; [| discriminate].
  simpl in Hrun.
  assert (Hcore : same_core t3 t2 /\
                  var_to_current_lb_interval_index_ t3
                  = var_to_current_lb_interval_index_ t1).
  { destruct (negb (_ =? kNoLiteralIndex)).
    - split; [eapply EnqueueAssociatedLiteral_core; eauto |].
      apply EnqueueAssociatedLiteral_index in Ea. exact Ea.
    - injection Ea as <- <-. split; [apply same_core_refl | reflexivity]. }
  destruct Hcore as [(Hv3 & Ht3 & Hd3 & Hl3 & _) Hi3]. simpl in Hv3, Ht3, Hd3, Hl3.
  destruct b; simpl in Hrun.
  2:{ injection Hrun as <-. simpl. apply Hkeep; [congruence | congruence |].
      intros w Hw. rewrite Hi3. auto. }
  destruct (integer_search_levels_ t3) eqn:El3; [congruence |].
  destruct (save_reason _ _ _ t3) as [[r0 t4] |] eqn:Es; [| discriminate].
  simpl in Hrun.
  destruct (push_bound _ _ _ t4) as [t5 |] eqn:Ep; [| discriminate].
  simpl in Hrun. injection Hrun as <-. simpl.
  pose proof (save_reason_index _ _ _ _ _ _ Es) as Hi4.
  pose proof (push_bound_index _ _ _ _ _ Ep) as Hi5.
  apply save_reason_effect in Es as (Hv4 & Ht4 & Hd4 & _).
  apply push_bound_effect in Ep as (info' & Hinfo' & Htr5 & Hv5 & Hd5 & _).
  apply at_index_Some in Hinfo as [Hpos Hlook].
  pose proof (lookup_lt_Some _ _ _ Hlook) as Hlt.
  assert (Hvars : vars_ t5
                  = <[Z.to_nat (il_var i_lit) :=
                        MkVarInfo new_bound (size_ (integer_trail_ t4))]> (vars_ t))
    by (rewrite Hv5; congruence).
  assert (Hdoms : domains_ t5 = domains_ t) by congruence.
  assert (Hidx : var_to_current_lb_interval_index_ t5
                 = var_to_current_lb_interval_index_ t1) by congruence.
  split.
  - intros w Hw Hb d. rewrite Hdoms, Hidx, (Hother w Hw). intros Hd Hn.
    destruct (Hb d Hd Hn) as (index & infow & Hi & Hiw & Hbeh).
    exists index, infow. split; [exact Hi |]. split; [| exact Hbeh].
    rewrite Hvars. apply at_index_Some in Hiw as [Hposw Hlw].
    unfold at_index. destruct (Z.leb_spec 0 w); [| lia].
    rewrite list_lookup_insert_ne by lia. exact Hlw.
  - intros Hb _ d. rewrite Hdoms, Hidx. intros Hd Hn.
    destruct (Hb d Hd Hn) as (index & info0 & Hi & Hi0 & Hbeh).
    assert (info0 = info).
    { apply at_index_Some in Hi0 as [_ Hl0]. congruence. }
    subst info0.
    destruct (Hself d index (current_bound info + 1) Hd Hn Hi Hbeh ltac:(lia))
      as (index' & Hi' & Hbeh').
    exists index', (MkVarInfo new_bound (size_ (integer_trail_ t4))).
    split; [exact Hi' |]. split; [| exact Hbeh'].
    rewrite Hvars. unfold at_index. destruct (Z.leb_spec 0 (il_var i_lit)); [| lia].
    apply list_lookup_insert_eq. exact Hlt.
Qed.

(** *** The root node *)

Lemma well_formed_same t t' :
  vars_ t' = vars_ t -> integer_trail_ t' = integer_trail_ t ->
  domains_ t' = domains_ t -> trail_well_formed t -> trail_well_formed t'.
Proof. unfold trail_well_formed, negation_linked. intros -> -> ->. auto. Qed.

Lemma index_behind_same t t' v :
  vars_ t' = vars_ t -> domains_ t' = domains_ t ->
  RevMap_FindOrDie v (var_to_current_lb_interval_index_ t')
  = RevMap_FindOrDie v (var_to_current_lb_interval_index_ t) ->
  index_behind t v -> index_behind t' v.
Proof. unfold index_behind. intros -> -> ->. auto. Qed.

(** A cached index reset to 0 is behind every bound. *)
Lemma index_behind_reset t v lb :
  LowerBound t v = Some lb ->
  RevMap_FindOrDie v (var_to_current_lb_interval_index_ t) = Some 0 ->
  index_behind t v.
Proof.
  intros Hlb Hidx d Hd Hn. unfold LowerBound in Hlb.
  destruct (at_index (vars_ t) v) as [info |] eqn:Hinfo; [| discriminate].
  exists 0, info. split; [exact Hidx |]. split; [reflexivity |].
  split; [lia | constructor].
Qed.

Lemma root_canonical_same t t' :
  vars_ t' = vars_ t -> integer_trail_ t' = integer_trail_ t ->
  domains_ t' = domains_ t ->
  integer_search_levels_ t' = integer_search_levels_ t ->
  (forall v, index_behind t v -> index_behind t' v) ->
  root_canonical t -> root_canonical t'.
Proof.
  intros Hv Ht Hd Hl Hidx (H1 & H2 & H3 & H4 & H5 & H6).
  split; [congruence |]. split; [congruence |].
  split; [apply (well_formed_same t); assumption |].
  split; [rewrite Hv, Ht; exact H4 |].
  split; [| intros v; apply Hidx, H6].
  intros v d x. unfold LowerBound. rewrite Hd, Hv. apply H5.
Qed.

Lemma NumIntervals_Negation (d : Domain.t) :
  Domain.NumIntervals (Domain.Negation d) = Domain.NumIntervals d.
Proof.
  unfold Domain.NumIntervals, Domain.Negation. rewrite length_rev, length_map.
  reflexivity.
Qed.

(** Every variable that has a domain has bounds. *)
Lemma bounds_exist t v d :
  negation_linked t -> at_index (domains_ t) v = Some d ->
  exists lb ub,
    LowerBound t v = Some lb /\ UpperBound t v = Some ub /\
    LowerBound t (NegationOf v) = Some (- ub).
Proof.
  intros [Hlen Hneg] Hd.
  pose proof (Hneg _ _ Hd) as Hd'.
  apply at_index_lt in Hd as [Hp1 Hl1]. apply at_index_lt in Hd' as [Hp2 Hl2].
  unfold size_ in *. rewrite Hlen in Hl1, Hl2.
  unfold LowerBound, UpperBound, at_index.
  destruct (Z.leb_spec 0 v); [| lia]. destruct (Z.leb_spec 0 (NegationOf v)); [| lia].
  destruct (lookup_lt_is_Some_2 (vars_ t) (Z.to_nat v)) as [i1 ->]; [lia |].
  destruct (lookup_lt_is_Some_2 (vars_ t) (Z.to_nat (NegationOf v))) as [i2 ->]; [lia |].
  simpl. eexists _, _. repeat split. rewrite Z.opp_involutive. reflexivity.
Qed.

(** The domains of a variable and of its negation are within the bounds
    when the values of the domain of the variable are. *)
Lemma bound_below_pair t v D lb ub :
  at_index (domains_ t) v = Some D ->
  at_index (domains_ t) (NegationOf v) = Some (Domain.Negation D) ->
  LowerBound t v = Some lb -> UpperBound t v = Some ub ->
  (forall x, Domain.elem x D -> lb <= x <= ub) ->
  bound_below_domain t v /\ bound_below_domain t (NegationOf v).
Proof.
  intros Hd Hd' Hlb Hub Hin. split.
  - intros d x Hd0 Hx. assert (d = D) by congruence. subst d.
    exists lb. split; [exact Hlb |]. apply Hin. exact Hx.
  - intros d x Hd0 Hx. assert (d = Domain.Negation D) by congruence. subst d.
    apply elem_Negation in Hx. exists (- ub). split; [| apply Hin in Hx; lia].
    rewrite LowerBound_NegationOf, Hub. reflexivity.
Qed.

Lemma store_domains_well_formed t v d ds1 ds2 :
  trail_well_formed t -> Domain.wf d ->
  store_at (domains_ t) v d = Some ds1 ->
  store_at ds1 (NegationOf v) (Domain.Negation d) = Some ds2 ->
  trail_well_formed (with_domains_ ds2 t).
Proof.
  intros (Hlink & Hwf & Hlen & Hown) Hd Es1 Es2.
  split; [| split; [| split]].
  - eapply negation_linked_store; eauto.
  - pose proof (store_at_Some _ _ _ _ Es1) as (_ & _ & ->).
    pose proof (store_at_Some _ _ _ _ Es2) as (_ & _ & ->).
    simpl. apply Forall_insert; [apply Forall_insert; auto |].
    apply wf_Negation. exact Hd.
  - exact Hlen.
  - exact Hown.
Qed.

Lemma overwrite_well_formed t v info entry :
  trail_well_formed t ->
  (Z.to_nat v < length (vars_ t))%nat -> 0 <= v ->
  integer_trail_ t !! Z.to_nat v = Some entry ->
  trail_well_formed
    (with_vars_trail (<[Z.to_nat v := info]> (vars_ t))
       (<[Z.to_nat v := set_entry_bound (current_bound info) entry]> (integer_trail_ t)) t) /\
  var entry = v.
Proof.
  intros (Hlink & Hwf & Hlen & Hown) Hlt Hpos Hentry.
  assert (Hvar : var entry = v).
  { rewrite (Hown _ _ Hlt Hentry). lia. }
  split; [| exact Hvar].
  split; [| split; [| split]]; simpl.
  - eapply negation_linked_same; [| | exact Hlink]; simpl; [reflexivity |].
    apply length_insert.
  - exact Hwf.
  - rewrite !length_insert. exact Hlen.
  - intros v0 e0. rewrite length_insert. intros Hv0 He0.
    destruct (decide (v0 = Z.to_nat v)) as [-> | Hne].
    + rewrite list_lookup_insert_eq in He0 by lia. injection He0 as <-.
      simpl. rewrite Hvar. lia.
    + rewrite list_lookup_insert_ne in He0 by auto. eauto.
Qed.

(** [UpdateInitialDomain] at the root node, when the values of the new
    domain are within the bounds of the variable. *)
Lemma UpdateInitialDomain_with_root enqueue v dom t t' :
  (forall l lr ir s r,
      root_canonical s -> enqueue l lr ir s = Some r -> fst r = true ->
      root_canonical (snd r)) ->
  integer_search_levels_ t = [] ->
  length (integer_trail_ t) = length (vars_ t) ->
  trail_well_formed t ->
  (forall (v : nat) info e,
      vars_ t !! v = Some info -> integer_trail_ t !! v = Some e ->
      bound e = current_bound info /\ current_trail_index info = Z.of_nat v) ->
  (forall w, w <> v -> w <> NegationOf v -> bound_below_domain t w) ->
  (forall w, index_behind t w) ->
  Domain.wf dom ->
  (forall old lb ub x,
      at_index (domains_ t) v = Some old ->
      LowerBound t v = Some lb -> UpperBound t v = Some ub ->
      Domain.elem x dom -> Domain.elem x old -> lb <= x <= ub) ->
  UpdateInitialDomain_with enqueue v dom t = Some (true, t') ->
  root_canonical t'.
Proof.
  intros Henq Hl Hlen Hwf Hlinked Hother Hidx Hdom Hin Hrun.
  unfold UpdateInitialDomain_with in Hrun.
  case_guard; simpl in Hrun; [| discriminate].
  destruct (at_index (domains_ t) v) as [old |] eqn:Hold; [| discriminate]. simpl in Hrun.
  pose proof Hwf as (Hlink & Hwfd & _).
  destruct (bounds_exist t v old Hlink Hold) as (lb & ub & Hlb & Hub & Hlbn).
  assert (Hold' : at_index (domains_ t) (NegationOf v) = Some (Domain.Negation old)).
  { destruct Hlink as [_ Hneg]. apply Hneg. exact Hold. }
  set (d' := Domain.IntersectionWith dom old) in *.
  assert (Hin' : forall x, Domain.elem x d' -> lb <= x <= ub).
  { intros x [Hx1 Hx2]%elem_IntersectionWith. eapply Hin; eauto. }
  case_decide as Heq.
  { injection Hrun as <-.
    destruct (bound_below_pair t v old lb ub Hold Hold' Hlb Hub) as [Hb1 Hb2].
    { rewrite Heq. exact Hin'. }
    split; [exact Hl |]. split; [exact Hlen |]. split; [exact Hwf |].
    split; [exact Hlinked |]. split; [| exact Hidx].
    intros w. destruct (Z.eq_dec w v) as [-> | Hne1]; [exact Hb1 |].
    destruct (Z.eq_dec w (NegationOf v)) as [-> | Hne2]; [exact Hb2 | auto]. }
  destruct (Domain.IsEmpty _); [discriminate |].
  destruct (store_at (domains_ t) v _) as [ds1 |] eqn:Es1; [| discriminate].
  simpl in Hrun.
  destruct (store_at ds1 (NegationOf v) _) as [ds2 |] eqn:Es2; [| discriminate].
  simpl in Hrun.
  assert (Hwfold : Domain.wf old).
  { apply at_index_Some in Hold as [_ Hlk]. rewrite Forall_lookup in Hwfd. eauto. }
  assert (Hwf' : Domain.wf d') by (apply wf_IntersectionWith; assumption).
  pose proof (store_domains_well_formed _ _ _ _ _ Hwf Hwf' Es1 Es2) as Hwf1.
  assert (Hnew : at_index ds2 v = Some d').
  { pose proof (store_at_Some _ _ _ _ Es1) as (Hposv & _ & _).
    rewrite (at_index_store_ne _ _ _ _ _ Es2);
      [| exact Hposv | apply not_eq_sym, NegationOf_ne].
    apply (at_index_store_eq _ _ _ _ Es1). }
  assert (Hnew' : at_index ds2 (NegationOf v) = Some (Domain.Negation d'))
    by apply (at_index_store_eq _ _ _ _ Es2).
  assert (Hkeep : forall w, w <> v -> w <> NegationOf v ->
                            at_index ds2 w = at_index (domains_ t) w).
  { intros w H1 H2. unfold at_index. destruct (Z.leb_spec 0 w); [| reflexivity].
    pose proof (store_at_Some _ _ _ _ Es1) as (Hposv & _ & ->).
    pose proof (store_at_Some _ _ _ _ Es2) as (Hposn & _ & ->).
    rewrite !list_lookup_insert_ne by lia. reflexivity. }
  set (m0 := var_to_current_lb_interval_index_ (with_domains_ ds2 t)) in *.
  set (t1 := if 1 <? _ then _ else with_domains_ ds2 t) in Hrun.
  assert (Hv1 : vars_ t1 = vars_ t) by (subst t1; destruct (1 <? _); reflexivity).
  assert (Ht1 : integer_trail_ t1 = integer_trail_ t)
    by (subst t1; destruct (1 <? _); reflexivity).
  assert (Hd1 : domains_ t1 = ds2) by (subst t1; destruct (1 <? _); reflexivity).
  assert (Hl1 : integer_search_levels_ t1 = [])
    by (subst t1; destruct (1 <? _); exact Hl).
  assert (Hlb1 : forall w, LowerBound t1 w = LowerBound t w)
    by (intros w; unfold LowerBound; rewrite Hv1; reflexivity).
  assert (Hub1 : forall w, UpperBound t1 w = UpperBound t w)
    by (intros w; unfold UpperBound; rewrite Hv1; reflexivity).
  assert (Hroot1 : root_canonical t1).
  { destruct (bound_below_pair t1 v d' lb ub) as [Hb1 Hb2];
      [rewrite Hd1; exact Hnew | rewrite Hd1; exact Hnew'
       | rewrite Hlb1; exact Hlb | rewrite Hub1; exact Hub | exact Hin' |].
    split; [exact Hl1 |]. split; [congruence |]. split.
    { apply (well_formed_same (with_domains_ ds2 t)); auto. }
    split; [rewrite Hv1, Ht1; exact Hlinked |]. split.
    - intros w. destruct (Z.eq_dec w v) as [-> | Hne1]; [exact Hb1 |].
      destruct (Z.eq_dec w (NegationOf v)) as [-> | Hne2]; [exact Hb2 |].
      intros d x Hd Hx. rewrite Hd1, (Hkeep w Hne1 Hne2) in Hd.
      rewrite Hlb1. eapply Hother; eauto.
    - intros w.
      assert (Hw : w <> v -> w <> NegationOf v -> index_behind t1 w).
      { intros Hne1 Hne2 d Hd Hn. rewrite Hd1, (Hkeep w Hne1 Hne2) in Hd.
        destruct (Hidx w d Hd Hn) as (index & info & Hi & Hinfo & Hb).
        exists index, info. split; [| rewrite Hv1; auto].
        subst t1. destruct (1 <? _); [| exact Hi].
        unfold RevMap_FindOrDie, RevMap_Set. simpl.
        rewrite !lookup_insert_ne by auto. exact Hi. }
      subst t1. destruct (Z.ltb_spec 1 (Domain.NumIntervals d')) as [Hmulti | Hsingle].
      + destruct (Z.eq_dec w (NegationOf v)) as [-> | Hne2].
        { apply (index_behind_reset _ _ (- ub)); [rewrite Hlb1; exact Hlbn |].
          unfold RevMap_FindOrDie, RevMap_Set. simpl. apply lookup_insert_eq. }
        destruct (Z.eq_dec w v) as [-> | Hne1]; [| auto].
        apply (index_behind_reset _ _ lb); [rewrite Hlb1; exact Hlb |].
        unfold RevMap_FindOrDie, RevMap_Set. simpl.
        rewrite lookup_insert_ne by auto. apply lookup_insert_eq.
      + destruct (Z.eq_dec w (NegationOf v)) as [-> | Hne2].
        { intros d Hd Hn. simpl in Hd. rewrite Hnew' in Hd. injection Hd as <-.
          rewrite NumIntervals_Negation in Hn. lia. }
        destruct (Z.eq_dec w v) as [-> | Hne1]; [| auto].
        intros d Hd Hn. simpl in Hd. rewrite Hnew in Hd. injection Hd as <-. lia. }
  destruct (enqueue (GreaterOrEqual v _) [] [] t1) as [r1 |] eqn:E1; [| discriminate].
  simpl in Hrun. case_guard; simpl in Hrun; [| discriminate].
  destruct (enqueue (LowerOrEqual v _) [] [] (snd r1)) as [r2 |] eqn:E2; [| discriminate].
  simpl in Hrun. case_guard; simpl in Hrun; [| discriminate].
  injection Hrun as _ <-.
  pose proof (Henq _ _ _ _ _ Hroot1 E1 ltac:(assumption)) as Hroot2.
  pose proof (Henq _ _ _ _ _ Hroot2 E2 ltac:(assumption)) as Hroot3.
  eapply root_canonical_same; [| | | | | exact Hroot3]; try reflexivity.
  intros w Hw. exact Hw.
Qed.

Lemma enqueue_empty_domain_root v new_bound lr ir t t' :
  integer_search_levels_ t = [] ->
  enqueue_empty_domain v new_bound lr ir t = Some (true, t') ->
  same_bounds_state t' t.
Proof.
  intros Hlevel. unfold enqueue_empty_domain. intros Hrun.
  destruct (IsOptional t v) as [optional |]; [| discriminate]. simpl in Hrun.
  destruct (at_index (is_ignored_literals_ t) v) as [ig |]; [| discriminate].
  simpl in Hrun.
  destruct (negb optional || _); [discriminate |].
  rewrite Hlevel in Hrun. injection Hrun as <-. repeat split.
Qed.

(** At the root node a successful [Enqueue] keeps the trail canonical. *)
Lemma Enqueue_same_reason_root fuel :
  forall i_lit lr ir same t r,
    root_canonical t ->
    Enqueue_same_reason fuel i_lit lr ir same t = Some r -> fst r = true ->
    root_canonical (snd r).
Proof.
  induction fuel as [| fuel IH]; intros i_lit lr ir same t r Hroot Hrun Htrue;
    [discriminate |].
  rewrite Enqueue_same_reason_unfold in Hrun.
  destruct (IsCurrentlyIgnored t (il_var i_lit)) as [ignored |]; [| discriminate].
  simpl in Hrun. destruct ignored.
  { injection Hrun as <-. exact Hroot. }
  destruct (at_index (vars_ t) (il_var i_lit)) as [info |] eqn:Hinfo; [| discriminate].
  simpl in Hrun.
  destruct (Z.leb_spec (il_bound i_lit) (current_bound info)) as [| Hgt].
  { injection Hrun as <-. exact Hroot. }
  unfold enqueue_better_bound in Hrun.
  set (t0 := with_counters _ _ t) in Hrun.
  destruct (canonicalize_literal i_lit t0) as [[[new_bound t1] |] |] eqn:Ec;
    try discriminate; simpl in Hrun.
  2:{ injection Hrun as <-. discriminate. }
  pose proof Hroot as (Hl & Hlen & Hwf & Hlinked & Hbelow & Hidx).
  pose proof Hwf as (Hlink & Hwfd & Hle & Hown).
  pose proof (canonicalize_literal_index _ _ _ _ Ec) as [Hother Hself].
  assert (Hnb : forall d, at_index (domains_ t) (il_var i_lit) = Some d ->
                          1 < Domain.NumIntervals d -> Domain.elem new_bound d).
  { intros d Hd Hn. unfold canonicalize_literal in Ec. simpl in Ec. rewrite Hd in Ec.
    simpl in Ec. destruct (Z.ltb_spec 1 (Domain.NumIntervals d)); [| lia].
    destruct (RevMap_FindOrDie _ _) as [index |]; [| discriminate]. simpl in Ec.
    destruct (canonicalize_bound d index (il_bound i_lit))
      as [[[index' b'] |] |] eqn:Ecb; try discriminate.
    simpl in Ec. injection Ec as <- _.
    apply canonicalize_bound_result in Ecb
      as (_ & skipped & i & kept & Hd' & _ & _ & _ & Hend & ->).
    assert (Hin : In i d).
    { rewrite Hd'. apply in_app_iff. right. apply in_app_iff. right. left. reflexivity. }
    assert (Hwfdom : Domain.wf d).
    { apply at_index_Some in Hd as [_ Hlk]. rewrite Forall_lookup in Hwfd. eauto. }
    pose proof (wf_nonempty_intervals _ _ Hwfdom Hin).
    apply elem_iff. exists i. split; [exact Hin | lia]. }
  apply canonicalize_literal_core in Ec as ((Hv1 & Ht1 & Hd1 & Hl1 & _) & _ & Hge & _).
  simpl in Hv1, Ht1, Hd1, Hl1, Hother, Hself.
  destruct (UpperBound t1 (il_var i_lit)) as [ub |] eqn:Hub; [| discriminate].
  simpl in Hrun.
  assert (Hub' : UpperBound t (il_var i_lit) = Some ub).
  { unfold UpperBound in *. rewrite <- Hv1. exact Hub. }
  destruct (Z.ltb_spec ub new_bound) as [Hlt | Hle'].
  { (* The bound is above the upper bound: the domain is a single interval. *)
    destruct r as [b t']. simpl in Htrue. subst b. simpl.
    apply enqueue_empty_domain_root in Hrun as (Hv & Ht & Hd & Hl' & Hi); [| congruence].
    apply (root_canonical_same t); try congruence.
    intros w Hw.
    destruct (Z.eq_dec w (il_var i_lit)) as [-> | Hne].
    - intros d Hd0 Hn. exfalso. rewrite Hd, Hd1 in Hd0.
      pose proof (Hnb d Hd0 Hn) as Helem.
      destruct Hlink as [_ Hneg].
      pose proof (Hneg _ _ Hd0) as Hdn.
      destruct (Hbelow (NegationOf (il_var i_lit)) _ (- new_bound) Hdn) as (lb' & Hlb' & Hle2).
      { apply elem_Negation. rewrite Z.opp_involutive. exact Helem. }
      rewrite LowerBound_NegationOf, Hub' in Hlb'. simpl in Hlb'.
      injection Hlb' as <-. lia.
    - apply (index_behind_same t); try congruence; [| exact Hw].
      rewrite Hi. apply Hother. exact Hne. }
  set (t2 := with_watchers _ t1) in Hrun.
  destruct (if negb (_ =? kNoLiteralIndex) then _ else Some (true, t2))
    as [[b t3] |] eqn:Ea; [| discriminate].
  simpl in Hrun.
  assert (Hcore : same_core t3 t2 /\
                  var_to_current_lb_interval_index_ t3
                  = var_to_current_lb_interval_index_ t1).
  { destruct (negb (_ =? kNoLiteralIndex)).
    - split; [eapply EnqueueAssociatedLiteral_core; eauto |].
      apply EnqueueAssociatedLiteral_index in Ea. exact Ea.
    - injection Ea as <- <-. split; [apply same_core_refl | reflexivity]. }
  destruct Hcore as [(Hv3 & Ht3 & Hd3 & Hl3 & _) Hi3]. simpl in Hv3, Ht3, Hd3, Hl3.
  destruct b; simpl in Hrun; [| injection Hrun as <-; discriminate].
  destruct (integer_search_levels_ t3) eqn:El3; [| congruence].
  destruct r as [b' t']. simpl in Htrue. subst b'. simpl.
  unfold enqueue_at_level_zero in Hrun.
  destruct (at_index (vars_ t3) (il_var i_lit)) as [old |] eqn:Hold; [| discriminate].
  simpl in Hrun.
  destruct (store_at (vars_ t3) _ _) as [vs |] eqn:Evs; [| discriminate].
  simpl in Hrun.
  destruct (at_index (integer_trail_ t3) _) as [entry |] eqn:Hentry; [| discriminate].
  simpl in Hrun.
  destruct (store_at (integer_trail_ t3) _ _) as [tr |] eqn:Etr; [| discriminate].
  simpl in Hrun.
  set (t_mid := with_trail_ _ (with_vars_trail vs tr t3)) in Hrun.
  destruct (LowerBound t_mid (il_var i_lit)) as [lb |] eqn:Hlb; [| discriminate].
  simpl in Hrun.
  destruct (UpperBound t_mid (il_var i_lit)) as [ub' |] eqn:Hub3; [| discriminate].
  simpl in Hrun.
  assert (old = info) by congruence. subst old.
  pose proof (store_at_Some _ _ _ _ Evs) as (Hpos & Hlt & Evs').
  pose proof (store_at_Some _ _ _ _ Etr) as (_ & Hlt' & Etr').
  apply at_index_Some in Hentry as [_ Hentry].
  apply at_index_Some in Hinfo as [_ Hinfo].
  rewrite Hv3, Hv1 in Evs', Hlt. rewrite Ht3, Ht1 in Etr', Hlt', Hentry.
  destruct (overwrite_well_formed t (il_var i_lit)
              (MkVarInfo new_bound (current_trail_index info)) entry Hwf Hlt Hpos Hentry)
    as [Hwfmid Hvar].
  simpl in Hwfmid.
  assert (Hvmid : vars_ t_mid = vs) by reflexivity.
  assert (Htmid : integer_trail_ t_mid = tr) by reflexivity.
  assert (Hdmid : domains_ t_mid = domains_ t) by (simpl; congruence).
  assert (Himid : var_to_current_lb_interval_index_ t_mid
                  = var_to_current_lb_interval_index_ t1) by (simpl; congruence).
  eapply (UpdateInitialDomain_with_root _ _ _ t_mid); [| | | | | | | | | exact Hrun].
  - intros l lr' ir' s r' Hs Hr' Ht'. simpl in Hr'. exact (IH _ _ _ _ _ _ Hs Hr' Ht').
  - simpl. exact El3.
  - rewrite Hvmid, Htmid, Evs', Etr', !length_insert. exact Hlen.
  - apply (well_formed_same
             (with_vars_trail
                (<[Z.to_nat (il_var i_lit) := MkVarInfo new_bound (current_trail_index info)]>
                   (vars_ t))
                (<[Z.to_nat (il_var i_lit) := set_entry_bound new_bound entry]>
                   (integer_trail_ t)) t)); simpl; try congruence; try exact Hwfmid.
  - rewrite Hvmid, Htmid, Evs', Etr'. intros v0 info0 e0 Hv0 He0.
    destruct (decide (v0 = Z.to_nat (il_var i_lit))) as [-> | Hne].
    + rewrite list_lookup_insert_eq in Hv0 by lia.
      rewrite list_lookup_insert_eq in He0 by lia.
      injection Hv0 as <-. injection He0 as <-. simpl.
      split; [reflexivity |]. apply (Hlinked _ _ _ Hinfo Hentry).
    + rewrite list_lookup_insert_ne in Hv0 by auto.
      rewrite list_lookup_insert_ne in He0 by auto. eauto.
  - intros w Hw1 Hw2 d x Hd Hx. rewrite Hdmid in Hd.
    destruct (Hbelow w d x Hd Hx) as (lbw & Hlbw & Hlew).
    exists lbw. split; [| exact Hlew].
    unfold LowerBound in *. rewrite Hvmid, Evs'.
    destruct (at_index (vars_ t) w) as [iw |] eqn:Hiw; [| discriminate].
    apply at_index_Some in Hiw as [Hposw Hlw].
    unfold at_index. destruct (Z.leb_spec 0 w); [| lia].
    rewrite list_lookup_insert_ne by lia. rewrite Hlw. exact Hlbw.
  - intros w d. rewrite Hdmid, Himid. intros Hd Hn.
    destruct (Z.eq_dec w (il_var i_lit)) as [-> | Hne].
    + destruct (Hidx _ d Hd Hn) as (index & info0 & Hi & Hi0 & Hbeh).
      destruct (Hself d index (current_bound info0 + 1)) as (index' & Hi' & Hbeh'); auto.
      { apply at_index_Some in Hi0 as [_ Hi0]. assert (info0 = info) by congruence.
        subst info0. lia. }
      exists index', (MkVarInfo new_bound (current_trail_index info)).
      split; [exact Hi' |]. split; [| exact Hbeh'].
      rewrite Hvmid, Evs'. unfold at_index. destruct (Z.leb_spec 0 (il_var i_lit)); [| lia].
      apply list_lookup_insert_eq. exact Hlt.
    + destruct (Hidx _ d Hd Hn) as (index & infow & Hi & Hiw & Hbeh).
      exists index, infow. split; [rewrite (Hother w Hne); exact Hi |].
      split; [| exact Hbeh].
      rewrite Hvmid, Evs'. apply at_index_Some in Hiw as [Hposw Hlw].
      unfold at_index. destruct (Z.leb_spec 0 w); [| lia].
      rewrite list_lookup_insert_ne by lia. exact Hlw.
  - apply wf_FromInterval.
  - intros old0 lb0 ub0 x _ Hlb0 Hub0 Hx _.
    apply elem_FromInterval in Hx. 
    assert (lb0 = lb) by congruence. assert (ub0 = ub') by congruence. lia.
Qed.

(** [UpdateInitialDomain] called at the root node with a domain in
    normal form. *)
Lemma UpdateInitialDomain_root fuel v dom t t' :
  root_canonical t -> Domain.wf dom ->
  UpdateInitialDomain fuel v dom t = Some (true, t') ->
  root_canonical t'.
Proof.
  intros Hroot Hdom Hrun. unfold UpdateInitialDomain in Hrun.
  pose proof Hroot as (Hl & Hlen & Hwf & Hlinked & Hbelow & Hidx).
  eapply UpdateInitialDomain_with_root; [| | | | | | | | | exact Hrun]; auto.
  - intros l lr ir s r Hs Hr Ht. eapply Enqueue_same_reason_root; eauto.
  - intros old lb ub x Hold Hlb Hub _ Hx.
    destruct (Hbelow v old x Hold Hx) as (lb' & Hlb' & Hle).
    destruct Hwf as ([_ Hneg] & _).
    destruct (Hbelow (NegationOf v) _ (- x) (Hneg _ _ Hold)) as (lbn & Hlbn & Hlen').
    { apply elem_Negation. rewrite Z.opp_involutive. exact Hx. }
    rewrite LowerBound_NegationOf, Hub in Hlbn. simpl in Hlbn.
    injection Hlbn as <-. assert (lb' = lb) by congruence. lia.
Qed.

(** At the root node the bound of every entry is at or below the values
    of the domain of its variable: none is in a hole. *)
Lemma root_canonical_outside_holes t : root_canonical t -> entries_outside_holes t.
Proof.
  intros (Hl & Hlen & (_ & _ & _ & Hown) & Hlinked & Hbelow & _) i e d He Hd.
  intros [_ (x & y & Hx & _ & Hlt)].
  pose proof (lookup_lt_Some _ _ _ He) as Hi. rewrite Hlen in Hi.
  destruct (lookup_lt_is_Some_2 (vars_ t) i Hi) as [info Hinfo].
  destruct (Hlinked _ _ _ Hinfo He) as [Hb _].
  rewrite (Hown _ _ Hi He) in Hd.
  destruct (Hbelow _ d x Hd Hx) as (lb & Hlb & Hle).
  unfold LowerBound in Hlb. rewrite at_index_nat, Hinfo in Hlb. simpl in Hlb.
  injection Hlb as <-. lia.
Qed.

Lemma root_canonical_initial t :
  vars_ t = [] -> integer_trail_ t = [] -> domains_ t = [] ->
  integer_search_levels_ t = [] -> root_canonical t.
Proof.
  intros Hv Ht Hd Hl.
  assert (Hnone : forall v, at_index (domains_ t) v = None).
  { intros v. rewrite Hd. unfold at_index. destruct (0 <=? v); reflexivity. }
  split; [exact Hl |]. split; [rewrite Hv, Ht; reflexivity |]. split.
  { split; [apply negation_linked_initial; assumption |].
    rewrite Hd, Hv, Ht. split; [constructor |]. split; [reflexivity |].
    intros v e Hlt. simpl in Hlt. lia. }
  split; [rewrite Hv; intros v info e Hi; discriminate |].
  split; intros v d; rewrite Hnone; discriminate.
Qed.

(** [AddIntegerVariable] keeps the trail canonical: the domains of the
    new variable and of its negation are single intervals, those of their
    bounds. *)
Lemma AddIntegerVariable_root kmin kmax lower_bound upper_bound t i t' :
  root_canonical t ->
  AddIntegerVariable kmin kmax lower_bound upper_bound t = Some (i, t') ->
  root_canonical t'.
Proof.
  intros Hroot Hrun.
  pose proof Hroot as (Hl & Hlen & Hwf & Hlinked & Hbelow & Hidx).
  pose proof Hwf as (Hlink & Hwfd & Hle & Hown).
  destruct (AddIntegerVariable_spec _ _ _ _ _ _ _ Hlink Hrun)
    as (Hi & Hneg & Hsz & Hlb & Hub & Hlbn & Hubn & Hd & Hdn & Hlink').
  pose proof Hlink as [Hlend _].
  unfold AddIntegerVariable in Hrun.
  do 6 outer_guard Hrun.
  destruct (guard _) as [Hnext |]; [| discriminate]. simpl in Hrun.
  injection Hrun as _ Et'.
  assert (Hv' : vars_ t'
                = vars_ t ++ [MkVarInfo lower_bound (size_ (integer_trail_ t));
                              MkVarInfo (- upper_bound) (size_ (integer_trail_ t) + 1)]).
  { rewrite <- Et'. simpl. rewrite <- app_assoc. simpl. unfold size_.
    rewrite length_app. simpl. repeat f_equal. lia. }
  assert (Ht' : integer_trail_ t'
                = integer_trail_ t ++ [MkTrailEntry lower_bound i 0 0;
                                       MkTrailEntry (- upper_bound) (NegationOf i) 0 0]).
  { rewrite <- Et'. simpl. rewrite <- app_assoc. simpl. rewrite Hi. reflexivity. }
  assert (Hd' : domains_ t'
                = domains_ t ++ [Domain.FromInterval lower_bound upper_bound;
                                 Domain.FromInterval (- upper_bound) (- lower_bound)]).
  { rewrite <- Et'. simpl. rewrite <- app_assoc. reflexivity. }
  assert (Hl' : integer_search_levels_ t' = []) by (rewrite <- Et'; exact Hl).
  assert (Hi' : var_to_current_lb_interval_index_ t' = var_to_current_lb_interval_index_ t)
    by (rewrite <- Et'; reflexivity).
  clear Et'.
  assert (Hold : forall v d, at_index (domains_ t') v = Some d ->
                   v < size_ (vars_ t) ->
                   at_index (domains_ t) v = Some d /\
                   at_index (vars_ t') v = at_index (vars_ t) v).
  { intros v d Hv Hlt. apply at_index_Some in Hv as [Hpos Hlook].
    unfold at_index. destruct (Z.leb_spec 0 v); [| lia]. unfold size_ in Hlt.
    rewrite Hd', lookup_app_l in Hlook by lia.
    rewrite Hv', lookup_app_l by lia. auto. }
  assert (Hnew : forall v d, at_index (domains_ t') v = Some d ->
                   size_ (vars_ t) <= v ->
                   (v = i /\ d = Domain.FromInterval lower_bound upper_bound) \/
                   (v = NegationOf i /\
                    d = Domain.Negation (Domain.FromInterval lower_bound upper_bound))).
  { intros v d Hv Hge. pose proof (at_index_lt _ _ _ Hv) as [_ Hsz'].
    unfold size_ in Hsz', Hge. rewrite Hd', length_app in Hsz'. simpl in Hsz'.
    assert (Hcase : v = i \/ v = NegationOf i) by (unfold size_ in Hi; lia).
    destruct Hcase as [-> | ->]; [left | right]; split; auto; congruence. }
  split; [exact Hl' |]. split; [rewrite Hv', Ht', !length_app; simpl; lia |].
  split; [split; [exact Hlink' |]; split; [| split] |].
  - rewrite Hd'. apply Forall_app. split; [exact Hwfd |].
    constructor; [apply wf_FromInterval |]. constructor; [apply wf_FromInterval | constructor].
  - rewrite Hv', Ht', !length_app. simpl. lia.
  - intros v en. rewrite Hv', Ht', length_app. simpl. intros Hv He.
    apply lookup_app_Some in He as [He | [Hge He]].
    + apply Hown; [| exact He]. apply lookup_lt_Some in He. lia.
    + unfold size_ in Hi.
      destruct (v - length (integer_trail_ t))%nat as [| [| n]] eqn:En; simpl in He.
      * injection He as <-. simpl. lia.
      * injection He as <-. simpl. lia.
      * discriminate.
  - split; [| split].
    + intros v info en. rewrite Hv', Ht'. intros Hinfo He.
      apply lookup_app_Some in He as [He | [Hge He]].
      * pose proof (lookup_lt_Some _ _ _ He) as Hlt.
        rewrite lookup_app_l in Hinfo by lia. eauto.
      * rewrite lookup_app_r in Hinfo by lia. rewrite Hlen in He. unfold size_.
        destruct (v - length (vars_ t))%nat as [| [| n]] eqn:En; simpl in He, Hinfo.
        -- injection He as <-. injection Hinfo as <-. simpl. unfold size_.
           split; [reflexivity | lia].
        -- injection He as <-. injection Hinfo as <-. simpl. unfold size_.
           split; [reflexivity | lia].
        -- discriminate.
    + intros v d x Hdv Hx.
      destruct (Z.ltb_spec v (size_ (vars_ t))) as [Hlt | Hge].
      * destruct (Hold v d Hdv Hlt) as [Hdo Hvo].
        unfold LowerBound. rewrite Hvo. apply (Hbelow v d x Hdo Hx).
      * destruct (Hnew v d Hdv Hge) as [[-> ->] | [-> ->]].
        -- exists lower_bound. split; [exact Hlb |]. apply elem_FromInterval in Hx. lia.
        -- exists (- upper_bound). split; [exact Hlbn |].
           rewrite Negation_FromInterval in Hx. apply elem_FromInterval in Hx. lia.
    + intros v d Hdv Hn.
      destruct (Z.ltb_spec v (size_ (vars_ t))) as [Hlt | Hge].
      * destruct (Hold v d Hdv Hlt) as [Hdo Hvo].
        rewrite Hi', Hvo. apply (Hidx v d Hdo Hn).
      * exfalso. destruct (Hnew v d Hdv Hge) as [[-> ->] | [-> ->]];
          rewrite ?Negation_FromInterval in Hn;
          unfold Domain.NumIntervals, Domain.FromInterval in Hn;
          destruct (_ <=? _); simpl in Hn; lia.
Qed.

(** *** Backtracking *)

Lemma RevMap_undo_insert (m : gmap Z Z) k x : RevMap_undo (<[k := x]> m) (k, m !! k) = m.
Proof.
  unfold RevMap_undo. simpl. destruct (m !! k) as [old |] eqn:E.
  - rewrite insert_insert_eq. apply insert_id. exact E.
  - apply delete_insert_id. exact E.
Qed.

(** The canonicalisation leaves the reversible map as it is or sets the
    cached index of its variable. *)
Lemma canonicalize_literal_revmap i_lit t nb t1 :
  canonicalize_literal i_lit t = Some (Some (nb, t1)) ->
  var_to_current_lb_interval_index_ t1 = var_to_current_lb_interval_index_ t \/
  exists index',
    var_to_current_lb_interval_index_ t1
    = RevMap_Set (il_var i_lit) index' (var_to_current_lb_interval_index_ t).
Proof.
  unfold canonicalize_literal. intros Hrun.
  destruct (at_index (domains_ t) (il_var i_lit)) as [domain |]; [| discriminate].
  simpl in Hrun. destruct (1 <? Domain.NumIntervals domain).
  - destruct (RevMap_FindOrDie _ _) as [index |]; [| discriminate]. simpl in Hrun.
    destruct (canonicalize_bound domain index (il_bound i_lit))
      as [[[index' b'] |] |]; try discriminate.
    simpl in Hrun. injection Hrun as <- <-. right. exists index'. reflexivity.
  - injection Hrun as <- <-. left. reflexivity.
Qed.

(** What [Enqueue] does at a search level, whatever its result. *)
Lemma Enqueue_search_effect fuel i_lit lr ir same t r :
  integer_search_levels_ t <> [] ->
  Enqueue_same_reason fuel i_lit lr ir same t = Some r ->
  enqueue_effect i_lit t (snd r) /\
  domains_ (snd r) = domains_ t /\
  integer_search_levels_ (snd r) = integer_search_levels_ t /\
  (var_to_current_lb_interval_index_ (snd r) = var_to_current_lb_interval_index_ t \/
   exists index',
     var_to_current_lb_interval_index_ (snd r)
     = RevMap_Set (il_var i_lit) index' (var_to_current_lb_interval_index_ t)).
Proof.
  intros Hlevel Hrun. destruct fuel as [| fuel]; [discriminate |].
  rewrite Enqueue_same_reason_unfold in Hrun.
  destruct (IsCurrentlyIgnored t (il_var i_lit)) as [ignored |]; [| discriminate].
  simpl in Hrun.
  destruct ignored.
  { injection Hrun as <-. split; [apply effect_none; reflexivity | auto]. }
  destruct (at_index (vars_ t) (il_var i_lit)) as [info |] eqn:Hinfo; [| discriminate].
  simpl in Hrun.
  destruct (Z.leb_spec (il_bound i_lit) (current_bound info)) as [| Hgt].
  { injection Hrun as <-. split; [apply effect_none; reflexivity | auto]. }
  unfold enqueue_better_bound in Hrun.
  set (t0 := with_counters _ _ t) in Hrun.
  destruct (canonicalize_literal i_lit t0) as [[[new_bound t1] |] |] eqn:Ec;
    try discriminate; simpl in Hrun.
  2:{ injection Hrun as <-. split; [apply effect_none; reflexivity | auto]. }
  pose proof (canonicalize_literal_revmap _ _ _ _ Ec) as Hmap. simpl in Hmap.
  apply canonicalize_literal_core in Ec as ((Hv1 & Ht1 & Hd1 & Hl1 & _) & _ & Hge & _).
  simpl in Hv1, Ht1, Hd1, Hl1.
  destruct (UpperBound t1 (il_var i_lit)) as [ub |]; [| discriminate]. simpl in Hrun.
  destruct (Z.ltb_spec ub new_bound) as [Hub | Hub].
  { pose proof (enqueue_empty_domain_index _ _ _ _ _ _ Hrun) as Hi.
    pose proof (enqueue_empty_domain_trail _ _ _ _ _ _ Hrun) as (Hv & Hd & Htr).
    assert (Hl : integer_search_levels_ (snd r) = integer_search_levels_ t1).
    { clear - Hrun. unfold enqueue_empty_domain in Hrun.
      destruct (IsOptional t1 _) as [optional |]; [| discriminate]. simpl in Hrun.
      destruct (at_index (is_ignored_literals_ t1) _) as [ig |]; [| discriminate].
      simpl in Hrun.
      destruct (negb optional || _); [injection Hrun as <-; reflexivity |].
      unfold EnqueueLiteral in Hrun.
      destruct (integer_search_levels_ t1) eqn:El; injection Hrun as <-; simpl; auto. }
    split; [| repeat split; try congruence; rewrite Hi; exact Hmap].
    destruct Htr as [Htr | (e & He & Htr)].
    - apply effect_none; congruence.
    - apply (effect_literal _ _ _ e); congruence. }
  set (t2 := with_watchers _ t1) in Hrun.
  destruct (if negb (_ =? kNoLiteralIndex) then _ else Some (true, t2))
    as [[b t3] |] eqn:Ea; [| discriminate].
  simpl in Hrun.
  assert (Hcore : same_core t3 t2 /\
                  var_to_current_lb_interval_index_ t3
                  = var_to_current_lb_interval_index_ t1).
  { destruct (negb (_ =? kNoLiteralIndex)).
    - split; [eapply EnqueueAssociatedLiteral_core; eauto |].
      apply EnqueueAssociatedLiteral_index in Ea. exact Ea.
    - injection Ea as <- <-. split; [apply same_core_refl | reflexivity]. }
  destruct Hcore as [(Hv3 & Ht3 & Hd3 & Hl3 & _) Hi3]. simpl in Hv3, Ht3, Hd3, Hl3.
  destruct b; simpl in Hrun.
  2:{ injection Hrun as <-. simpl.
      split; [apply effect_none; congruence |].
      repeat split; try congruence. rewrite Hi3. exact Hmap. }
  destruct (integer_search_levels_ t3) eqn:El3; [congruence |].
  destruct (save_reason _ _ _ t3) as [[r0 t4] |] eqn:Es; [| discriminate].
  simpl in Hrun.
  destruct (push_bound _ _ _ t4) as [t5 |] eqn:Ep; [| discriminate].
  simpl in Hrun. injection Hrun as <-. simpl.
  pose proof (save_reason_index _ _ _ _ _ _ Es) as Hi4.
  pose proof (push_bound_index _ _ _ _ _ Ep) as Hi5.
  apply save_reason_effect in Es as (Hv4 & Ht4 & Hd4 & Hl4 & _).
  apply push_bound_effect in Ep as (info' & Hinfo' & Htr5 & Hv5 & Hd5 & Hl5 & _).
  assert (info' = info) by congruence. subst info'.
  split.
  - apply (effect_bound _ _ _ info new_bound r0); auto; try lia.
    + congruence.
    + rewrite Hv5. congruence.
  - repeat split; try congruence. rewrite Hi5, Hi4, Hi3. exact Hmap.
Qed.

Lemma untrail_entries_app entries1 entries2 tr : forall vs,
  untrail_entries (entries1 ++ entries2) tr vs
  = (vs1 ← untrail_entries entries1 tr vs; untrail_entries entries2 tr vs1).
Proof.
  induction entries1 as [| e entries1 IH]; intros vs; simpl; [reflexivity |].
  destruct (var e <? 0); [apply IH |].
  destruct (at_index tr (prev_trail_index e)) as [prev |]; [| reflexivity]. simpl.
  destruct (store_at vs (var e) _) as [vs1 |]; [| reflexivity]. simpl. apply IH.
Qed.

Lemma searched_below_levels h t :
  searched_below h t ->
  integer_search_levels_ t <> [] /\
  RevMap_Level (var_to_current_lb_interval_index_ t) = length (integer_search_levels_ t) /\
  bounds_linked (vars_ t) (integer_trail_ t).
Proof.
  intros (ext & ops & more & more' & _ & _ & _ & Hl & _ & _ & Hf & Hlen & Hsync & _ & _ & Hb).
  split; [| split; [| exact Hb]].
  - rewrite Hl. intros E. apply app_eq_nil in E as [_ E]. discriminate.
  - unfold RevMap_Level in *. rewrite Hf, Hl, !length_app. simpl. lia.
Qed.

(** The state from which a decision level was entered stays recoverable
    whatever [Enqueue] does below that level, and whatever its result. *)
Lemma Enqueue_searched_below fuel i_lit lr ir same h t r :
  searched_below h t ->
  Enqueue_same_reason fuel i_lit lr ir same t = Some r ->
  searched_below h (snd r).
Proof.
  intros Hs Hrun.
  destruct (searched_below_levels _ _ Hs) as (Hlevel & Hsync & _).
  destruct (Enqueue_search_effect _ _ _ _ _ _ _ Hlevel Hrun) as (Heff & Hd & Hl & Hmap).
  destruct Hs as (ext & ops & more & more' & Htr & Hun & Hdom & Hlev & Hops & Hundo
                  & Hfirst & Hlen & Hsynch & Hle & Hlinkh & Hlink).
  set (m := var_to_current_lb_interval_index_ t) in *.
  assert (Hmap' : exists ops',
             operation_stack (var_to_current_lb_interval_index_ (snd r))
             = operation_stack (var_to_current_lb_interval_index_ h) ++ ops' /\
             foldl RevMap_undo (rev_map (var_to_current_lb_interval_index_ (snd r)))
               (rev ops')
             = rev_map (var_to_current_lb_interval_index_ h) /\
             first_op_index_of_next_level (var_to_current_lb_interval_index_ (snd r))
             = first_op_index_of_next_level m).
  { destruct Hmap as [-> | (index' & ->)].
    - exists ops. auto.
    - exists (ops ++ [(il_var i_lit, rev_map m !! il_var i_lit)]).
      unfold RevMap_Set. simpl.
      assert (Hpos : (0 <? RevMap_Level m)%nat = true).
      { apply Nat.ltb_lt. rewrite Hsync. destruct (integer_search_levels_ t); simpl;
          [contradiction | lia]. }
      rewrite Hpos, Hops, app_assoc. split; [reflexivity |].
      split; [| reflexivity].
      rewrite rev_app_distr. simpl. rewrite RevMap_undo_insert. exact Hundo. }
  destruct Hmap' as (ops' & Hops' & Hundo' & Hfirst').
  destruct Heff as [Hv Ht | e Hv He Ht | info new_bound r0 Hinfo Hge Hgt Ht Hv].
  - exists ext, ops', more, more'. rewrite Hv, Ht, Hd, Hl, Hfirst'. repeat split; auto.
  - exists (ext ++ [e]), ops', more, more'. rewrite Hv, Ht, Hd, Hl, Hfirst'.
    repeat split; auto.
    + rewrite Htr, app_assoc. reflexivity.
    + rewrite rev_app_distr. simpl.
      destruct (Z.ltb_spec (var e) 0); [| lia].
      apply untrail_entries_extend. exact Hun.
    + apply bounds_linked_extend. exact Hlink.
  - apply at_index_Some in Hinfo as [Hpos' Hlook].
    pose proof (lookup_lt_Some _ _ _ Hlook) as Hlt.
    set (e := MkTrailEntry new_bound (il_var i_lit) (current_trail_index info) r0) in *.
    exists (ext ++ [e]), ops', more, more'. rewrite Hv, Ht, Hd, Hl, Hfirst'.
    repeat split; auto.
    + rewrite Htr, app_assoc. reflexivity.
    + rewrite rev_app_distr. simpl.
      destruct (Z.ltb_spec (il_var i_lit) 0); [lia |].
      destruct (Hlink _ _ Hlook) as (e0 & He0 & Hb0).
      assert (He0' : at_index (integer_trail_ t ++ [e]) (current_trail_index info) = Some e0).
      { apply at_index_Some in He0 as [Hp Hl0]. unfold at_index.
        destruct (Z.leb_spec 0 (current_trail_index info)); [| lia].
        apply lookup_app_l_Some. exact Hl0. }
      rewrite He0'. simpl.
      unfold store_at, size_. rewrite length_insert.
      destruct (Z.leb_spec 0 (il_var i_lit)); [| lia].
      destruct (Z.ltb_spec (il_var i_lit) (Z.of_nat (length (vars_ t)))); [| lia].
      simpl. rewrite list_insert_insert_eq, Hb0.
      replace (MkVarInfo (current_bound info) (current_trail_index info)) with info
        by (destruct info; reflexivity).
      rewrite list_insert_id by exact Hlook.
      apply untrail_entries_extend. exact Hun.
    + intros v info' Hv'.
      destruct (decide (v = Z.to_nat (il_var i_lit))) as [-> | Hne].
      * rewrite list_lookup_insert_eq in Hv' by exact Hlt. injection Hv' as <-.
        exists e. simpl. split; [apply at_index_size_app | reflexivity].
      * rewrite list_lookup_insert_ne in Hv' by auto.
        apply (bounds_linked_extend _ _ [e] Hlink v info' Hv').
Qed.

(** A level entered below a recoverable state leaves it recoverable. *)
Lemma searched_below_trans h1 h2 t :
  searched_below h1 h2 -> searched_below h2 t -> searched_below h1 t.
Proof.
  intros (ext1 & ops1 & more1 & more1' & Htr1 & Hun1 & Hdom1 & Hlev1 & Hops1 & Hundo1
          & Hfirst1 & Hlen1 & Hsync1 & Hle1 & Hlinkh1 & Hlink1)
         (ext2 & ops2 & more2 & more2' & Htr2 & Hun2 & Hdom2 & Hlev2 & Hops2 & Hundo2
          & Hfirst2 & Hlen2 & Hsync2 & Hle2 & Hlinkh2 & Hlink2).
  exists (ext1 ++ ext2), (ops1 ++ ops2),
    (more1 ++ size_ (integer_trail_ h2) :: more2),
    (more1' ++ length (operation_stack (var_to_current_lb_interval_index_ h2)) :: more2').
  repeat split; auto.
  - rewrite Htr2, Htr1, app_assoc. reflexivity.
  - rewrite rev_app_distr, untrail_entries_app, Hun2. simpl.
    rewrite Htr2. apply untrail_entries_extend. exact Hun1.
  - congruence.
  - rewrite Hlev2, Hlev1, <- app_assoc. reflexivity.
  - rewrite Hops2, Hops1, app_assoc. reflexivity.
  - rewrite rev_app_distr, foldl_app, Hundo2. exact Hundo1.
  - rewrite Hfirst2, Hfirst1, <- app_assoc. reflexivity.
  - rewrite !length_app. simpl. lia.
Qed.

(** [Propagate] entering a new decision level makes the state it starts
    from recoverable, and keeps the earlier ones so. *)
Lemma Propagate_enter_level_searched t t' :
  RevMap_Level (var_to_current_lb_interval_index_ t) = length (integer_search_levels_ t) ->
  (length (vars_ t) <= length (integer_trail_ t))%nat ->
  bounds_linked (vars_ t) (integer_trail_ t) ->
  size_ (integer_search_levels_ t) <= CurrentDecisionLevel (trail_ t) ->
  Propagate_enter_level t = Some t' ->
  vars_ t' = vars_ t /\ integer_trail_ t' = integer_trail_ t /\
  domains_ t' = domains_ t /\
  rev_map (var_to_current_lb_interval_index_ t')
  = rev_map (var_to_current_lb_interval_index_ t) /\
  ((size_ (integer_search_levels_ t) = CurrentDecisionLevel (trail_ t) /\
    same_bounds_state t' t) \/
   (size_ (integer_search_levels_ t) < CurrentDecisionLevel (trail_ t) /\
    searched_below t t')) /\
  forall h, searched_below h t -> searched_below h t'.
Proof.
  intros Hsync Hle Hlink Hprot Hrun. unfold Propagate_enter_level in Hrun.
  cbv zeta in Hrun. simpl integer_search_levels_ in Hrun. simpl trail_ in Hrun.
  set (m := var_to_current_lb_interval_index_ t) in *.
  unfold size_ in *.
  destruct (Z.ltb_spec (Z.of_nat (length (integer_search_levels_ t)))
              (CurrentDecisionLevel (trail_ t))) as [Hnew | Hsame]; simpl in Hrun.
  - case_guard as Hg; simpl in Hrun; [| discriminate]. injection Hrun as <-.
    simpl in Hg. unfold size_ in Hg. rewrite length_app in Hg. simpl in Hg.
    assert (Hlevel : Z.to_nat (CurrentDecisionLevel (trail_ t))
                     = S (length (integer_search_levels_ t))) by lia.
    assert (Hset : RevMap_SetLevel (Z.to_nat (CurrentDecisionLevel (trail_ t))) m
                   = MkRevMap (rev_map m) (operation_stack m)
                       (first_op_index_of_next_level m ++ [length (operation_stack m)])).
    { unfold RevMap_SetLevel. rewrite Hlevel.
      destruct (Nat.ltb_spec (S (length (integer_search_levels_ t))) (RevMap_Level m));
        [lia |].
      f_equal. unfold RevMap_Level in Hsync.
      rewrite resize_ge by lia. rewrite Hsync.
      replace (S (length (integer_search_levels_ t)) - length (integer_search_levels_ t))%nat
        with 1%nat by lia.
      reflexivity. }
    simpl. fold m. rewrite Hset. simpl.
    repeat split; auto.
    + right. split; [lia |].
      exists [], [], [], []. simpl. unfold size_.
      rewrite ?app_nil_r. repeat split; auto.
    + intros h (ext & ops & more & more' & Htr & Hun & Hdom & Hlev & Hops & Hundo
                & Hfirst & Hlen & Hsynch & Hleh & Hlinkh & _).
      exists ext, ops, (more ++ [Z.of_nat (length (integer_trail_ t))]),
        (more' ++ [length (operation_stack m)]).
      fold m in Hops, Hundo, Hfirst.
      simpl. unfold size_. repeat split; auto.
      * rewrite Hlev, <- app_assoc. reflexivity.
      * rewrite Hfirst, <- app_assoc. reflexivity.
      * rewrite !length_app. simpl. lia.
  - injection Hrun as <-.
    assert (Hlevel : Z.to_nat (CurrentDecisionLevel (trail_ t))
                     = length (integer_search_levels_ t)) by lia.
    assert (Hset : RevMap_SetLevel (Z.to_nat (CurrentDecisionLevel (trail_ t))) m = m).
    { unfold RevMap_SetLevel. rewrite Hlevel.
      destruct (Nat.ltb_spec (length (integer_search_levels_ t)) (RevMap_Level m)); [lia |].
      unfold RevMap_Level in Hsync. rewrite <- Hsync, resize_all.
      destruct m; reflexivity. }
    simpl. fold m. rewrite Hset.
    repeat split; auto.
    left. split; [lia |]. repeat split; auto.
Qed.

(** [Untrail] to the level that was entered from [h] brings [h] back:
    its variables, its entries and its cached interval indices. *)
Lemma Untrail_restores_entered_state h t literal_trail_index t' :
  searched_below h t ->
  CurrentDecisionLevel (trail_ t) = size_ (integer_search_levels_ h) ->
  Untrail literal_trail_index t = Some t' ->
  same_bounds_state t' h.
Proof.
  intros (ext & ops & more & more' & Htr & Hun & Hdom & Hlev & Hops & Hundo
          & Hfirst & Hlen & Hsynch & Hleh & Hlinkh & Hlink) Hlevel Hrun.
  unfold Untrail in Hrun. rewrite Hlevel in Hrun. simpl in Hrun.
  set (m := var_to_current_lb_interval_index_ t) in *.
  set (mh := var_to_current_lb_interval_index_ h) in *.
  unfold size_ in Hrun. rewrite Nat2Z.id in Hrun.
  assert (Hset : RevMap_SetLevel (length (integer_search_levels_ h)) m = mh).
  { unfold RevMap_SetLevel, RevMap_Level in *. rewrite Hfirst, length_app. simpl.
    destruct (Nat.ltb_spec (length (integer_search_levels_ h))
                (length (first_op_index_of_next_level mh) + S (length more'))); [| lia].
    rewrite <- Hsynch, list_lookup_middle by reflexivity. simpl.
    rewrite Hops, drop_app_length, take_app_length, take_app_length, Hundo.
    destruct mh; reflexivity. }
  rewrite Hset in Hrun.
  destruct (Z.leb_spec (Z.of_nat (length (integer_search_levels_ t)))
              (Z.of_nat (length (integer_search_levels_ h)))) as [Hbad | _].
  { rewrite Hlev, length_app in Hbad. simpl in Hbad. lia. }
  assert (Htarget : at_index (integer_search_levels_ t)
                      (Z.of_nat (length (integer_search_levels_ h)))
                    = Some (size_ (integer_trail_ h))).
  { rewrite at_index_nat, Hlev. apply list_lookup_middle. reflexivity. }
  rewrite Htarget in Hrun. cbn [mbind option_bind] in Hrun.
  pose proof (untrail_entries_length _ _ _ _ Hun) as Hvlen.
  assert (Hg1 : size_ (vars_ t) <= size_ (integer_trail_ h)) by (unfold size_; lia).
  assert (Hg2 : size_ (integer_trail_ h) <= size_ (integer_trail_ t)).
  { unfold size_. rewrite Htr, length_app. lia. }
  rewrite (option_guard_True _ _ Hg1), (option_guard_True _ _ Hg2) in Hrun.
  assert (Hdrop : drop (Z.to_nat (size_ (integer_trail_ h))) (integer_trail_ t) = ext).
  { unfold size_. rewrite Nat2Z.id, Htr. apply drop_app_length. }
  assert (Htake : take (Z.to_nat (size_ (integer_trail_ h))) (integer_trail_ t)
                  = integer_trail_ h).
  { unfold size_. rewrite Nat2Z.id, Htr. apply take_app_length. }
  assert (Htakel : take (length (integer_search_levels_ h)) (integer_search_levels_ t)
                   = integer_search_levels_ h).
  { rewrite Hlev. apply take_app_length. }
  rewrite Hdrop, Hun, Htake, Htakel in Hrun. cbn [mbind option_bind] in Hrun.
  destruct (at_index (reason_decision_levels_ t) _) as [old_size |]; [| discriminate].
  cbn [mbind option_bind] in Hrun.
  destruct (old_size <? _).
  - destruct (at_index (literals_reason_starts_ t) _); [| discriminate].
    cbn [mbind option_bind] in Hrun.
    destruct (at_index (bounds_reason_starts_ t) _); [| discriminate].
    cbn [mbind option_bind] in Hrun.
    injection Hrun as <-. repeat split; simpl; auto.
  - injection Hrun as <-. repeat split; simpl; auto.
Qed.

(** What is known of a state is known of a state that has its bounds,
    entries, domains and cached indices. *)
Lemma same_bounds_state_transfer t' t :
  same_bounds_state t' t ->
  (trail_well_formed t -> trail_well_formed t') /\
  (entries_outside_holes t -> entries_outside_holes t') /\
  (forall v, index_behind t v -> index_behind t' v) /\
  (root_canonical t -> root_canonical t') /\
  (forall h, searched_below h t -> searched_below h t').
Proof.
  intros (Hv & Ht & Hd & Hl & Hi).
  split; [apply well_formed_same; assumption |].
  split; [unfold entries_outside_holes; rewrite Ht, Hd; auto |].
  assert (Hidx : forall v, index_behind t v -> index_behind t' v).
  { intros v. apply index_behind_same; auto. rewrite Hi. reflexivity. }
  split; [exact Hidx |].
  split; [apply root_canonical_same; assumption |].
  intros h (ext & ops & more & more' & Hh). exists ext, ops, more, more'.
  rewrite Hv, Ht, Hd, Hl, Hi. exact Hh.
Qed.

(** *** The levels of the reversible map *)

Lemma enqueue_empty_domain_levels v new_bound lr ir t r :
  enqueue_empty_domain v new_bound lr ir t = Some r ->
  integer_search_levels_ (snd r) = integer_search_levels_ t.
Proof.
  unfold enqueue_empty_domain. intros Hrun.
  destruct (IsOptional t v) as [optional |]; [| discriminate]. simpl in Hrun.
  destruct (at_index (is_ignored_literals_ t) v) as [ig |]; [| discriminate].
  simpl in Hrun.
  destruct (negb optional || _); [injection Hrun as <-; reflexivity |].
  unfold EnqueueLiteral in Hrun.
  destruct (integer_search_levels_ t) eqn:El; injection Hrun as <-; simpl; auto.
Qed.

Lemma UpdateInitialDomain_with_levels enqueue v dom t b t' :
  (forall l lr ir s r,
      enqueue l lr ir s = Some r ->
      first_op_index_of_next_level (var_to_current_lb_interval_index_ (snd r))
      = first_op_index_of_next_level (var_to_current_lb_interval_index_ s) /\
      integer_search_levels_ (snd r) = integer_search_levels_ s) ->
  UpdateInitialDomain_with enqueue v dom t = Some (b, t') ->
  first_op_index_of_next_level (var_to_current_lb_interval_index_ t')
  = first_op_index_of_next_level (var_to_current_lb_interval_index_ t) /\
  integer_search_levels_ t' = integer_search_levels_ t.
Proof.
  intros Henq Hrun. unfold UpdateInitialDomain_with in Hrun.
  case_guard; simpl in Hrun; [| discriminate].
  destruct (at_index (domains_ t) v) as [old |]; [| discriminate]. simpl in Hrun.
  case_decide.
  { injection Hrun as _ <-. auto. }
  destruct (Domain.IsEmpty _).
  { injection Hrun as _ <-. auto. }
  destruct (store_at (domains_ t) v _) as [ds1 |]; [| discriminate]. simpl in Hrun.
  destruct (store_at ds1 (NegationOf v) _) as [ds2 |]; [| discriminate]. simpl in Hrun.
  set (t1 := if 1 <? _ then _ else with_domains_ ds2 t) in Hrun.
  assert (H1 : first_op_index_of_next_level (var_to_current_lb_interval_index_ t1)
               = first_op_index_of_next_level (var_to_current_lb_interval_index_ t) /\
               integer_search_levels_ t1 = integer_search_levels_ t).
  { subst t1. destruct (1 <? _); simpl; auto. }
  destruct (enqueue (GreaterOrEqual v _) [] [] t1) as [r1 |] eqn:E1; [| discriminate].
  simpl in Hrun. case_guard; simpl in Hrun; [| discriminate].
  destruct (enqueue (LowerOrEqual v _) [] [] (snd r1)) as [r2 |] eqn:E2; [| discriminate].
  simpl in Hrun. case_guard; simpl in Hrun; [| discriminate].
  injection Hrun as _ <-. simpl.
  destruct (Henq _ _ _ _ _ E1) as [Ha1 Hb1]. destruct (Henq _ _ _ _ _ E2) as [Ha2 Hb2].
  destruct H1 as [Ha Hb]. split; congruence.
Qed.

Lemma enqueue_at_level_zero_levels enqueue v new_bound t b t' :
  (forall l lr ir s r,
      enqueue l lr ir s = Some r ->
      first_op_index_of_next_level (var_to_current_lb_interval_index_ (snd r))
      = first_op_index_of_next_level (var_to_current_lb_interval_index_ s) /\
      integer_search_levels_ (snd r) = integer_search_levels_ s) ->
  enqueue_at_level_zero enqueue v new_bound t = Some (b, t') ->
  first_op_index_of_next_level (var_to_current_lb_interval_index_ t')
  = first_op_index_of_next_level (var_to_current_lb_interval_index_ t) /\
  integer_search_levels_ t' = integer_search_levels_ t.
Proof.
  intros Henq Hrun. unfold enqueue_at_level_zero in Hrun.
  destruct (at_index (vars_ t) v) as [old |]; [| discriminate]. simpl in Hrun.
  destruct (store_at (vars_ t) v _) as [vs |]; [| discriminate]. simpl in Hrun.
  destruct (at_index (integer_trail_ t) v) as [entry |]; [| discriminate]. simpl in Hrun.
  destruct (store_at (integer_trail_ t) v _) as [tr |]; [| discriminate]. simpl in Hrun.
  destruct (LowerBound _ v) as [lb |]; [| discriminate]. simpl in Hrun.
  destruct (UpperBound _ v) as [ub |]; [| discriminate]. simpl in Hrun.
  apply (UpdateInitialDomain_with_levels _ _ _ _ _ _ Henq) in Hrun. exact Hrun.
Qed.

(** [Enqueue] opens and closes no level: it leaves the search levels and
    the level marks of the reversible map as they are. *)
Lemma Enqueue_same_reason_levels fuel :
  forall i_lit lr ir same t r,
    Enqueue_same_reason fuel i_lit lr ir same t = Some r ->
    first_op_index_of_next_level (var_to_current_lb_interval_index_ (snd r))
    = first_op_index_of_next_level (var_to_current_lb_interval_index_ t) /\
    integer_search_levels_ (snd r) = integer_search_levels_ t.
Proof.
  induction fuel as [| fuel IH]; intros i_lit lr ir same t r Hrun; [discriminate |].
  rewrite Enqueue_same_reason_unfold in Hrun.
  destruct (IsCurrentlyIgnored t (il_var i_lit)) as [ignored |]; [| discriminate].
  simpl in Hrun. destruct ignored.
  { injection Hrun as <-. auto. }
  destruct (at_index (vars_ t) (il_var i_lit)) as [info |] eqn:Hinfo; [| discriminate].
  simpl in Hrun.
  destruct (il_bound i_lit <=? current_bound info).
  { injection Hrun as <-. auto. }
  unfold enqueue_better_bound in Hrun.
  set (t0 := with_counters _ _ t) in Hrun.
  destruct (canonicalize_literal i_lit t0) as [[[new_bound t1] |] |] eqn:Ec;
    try discriminate; simpl in Hrun.
  2:{ injection Hrun as <-. auto. }
  assert (H1 : first_op_index_of_next_level (var_to_current_lb_interval_index_ t1)
               = first_op_index_of_next_level (var_to_current_lb_interval_index_ t) /\
               integer_search_levels_ t1 = integer_search_levels_ t).
  { pose proof (canonicalize_literal_revmap _ _ _ _ Ec) as Hmap. simpl in Hmap.
    apply canonicalize_literal_core in Ec as ((_ & _ & _ & Hl1 & _) & _).
    simpl in Hl1. split; [| exact Hl1].
    destruct Hmap as [-> | (index' & ->)]; reflexivity. }
  destruct H1 as [Ha1 Hb1].
  destruct (UpperBound t1 (il_var i_lit)) as [ub |]; [| discriminate]. simpl in Hrun.
  destruct (ub <? new_bound).
  { pose proof (enqueue_empty_domain_index _ _ _ _ _ _ Hrun) as Hi.
    pose proof (enqueue_empty_domain_levels _ _ _ _ _ _ Hrun) as Hl.
    rewrite Hi, Hl. auto. }
  set (t2 := with_watchers _ t1) in Hrun.
  destruct (if negb (_ =? kNoLiteralIndex) then _ else Some (true, t2))
    as [[b t3] |] eqn:Ea; [| discriminate].
  simpl in Hrun.
  assert (Hcore : same_core t3 t2 /\
                  var_to_current_lb_interval_index_ t3
                  = var_to_current_lb_interval_index_ t1).
  { destruct (negb (_ =? kNoLiteralIndex)).
    - split; [eapply EnqueueAssociatedLiteral_core; eauto |].
      apply EnqueueAssociatedLiteral_index in Ea. exact Ea.
    - injection Ea as <- <-. split; [apply same_core_refl | reflexivity]. }
  destruct Hcore as [(_ & _ & _ & Hl3 & _) Hi3]. simpl in Hl3.
  destruct b; simpl in Hrun.
  2:{ injection Hrun as <-. simpl. rewrite Hi3, Hl3. auto. }
  destruct (integer_search_levels_ t3) eqn:El3.
  - destruct r as [b' t']. simpl.
    apply enqueue_at_level_zero_levels in Hrun as [Ha Hb].
    + rewrite Ha, Hb, Hi3, El3. split; [exact Ha1 | congruence].
    + intros l lr' ir' s r' Hr'. simpl in Hr'. exact (IH _ _ _ _ _ _ Hr').
  - destruct (save_reason _ _ _ t3) as [[r0 t4] |] eqn:Es; [| discriminate].
    simpl in Hrun.
    destruct (push_bound _ _ _ t4) as [t5 |] eqn:Ep; [| discriminate].
    simpl in Hrun. injection Hrun as <-. simpl.
    pose proof (save_reason_index _ _ _ _ _ _ Es) as Hi4.
    pose proof (push_bound_index _ _ _ _ _ Ep) as Hi5.
    apply save_reason_effect in Es as (_ & _ & _ & Hl4 & _).
    apply push_bound_effect in Ep as (info' & _ & _ & _ & _ & Hl5 & _).
    rewrite Hi5, Hi4, Hi3. split; [exact Ha1 | congruence].
Qed.

Lemma AddIntegerVariable_levels kmin kmax lower_bound upper_bound t i t' :
  AddIntegerVariable kmin kmax lower_bound upper_bound t = Some (i, t') ->
  integer_search_levels_ t = [] /\
  integer_search_levels_ t' = [] /\
  var_to_current_lb_interval_index_ t' = var_to_current_lb_interval_index_ t.
Proof.
  intros Hrun. unfold AddIntegerVariable in Hrun.
  do 4 outer_guard Hrun.
  match type of Hrun with
  | (guard ?P ≫= _) = _ => destruct (guard P) as [Hl |]; [simpl in Hrun | discriminate]
  end.
  outer_guard Hrun.
  destruct (guard _) as [Hnext |]; [| discriminate]. simpl in Hrun.
  injection Hrun as <- <-. simpl. auto.
Qed.

(** *** The runs of the trail *)

Lemma searched_below_sizes h t :
  searched_below h t -> (length (vars_ t) <= length (integer_trail_ t))%nat.
Proof.
  intros (ext & ops & more & more' & Htr & Hun & _ & _ & _ & _ & _ & _ & _ & Hle & _).
  apply untrail_entries_length in Hun. rewrite Htr, length_app. lia.
Qed.

(** [Untrail] at the level of the trail has nothing to bring back. *)
Lemma Untrail_nothing t literal_trail_index t' :
  RevMap_Level (var_to_current_lb_interval_index_ t) = length (integer_search_levels_ t) ->
  CurrentDecisionLevel (trail_ t) = size_ (integer_search_levels_ t) ->
  Untrail literal_trail_index t = Some t' ->
  same_bounds_state t' t.
Proof.
  intros Hsync Hlevel Hrun. unfold Untrail in Hrun. rewrite Hlevel in Hrun.
  simpl in Hrun. unfold size_ in Hrun. rewrite Nat2Z.id in Hrun.
  set (m := var_to_current_lb_interval_index_ t) in *.
  assert (Hset : RevMap_SetLevel (length (integer_search_levels_ t)) m = m).
  { unfold RevMap_SetLevel.
    destruct (Nat.ltb_spec (length (integer_search_levels_ t)) (RevMap_Level m)); [lia |].
    unfold RevMap_Level in Hsync. rewrite <- Hsync, resize_all.
    destruct m; reflexivity. }
  rewrite Hset in Hrun.
  destruct (Z.leb_spec (Z.of_nat (length (integer_search_levels_ t)))
              (Z.of_nat (length (integer_search_levels_ t)))) as [_ | Hbad]; [| lia].
  injection Hrun as <-. repeat split.
Qed.

(** Whatever is enqueued below the state from which a level was entered,
    that state stays recoverable. *)
Lemma entered_from_searched h t :
  entered_from h t ->
  RevMap_Level (var_to_current_lb_interval_index_ h) = length (integer_search_levels_ h) ->
  (length (vars_ h) <= length (integer_trail_ h))%nat ->
  bounds_linked (vars_ h) (integer_trail_ h) ->
  searched_below h t.
Proof.
  induction 1 as [h t Hlt Hrun | h t sat _ IH | h t fuel i_lit lr ir same r _ IH Hrun
                  | h t t' _ IH Hle Hrun | h h1 t idx t' _ IH1 _ IH2 Hlevel Hrun
                  | h t idx t' _ IH Hlevel Hrun];
    intros Hsync Hsize Hlink.
  - destruct (Propagate_enter_level_searched _ _ Hsync Hsize Hlink ltac:(lia) Hrun)
      as (_ & _ & _ & _ & [[Heq _] | [_ Hs]] & _); [lia | exact Hs].
  - specialize (IH Hsync Hsize Hlink).
    apply (same_bounds_state_transfer (with_trail_ sat t) t); [repeat split | exact IH].
  - eapply Enqueue_searched_below; [apply IH; assumption | exact Hrun].
  - specialize (IH Hsync Hsize Hlink).
    destruct (searched_below_levels _ _ IH) as (_ & Hsynct & Hlinkt).
    pose proof (searched_below_sizes _ _ IH) as Hsizet.
    destruct (Propagate_enter_level_searched _ _ Hsynct Hsizet Hlinkt Hle Hrun)
      as (_ & _ & _ & _ & _ & Hkeep).
    apply Hkeep. exact IH.
  - specialize (IH1 Hsync Hsize Hlink).
    destruct (searched_below_levels _ _ IH1) as (_ & Hsync1 & Hlink1).
    pose proof (searched_below_sizes _ _ IH1) as Hsize1.
    specialize (IH2 Hsync1 Hsize1 Hlink1).
    pose proof (Untrail_restores_entered_state _ _ _ _ IH2 Hlevel Hrun) as Hsame.
    apply (same_bounds_state_transfer t' h1); assumption.
  - specialize (IH Hsync Hsize Hlink).
    destruct (searched_below_levels _ _ IH) as (_ & Hsynct & _).
    pose proof (Untrail_nothing _ _ _ Hsynct Hlevel Hrun) as Hsame.
    apply (same_bounds_state_transfer t' t); assumption.
Qed.

(** No entry of the trail is in a hole of the domain of its variable in
    the states below a state of which this is true. *)
Lemma entered_from_outside_holes h t :
  entered_from h t ->
  RevMap_Level (var_to_current_lb_interval_index_ h) = length (integer_search_levels_ h) ->
  bounds_linked (vars_ h) (integer_trail_ h) ->
  trail_well_formed h /\ entries_outside_holes h ->
  trail_well_formed t /\ entries_outside_holes t.
Proof.
  induction 1 as [h t Hlt Hrun | h t sat _ IH | h t fuel i_lit lr ir same r _ IH Hrun
                  | h t t' Hent IH Hle Hrun | h h1 t idx t' Hent1 IH1 Hent2 IH2 Hlevel Hrun
                  | h t idx t' Hent IH Hlevel Hrun];
    intros Hsync Hlink Hinv.
  - assert (Hsize : (length (vars_ h) <= length (integer_trail_ h))%nat)
      by (destruct Hinv as [(_ & _ & Hs & _) _]; exact Hs).
    destruct (Propagate_enter_level_searched _ _ Hsync Hsize Hlink ltac:(lia) Hrun)
      as (Hv & Ht & Hd & _).
    apply (canonical_same h); auto.
  - apply (canonical_same t); auto.
  - eapply Enqueue_same_reason_canonical; [apply IH; assumption | exact Hrun].
  - assert (Hsize : (length (vars_ h) <= length (integer_trail_ h))%nat)
      by (destruct Hinv as [(_ & _ & Hs & _) _]; exact Hs).
    pose proof (entered_from_searched _ _ Hent Hsync Hsize Hlink) as Hs.
    destruct (searched_below_levels _ _ Hs) as (_ & Hsynct & Hlinkt).
    pose proof (searched_below_sizes _ _ Hs) as Hsizet.
    destruct (Propagate_enter_level_searched _ _ Hsynct Hsizet Hlinkt Hle Hrun)
      as (Hv & Ht & Hd & _).
    apply (canonical_same t); auto.
  - assert (Hsize : (length (vars_ h) <= length (integer_trail_ h))%nat)
      by (destruct Hinv as [(_ & _ & Hs & _) _]; exact Hs).
    pose proof (entered_from_searched _ _ Hent1 Hsync Hsize Hlink) as Hs1.
    destruct (searched_below_levels _ _ Hs1) as (_ & Hsync1 & Hlink1).
    pose proof (searched_below_sizes _ _ Hs1) as Hsize1.
    pose proof (entered_from_searched _ _ Hent2 Hsync1 Hsize1 Hlink1) as Hs2.
    destruct (Untrail_restores_entered_state _ _ _ _ Hs2 Hlevel Hrun) as (Hv & Ht & Hd & _).
    apply (canonical_same h1); auto.
  - assert (Hsize : (length (vars_ h) <= length (integer_trail_ h))%nat)
      by (destruct Hinv as [(_ & _ & Hs & _) _]; exact Hs).
    pose proof (entered_from_searched _ _ Hent Hsync Hsize Hlink) as Hs.
    destruct (searched_below_levels _ _ Hs) as (_ & Hsynct & _).
    destruct (Untrail_nothing _ _ _ Hsynct Hlevel Hrun) as (Hv & Ht & Hd & _).
    apply (canonical_same t); auto.
Qed.

Lemma root_canonical_linked t : root_canonical t -> bounds_linked (vars_ t) (integer_trail_ t).
Proof.
  intros (_ & Hlen & _ & Hlinked & _) v info Hv.
  pose proof (lookup_lt_Some _ _ _ Hv) as Hlt. rewrite <- Hlen in Hlt.
  destruct (lookup_lt_is_Some_2 (integer_trail_ t) v Hlt) as [e He].
  destruct (Hlinked _ _ _ Hv He) as [Hb Hi].
  exists e. split; [| exact Hb]. rewrite Hi, at_index_nat. exact He.
Qed.

(** In a state that the trail reaches with no conflict pending, the trail
    has its shape, no entry is in a hole of the domain of its variable and
    every cached interval index is behind its bound; the levels of the
    reversible map are those of the trail. *)
Lemma canonical_run_invariant kmin kmax t :
  canonical_run kmin kmax t ->
  trail_well_formed t /\ entries_outside_holes t /\ (forall v, index_behind t v) /\
  RevMap_Level (var_to_current_lb_interval_index_ t) = length (integer_search_levels_ t) /\
  bounds_linked (vars_ t) (integer_trail_ t) /\
  (integer_search_levels_ t = [] -> root_canonical t) /\
  (integer_search_levels_ t <> [] -> exists h, searched_below h t).
Proof.
  assert (Hroot : forall s, root_canonical s ->
            first_op_index_of_next_level (var_to_current_lb_interval_index_ s) = [] ->
            trail_well_formed s /\ entries_outside_holes s /\
            (forall v, index_behind s v) /\
            RevMap_Level (var_to_current_lb_interval_index_ s)
            = length (integer_search_levels_ s) /\
            bounds_linked (vars_ s) (integer_trail_ s) /\
            (integer_search_levels_ s = [] -> root_canonical s) /\
            (integer_search_levels_ s <> [] -> exists h : IntegerTrail B, searched_below h s)).
  { intros s Hs Hf. pose proof Hs as (Hl & _ & Hwf & _ & _ & Hidx).
    split; [exact Hwf |]. split; [apply root_canonical_outside_holes; exact Hs |].
    split; [exact Hidx |].
    split; [unfold RevMap_Level; rewrite Hf, Hl; reflexivity |].
    split; [apply root_canonical_linked; exact Hs |].
    split; [auto | intros Hne; contradiction]. }
  assert (Hsame : forall s' s, same_bounds_state s' s ->
            trail_well_formed s /\ entries_outside_holes s /\
            (forall v, index_behind s v) /\
            RevMap_Level (var_to_current_lb_interval_index_ s)
            = length (integer_search_levels_ s) /\
            bounds_linked (vars_ s) (integer_trail_ s) /\
            (integer_search_levels_ s = [] -> root_canonical s) /\
            (integer_search_levels_ s <> [] -> exists h : IntegerTrail B, searched_below h s) ->
            trail_well_formed s' /\ entries_outside_holes s' /\
            (forall v, index_behind s' v) /\
            RevMap_Level (var_to_current_lb_interval_index_ s')
            = length (integer_search_levels_ s') /\
            bounds_linked (vars_ s') (integer_trail_ s') /\
            (integer_search_levels_ s' = [] -> root_canonical s') /\
            (integer_search_levels_ s' <> [] -> exists h : IntegerTrail B, searched_below h s')).
  { intros s' s Hss (Hwf & Hout & Hidx & Hsync & Hlink & Hr & Hb).
    destruct (same_bounds_state_transfer _ _ Hss) as (T1 & T2 & T3 & T4 & T5).
    destruct Hss as (Hv & Ht & Hd & Hl & Hi).
    split; [auto |]. split; [auto |]. split; [auto |].
    split; [rewrite Hi, Hl; exact Hsync |].
    split; [rewrite Hv, Ht; exact Hlink |].
    split.
    - rewrite Hl. auto.
    - rewrite Hl. intros Hne. destruct (Hb Hne) as [h Hh]. exists h. auto. }
  induction 1 as [t Hv Ht Hd Hl Hi
                 | t lower_bound upper_bound i t' _ IH Hrun
                 | t fuel var domain t' _ IH Hl Hdom Hrun
                 | t fuel i_lit lr ir same t' _ IH Hl Hrun
                 | t sat _ IH
                 | t t' _ IH Hle Hrun
                 | t fuel i_lit lr ir same r lb _ IH Hne Hrun Hlb Hge
                 | h t idx t' _ IH Hent Hlevel Hrun
                 | t idx t' _ IH Hlevel Hrun].
  - apply Hroot; [apply root_canonical_initial; assumption | rewrite Hi; reflexivity].
  - destruct IH as (_ & _ & _ & Hsync & _ & Hr & _).
    destruct (AddIntegerVariable_levels _ _ _ _ _ _ _ Hrun) as (Hl & Hl' & Hi).
    apply Hroot.
    + eapply AddIntegerVariable_root; [apply Hr; exact Hl | exact Hrun].
    + rewrite Hi. unfold RevMap_Level in Hsync. rewrite Hl in Hsync.
      apply nil_length_inv. exact Hsync.
  - destruct IH as (_ & _ & _ & Hsync & _ & Hr & _).
    apply Hroot.
    + eapply UpdateInitialDomain_root; [apply Hr; exact Hl | exact Hdom | exact Hrun].
    + unfold UpdateInitialDomain in Hrun.
      apply UpdateInitialDomain_with_levels in Hrun as [Ha _].
      * rewrite Ha. unfold RevMap_Level in Hsync. rewrite Hl in Hsync.
        apply nil_length_inv. exact Hsync.
      * intros l lr ir s r Hr'. unfold Enqueue in Hr'.
        exact (Enqueue_same_reason_levels _ _ _ _ _ _ _ Hr').
  - destruct IH as (_ & _ & _ & Hsync & _ & Hr & _).
    apply Hroot.
    + apply (Enqueue_same_reason_root _ _ _ _ _ _ _ (Hr Hl) Hrun). reflexivity.
    + destruct (Enqueue_same_reason_levels _ _ _ _ _ _ _ Hrun) as [Ha _].
      simpl in Ha. rewrite Ha. unfold RevMap_Level in Hsync. rewrite Hl in Hsync.
      apply nil_length_inv. exact Hsync.
  - apply (Hsame (with_trail_ sat t) t); [repeat split | exact IH].
  - pose proof IH as (Hwf & Hout & Hidx & Hsync & Hlink & Hr & Hb).
    assert (Hsize : (length (vars_ t) <= length (integer_trail_ t))%nat)
      by (destruct Hwf as (_ & _ & Hs & _); exact Hs).
    destruct (Propagate_enter_level_searched _ _ Hsync Hsize Hlink Hle Hrun)
      as (Hv & Ht & Hd & Hm & Hcase & Hkeep).
    destruct Hcase as [[_ Hss] | [_ Hs]].
    + apply (Hsame t' t); assumption.
    + destruct (searched_below_levels _ _ Hs) as (Hne' & Hsync' & Hlink').
      split; [apply (well_formed_same t); assumption |].
      split; [unfold entries_outside_holes; rewrite Ht, Hd; exact Hout |].
      split.
      { intros v. apply (index_behind_same t); auto.
        unfold RevMap_FindOrDie. rewrite Hm. reflexivity. }
      split; [exact Hsync' |]. split; [exact Hlink' |].
      split; [intros E; contradiction | intros _; exists t; exact Hs].
  - destruct IH as (Hwf & Hout & Hidx & Hsync & Hlink & Hr & Hb).
    destruct (Hb Hne) as [h Hh].
    pose proof (Enqueue_searched_below _ _ _ _ _ _ _ _ Hh Hrun) as Hh'.
    destruct (searched_below_levels _ _ Hh') as (Hne' & Hsync' & Hlink').
    destruct (Enqueue_same_reason_canonical _ _ _ _ _ _ _ (conj Hwf Hout) Hrun)
      as [Hwf' Hout'].
    destruct (Enqueue_index_at_search_level _ _ _ _ _ _ _ Hne Hrun) as [Hother Hself].
    split; [exact Hwf' |]. split; [exact Hout' |].
    split.
    { intros v. destruct (Z.eq_dec v (il_var i_lit)) as [-> | Hv].
      - apply Hself; [apply Hidx | exists lb; auto].
      - apply Hother; [exact Hv | apply Hidx]. }
    split; [exact Hsync' |]. split; [exact Hlink' |].
    split; [intros E; contradiction | intros _; exists h; exact Hh'].
  - pose proof IH as (Hwf & Hout & Hidx & Hsync & Hlink & Hr & Hb).
    assert (Hsize : (length (vars_ h) <= length (integer_trail_ h))%nat)
      by (destruct Hwf as (_ & _ & Hs & _); exact Hs).
    pose proof (entered_from_searched _ _ Hent Hsync Hsize Hlink) as Hs.
    pose proof (Untrail_restores_entered_state _ _ _ _ Hs Hlevel Hrun) as Hss.
    apply (Hsame t' h); assumption.
  - pose proof IH as (Hwf & Hout & Hidx & Hsync & Hlink & Hr & Hb).
    pose proof (Untrail_nothing _ _ _ Hsync Hlevel Hrun) as Hss.
    apply (Hsame t' t); assumption.
Qed.

(** C5 (amended).  [Enqueue] of a bound that is not above the current
    lower bound returns true and changes nothing, and so does [Enqueue] on
    a variable that is currently ignored.  Otherwise, the variable not
    being ignored, its domain having several intervals and its cached
    interval index not being ahead of its lower bound: when no value of
    the domain is at or above the bound a conflict is reported and
    [Enqueue] returns false; else the bound is raised to the least value
    of the domain at or above it, the start of the next interval when the
    bound is in a hole, and that value is the bound a successful call
    records.  The condition on the cached index is an invariant of the
    code: it holds, the domains being sorted lists of disjoint intervals,
    in every state that the trail reaches with no conflict pending
    ([canonical_run]).  And no entry of the trail ever has its bound in a
    hole of the domain of its variable: not in such a state, not in the
    states of the search below it, and not after [Enqueue] there,
    whatever its result. *)
Theorem Enqueue_canonical kmin kmax fuel i_lit literal_reason integer_reason same t
    ignored info :
  IsCurrentlyIgnored t (il_var i_lit) = Some ignored ->
  at_index (vars_ t) (il_var i_lit) = Some info ->
  (il_bound i_lit <= current_bound info ->
   Enqueue_same_reason (S fuel) i_lit literal_reason integer_reason same t = Some (true, t)) /\
  (ignored = true ->
   Enqueue_same_reason (S fuel) i_lit literal_reason integer_reason same t = Some (true, t)) /\
  (ignored = false -> current_bound info < il_bound i_lit ->
   forall d,
     at_index (domains_ t) (il_var i_lit) = Some d ->
     1 < Domain.NumIntervals d -> Domain.wf d ->
     index_behind t (il_var i_lit) ->
     ((forall x, Domain.elem x d -> x < il_bound i_lit) ->
      exists t',
        Enqueue_same_reason (S fuel) i_lit literal_reason integer_reason same t
        = Some (false, t') /\
        trail_ t'
        = SetConflict (MergeReasonInto (integer_trail_ t) integer_reason literal_reason)
            (trail_ t) /\
        vars_ t' = vars_ t /\ integer_trail_ t' = integer_trail_ t) /\
     (forall x, Domain.elem x d -> il_bound i_lit <= x ->
      exists nb,
        least_value_from d (il_bound i_lit) nb /\
        (~ Domain.elem (il_bound i_lit) d ->
         il_bound i_lit < nb /\ exists i, In i d /\ nb = start i) /\
        forall t',
          Enqueue_same_reason (S fuel) i_lit literal_reason integer_reason same t
          = Some (true, t') ->
          bound_recorded fuel (il_var i_lit) nb info t t')) /\
  (canonical_run kmin kmax t ->
   (forall d, at_index (domains_ t) (il_var i_lit) = Some d -> Domain.wf d) /\
   index_behind t (il_var i_lit)) /\
  (canonical_run kmin kmax t \/
   (exists h : IntegerTrail B, canonical_run kmin kmax h /\ entered_from h t) ->
   entries_outside_holes t /\
   forall r,
     Enqueue_same_reason (S fuel) i_lit literal_reason integer_reason same t = Some r ->
     entries_outside_holes (snd r)).
Proof.
  intros Hig Hinfo.
  refine (conj _ (conj _ (conj _ (conj _ _)))).
  4:{ intros Hrun.
      destruct (canonical_run_invariant _ _ _ Hrun) as ((_ & Hwf & _) & _ & Hidx & _).
      split; [| apply Hidx].
      intros d [_ Hd]%at_index_Some. rewrite Forall_lookup in Hwf. eauto. }
  4:{ intros Hreached.
      assert (Hinv : trail_well_formed t /\ entries_outside_holes t).
      { destruct Hreached as [Hrun | (h & Hrun & Hent)].
        - destruct (canonical_run_invariant _ _ _ Hrun) as (Hwf & Hout & _). auto.
        - destruct (canonical_run_invariant _ _ _ Hrun)
            as (Hwf & Hout & _ & Hsync & Hlink & _).
          apply (entered_from_outside_holes _ _ Hent Hsync Hlink). auto. }
      split; [apply Hinv |]. intros r Hrun.
      apply (Enqueue_same_reason_canonical _ _ _ _ _ _ _ Hinv Hrun). }
  all: rewrite Enqueue_same_reason_unfold, Hig; simpl; rewrite Hinfo; simpl.
  - intros Hle. destruct ignored; [reflexivity |].
    destruct (Z.leb_spec (il_bound i_lit) (current_bound info)); [reflexivity | lia].
  - intros ->. reflexivity.
  - intros -> Hgt d Hd Hn Hwf Hbehind0.
    destruct (Hbehind0 d Hd Hn) as (index & info0 & Hidx & Hinfo0 & Hbehind1).
    assert (info0 = info) by congruence. subst info0.
    assert (Hbehind : interval_index_behind d index (il_bound i_lit)).
    { destruct Hbehind1 as [Hr Hall]. split; [exact Hr |].
      eapply Forall_impl; [exact Hall |]. simpl. intros. lia. }
    destruct (Z.leb_spec (il_bound i_lit) (current_bound info)); [lia |].
    unfold enqueue_better_bound.
    set (t0 := with_counters _ _ t).
    rewrite (canonicalize_literal_holes i_lit t0 d index Hd Hn Hidx).
    destruct (canonicalize_bound_spec d index (il_bound i_lit) Hwf Hbehind)
      as [[Ec Hnone] | (index' & nb & i & Ec & Hin & Hnb & Hend & Hleast)];
      rewrite Ec; simpl.
    + split.
      * intros _. eexists. split; [reflexivity |]. simpl. auto.
      * intros x Hx Hbx. specialize (Hnone x Hx). lia.
    + split.
      * intros Hall. destruct Hleast as (Helem & Hge & _).
        specialize (Hall nb Helem). lia.
      * intros x Hx Hbx. exists nb. split; [exact Hleast |]. split.
        -- intros Hhole. destruct (canonical_in_hole d _ i Hhole Hin Hend) as [Hmax Hlt].
           split; [lia |]. exists i. split; [exact Hin | lia].
        -- intros t' Hrun.
           eapply (enqueue_records fuel i_lit literal_reason integer_reason same t info nb);
             [exact Hinfo | | exact Hrun].
           repeat split.
Qed.

End EnqueueFacts.

(** ** The examples *)

Lemma example_trail_created :
  AddIntegerVariable (- (kint64max - 1)) (kint64max - 1) 0 10
    (empty_trail (MkBooleanTrail 0 [] []))
  = Some (0, example_trail).
Proof. vm_compute. reflexivity. Qed.

Lemma example_trail_level_zero : level_zero_state example_trail.
Proof.
  repeat split; simpl; try lia.
  - intros [| [| v]] info; simpl; intros [= <-]; eexists; split; reflexivity.
  - intros [| [| v]] info; simpl; intros [= <-]; reflexivity.
Defined.

Lemma example_search_runs :
  run_search_ops 2 example_search example_trail = Some example_searched.
Proof. vm_compute. reflexivity. Defined.

Lemma example_searched_bounds :
  LowerBound example_searched 0 = Some 3 /\ UpperBound example_searched 0 = Some 7 /\
  length (integer_trail_ example_searched) = 4%nat.
Proof. vm_compute. auto. Qed.

Lemma Untrail_restores_level_zero_witness :
  level_zero_state example_trail /\
  run_search_ops 2 example_search example_trail = Some example_searched /\
  CurrentDecisionLevel (MkBooleanTrail 0 [] []) = 0 /\
  exists t2,
    Untrail 0 (with_trail_ (MkBooleanTrail 0 [] []) example_searched) = Some t2 /\
    (forall v, LowerBound t2 v = LowerBound example_trail v) /\
    length (integer_trail_ t2) = length (integer_trail_ example_trail).
Proof.
  split; [exact example_trail_level_zero |].
  split; [exact example_search_runs |].
  split; [reflexivity |].
  destruct (Untrail_restores_level_zero 2 example_search example_trail example_searched
              (MkBooleanTrail 0 [] []) 0
              example_trail_level_zero example_search_runs eq_refl)
    as (t2 & Hrun & _ & Hlb & _ & Hlen & _).
  exists t2. auto.
Defined.

Lemma example_trail_linked : negation_linked example_trail.
Proof.
  split; [reflexivity |].
  intros v d Hv. apply at_index_Some in Hv as [Hpos Hlook].
  destruct (Z.to_nat v) as [| [| n]] eqn:En; simpl in Hlook; try discriminate.
  - assert (v = 0) by lia. subst v. injection Hlook as <-. reflexivity.
  - assert (v = 1) by lia. subst v. injection Hlook as <-. reflexivity.
Defined.

Lemma negation_invariant_witness :
  negation_linked (empty_trail (MkBooleanTrail 0 [] [])) /\
  negation_linked example_trail /\
  (forall v, LowerBound example_trail (NegationOf v)
             = (ub ← UpperBound example_trail v; Some (- ub))) /\
  (forall fuel i_lit literal_reason integer_reason same b t',
      Enqueue_same_reason fuel i_lit literal_reason integer_reason same example_trail
      = Some (b, t') ->
      negation_linked t') /\
  (forall literal_trail_index t',
      Untrail literal_trail_index example_trail = Some t' -> negation_linked t').
Proof.
  destruct (negation_invariant (B := BooleanTrail) (- (kint64max - 1)) (kint64max - 1))
    as [Hinitial Hkept].
  split; [apply Hinitial; reflexivity |].
  split; [exact example_trail_linked |].
  destruct (Hkept example_trail example_trail_linked) as (_ & Hb & _ & _ & He & Hu).
  auto.
Defined.

Lemma holes_domain_wf : Domain.wf [MkInterval 0 3; MkInterval 7 10].
Proof. simpl. lia. Defined.

(** The run [holes_run] is one that the trail makes with no conflict
    pending. *)
Lemma holes_run_canonical : canonical_run (- (kint64max - 1)) (kint64max - 1) holes_run.
Proof.
  apply (run_enter_level _ _ (with_trail_ (MkBooleanTrail 1 [5] []) holes_run_root)).
  - apply run_boolean.
    apply (run_update_domain _ _ holes_run_added 1 0 [MkInterval 0 3; MkInterval 7 10]).
    + apply (run_add_variable _ _ (empty_trail (MkBooleanTrail 0 [] [])) 0 10 0).
      * apply run_initial; reflexivity.
      * vm_compute. reflexivity.
    + reflexivity.
    + exact holes_domain_wf.
    + vm_compute. reflexivity.
  - vm_compute. discriminate.
  - vm_compute. reflexivity.
Defined.

Lemma Enqueue_canonical_witness :
  IsCurrentlyIgnored holes_run 0 = Some false /\
  at_index (vars_ holes_run) 0 = Some (MkVarInfo 0 0) /\
  canonical_run (- (kint64max - 1)) (kint64max - 1) holes_run /\
  index_behind holes_run 0 /\
  (exists nb,
     least_value_from [MkInterval 0 3; MkInterval 7 10] 5 nb /\
     forall t',
       Enqueue_same_reason 2 (GreaterOrEqual 0 5) [6] [] None holes_run = Some (true, t') ->
       bound_recorded 1 0 nb (MkVarInfo 0 0) holes_run t') /\
  entries_outside_holes holes_run /\
  forall r,
    Enqueue_same_reason 2 (GreaterOrEqual 0 5) [6] [] None holes_run = Some r ->
    entries_outside_holes (snd r).
Proof.
  assert (Hig : IsCurrentlyIgnored holes_run 0 = Some false) by (vm_compute; reflexivity).
  assert (Hinfo : at_index (vars_ holes_run) 0 = Some (MkVarInfo 0 0))
    by (vm_compute; reflexivity).
  assert (Hd : at_index (domains_ holes_run) 0 = Some [MkInterval 0 3; MkInterval 7 10])
    by (vm_compute; reflexivity).
  destruct (Enqueue_canonical (- (kint64max - 1)) (kint64max - 1) 1 (GreaterOrEqual 0 5)
              [6] [] None holes_run false (MkVarInfo 0 0) Hig Hinfo)
    as (_ & _ & H3 & H4 & H5).
  destruct (H4 holes_run_canonical) as [Hwf Hidx].
  split; [exact Hig |]. split; [exact Hinfo |].
  split; [exact holes_run_canonical |]. split; [exact Hidx |].
  split; [| exact (H5 (or_introl holes_run_canonical))].
  destruct (H3 eq_refl ltac:(simpl; lia) [MkInterval 0 3; MkInterval 7 10]
              Hd eq_refl (Hwf _ Hd) Hidx) as [_ H2].
  assert (Helem : Domain.elem 7 [MkInterval 0 3; MkInterval 7 10]) by reflexivity.
  destruct (H2 7 Helem ltac:(simpl; lia)) as (nb & Hleast & _ & Hrec).
  exists nb. split; [exact Hleast | exact Hrec].
Defined.

(** The condition on the cached interval index cannot be left out of the
    statement: with the index 2 of the variable, ahead of its lower bound
    0, the bound 5, in the first hole of the domain
    [0, 3] u [7, 10] u [20, 30], is recorded as 20, the start of the last
    interval, though 7 is the least value of the domain at or above 5. *)
Lemma Enqueue_index_ahead_example :
  IsCurrentlyIgnored index_ahead_trail 0 = Some false /\
  LowerBound index_ahead_trail 0 = Some 0 /\
  at_index (domains_ index_ahead_trail) 0
  = Some [MkInterval 0 3; MkInterval 7 10; MkInterval 20 30] /\
  RevMap_FindOrDie 0 (var_to_current_lb_interval_index_ index_ahead_trail) = Some 2 /\
  least_value_from [MkInterval 0 3; MkInterval 7 10; MkInterval 20 30] 5 7 /\
  option_map (fun r => (fst r, LowerBound (snd r) 0))
    (Enqueue 2 (GreaterOrEqual 0 5) [6] [] index_ahead_trail)
  = Some (true, Some 20).
Proof.
  split; [reflexivity |]. split; [reflexivity |]. split; [reflexivity |].
  split; [reflexivity |]. split; [| vm_compute; reflexivity].
  split; [reflexivity |]. split; [lia |].
  intros x (i & Hi & Hx)%elem_iff Hle.
  destruct Hi as [<- | [<- | [<- | []]]]; simpl in Hx; lia.
Qed.

(** The same bound in the run [holes_run]: it is recorded as 7. *)
Lemma Enqueue_in_run_example :
  option_map (fun r => (fst r, LowerBound (snd r) 0, integer_trail_ (snd r)))
    (Enqueue 2 (GreaterOrEqual 0 5) [6] [] holes_run)
  = Some (true, Some 7, integer_trail_ holes_run ++ [MkTrailEntry 7 0 0 0]).
Proof. vm_compute. reflexivity. Qed.

(** The bound 5, in the hole of the domain, is recorded as 7. *)
Lemma Enqueue_in_hole_example :
  option_map (fun r => (fst r, LowerBound (snd r) 0, integer_trail_ (snd r)))
    (Enqueue 2 (GreaterOrEqual 0 5) [6] [] (holes_trail 5))
  = Some (true, Some 7,
          integer_trail_ (holes_trail 5) ++ [MkTrailEntry 7 0 0 0]).
Proof. vm_compute. reflexivity. Qed.

(** With no value of the domain at or above the bound, the conflict. *)
Lemma Enqueue_conflict_example :
  option_map (fun r => (fst r, last_conflict (trail_ (snd r))))
    (Enqueue 2 (GreaterOrEqual 0 20) [6] [] (holes_trail 5))
  = Some (false, [6]).
Proof. vm_compute. reflexivity. Qed.

(** C5 does not hold of a variable that is currently ignored: the bound
    20 is above the current lower bound 0 of the variable, whose domain
    [0, 3] u [7, 10] has no value at or above 20, and yet [Enqueue] returns
    true, reports no conflict and leaves the trail as it is; the bound 5,
    in the hole of the domain, is not recorded either. *)
Lemma Enqueue_ignored_variable_no_conflict :
  IsCurrentlyIgnored (holes_trail 4) 0 = Some true /\
  LowerBound (holes_trail 4) 0 = Some 0 /\
  at_index (domains_ (holes_trail 4)) 0 = Some [MkInterval 0 3; MkInterval 7 10] /\
  (forall x, Domain.elem x [MkInterval 0 3; MkInterval 7 10] -> x < 20) /\
  ~ Domain.elem 5 [MkInterval 0 3; MkInterval 7 10] /\
  Enqueue 2 (GreaterOrEqual 0 20) [6] [] (holes_trail 4) = Some (true, holes_trail 4) /\
  Enqueue 2 (GreaterOrEqual 0 5) [6] [] (holes_trail 4) = Some (true, holes_trail 4) /\
  last_conflict (trail_ (holes_trail 4)) = [].
Proof.
  split; [reflexivity |]. split; [reflexivity |]. split; [reflexivity |]. split.
  - intros x (i & Hi & Hx)%elem_iff.
    destruct Hi as [<- | [<- | []]]; simpl in Hx; lia.
  - split; [discriminate |]. repeat split; reflexivity.
Qed.

(** ** The propagator scheduler *)

Section SchedulerFacts.
Context {W : Type} `{!PropagatorWorld W}.
Implicit Type g : GenericLiteralWatcher W.

(** Whatever the priority a run leaves in the loop variable of the [for],
    the [while] goes on with the queue it is bound to. *)
Lemma propagate_loops_same_queue fuel level cur priority g id rest p g' :
  at_index (queue_by_priority_ g) cur = Some (id :: rest) ->
  run_front level cur priority id rest g = Some (TurnContinue p g') ->
  propagate_loops (S fuel) level (Some cur) priority g
  = propagate_loops fuel level (Some cur) p g'.
Proof. intros Hq Hrun. simpl. rewrite Hq. simpl. rewrite Hrun. reflexivity. Qed.

(** The restart at the priority 0 happens when that queue is empty. *)
Lemma propagate_loops_restart fuel level cur g :
  at_index (queue_by_priority_ g) cur = Some [] ->
  0 < size_ (queue_by_priority_ g) ->
  propagate_loops (S (S fuel)) level (Some cur) (-1) g
  = propagate_loops fuel level (Some 0) 0 g.
Proof.
  intros Hq Hsize. simpl. rewrite Hq. simpl.
  change (-1 + 1) with 0.
  destruct (Z.ltb_spec 0 (size_ (queue_by_priority_ g))); [reflexivity | lia].
Qed.

(** A run of the front propagator ends the call, with the result of the
    propagator when it failed and with true otherwise, or lets the loop go
    on with the priority unchanged or set to -1. *)
Lemma run_front_priority level cur priority id rest g r :
  run_front level cur priority id rest g = Some r ->
  match r with
  | TurnReturn _ _ => True
  | TurnContinue p _ => p = priority \/ p = -1
  end.
Proof.
  unfold run_front. intros Hrun.
  destruct (store_at (queue_by_priority_ g) cur rest) as [qs |]; [| discriminate].
  simpl in Hrun.
  destruct (update_reversible id level _) as [g1 |]; [| discriminate]. simpl in Hrun.
  destruct (at_index (id_to_watch_indices_ g1) id) as [wi |]; [| discriminate].
  simpl in Hrun.
  destruct (store_at (id_to_watch_indices_ g1) id []) as [wis |]; [| discriminate].
  simpl in Hrun.
  destruct (store_at (in_queue_ g1) id false) as [inq |]; [| discriminate].
  simpl in Hrun.
  destruct (negb _); [injection Hrun as <-; exact I |].
  destruct (at_index (id_to_idempotence_ g1) id) as [idem |]; [| discriminate].
  simpl in Hrun.
  match type of Hrun with
  | (?m ≫= _) = _ => destruct m as [g2 |]; [| discriminate]
  end.
  simpl in Hrun.
  destruct (_ <? world_trail_index _); injection Hrun as <-; [exact I |].
  destruct (_ <? _); auto.
Qed.

End SchedulerFacts.

(** C8, at the failing input.  The propagators 0 and 1 (priority 1) are
    queued, the propagator 2 (priority 0) watches the integer variable 0.
    The run of 0 pushes a bound on that variable, which queues 2 at the
    priority 0; the propagator 1 is nevertheless run before 2: the queue of
    the priority 1 is emptied before the priority 0 is looked at again.
    When the run of 0 pushes a literal instead, [Propagate] returns true at
    once, leaving 1 in its queue. *)
Theorem Propagate_empties_queue_before_restart :
  id_to_priority_ (example_watcher (PushBound 0)) = [1; 1; 0] /\
  propagation_order 12 (example_watcher (PushBound 0)) = Some (true, [0; 1; 2]) /\
  propagation_order 12 (example_watcher (PushLiteral 3)) = Some (true, [0]) /\
  option_map (fun r => queue_by_priority_ (snd r))
    (Propagate 12 (example_watcher (PushLiteral 3))) = Some [[]; [1]].
Proof. vm_compute. repeat split; reflexivity. Qed.

(** ** More facts about the presolve context *)

Section MoreContextFacts.
Context {AR : Type} `{!AffineRelationOps AR}.
Implicit Type ctx : PresolveContext AR.

Lemma interval_inter_included i j k :
  In k (Domain.interval_inter i j) -> Domain.interval_included k j = true.
Proof.
  unfold Domain.interval_inter, Domain.FromInterval, Domain.interval_included.
  destruct (Z.leb_spec (Z.max (start i) (start j)) (Z.min (end_ i) (end_ j)));
    simpl; [| tauto].
  intros [<- | []]. simpl. apply andb_true_iff. split; apply Z.leb_le; lia.
Qed.

(** An intersection is included in the domain it was intersected with. *)
Lemma IsIncludedIn_IntersectionWith (d other : Domain.t) :
  Domain.IsIncludedIn (Domain.IntersectionWith d other) other = true.
Proof.
  unfold Domain.IsIncludedIn, Domain.IntersectionWith.
  apply forallb_forall. intros k Hk.
  apply in_flat_map in Hk as (i & _ & Hk).
  apply in_flat_map in Hk as (j & Hj & Hk).
  apply existsb_exists. exists j. split; [exact Hj |].
  eapply interval_inter_included; eauto.
Qed.

(** X1.  A second call of [IntersectDomainWith] with the same reference
    and domain: when the first call left the domain of the reference
    non-empty, the second one returns false and changes nothing; when the
    first call emptied the domain (it then returned true and set the unsat
    flag), the second one aborts on its [CHECK]. *)
Theorem IntersectDomainWith_twice ctx ref (d : Domain.t) changed ctx1 :
  IntersectDomainWith ref d ctx = Some (changed, ctx1) ->
  exists empty,
    DomainIsEmpty ctx1 ref = Some empty /\
    if empty : bool
    then changed = true /\ is_unsat ctx1 = true /\ IntersectDomainWith ref d ctx1 = None
    else IntersectDomainWith ref d ctx1 = Some (false, ctx1).
Proof.
  intros Hrun.
  destruct (checked_domain ctx ref) as [cur |] eqn:Hchk;
    [| unfold IntersectDomainWith in Hrun; rewrite Hchk in Hrun; discriminate].
  assert (Hcur : domain_at ctx (PositiveRef ref) = Some cur /\ Domain.IsEmpty cur = false).
  { unfold checked_domain in Hchk.
    destruct (domain_at ctx (PositiveRef ref)) as [d0 |]; [| discriminate].
    simpl in Hchk. destruct (Domain.IsEmpty d0) eqn:E; [discriminate |].
    injection Hchk as <-. auto. }
  destruct Hcur as [Hcur Hne].
  rewrite (IntersectDomainWith_unfold ctx ref d cur Hcur Hne) in Hrun.
  cbv zeta in Hrun.
  set (other := if RefIsPositive ref then d else Domain.Negation d) in *.
  destruct (Domain.IsIncludedIn cur other) eqn:Einc.
  - injection Hrun as <- <-. exists false.
    split; [unfold DomainIsEmpty; rewrite Hcur; simpl; rewrite Hne; reflexivity |].
    rewrite (IntersectDomainWith_unfold ctx ref d cur Hcur Hne). cbv zeta.
    fold other. rewrite Einc. reflexivity.
  - injection Hrun as <- <-.
    set (new := Domain.IntersectionWith cur other).
    destruct (domain_at_in_range _ _ _ Hcur) as [Hpos Hlook].
    assert (Hlen : (Z.to_nat (PositiveRef ref) < length (domains ctx))%nat).
    { eapply lookup_lt_Some; eauto. }
    destruct (Domain.IsEmpty new) eqn:Eempty.
    + exists true.
      assert (Hdom : domain_at (set_is_unsat true
                       (set_modified_domains
                          (bitset_set (PositiveRef ref) (modified_domains ctx))
                          (set_domains (<[Z.to_nat (PositiveRef ref) := new]> (domains ctx))
                             ctx))) (PositiveRef ref) = Some new).
      { unfold domain_at. simpl. destruct (Z.leb_spec 0 (PositiveRef ref)); [| lia].
        apply list_lookup_insert_eq. exact Hlen. }
      split; [unfold DomainIsEmpty; rewrite Hdom; simpl; rewrite Eempty; reflexivity |].
      split; [reflexivity |]. split; [reflexivity |].
      unfold IntersectDomainWith, checked_domain. rewrite Hdom. simpl.
      rewrite Eempty. reflexivity.
    + exists false.
      set (ctx2 := set_modified_domains _ _).
      assert (Hdom : domain_at ctx2 (PositiveRef ref) = Some new).
      { unfold domain_at. simpl. destruct (Z.leb_spec 0 (PositiveRef ref)); [| lia].
        apply list_lookup_insert_eq. exact Hlen. }
      split; [unfold DomainIsEmpty; rewrite Hdom; simpl; rewrite Eempty; reflexivity |].
      rewrite (IntersectDomainWith_unfold ctx2 ref d new Hdom Eempty). cbv zeta.
      fold other. unfold new. rewrite IsIncludedIn_IntersectionWith. reflexivity.
Qed.

(** Negating a literal swaps the two tests of its value. *)
Lemma LiteralIsFalse_NegatedRef ctx lit :
  LiteralIsFalse ctx (NegatedRef lit) = LiteralIsTrue ctx lit /\
  LiteralIsTrue ctx (NegatedRef lit) = LiteralIsFalse ctx lit.
Proof.
  unfold LiteralIsFalse, LiteralIsTrue, checked_domain.
  rewrite PositiveRef_NegatedRef, RefIsPositive_NegatedRef.
  destruct (domain_at ctx (PositiveRef lit)) as [d |]; simpl; [| auto].
  destruct (Domain.IsEmpty d); simpl; [auto |].
  destruct (RefIsPositive lit); simpl; auto.
Qed.

Lemma fixed_NegatedRef ctx lit :
  fixed_false ctx (NegatedRef lit) = fixed_true ctx lit /\
  fixed_true ctx (NegatedRef lit) = fixed_false ctx lit.
Proof.
  unfold fixed_false, fixed_true.
  destruct (LiteralIsFalse_NegatedRef ctx lit) as [-> ->]. auto.
Qed.

(** X2.  The queries of the context on a negated reference: the literal
    [NegatedRef(l)] is true exactly when [l] is false and conversely, and
    the minimum (maximum) of [NegatedRef(r)] is the opposite of the
    maximum (minimum) of [r]; a query aborts on the one exactly when it
    aborts on the other. *)
Theorem negated_reference_queries ctx ref :
  LiteralIsTrue ctx (NegatedRef ref) = LiteralIsFalse ctx ref /\
  LiteralIsFalse ctx (NegatedRef ref) = LiteralIsTrue ctx ref /\
  MinOf ctx (NegatedRef ref) = Z.opp <$> MaxOf ctx ref /\
  MaxOf ctx (NegatedRef ref) = Z.opp <$> MinOf ctx ref /\
  IsFixed ctx (NegatedRef ref) = IsFixed ctx ref /\
  VariableIsUniqueAndRemovable ctx (NegatedRef ref) = VariableIsUniqueAndRemovable ctx ref.
Proof.
  destruct (LiteralIsFalse_NegatedRef ctx ref) as [H1 H2].
  split; [exact H2 |]. split; [exact H1 |].
  unfold MinOf, MaxOf, IsFixed, VariableIsUniqueAndRemovable, checked_domain.
  rewrite PositiveRef_NegatedRef, RefIsPositive_NegatedRef.
  destruct (domain_at ctx (PositiveRef ref)) as [d |]; simpl; [| auto].
  destruct (Domain.IsEmpty d); simpl; [auto |].
  destruct (RefIsPositive ref); simpl; repeat split; f_equal; lia.
Qed.

Lemma boolean_domain_NegatedRef ctx lit :
  boolean_domain ctx (NegatedRef lit) <-> boolean_domain ctx lit.
Proof. unfold boolean_domain. rewrite PositiveRef_NegatedRef. tauto. Qed.

Lemma boolean_domain_queries ctx lit :
  boolean_domain ctx lit ->
  LiteralIsFalse ctx lit = Some (fixed_false ctx lit) /\
  LiteralIsTrue ctx lit = Some (fixed_true ctx lit).
Proof.
  intros (d & Hd & Hcase).
  unfold fixed_false, fixed_true, LiteralIsFalse, LiteralIsTrue, checked_domain.
  rewrite Hd.
  destruct Hcase as [-> | [-> | ->]]; simpl; destruct (RefIsPositive lit); auto.
Qed.

(** A literal is never both fixed true and fixed false. *)
Lemma not_true_and_false ctx lit :
  LiteralIsTrue ctx lit = Some true -> LiteralIsFalse ctx lit = Some true -> False.
Proof.
  unfold LiteralIsTrue, LiteralIsFalse.
  destruct (checked_domain ctx lit) as [d |]; simpl; [| discriminate].
  destruct (Domain.Min d =? Domain.Max d) eqn:E; simpl; [| discriminate].
  apply Z.eqb_eq in E.
  destruct (RefIsPositive lit); intros [= H1%Z.eqb_eq] [= H2%Z.eqb_eq]; lia.
Qed.

Lemma fixes_more_refl ctx : fixes_more ctx ctx.
Proof. repeat split; auto. Qed.

Lemma fixes_more_trans ctx1 ctx2 ctx3 :
  fixes_more ctx1 ctx2 -> fixes_more ctx2 ctx3 -> fixes_more ctx1 ctx3.
Proof.
  intros (A1 & A2 & A3 & A4) (B1 & B2 & B3 & B4). repeat split; auto.
Qed.

Lemma fixes_more_same_domains ctx ctx' :
  domains ctx' = domains ctx -> is_unsat ctx' = is_unsat ctx -> fixes_more ctx ctx'.
Proof.
  intros Hd Hu.
  unfold fixes_more, boolean_domain, LiteralIsFalse, LiteralIsTrue, checked_domain,
    domain_at.
  rewrite Hd, Hu. repeat split; auto.
Qed.

Lemma UpdateRuleStats_fixes_more ctx name : fixes_more ctx (UpdateRuleStats name ctx).
Proof. apply fixes_more_same_domains; reflexivity. Qed.

(** [SetLiteralToFalse] on a literal of a Boolean variable. *)
Lemma SetLiteralToFalse_boolean ctx lit :
  boolean_domain ctx lit ->
  exists ctx',
    SetLiteralToFalse lit ctx = Some ctx' /\
    is_unsat ctx' = is_unsat ctx || fixed_true ctx lit /\
    (fixed_true ctx lit = false -> LiteralIsFalse ctx' lit = Some true) /\
    (forall v, v <> PositiveRef lit -> domain_at ctx' v = domain_at ctx v) /\
    (forall d, domain_at ctx (PositiveRef lit) = Some d -> d <> [MkInterval 0 1] ->
               domains ctx' = domains ctx) /\
    boolean_domain ctx' lit /\
    working_model ctx' = working_model ctx /\
    var_to_constraints ctx' = var_to_constraints ctx /\
    enumerate_all_solutions ctx' = enumerate_all_solutions ctx.
Proof.
  intros (d & Hd & Hcase).
  destruct (domain_at_in_range _ _ _ Hd) as [Hpos Hlook].
  assert (Hrp : RefIsPositive (PositiveRef lit) = true).
  { unfold RefIsPositive. apply Z.leb_le. exact Hpos. }
  assert (Hpp : PositiveRef (PositiveRef lit) = PositiveRef lit).
  { apply PositiveRef_positive. exact Hrp. }
  assert (Hlen : (Z.to_nat (PositiveRef lit) < length (domains ctx))%nat).
  { eapply lookup_lt_Some; eauto. }
  unfold SetLiteralToFalse, IsFixed, MinOf, checked_domain, fixed_true, LiteralIsTrue,
    checked_domain.
  rewrite Hpp, Hd, Hrp.
  destruct Hcase as [-> | [-> | ->]]; simpl.
  - (* The variable is fixed to 0. *)
    exists (if RefIsPositive lit then ctx else set_is_unsat true ctx).
    destruct (RefIsPositive lit) eqn:Er; simpl;
      (split; [reflexivity |]); (split; [rewrite ?orb_false_r, ?orb_true_r; reflexivity |]);
      (split; [intros Hx; try discriminate Hx;
               unfold LiteralIsFalse, checked_domain; rewrite Hd; simpl; rewrite Er;
               reflexivity |]);
      (split; [reflexivity |]); (split; [reflexivity |]);
      (split; [exists [MkInterval 0 0]; auto |]); auto.
  - (* The variable is fixed to 1. *)
    exists (if RefIsPositive lit then set_is_unsat true ctx else ctx).
    destruct (RefIsPositive lit) eqn:Er; simpl;
      (split; [reflexivity |]); (split; [rewrite ?orb_false_r, ?orb_true_r; reflexivity |]);
      (split; [intros Hx; try discriminate Hx;
               unfold LiteralIsFalse, checked_domain; rewrite Hd; simpl; rewrite Er;
               reflexivity |]);
      (split; [reflexivity |]); (split; [reflexivity |]);
      (split; [exists [MkInterval 1 1]; auto |]); auto.
  - (* The variable is free. *)
    set (value := if RefIsPositive lit then 0 else 1).
    rewrite (IntersectDomainWith_unfold ctx (PositiveRef lit) _ [MkInterval 0 1]);
      [| rewrite Hpp; exact Hd | reflexivity].
    rewrite Hrp, Hpp.
    assert (Hinc : Domain.IsIncludedIn [MkInterval 0 1] (Domain.Singleton value) = false).
    { unfold value. destruct (RefIsPositive lit); reflexivity. }
    assert (Hnew : Domain.IntersectionWith [MkInterval 0 1] (Domain.Singleton value)
                   = [MkInterval value value]).
    { unfold value. destruct (RefIsPositive lit); reflexivity. }
    rewrite Hinc, Hnew. simpl.
    eexists. split; [reflexivity |].
    assert (Hdom : forall c : PresolveContext AR,
               domains c = <[Z.to_nat (PositiveRef lit) := [MkInterval value value]]>
                             (domains ctx) ->
               domain_at c (PositiveRef lit) = Some [MkInterval value value]).
    { intros c Hc. unfold domain_at. rewrite Hc.
      destruct (Z.leb_spec 0 (PositiveRef lit)); [| lia].
      apply list_lookup_insert_eq. exact Hlen. }
    split; [destruct (RefIsPositive lit); simpl; rewrite orb_false_r; reflexivity |].
    split.
    { intros _. unfold LiteralIsFalse, checked_domain.
      rewrite Hdom by reflexivity. unfold value. simpl.
      destruct (RefIsPositive lit); reflexivity. }
    split.
    { intros v Hv. unfold domain_at. simpl.
      destruct (Z.leb_spec 0 v); [| reflexivity].
      apply list_lookup_insert_ne. lia. }
    split; [intros d [= <-] Hne; congruence |].
    split; [| auto].
    exists [MkInterval value value]. split; [apply Hdom; reflexivity |].
    unfold value. destruct (RefIsPositive lit); auto.
Qed.

Lemma SetLiteralToFalse_fixes_more ctx lit ctx' :
  boolean_domain ctx lit -> SetLiteralToFalse lit ctx = Some ctx' -> fixes_more ctx ctx'.
Proof.
  intros Hb Hrun.
  destruct (SetLiteralToFalse_boolean ctx lit Hb)
    as (ctx1 & Hrun1 & Hunsat & _ & Hframe & Hfixed & Hb' & _).
  rewrite Hrun in Hrun1. injection Hrun1 as <-.
  destruct Hb as (d & Hd & Hcase).
  (* The domain of a variable that is fixed does not change. *)
  assert (Hkeep : forall l d0,
             domain_at ctx (PositiveRef l) = Some d0 -> d0 <> [MkInterval 0 1] ->
             domain_at ctx' (PositiveRef l) = Some d0).
  { intros l d0 Hl Hne.
    destruct (Z.eq_dec (PositiveRef l) (PositiveRef lit)) as [E | E].
    - rewrite E in *. rewrite Hd in Hl. injection Hl as <-.
      unfold domain_at. rewrite (Hfixed d Hd Hne). exact Hd.
    - rewrite (Hframe _ E). exact Hl. }
  assert (Hquery : forall l d0,
             checked_domain ctx l = Some d0 -> (Domain.Min d0 =? Domain.Max d0) = true ->
             checked_domain ctx' l = Some d0).
  { intros l d0 Hl Hfix. unfold checked_domain in *.
    destruct (domain_at ctx (PositiveRef l)) as [d1 |] eqn:E1; [| discriminate].
    simpl in Hl. destruct (Domain.IsEmpty d1) eqn:Ee; [discriminate |].
    injection Hl as <-.
    rewrite (Hkeep l d1 E1); [simpl; rewrite Ee; reflexivity |].
    intros ->. discriminate. }
  split; [| split; [| split]].
  - intros l (d0 & Hl & Hc).
    destruct (Z.eq_dec (PositiveRef l) (PositiveRef lit)) as [E | E].
    + unfold boolean_domain. rewrite E. exact Hb'.
    + exists d0. rewrite (Hframe _ E). auto.
  - intros l. unfold LiteralIsFalse.
    destruct (checked_domain ctx l) as [d0 |] eqn:E0; [| discriminate]. simpl.
    destruct (Domain.Min d0 =? Domain.Max d0) eqn:Ef; [| discriminate].
    rewrite (Hquery l d0 E0 Ef). simpl. rewrite Ef. auto.
  - intros l. unfold LiteralIsTrue.
    destruct (checked_domain ctx l) as [d0 |] eqn:E0; [| discriminate]. simpl.
    destruct (Domain.Min d0 =? Domain.Max d0) eqn:Ef; [| discriminate].
    rewrite (Hquery l d0 E0 Ef). simpl. rewrite Ef. auto.
  - intros Hu. rewrite Hunsat, Hu. reflexivity.
Qed.

(** One call of [SetLiteralToTrue] on a literal of a Boolean variable. *)
Lemma SetLiteralToTrue_boolean_step ctx lit :
  boolean_domain ctx lit ->
  exists ctx',
    SetLiteralToTrue lit ctx = Some ctx' /\
    fixes_more ctx ctx' /\
    is_unsat ctx' = is_unsat ctx || fixed_false ctx lit /\
    (is_unsat ctx' = false -> LiteralIsTrue ctx' lit = Some true) /\
    (forall v, v <> PositiveRef lit -> domain_at ctx' v = domain_at ctx v) /\
    working_model ctx' = working_model ctx.
Proof.
  intros Hb.
  assert (Hbn : boolean_domain ctx (NegatedRef lit)) by (apply boolean_domain_NegatedRef; auto).
  destruct (SetLiteralToFalse_boolean ctx (NegatedRef lit) Hbn)
    as (ctx' & Hrun & Hunsat & Hfalse & Hframe & _ & _ & Hwm & _).
  destruct (fixed_NegatedRef ctx lit) as [_ Hft].
  rewrite Hft in *. rewrite PositiveRef_NegatedRef in *.
  exists ctx'. split; [exact Hrun |].
  split; [eapply SetLiteralToFalse_fixes_more; eauto |].
  split; [exact Hunsat |]. split; [| auto].
  intros Hu. rewrite Hunsat in Hu. apply orb_false_iff in Hu as [_ Hff].
  destruct (LiteralIsFalse_NegatedRef ctx' lit) as [<- _]. auto.
Qed.

(** X3.  Setting a literal of a Boolean variable to true and reading it
    back: [SetLiteralToTrue] returns; it sets the unsat flag exactly when
    the literal was fixed to false (the flag is never cleared); otherwise
    the literal now tests true and not false, and no other variable
    changed. *)
Theorem SetLiteralToTrue_then_LiteralIsTrue ctx lit :
  boolean_domain ctx lit ->
  exists ctx',
    SetLiteralToTrue lit ctx = Some ctx' /\
    is_unsat ctx' = is_unsat ctx || fixed_false ctx lit /\
    (fixed_false ctx lit = false ->
     LiteralIsTrue ctx' lit = Some true /\ LiteralIsFalse ctx' lit = Some false) /\
    (fixed_false ctx lit = true -> domains ctx' = domains ctx) /\
    (forall v, v <> PositiveRef lit -> domain_at ctx' v = domain_at ctx v).
Proof.
  intros Hb.
  assert (Hbn : boolean_domain ctx (NegatedRef lit)) by (apply boolean_domain_NegatedRef; auto).
  destruct (SetLiteralToFalse_boolean ctx (NegatedRef lit) Hbn)
    as (ctx' & Hrun & Hunsat & Hfalse & Hframe & Hfixed & Hb' & _).
  destruct (fixed_NegatedRef ctx lit) as [_ Hft].
  rewrite Hft in *. rewrite PositiveRef_NegatedRef in *.
  exists ctx'. split; [exact Hrun |]. split; [exact Hunsat |].
  split; [| split; [| exact Hframe]].
  - intros Hff. specialize (Hfalse Hff).
    destruct (LiteralIsFalse_NegatedRef ctx' lit) as [Hd1 _].
    rewrite Hd1 in Hfalse. split; [exact Hfalse |].
    pose proof (proj1 (boolean_domain_NegatedRef ctx' lit) Hb') as Hbl.
    destruct (boolean_domain_queries ctx' lit Hbl) as [Hq _].
    rewrite Hq. destruct (fixed_false ctx' lit) eqn:E; [| reflexivity].
    exfalso. eapply not_true_and_false; eauto.
  - intros Hff. destruct Hb as (d & Hd & Hcase).
    apply (Hfixed d Hd). intros ->.
    unfold fixed_false, LiteralIsFalse, checked_domain in Hff. rewrite Hd in Hff.
    simpl in Hff. discriminate.
Qed.

End MoreContextFacts.

(** ** More facts about the rewriters of Boolean constraints *)

Section MoreRewriterFacts.
Context {AR : Type} `{!AffineRelationOps AR}.
Implicit Type ctx : PresolveContext AR.

Lemma Forall_boolean_domain_fixes_more ctx ctx' lits :
  fixes_more ctx ctx' ->
  Forall (boolean_domain ctx) lits -> Forall (boolean_domain ctx') lits.
Proof. intros (Hb & _) Hall. eapply Forall_impl; [exact Hall | exact Hb]. Qed.

Lemma set_literals_to_true_spec lits ctx :
  Forall (boolean_domain ctx) lits ->
  exists ctx',
    set_literals_to_true lits ctx = Some ctx' /\
    fixes_more ctx ctx' /\
    (is_unsat ctx' = false -> Forall (fun l => LiteralIsTrue ctx' l = Some true) lits) /\
    (forall v, Forall (fun l => PositiveRef l <> v) lits ->
               domain_at ctx' v = domain_at ctx v) /\
    working_model ctx' = working_model ctx.
Proof.
  revert ctx. induction lits as [| literal rest IH]; intros ctx Hall.
  - exists ctx. simpl. split; [reflexivity |]. split; [apply fixes_more_refl |].
    split; [constructor |]. auto.
  - apply Forall_cons in Hall as [Hlit Hrest]. simpl.
    destruct (SetLiteralToTrue_boolean_step ctx literal Hlit)
      as (ctx1 & Hrun & Hmore & Hunsat & Htrue & Hframe & Hwm).
    rewrite Hrun. simpl.
    destruct (IH ctx1 (Forall_boolean_domain_fixes_more _ _ _ Hmore Hrest))
      as (ctx' & Hrun' & Hmore' & Hall' & Hframe' & Hwm').
    exists ctx'. split; [exact Hrun' |].
    split; [exact (fixes_more_trans _ _ _ Hmore Hmore') |].
    split; [| split].
    + intros Hu. constructor; [| auto].
      destruct Hmore' as (_ & _ & Hkeep & Hmono).
      apply Hkeep. apply Htrue.
      destruct (is_unsat ctx1) eqn:E; [| reflexivity].
      rewrite (Hmono eq_refl) in Hu. discriminate.
    + intros v Hv. apply Forall_cons in Hv as [Hv1 Hv2].
      rewrite (Hframe' v Hv2). apply Hframe. congruence.
    + congruence.
Qed.

(** X4.  [PresolveBoolAnd] on a constraint without enforcement literal,
    over literals of Boolean variables: it returns true and clears the
    constraint; unless the unsat flag is set on return, every literal of
    the constraint now tests true; the flag is set when it was set before
    or when a literal was fixed to false; the variables that do not occur
    in the constraint and the working model are left alone. *)
Theorem PresolveBoolAnd_non_reified ct ctx :
  HasEnforcementLiteral ct = false ->
  Forall (boolean_domain ctx) (bool_and_literals ct) ->
  exists ctx',
    PresolveBoolAnd ct ctx = Some (true, empty_constraint, ctx') /\
    (is_unsat ctx' = false ->
     Forall (fun l => LiteralIsTrue ctx' l = Some true) (bool_and_literals ct)) /\
    (is_unsat ctx = true -> is_unsat ctx' = true) /\
    (Exists (fun l => fixed_false ctx l = true) (bool_and_literals ct) ->
     is_unsat ctx' = true) /\
    (forall v, Forall (fun l => PositiveRef l <> v) (bool_and_literals ct) ->
               domain_at ctx' v = domain_at ctx v) /\
    working_model ctx' = working_model ctx.
Proof.
  intros Henf Hall. unfold PresolveBoolAnd. rewrite Henf. simpl.
  set (ctx0 := UpdateRuleStats "bool_and: non-reified." ctx).
  assert (Hall0 : Forall (boolean_domain ctx0) (bool_and_literals ct)).
  { eapply Forall_boolean_domain_fixes_more; [apply UpdateRuleStats_fixes_more | exact Hall]. }
  destruct (set_literals_to_true_spec _ ctx0 Hall0)
    as (ctx' & Hrun & Hmore & Htrue & Hframe & Hwm).
  rewrite Hrun. simpl. exists ctx'. split; [reflexivity |].
  split; [exact Htrue |].
  destruct Hmore as (_ & Hkeep & _ & Hmono).
  split; [exact Hmono |]. split; [| split; [exact Hframe | exact Hwm]].
  intros Hex. destruct (is_unsat ctx') eqn:Hu; [reflexivity | exfalso].
  specialize (Htrue eq_refl).
  apply Exists_exists in Hex as (l & Hin & Hff).
  rewrite Forall_forall in Htrue, Hall.
  destruct (boolean_domain_queries ctx l (Hall l Hin)) as [Hq _].
  rewrite Hff in Hq.
  eapply not_true_and_false; [apply (Htrue l Hin) | apply Hkeep; exact Hq].
Qed.

Lemma set_others_to_false_spec literal others ctx :
  Forall (boolean_domain ctx) others ->
  exists ctx',
    set_others_to_false literal others ctx = Some ctx' /\
    fixes_more ctx ctx' /\
    (is_unsat ctx' = false ->
     Forall (fun o => o <> literal -> LiteralIsFalse ctx' o = Some true) others) /\
    working_model ctx' = working_model ctx.
Proof.
  revert ctx. induction others as [| other rest IH]; intros ctx Hall.
  - exists ctx. simpl. split; [reflexivity |]. split; [apply fixes_more_refl |].
    split; [constructor | reflexivity].
  - apply Forall_cons in Hall as [Hother Hrest]. simpl.
    destruct (Z.eqb_spec other literal) as [-> | Hne].
    + destruct (IH ctx Hrest) as (ctx' & Hrun & Hmore & Hfalse & Hwm).
      exists ctx'. split; [exact Hrun |]. split; [exact Hmore |].
      split; [| exact Hwm]. intros Hu. constructor; [congruence | auto].
    + destruct (SetLiteralToFalse_boolean ctx other Hother)
        as (ctx1 & Hrun1 & Hunsat & Hnow & _ & _ & _ & Hwm1 & _).
      pose proof (SetLiteralToFalse_fixes_more ctx other ctx1 Hother Hrun1) as Hmore1.
      rewrite Hrun1. simpl.
      destruct (IH ctx1 (Forall_boolean_domain_fixes_more _ _ _ Hmore1 Hrest))
        as (ctx' & Hrun & Hmore & Hfalse & Hwm).
      exists ctx'. split; [exact Hrun |].
      split; [exact (fixes_more_trans _ _ _ Hmore1 Hmore) |].
      split; [| congruence].
      intros Hu. constructor; [| auto]. intros _.
      destruct Hmore as (_ & Hkeep & _ & Hmono).
      apply Hkeep, Hnow.
      destruct (is_unsat ctx1) eqn:E1; [rewrite (Hmono eq_refl) in Hu; discriminate |].
      symmetry in Hunsat. apply orb_false_iff in Hunsat as [_ E2]. exact E2.
Qed.

Lemma at_most_one_scan_true ct all lits changed ctx :
  Forall (boolean_domain ctx) all -> Forall (boolean_domain ctx) lits ->
  Exists (fun l => fixed_true ctx l = true) lits ->
  exists ctx' literal,
    at_most_one_scan ct all lits changed ctx
    = Some (ScanReturned (true, empty_constraint, ctx')) /\
    literal ∈ lits /\ LiteralIsTrue ctx literal = Some true /\
    fixes_more ctx ctx' /\
    (is_unsat ctx' = false ->
     Forall (fun o => o <> literal -> LiteralIsFalse ctx' o = Some true) all) /\
    working_model ctx' = working_model ctx.
Proof.
  revert changed ctx. induction lits as [| literal rest IH]; intros changed ctx Hall Hlits Hex.
  - inversion Hex.
  - apply Forall_cons in Hlits as [Hlit Hrest]. simpl.
    destruct (boolean_domain_queries ctx literal Hlit) as [Hqf Hqt].
    rewrite Hqt. simpl.
    destruct (fixed_true ctx literal) eqn:Et.
    + set (ctx0 := UpdateRuleStats "at_most_one: satisfied" ctx).
      assert (Hmore0 : fixes_more ctx ctx0) by apply UpdateRuleStats_fixes_more.
      destruct (set_others_to_false_spec literal all ctx0
                  (Forall_boolean_domain_fixes_more _ _ _ Hmore0 Hall))
        as (ctx' & Hrun & Hmore & Hfalse & Hwm).
      rewrite Hrun. simpl. exists ctx', literal.
      split; [reflexivity |]. split; [constructor |]. split; [exact Hqt |].
      split; [exact (fixes_more_trans _ _ _ Hmore0 Hmore) |].
      split; [exact Hfalse | exact Hwm].
    + apply Exists_cons in Hex as [Hex | Hex]; [congruence |].
      rewrite Hqf. simpl.
      destruct (fixed_false ctx literal).
      * destruct (IH true ctx Hall Hrest Hex)
          as (ctx' & l & Hrun & Hin & Hq & Hmore & Hfalse & Hwm).
        exists ctx', l. split; [exact Hrun |]. split; [constructor; exact Hin |]. auto.
      * set (ctx2 := set_tmp_literals (tmp_literals ctx ++ [literal]) ctx).
        assert (Hmore2 : fixes_more ctx ctx2) by (apply fixes_more_same_domains; reflexivity).
        destruct (IH changed ctx2
                    (Forall_boolean_domain_fixes_more _ _ _ Hmore2 Hall)
                    (Forall_boolean_domain_fixes_more _ _ _ Hmore2 Hrest) Hex)
          as (ctx' & l & Hrun & Hin & Hq & Hmore & Hfalse & Hwm).
        exists ctx', l. split; [exact Hrun |]. split; [constructor; exact Hin |].
        split; [exact Hq |]. split; [exact (fixes_more_trans _ _ _ Hmore2 Hmore) |]. auto.
Qed.

(** X5.  [PresolveAtMostOne] when a literal of the constraint (over
    Boolean variables) is fixed to true: the constraint is cleared and the
    call returns true; for some literal of the constraint that was fixed
    to true, every literal different from it tests false on return unless
    the unsat flag is set; the flag is set whenever a literal different
    from it was fixed to true as well. *)
Theorem PresolveAtMostOne_true_literal ct ctx :
  HasEnforcementLiteral ct = false ->
  Forall (boolean_domain ctx) (at_most_one_literals ct) ->
  Exists (fun l => fixed_true ctx l = true) (at_most_one_literals ct) ->
  exists ctx' literal,
    PresolveAtMostOne ct ctx = Some (true, empty_constraint, ctx') /\
    literal ∈ at_most_one_literals ct /\
    LiteralIsTrue ctx literal = Some true /\
    (is_unsat ctx' = false ->
     Forall (fun o => o <> literal -> LiteralIsFalse ctx' o = Some true)
       (at_most_one_literals ct)) /\
    (Exists (fun o => o <> literal /\ fixed_true ctx o = true) (at_most_one_literals ct) ->
     is_unsat ctx' = true) /\
    (is_unsat ctx = true -> is_unsat ctx' = true) /\
    working_model ctx' = working_model ctx.
Proof.
  intros Henf Hall Hex. unfold PresolveAtMostOne.
  rewrite (option_guard_True _ _ Henf).
  set (ctx0 := set_tmp_literals [] ctx).
  assert (Hmore0 : fixes_more ctx ctx0) by (apply fixes_more_same_domains; reflexivity).
  destruct (at_most_one_scan_true ct (at_most_one_literals ct) (at_most_one_literals ct)
              false ctx0
              (Forall_boolean_domain_fixes_more _ _ _ Hmore0 Hall)
              (Forall_boolean_domain_fixes_more _ _ _ Hmore0 Hall) Hex)
    as (ctx' & literal & Hrun & Hin & Hq & Hmore & Hfalse & Hwm).
  rewrite Hrun. simpl. exists ctx', literal.
  split; [reflexivity |]. split; [exact Hin |]. split; [exact Hq |].
  split; [exact Hfalse |].
  destruct Hmore as (_ & _ & Hkeep & Hmono).
  split; [| split; [exact Hmono | exact Hwm]].
  intros Hboth. destruct (is_unsat ctx') eqn:Hu; [reflexivity | exfalso].
  specialize (Hfalse eq_refl).
  apply Exists_exists in Hboth as (o & Hino & Hne & Hto).
  rewrite Forall_forall in Hfalse, Hall.
  destruct (boolean_domain_queries ctx o (Hall o Hino)) as [_ Hqo].
  rewrite Hto in Hqo.
  eapply not_true_and_false; [apply Hkeep; exact Hqo | apply (Hfalse o Hino Hne)].
Qed.

Lemma at_most_one_scan_no_true ct all lits changed ctx :
  Forall (boolean_domain ctx) lits ->
  Forall (fun l => fixed_true ctx l = false) lits ->
  at_most_one_scan ct all lits changed ctx
  = Some (ScanDone (changed || existsb (fixed_false ctx) lits)
            (set_tmp_literals (tmp_literals ctx ++ remaining_literals ctx lits) ctx)).
Proof.
  revert changed ctx.
  induction lits as [| literal rest IH]; intros changed ctx Hlits Hnone.
  - simpl. rewrite orb_false_r, app_nil_r. destruct ctx; reflexivity.
  - apply Forall_cons in Hlits as [Hlit Hrest].
    apply Forall_cons in Hnone as [Hnt Hnone]. simpl.
    destruct (boolean_domain_queries ctx literal Hlit) as [Hqf Hqt].
    rewrite Hqt, Hnt, Hqf. simpl.
    destruct (fixed_false ctx literal); simpl.
    + rewrite (IH true ctx Hrest Hnone). rewrite orb_true_r. reflexivity.
    + set (ctx2 := set_tmp_literals (tmp_literals ctx ++ [literal]) ctx).
      assert (Hmore2 : fixes_more ctx ctx2) by (apply fixes_more_same_domains; reflexivity).
      rewrite (IH changed ctx2 (Forall_boolean_domain_fixes_more _ _ _ Hmore2 Hrest) Hnone).
      unfold ctx2. simpl. rewrite <- app_assoc. reflexivity.
Qed.

Lemma remaining_literals_all ctx lits :
  existsb (fixed_false ctx) lits = false -> remaining_literals ctx lits = lits.
Proof.
  induction lits as [| l rest IH]; [reflexivity |]. simpl.
  intros [Hl Hrest]%orb_false_iff. rewrite Hl. simpl. f_equal. auto.
Qed.

Lemma count_true_remaining ctx a lits :
  Forall (fun l => fixed_false ctx l = true -> literal_holds a l = false) lits ->
  count_true a (remaining_literals ctx lits) = count_true a lits.
Proof.
  induction lits as [| l rest IH]; [reflexivity |]. intros Hall.
  apply Forall_cons in Hall as [Hl Hrest]. simpl.
  rewrite (count_true_cons a l rest).
  destruct (fixed_false ctx l); simpl.
  - rewrite (Hl eq_refl). simpl. auto.
  - rewrite count_true_cons. rewrite (IH Hrest). reflexivity.
Qed.

(** X6.  [PresolveAtMostOne] when no literal of the constraint (over
    Boolean variables) is fixed to true: the literals fixed to false are
    dropped, in place; the constraint is cleared (and true returned) when
    no literal is left, an empty at-most-one included; otherwise the call
    returns whether a literal was dropped.  Domains, unsat flag and the
    working model do not change, and an assignment under which the
    literals fixed to false are false makes as many of the kept literals
    true as of the original ones. *)
Theorem PresolveAtMostOne_no_true_literal ct ctx lits :
  HasEnforcementLiteral ct = false ->
  constraint ct = kAtMostOne lits ->
  Forall (boolean_domain ctx) lits ->
  Forall (fun l => fixed_true ctx l = false) lits ->
  exists ctx',
    PresolveAtMostOne ct ctx
    = Some (match remaining_literals ctx lits with
            | [] => true
            | _ => existsb (fixed_false ctx) lits
            end,
            match remaining_literals ctx lits with
            | [] => empty_constraint
            | kept => MkConstraint [] (kAtMostOne kept)
            end,
            ctx') /\
    domains ctx' = domains ctx /\
    is_unsat ctx' = is_unsat ctx /\
    working_model ctx' = working_model ctx /\
    forall a,
      Forall (fun l => fixed_false ctx l = true -> literal_holds a l = false) lits ->
      at_most_one_holds a (remaining_literals ctx lits) = at_most_one_holds a lits.
Proof.
  intros Henf Hct Hall Hnone. unfold PresolveAtMostOne.
  rewrite (option_guard_True _ _ Henf).
  assert (Hlits : at_most_one_literals ct = lits).
  { unfold at_most_one_literals. rewrite Hct. reflexivity. }
  assert (Hno_enf : enforcement_literal ct = []).
  { unfold HasEnforcementLiteral in Henf.
    destruct (enforcement_literal ct); [reflexivity | discriminate]. }
  rewrite Hlits.
  set (ctx0 := set_tmp_literals [] ctx).
  assert (Hmore0 : fixes_more ctx ctx0) by (apply fixes_more_same_domains; reflexivity).
  rewrite (at_most_one_scan_no_true ct lits lits false ctx0
             (Forall_boolean_domain_fixes_more _ _ _ Hmore0 Hall) Hnone).
  simpl.
  change (remaining_literals ctx0 lits) with (remaining_literals ctx lits).
  change (existsb (fixed_false ctx0) lits) with (existsb (fixed_false ctx) lits).
  assert (Hcount : forall a,
             Forall (fun l => fixed_false ctx l = true -> literal_holds a l = false) lits ->
             at_most_one_holds a (remaining_literals ctx lits) = at_most_one_holds a lits).
  { intros a Ha. unfold at_most_one_holds. rewrite (count_true_remaining ctx a lits Ha).
    reflexivity. }
  destruct (remaining_literals ctx lits) as [| k kept] eqn:Erem.
  - eexists. split; [reflexivity |]. repeat split; auto.
  - destruct (existsb (fixed_false ctx) lits) eqn:Eany.
    + eexists. rewrite Hno_enf. split; [reflexivity |]. repeat split; auto.
    + rewrite (remaining_literals_all ctx lits Eany) in Erem.
      exists (set_tmp_literals (k :: kept) ctx0). split; [| repeat split; auto].
      destruct ct as [enf k0]. simpl in *. subst. reflexivity.
Qed.

Lemma enforcement_scan_spec lits kept ctx r ctx' :
  enforcement_scan lits kept ctx = Some (r, ctx') ->
  match r with
  | Some kept' =>
      kept' = kept ++ List.filter (fun l => negb (fixed_true ctx l)) lits /\
      Forall (fun l => fixed_true ctx l = true \/
                       (fixed_false ctx l = false /\ singleton_removable ctx l = false)) lits /\
      domains ctx' = domains ctx /\ is_unsat ctx' = is_unsat ctx /\
      working_model ctx' = working_model ctx
  | None =>
      Exists (fun l => fixed_true ctx l = false /\
                       (fixed_false ctx l = true \/ singleton_removable ctx l = true)) lits
  end.
Proof.
  revert kept ctx. induction lits as [| literal rest IH]; intros kept ctx Hrun.
  - simpl in Hrun. injection Hrun as <- <-. rewrite app_nil_r. repeat split; auto.
  - simpl in Hrun.
    destruct (LiteralIsTrue ctx literal) as [is_true |] eqn:Ht; [| discriminate].
    assert (Eft : fixed_true ctx literal = is_true)
      by (unfold fixed_true; rewrite Ht; reflexivity).
    simpl in Hrun. destruct is_true.
    + specialize (IH _ _ Hrun). destruct r as [kept' |].
      * destruct IH as (Hk & Hall & Hd & Hu & Hwm).
        split; [simpl; rewrite Eft; exact Hk |].
        split; [constructor; [left; exact Eft | exact Hall] |]. auto.
      * apply Exists_cons_tl. exact IH.
    + destruct (LiteralIsFalse ctx literal) as [is_false |] eqn:Hf; [| discriminate].
      assert (Eff : fixed_false ctx literal = is_false)
        by (unfold fixed_false; rewrite Hf; reflexivity).
      simpl in Hrun. destruct is_false.
      * injection Hrun as <- <-. apply Exists_cons_hd. auto.
      * destruct (VariableIsUniqueAndRemovable ctx literal) as [unique |] eqn:Hq;
          [| discriminate].
        assert (Esr : singleton_removable ctx literal = unique)
          by (unfold singleton_removable; rewrite Hq; reflexivity).
        simpl in Hrun. destruct unique.
        -- destruct (SetLiteralToFalse literal _) as [ctx1 |]; [| discriminate].
           injection Hrun as <- <-. apply Exists_cons_hd. auto.
        -- specialize (IH _ _ Hrun). destruct r as [kept' |].
           ++ destruct IH as (Hk & Hall & Hd & Hu & Hwm).
              split; [simpl; rewrite Eft; simpl; rewrite <- app_assoc in Hk; exact Hk |].
              split; [constructor; [right; auto | exact Hall] |]. auto.
           ++ apply Exists_cons_tl. exact IH.
Qed.

(** X7.  [PresolveEnforcementLiteral]: either the constraint is cleared
    and true returned, which happens when some enforcement literal that is
    not fixed to true is fixed to false or belongs to a variable used by
    this constraint only; or the enforcement literals fixed to true are
    dropped, in place, nothing else of the constraint changes, the result
    tells whether one was dropped, and domains, unsat flag and working
    model are as before.  A constraint without enforcement literal is
    returned as it is, with false. *)
Theorem PresolveEnforcementLiteral_spec ct ctx changed ct' ctx' :
  PresolveEnforcementLiteral ct ctx = Some (changed, ct', ctx') ->
  (ct' = empty_constraint /\ changed = true /\
   Exists (fun l => fixed_true ctx l = false /\
                    (fixed_false ctx l = true \/ singleton_removable ctx l = true))
     (enforcement_literal ct))
  \/
  (ct' = MkConstraint
           (List.filter (fun l => negb (fixed_true ctx l)) (enforcement_literal ct))
           (constraint ct) /\
   changed = existsb (fixed_true ctx) (enforcement_literal ct) /\
   Forall (fun l => fixed_true ctx l = true \/
                    (fixed_false ctx l = false /\ singleton_removable ctx l = false))
     (enforcement_literal ct) /\
   domains ctx' = domains ctx /\ is_unsat ctx' = is_unsat ctx /\
   working_model ctx' = working_model ctx).
Proof.
  unfold PresolveEnforcementLiteral. intros Hrun.
  destruct (HasEnforcementLiteral ct) eqn:Henf; simpl in Hrun.
  - destruct (enforcement_scan (enforcement_literal ct) [] ctx) as [[r ctx1] |] eqn:Hscan;
      [| discriminate].
    pose proof (enforcement_scan_spec _ _ _ _ _ Hscan) as Hspec.
    simpl in Hrun. destruct r as [kept |].
    + injection Hrun as <- <- <-. right.
      destruct Hspec as (-> & Hall & Hd & Hu & Hwm). simpl.
      split; [reflexivity |].
      split; [| auto].
      rewrite filter_all_length, <- negb_existsb, negb_involutive. reflexivity.
    + injection Hrun as <- <- <-. left. auto.
  - injection Hrun as <- <- <-. right.
    unfold HasEnforcementLiteral in Henf.
    destruct ct as [enf k]. simpl in *. destruct enf; [| discriminate].
    simpl. repeat split; auto.
Qed.

End MoreRewriterFacts.

(** ** The expansion of a small Boolean expression into clauses *)

Section SmallExpressionFacts.

(** The clause built for a mask is violated only by the assignment the
    mask describes, under which the linear expression has the value
    computed for the mask. *)
Lemma violated_clause_value (a : assignment) (bits : nat -> bool) vars coeffs :
  length coeffs = length vars ->
  Forall (fun v => RefIsPositive v = true) vars ->
  is_boolean_on a vars ->
  existsb (literal_holds a)
    (imap (fun i var => if bits i then NegatedRef var else var) vars) = false ->
  foldr Z.add 0 (imap (fun i coeff => if bits i then coeff else 0) coeffs)
  = foldr Z.add 0 (zip_with (fun var coeff => coeff * ref_value a var) vars coeffs).
Proof.
  revert coeffs bits.
  induction vars as [| v vars IH]; intros coeffs bits Hlen Hpos Hbool Hviol.
  - destruct coeffs; [reflexivity | discriminate].
  - destruct coeffs as [| c coeffs]; [discriminate |].
    apply Forall_cons in Hpos as [Hv Hpos]. apply Forall_cons in Hbool as [Hb Hbool].
    rewrite imap_cons in Hviol. unfold compose in Hviol. simpl in Hviol.
    apply orb_false_iff in Hviol as [Hlit Hviol].
    rewrite imap_cons. unfold compose. simpl.
    rewrite (IH coeffs (fun i => bits (S i)) ltac:(simpl in Hlen; lia) Hpos Hbool Hviol).
    f_equal. unfold ref_value. rewrite Hv.
    destruct (bits 0%nat).
    + rewrite (literal_holds_negated a v Hv) in Hlit. apply Z.eqb_neq in Hlit.
      destruct Hb as [Hb | Hb]; [contradiction | rewrite Hb; lia].
    + unfold literal_holds in Hlit. rewrite Hv in Hlit. apply Z.eqb_neq in Hlit.
      destruct Hb as [Hb | Hb]; [rewrite Hb; lia | contradiction].
Qed.

(** Every assignment of the Booleans is described by a mask. *)
Lemma assignment_mask (a : assignment) vars :
  Forall (fun v => RefIsPositive v = true) vars ->
  is_boolean_on a vars ->
  exists mask,
    (mask < 2 ^ length vars)%nat /\
    existsb (literal_holds a)
      (imap (fun i var => if mask_bit mask i then NegatedRef var else var) vars) = false.
Proof.
  induction vars as [| v vars IH]; intros Hpos Hbool.
  - exists 0%nat. split; [simpl; lia | reflexivity].
  - apply Forall_cons in Hpos as [Hv Hpos]. apply Forall_cons in Hbool as [Hb Hbool].
    destruct (IH Hpos Hbool) as (m & Hm & Hviol).
    set (b := a v =? 1).
    set (M := (2 * m + (if b then 1 else 0))%nat).
    exists M.
    assert (Hz : Z.of_nat M = 2 * Z.of_nat m + Z.b2z b).
    { unfold M. destruct b; simpl Z.b2z; lia. }
    split.
    { change (2 ^ length (v :: vars))%nat with (2 * 2 ^ length vars)%nat.
      unfold M. destruct b; lia. }
    rewrite imap_cons. unfold compose. cbn [existsb].
    assert (Hbit0 : mask_bit M 0 = b).
    { unfold mask_bit. rewrite Hz. apply Z.testbit_0_r. }
    rewrite Hbit0.
    apply orb_false_iff. split.
    + unfold b. destruct (Z.eqb_spec (a v) 1) as [E | E].
      * rewrite (literal_holds_negated a v Hv). apply Z.eqb_neq. lia.
      * unfold literal_holds. rewrite Hv. apply Z.eqb_neq. exact E.
    + rewrite <- Hviol. f_equal. apply imap_ext. intros i x _. simpl.
      unfold mask_bit. rewrite Hz, Nat2Z.inj_succ.
      rewrite Z.testbit_succ_r by lia. reflexivity.
Qed.

(** X8.  The clauses that [PresolveLinearOnBooleans] emits for a small
    Boolean expression have the same solutions as the linear constraint:
    for a constraint with as many coefficients as variables, all of them
    positive references, an assignment of 0 / 1 values satisfies every
    emitted clause exactly when it satisfies the linear constraint; and
    every clause carries the enforcement literals of the constraint. *)
Theorem small_expression_clauses_equivalent (ct : ConstraintProto) (a : assignment) :
  length (lin_coeffs (linear_arg ct)) = length (lin_vars (linear_arg ct)) ->
  Forall (fun v => RefIsPositive v = true) (lin_vars (linear_arg ct)) ->
  is_boolean_on a (lin_vars (linear_arg ct)) ->
  forallb (constraint_holds a)
    (small_expression_clauses ct (ReadDomainFromProto (lin_domain (linear_arg ct))))
  = linear_holds a (linear_arg ct) /\
  Forall (fun clause => enforcement_literal clause = enforcement_literal ct)
    (small_expression_clauses ct (ReadDomainFromProto (lin_domain (linear_arg ct)))).
Proof.
  intros Hlen Hpos Hbool.
  set (arg := linear_arg ct) in *.
  set (domain := ReadDomainFromProto (lin_domain arg)).
  assert (Hmem : forall clause,
             clause ∈ small_expression_clauses ct domain <->
             exists mask, (mask < 2 ^ length (lin_vars arg))%nat /\
                          Domain.Contains domain (mask_value (lin_coeffs arg) mask) = false /\
                          clause = mask_clause ct (lin_vars arg) mask).
  { intros clause. unfold small_expression_clauses. fold arg.
    rewrite list_elem_of_omap. split.
    - intros (mask & Hin & Hsel). exists mask.
      apply elem_of_seq in Hin.
      destruct (Domain.Contains domain _) eqn:E; [discriminate |].
      injection Hsel as <-. split; [lia | auto].
    - intros (mask & Hlt & Hout & ->). exists mask.
      split; [apply elem_of_seq; lia |]. rewrite Hout. reflexivity. }
  split.
  - unfold linear_holds. fold domain.
    destruct (Domain.Contains domain (linear_value a arg)) eqn:Hlin.
    + (* Every emitted clause excludes another assignment. *)
      apply forallb_forall. intros clause Hin.
      apply list_elem_of_In, Hmem in Hin as (mask & _ & Hout & ->).
      unfold constraint_holds, mask_clause. simpl.
      destruct (existsb _ _) eqn:Hviol; [reflexivity | exfalso].
      pose proof (violated_clause_value a (mask_bit mask) _ _ Hlen Hpos Hbool Hviol) as Hval.
      unfold mask_value in Hout. unfold linear_value in Hlin.
      rewrite Hval, Hlin in Hout. discriminate.
    + (* The clause of the mask of the assignment is emitted, and violated. *)
      destruct (assignment_mask a _ Hpos Hbool) as (mask & Hlt & Hviol).
      pose proof (violated_clause_value a (mask_bit mask) _ _ Hlen Hpos Hbool Hviol) as Hval.
      destruct (forallb _ _) eqn:Hall; [exfalso | reflexivity].
      rewrite forallb_forall in Hall.
      specialize (Hall (mask_clause ct (lin_vars arg) mask)).
      unfold constraint_holds, mask_clause in Hall. simpl in Hall.
      rewrite Hviol in Hall. enough (false = true) by discriminate.
      apply Hall, list_elem_of_In, Hmem. exists mask.
      split; [exact Hlt |]. split; [| reflexivity].
      unfold mask_value. rewrite Hval. exact Hlin.
  - apply Forall_forall. intros clause Hin.
    apply Hmem in Hin as (mask & _ & _ & ->). reflexivity.
Qed.

End SmallExpressionFacts.

(** ** No-overlap constraints and the usage graph *)

Section NoOverlapFacts.
Context {AR : Type} `{!AffineRelationOps AR}.
Implicit Type ctx : PresolveContext AR.

Lemma filter_absent_intervals_spec intervals ctx :
  Forall (fun i => is_Some (constraint_at ctx i)) intervals ->
  filter_absent_intervals intervals ctx = Some (present_intervals ctx intervals).
Proof.
  induction intervals as [| i rest IH]; intros Hall; [reflexivity |].
  apply Forall_cons in Hall as [[ct_i Hi] Hrest]. simpl.
  rewrite Hi, (IH Hrest). simpl.
  unfold interval_constraint. rewrite Hi. simpl.
  destruct (is_not_set ct_i); reflexivity.
Qed.

(** X9.  [PresolveNoOverlap] on the constraint [c], a no-overlap whose
    interval indices are all in range: the intervals whose constraint was
    cleared are dropped, in place and in order; when at most one interval
    is left the constraint is cleared and true returned; otherwise false
    is returned, also when intervals were dropped.  No other constraint,
    no domain and not the unsat flag change. *)
Theorem PresolveNoOverlap_spec c ctx ct :
  constraints (working_model ctx) !! c = Some ct ->
  Forall (fun i => is_Some (constraint_at ctx i)) (no_overlap_intervals ct) ->
  exists ctx',
    PresolveNoOverlap c ctx
    = Some ((length (present_intervals ctx (no_overlap_intervals ct)) <=? 1)%nat, ctx') /\
    constraints (working_model ctx')
    = <[c := if (length (present_intervals ctx (no_overlap_intervals ct)) <=? 1)%nat
             then empty_constraint
             else MkConstraint (enforcement_literal ct)
                    (kNoOverlap (present_intervals ctx (no_overlap_intervals ct)))]>
        (constraints (working_model ctx)) /\
    variables (working_model ctx') = variables (working_model ctx) /\
    domains ctx' = domains ctx /\
    is_unsat ctx' = is_unsat ctx.
Proof.
  intros Hct Hall. unfold PresolveNoOverlap. rewrite Hct. simpl.
  rewrite (filter_absent_intervals_spec _ _ Hall). simpl.
  destruct (present_intervals ctx (no_overlap_intervals ct)) as [| i [| j kept]]; simpl.
  - eexists. split; [reflexivity |]. simpl.
    rewrite list_insert_insert_eq. auto.
  - eexists. split; [reflexivity |]. simpl.
    rewrite list_insert_insert_eq. auto.
  - eexists. split; [reflexivity |]. simpl. auto.
Qed.

End NoOverlapFacts.

Section UsageGraphFacts.
Context {AR : Type} `{!AffineRelationOps AR}.
Implicit Type ctx : PresolveContext AR.

Lemma graph_alter_all_spec (f : gset Z -> gset Z) vs g g' :
  graph_alter_all f vs g = Some g' ->
  (forall s, f (f s) = f s) ->
  length g' = length g /\
  forall v : nat,
    g' !! v = if decide (Z.of_nat v ∈ vs) then f <$> (g !! v) else g !! v.
Proof.
  intros Hrun Hidem. revert g Hrun.
  induction vs as [| v0 rest IH]; intros g Hrun.
  - simpl in Hrun. injection Hrun as <-. split; [reflexivity |].
    intros v. destruct (decide _) as [Hin | _]; [inversion Hin | reflexivity].
  - simpl in Hrun. unfold graph_alter in Hrun.
    destruct (Z.leb_spec 0 v0) as [Hpos |]; [| discriminate].
    destruct (g !! Z.to_nat v0) as [s0 |] eqn:Hs0; [| discriminate].
    simpl in Hrun. destruct (IH _ Hrun) as [Hlen Hlook].
    split; [rewrite Hlen; apply length_insert |].
    intros v. rewrite Hlook.
    assert (Hlt : (Z.to_nat v0 < length g)%nat) by (eapply lookup_lt_Some; eauto).
    destruct (decide (v = Z.to_nat v0)) as [-> | Hne].
    + rewrite list_lookup_insert_eq by exact Hlt. rewrite Hs0. simpl.
      rewrite Hidem.
      assert (Hin : Z.of_nat (Z.to_nat v0) ∈ v0 :: rest).
      { rewrite Z2Nat.id by exact Hpos. constructor. }
      destruct (decide (Z.of_nat (Z.to_nat v0) ∈ v0 :: rest)); [| contradiction].
      destruct (decide _); reflexivity.
    + rewrite list_lookup_insert_ne by congruence.
      destruct (decide (Z.of_nat v ∈ rest)) as [Hin | Hnin];
        destruct (decide (Z.of_nat v ∈ v0 :: rest)) as [Hin' | Hnin']; try reflexivity.
      * exfalso. apply Hnin'. constructor. exact Hin.
      * exfalso. apply elem_of_cons in Hin' as [E | Hin']; [| contradiction].
        apply Hne. rewrite <- E. rewrite Nat2Z.id. reflexivity.
Qed.

(** The check of the source accepts a graph that records the used
    variables of every constraint. *)
Lemma ConstraintVariableUsageIsConsistent_recorded ctx :
  constraint_to_vars ctx = map UsedVariables (constraints (working_model ctx)) ->
  ConstraintVariableUsageIsConsistent ctx = true.
Proof.
  intros Hrec. unfold ConstraintVariableUsageIsConsistent, constraints_size.
  destruct (is_unsat ctx); [reflexivity |].
  rewrite Hrec, length_map, Nat.eqb_refl. simpl. clear Hrec.
  induction (constraints (working_model ctx)) as [| ct cts IH]; [reflexivity |].
  simpl. rewrite bool_decide_eq_true_2 by reflexivity. exact IH.
Qed.

(** X10.  After the constraint [c] was rewritten, in a context whose
    graph recorded the used variables of every constraint and whose two
    directions agreed, [UpdateConstraintVariableUsage(c)] restores both:
    the graph again records the used variables of every constraint (the
    debug check [ConstraintVariableUsageIsConsistent] passes), and a
    constraint is recorded for a variable exactly when the variable is
    recorded for the constraint.  The working model is not touched. *)
Theorem UpdateConstraintVariableUsage_restores ctx c ct' ctx' :
  constraint_to_vars ctx = map UsedVariables (constraints (working_model ctx)) ->
  usage_graph_linked (constraint_to_vars ctx) (var_to_constraints ctx) ->
  UpdateConstraintVariableUsage c (store_constraint c ct' ctx) = Some ctx' ->
  ConstraintVariableUsageIsConsistent ctx' = true /\
  constraint_to_vars ctx' = map UsedVariables (constraints (working_model ctx')) /\
  usage_graph_linked (constraint_to_vars ctx') (var_to_constraints ctx') /\
  working_model ctx' = working_model (store_constraint c ct' ctx) /\
  domains ctx' = domains ctx.
Proof.
  intros Hrec Hlinked Hrun. unfold UpdateConstraintVariableUsage in Hrun.
  destruct (guard _) as [? |]; [| discriminate]. simpl in Hrun.
  set (cs := constraints (working_model ctx)) in *.
  destruct (<[c := ct']> cs !! c) as [ct |] eqn:Hct; [| discriminate].
  assert (Hc : (c < length cs)%nat).
  { apply lookup_lt_Some in Hct. rewrite length_insert in Hct. exact Hct. }
  rewrite list_lookup_insert_eq in Hct by exact Hc. injection Hct as <-.
  simpl in Hrun.
  destruct (constraint_to_vars ctx !! c) as [old |] eqn:Hold; [| discriminate].
  simpl in Hrun.
  destruct (graph_alter_all _ old _) as [g1 |] eqn:Hg1; [| discriminate].
  simpl in Hrun.
  destruct (graph_alter_all _ (UsedVariables ct') g1) as [g2 |] eqn:Hg2; [| discriminate].
  simpl in Hrun. injection Hrun as <-. simpl.
  destruct (graph_alter_all_spec _ _ _ _ Hg1 ltac:(intros; set_solver)) as [Hlen1 Hlook1].
  destruct (graph_alter_all_spec _ _ _ _ Hg2 ltac:(intros; set_solver)) as [Hlen2 Hlook2].
  assert (Hrec' : <[c := UsedVariables ct']> (constraint_to_vars ctx)
                  = map UsedVariables (<[c := ct']> cs)).
  { rewrite Hrec. rewrite list_fmap_insert. reflexivity. }
  split; [apply ConstraintVariableUsageIsConsistent_recorded; exact Hrec' |].
  split; [exact Hrec' |]. split; [| auto].
  intros c0 v s Hs. rewrite Hlook2, Hlook1 in Hs.
  destruct (var_to_constraints ctx !! v) as [s0 |] eqn:Hs0;
    [| destruct (decide _); destruct (decide _); discriminate].
  specialize (Hlinked c0 v s0 Hs0).
  assert (Hcl : (c < length (constraint_to_vars ctx))%nat) by (eapply lookup_lt_Some; eauto).
  destruct (decide (c0 = c)) as [-> | Hne].
  - rewrite list_lookup_insert_eq by exact Hcl.
    rewrite Hold in Hlinked.
    assert (Hold_iff : Z.of_nat c ∈ s0 <-> Z.of_nat v ∈ old).
    { rewrite Hlinked. split; [intros (vars & [= <-] & Hin); exact Hin | eauto]. }
    destruct (decide (Z.of_nat v ∈ UsedVariables ct')) as [Hu | Hu];
      destruct (decide (Z.of_nat v ∈ old)) as [Ho | Ho];
      simpl in Hs; injection Hs as <-.
    + split; [eauto | set_solver].
    + split; [eauto | set_solver].
    + split; [set_solver | intros (vars & [= <-] & Hin); contradiction].
    + split; [intros Hin; apply Hold_iff in Hin; contradiction
             | intros (vars & [= <-] & Hin); contradiction].
  - rewrite list_lookup_insert_ne by congruence.
    rewrite <- Hlinked.
    assert (Hzne : Z.of_nat c0 <> Z.of_nat c) by lia.
    destruct (decide (Z.of_nat v ∈ UsedVariables ct'));
      destruct (decide (Z.of_nat v ∈ old));
      simpl in Hs; injection Hs as <-; set_solver.
Qed.

Lemma add_new_usage_spec cts c c2v v2c c2v' v2c' :
  add_new_usage c cts c2v v2c = Some (c2v', v2c') ->
  c = length c2v ->
  usage_graph_linked c2v v2c ->
  c2v' = c2v ++ map UsedVariables cts /\ usage_graph_linked c2v' v2c'.
Proof.
  revert c c2v v2c.
  induction cts as [| ct rest IH]; intros c c2v v2c Hrun Hc Hlinked.
  - simpl in Hrun. injection Hrun as <- <-. rewrite app_nil_r. auto.
  - simpl in Hrun.
    destruct (graph_alter_all _ (UsedVariables ct) v2c) as [g |] eqn:Hg; [| discriminate].
    simpl in Hrun.
    destruct (graph_alter_all_spec _ _ _ _ Hg ltac:(intros; set_solver)) as [Hlen Hlook].
    destruct (IH (S c) (c2v ++ [UsedVariables ct]) g Hrun) as [Hc2v Hl].
    + rewrite length_app. simpl. lia.
    + intros c0 v s Hs. rewrite Hlook in Hs.
      destruct (v2c !! v) as [s0 |] eqn:Hs0; [| destruct (decide _); discriminate].
      specialize (Hlinked c0 v s0 Hs0).
      destruct (decide (c0 = c)) as [-> | Hne].
      * assert (Hnone : c2v !! c = None) by (apply lookup_ge_None; lia).
        rewrite Hnone in Hlinked.
        assert (Hout : Z.of_nat c ∉ s0).
        { intros Hin. apply Hlinked in Hin as (vars & Hv & _). discriminate. }
        rewrite Hc, list_lookup_middle by reflexivity. rewrite <- Hc.
        destruct (decide (Z.of_nat v ∈ UsedVariables ct)) as [Hu | Hu];
          simpl in Hs; injection Hs as <-.
        -- split; [eauto | set_solver].
        -- split; [contradiction | intros (vars & [= <-] & Hin); contradiction].
      * assert (Hsame : (c2v ++ [UsedVariables ct]) !! c0 = c2v !! c0).
        { destruct (decide (c0 < length c2v)%nat) as [Hlt | Hge].
          - apply lookup_app_l. exact Hlt.
          - rewrite !lookup_ge_None_2; [reflexivity | lia |].
            rewrite length_app. simpl. lia. }
        rewrite Hsame, <- Hlinked.
        assert (Hzne : Z.of_nat c0 <> Z.of_nat c) by lia.
        destruct (decide (Z.of_nat v ∈ UsedVariables ct));
          simpl in Hs; injection Hs as <-; set_solver.
    + split; [| exact Hl]. rewrite Hc2v, <- app_assoc. reflexivity.
Qed.

(** X11.  After constraints were appended to the working model, in a
    context whose graph recorded the used variables of the constraints it
    knew and whose two directions agreed,
    [UpdateNewConstraintsVariableUsage] extends the graph to the new
    constraints: it records the used variables of every constraint (the
    debug check passes) and its two directions agree. *)
Theorem UpdateNewConstraintsVariableUsage_extends ctx ctx' :
  constraint_to_vars ctx
  = map UsedVariables
      (take (length (constraint_to_vars ctx)) (constraints (working_model ctx))) ->
  usage_graph_linked (constraint_to_vars ctx) (var_to_constraints ctx) ->
  UpdateNewConstraintsVariableUsage ctx = Some ctx' ->
  ConstraintVariableUsageIsConsistent ctx' = true /\
  constraint_to_vars ctx' = map UsedVariables (constraints (working_model ctx')) /\
  usage_graph_linked (constraint_to_vars ctx') (var_to_constraints ctx') /\
  working_model ctx' = working_model ctx /\
  domains ctx' = domains ctx.
Proof.
  intros Hrec Hlinked Hrun. unfold UpdateNewConstraintsVariableUsage in Hrun.
  destruct (guard _) as [? |]; [| discriminate]. simpl in Hrun.
  destruct (add_new_usage _ _ _ _) as [[c2v' v2c'] |] eqn:Hadd; [| discriminate].
  simpl in Hrun. injection Hrun as <-. simpl.
  destruct (add_new_usage_spec _ _ _ _ _ _ Hadd eq_refl Hlinked) as [Hc2v Hl].
  assert (Hrec' : c2v' = map UsedVariables (constraints (working_model ctx))).
  { rewrite Hc2v. rewrite Hrec at 1. rewrite <- map_app, take_drop. reflexivity. }
  split; [apply ConstraintVariableUsageIsConsistent_recorded; exact Hrec' |].
  auto.
Qed.

End UsageGraphFacts.

(** ** The domains of new variables *)

Section NewDomainsFacts.
Context {AR : Type} `{!AffineRelationOps AR}.
Implicit Type ctx : PresolveContext AR.

Lemma ExploitFixedDomain_constants var ctx ctx' :
  constants_fixed ctx ->
  ExploitFixedDomain var ctx = Some ctx' ->
  constants_fixed ctx' /\ domains ctx' = domains ctx /\
  var_to_constraints ctx' = var_to_constraints ctx /\
  is_unsat ctx' = is_unsat ctx /\ working_model ctx' = working_model ctx.
Proof.
  intros Hinv Hrun. unfold ExploitFixedDomain in Hrun.
  destruct (IsFixed ctx var) as [is_fixed |] eqn:Hfix; [| discriminate].
  simpl in Hrun. destruct (guard _) as [Ht |]; [| discriminate]. simpl in Hrun.
  subst is_fixed.
  destruct (MinOf ctx var) as [min |] eqn:Hmin; [| discriminate]. simpl in Hrun.
  assert (Hmax : MaxOf ctx var = Some min).
  { unfold IsFixed, MinOf, MaxOf in *.
    destruct (checked_domain ctx var) as [d |]; [| discriminate]. simpl in *.
    injection Hfix as Hfix. apply Z.eqb_eq in Hfix.
    injection Hmin as <-. destruct (RefIsPositive var); f_equal; lia. }
  destruct (constant_to_ref ctx !! narrow_to_int min) as [representative |] eqn:Hrep.
  - destruct (representative =? var); injection Hrun as <-;
      (split; [exact Hinv | repeat split]).
  - injection Hrun as <-. simpl. split; [| auto].
    intros key ref Hlook.
    assert (Hsame : forall r,
               MinOf (set_relations (affine_relations ctx) (var_equiv_relations ctx)
                        (affine_constraints ctx)
                        (<[narrow_to_int min := var]> (constant_to_ref ctx)) ctx) r
               = MinOf ctx r /\
               MaxOf (set_relations (affine_relations ctx) (var_equiv_relations ctx)
                        (affine_constraints ctx)
                        (<[narrow_to_int min := var]> (constant_to_ref ctx)) ctx) r
               = MaxOf ctx r) by (intros r; split; reflexivity).
    destruct (Hsame ref) as [-> ->]. simpl in Hlook.
    destruct (decide (key = narrow_to_int min)) as [-> | Hne].
    + rewrite lookup_insert_eq in Hlook. injection Hlook as <-. exists min. auto.
    + rewrite lookup_insert_ne in Hlook by congruence. apply (Hinv _ _ Hlook).
Qed.

Lemma constants_fixed_push ctx (d : Domain.t) :
  constants_fixed ctx -> constants_fixed (set_domains (domains ctx ++ [d]) ctx).
Proof.
  intros Hinv key ref Hlook. destruct (Hinv key ref Hlook) as (value & Hmin & Hmax & Hkey).
  exists value. split; [| split; [| exact Hkey]].
  - unfold MinOf, MaxOf, checked_domain, domain_at in *. simpl.
    destruct (Z.leb_spec 0 (PositiveRef ref)); [| discriminate].
    destruct (domains ctx !! Z.to_nat (PositiveRef ref)) as [d0 |] eqn:Hd0;
      [| discriminate].
    rewrite (lookup_app_l_Some _ _ _ _ Hd0). exact Hmin.
  - unfold MinOf, MaxOf, checked_domain, domain_at in *. simpl.
    destruct (Z.leb_spec 0 (PositiveRef ref)); [| discriminate].
    destruct (domains ctx !! Z.to_nat (PositiveRef ref)) as [d0 |] eqn:Hd0;
      [| discriminate].
    rewrite (lookup_app_l_Some _ _ _ _ Hd0). exact Hmax.
Qed.

Lemma initialize_domains_spec vars i ctx ctx' :
  i = Z.of_nat (length (domains ctx)) ->
  constants_fixed ctx ->
  initialize_domains vars i ctx = Some ctx' ->
  constants_fixed ctx' /\
  domains ctx' = domains ctx ++ map ReadDomainFromProto vars /\
  Forall (fun proto => Domain.IsEmpty (ReadDomainFromProto proto) = false) vars /\
  var_to_constraints ctx' = var_to_constraints ctx /\
  is_unsat ctx' = is_unsat ctx /\ working_model ctx' = working_model ctx.
Proof.
  revert i ctx. induction vars as [| proto rest IH]; intros i ctx Hi Hinv Hrun.
  - simpl in Hrun. injection Hrun as <-. rewrite app_nil_r.
    split; [exact Hinv | repeat split; auto].
  - simpl in Hrun.
    set (ctx1 := set_domains (domains ctx ++ [ReadDomainFromProto proto]) ctx) in *.
    assert (Hd1 : domain_at ctx1 (PositiveRef i) = Some (ReadDomainFromProto proto)).
    { rewrite PositiveRef_positive by (unfold RefIsPositive; apply Z.leb_le; lia).
      unfold domain_at. destruct (Z.leb_spec 0 i); [| lia]. simpl.
      rewrite Hi, Nat2Z.id. apply list_lookup_middle. reflexivity. }
    destruct (IsFixed ctx1 i) as [is_fixed |] eqn:Hfix; [| discriminate].
    simpl in Hrun.
    assert (Hne : Domain.IsEmpty (ReadDomainFromProto proto) = false).
    { unfold IsFixed, checked_domain in Hfix. rewrite Hd1 in Hfix. simpl in Hfix.
      destruct (Domain.IsEmpty _); [discriminate | reflexivity]. }
    pose proof (constants_fixed_push ctx (ReadDomainFromProto proto) Hinv) as Hinv1.
    fold ctx1 in Hinv1.
    destruct (if is_fixed then ExploitFixedDomain i ctx1 else Some ctx1) as [ctx2 |] eqn:H2;
      [| discriminate].
    simpl in Hrun.
    assert (Hstep : constants_fixed ctx2 /\ domains ctx2 = domains ctx1 /\
                    var_to_constraints ctx2 = var_to_constraints ctx1 /\
                    is_unsat ctx2 = is_unsat ctx1 /\
                    working_model ctx2 = working_model ctx1).
    { destruct is_fixed.
      - eapply ExploitFixedDomain_constants; eauto.
      - injection H2 as <-. auto. }
    destruct Hstep as (Hinv2 & Hd2 & Hg2 & Hu2 & Hw2).
    destruct (IH (i + 1) ctx2) as (Hinv' & Hd' & Hall & Hg' & Hu' & Hw'); auto.
    { rewrite Hd2. unfold ctx1. simpl. rewrite length_app. simpl. lia. }
    split; [exact Hinv' |].
    split; [rewrite Hd', Hd2; unfold ctx1; simpl; rewrite <- app_assoc; reflexivity |].
    split; [constructor; auto |].
    split; [rewrite Hg', Hg2; reflexivity |].
    split; [rewrite Hu', Hu2; reflexivity | rewrite Hw', Hw2; reflexivity].
Qed.

(** X12.  [InitializeNewDomains]: the domains already stored are kept as
    they are, the domains of the variables of the working model that had
    none are read from the model, none of them being empty (an empty one
    aborts the run); the usage graph gets one vertex per variable, the
    vertices it had keeping their constraints; every key of
    [constant_to_ref] is still mapped to a reference that is fixed, to a
    value that the conversion to [int] made by [ExploitFixedDomain] sends
    to the key (the value itself when it is in the range of [int]); unsat
    flag and working model do not change. *)
Theorem InitializeNewDomains_spec ctx ctx' :
  constants_fixed ctx ->
  InitializeNewDomains ctx = Some ctx' ->
  domains ctx'
  = domains ctx
    ++ map ReadDomainFromProto (drop (length (domains ctx)) (variables (working_model ctx))) /\
  Forall (fun proto => Domain.IsEmpty (ReadDomainFromProto proto) = false)
    (drop (length (domains ctx)) (variables (working_model ctx))) /\
  length (var_to_constraints ctx') = length (domains ctx') /\
  (forall v s, (v < length (domains ctx'))%nat ->
               var_to_constraints ctx !! v = Some s -> var_to_constraints ctx' !! v = Some s) /\
  constants_fixed ctx' /\
  is_unsat ctx' = is_unsat ctx /\ working_model ctx' = working_model ctx.
Proof.
  intros Hinv Hrun. unfold InitializeNewDomains in Hrun.
  destruct (initialize_domains _ _ ctx) as [ctx1 |] eqn:Hinit; [| discriminate].
  simpl in Hrun. injection Hrun as <-. simpl.
  destruct (initialize_domains_spec _ _ _ _ eq_refl Hinv Hinit)
    as (Hinv1 & Hd1 & Hall & Hg1 & Hu1 & Hw1).
  split; [exact Hd1 |]. split; [exact Hall |].
  split; [apply length_resize |].
  split.
  { intros v s Hv Hs. rewrite Hg1.
    assert (Hlt : (v < length (var_to_constraints ctx))%nat)
      by (eapply lookup_lt_Some; eauto).
    rewrite lookup_resize by (first [exact Hlt | exact Hv]). exact Hs. }
  split; [| auto].
  intros key ref Hlook. apply (Hinv1 key ref Hlook).
Qed.

End NewDomainsFacts.

(** ** Examples of these rewriters *)

Lemma IntersectDomainWith_twice_witness :
  exists ctx1,
    IntersectDomainWith 0 [MkInterval 5 20] (cumulative_example 2 2) = Some (true, ctx1) /\
    IntersectDomainWith 0 [MkInterval 5 20] ctx1 = Some (false, ctx1).
Proof.
  destruct (IntersectDomainWith 0 [MkInterval 5 20] (cumulative_example 2 2))
    as [[changed ctx1] |] eqn:Hrun; [| vm_compute in Hrun; discriminate].
  destruct (IntersectDomainWith_twice _ _ _ _ _ Hrun) as (empty & Hempty & Hsecond).
  vm_compute in Hrun. injection Hrun as <- <-.
  vm_compute in Hempty. injection Hempty as <-.
  eexists. split; [reflexivity | exact Hsecond].
Defined.

Lemma clause_example_boolean_domain lits l :
  -3 <= l <= 2 -> boolean_domain (clause_example lits) l.
Proof.
  intros Hl. exists [MkInterval 0 1].
  assert (Hcases : l = -3 \/ l = -2 \/ l = -1 \/ l = 0 \/ l = 1 \/ l = 2) by lia.
  destruct Hcases as [-> | [-> | [-> | [-> | [-> | ->]]]]]; split; auto.
Qed.

Lemma fixed_example_boolean_domain ct l :
  -3 <= l <= 2 -> boolean_domain (fixed_example ct) l.
Proof.
  intros Hl.
  assert (Hcases : l = -3 \/ l = -2 \/ l = -1 \/ l = 0 \/ l = 1 \/ l = 2) by lia.
  destruct Hcases as [-> | [-> | [-> | [-> | [-> | ->]]]]];
    eexists; (split; [reflexivity | auto]).
Qed.

Lemma SetLiteralToTrue_then_LiteralIsTrue_witness :
  exists ctx',
    SetLiteralToTrue (-2) (clause_example [0; 1; 2]) = Some ctx' /\
    LiteralIsTrue ctx' (-2) = Some true /\ LiteralIsFalse ctx' 1 = Some true.
Proof.
  destruct (SetLiteralToTrue_then_LiteralIsTrue (clause_example [0; 1; 2]) (-2))
    as (ctx' & Hrun & _ & Htrue & _).
  { apply clause_example_boolean_domain. lia. }
  exists ctx'. split; [exact Hrun |].
  destruct (Htrue eq_refl) as [Ht _]. split; [exact Ht |].
  destruct (LiteralIsFalse_NegatedRef ctx' 1) as [_ H1].
  rewrite <- Ht. symmetry. exact H1.
Defined.

Lemma PresolveBoolAnd_non_reified_witness :
  exists ctx',
    PresolveBoolAnd (MkConstraint [] (kBoolAnd [0; -2])) (clause_example [0; 1; 2])
    = Some (true, empty_constraint, ctx') /\
    LiteralIsTrue ctx' 0 = Some true /\ LiteralIsTrue ctx' (-2) = Some true /\
    domain_at ctx' 2 = Some [MkInterval 0 1].
Proof.
  destruct (PresolveBoolAnd_non_reified (MkConstraint [] (kBoolAnd [0; -2]))
              (clause_example [0; 1; 2]))
    as (ctx' & Hrun & Htrue & _ & _ & Hframe & _).
  { reflexivity. }
  { repeat constructor; apply clause_example_boolean_domain; lia. }
  exists ctx'. split; [exact Hrun |].
  assert (Hu : is_unsat ctx' = false).
  { vm_compute in Hrun. injection Hrun as <-. reflexivity. }
  specialize (Htrue Hu). simpl in Htrue.
  apply Forall_cons in Htrue as [H0 Htrue]. apply Forall_cons in Htrue as [H1 _].
  split; [exact H0 |]. split; [exact H1 |].
  rewrite Hframe; [reflexivity |].
  repeat constructor; vm_compute; discriminate.
Defined.

Lemma PresolveAtMostOne_true_literal_witness :
  exists ctx',
    PresolveAtMostOne (MkConstraint [] (kAtMostOne [0; 1; 2]))
      (fixed_example (MkConstraint [] (kAtMostOne [0; 1; 2])))
    = Some (true, empty_constraint, ctx') /\
    LiteralIsFalse ctx' 0 = Some true /\ LiteralIsFalse ctx' 2 = Some true.
Proof.
  set (ct := MkConstraint [] (kAtMostOne [0; 1; 2])).
  destruct (PresolveAtMostOne_true_literal ct (fixed_example ct))
    as (ctx' & literal & Hrun & Hin & Hlit & Hfalse & _).
  { reflexivity. }
  { repeat constructor; apply fixed_example_boolean_domain; lia. }
  { apply Exists_cons_tl, Exists_cons_hd. reflexivity. }
  exists ctx'. split; [exact Hrun |].
  assert (Hl : literal = 1).
  { simpl in Hin. apply elem_of_cons in Hin as [-> | Hin]; [vm_compute in Hlit; discriminate |].
    apply elem_of_cons in Hin as [-> | Hin]; [reflexivity |].
    apply elem_of_cons in Hin as [-> | Hin]; [vm_compute in Hlit; discriminate |].
    inversion Hin. }
  subst literal.
  assert (Hu : is_unsat ctx' = false).
  { vm_compute in Hrun. injection Hrun as <-. reflexivity. }
  specialize (Hfalse Hu). simpl in Hfalse.
  apply Forall_cons in Hfalse as [H0 Hfalse]. apply Forall_cons in Hfalse as [_ Hfalse].
  apply Forall_cons in Hfalse as [H2 _].
  split; [apply H0; lia | apply H2; lia].
Defined.

Lemma PresolveAtMostOne_no_true_literal_witness :
  exists ctx',
    PresolveAtMostOne (MkConstraint [] (kAtMostOne [0; 2; -2]))
      (fixed_example (MkConstraint [] (kAtMostOne [0; 2; -2])))
    = Some (true, MkConstraint [] (kAtMostOne [0]), ctx').
Proof.
  destruct (PresolveAtMostOne_no_true_literal
              (MkConstraint [] (kAtMostOne [0; 2; -2]))
              (fixed_example (MkConstraint [] (kAtMostOne [0; 2; -2]))) [0; 2; -2])
    as (ctx' & Hrun & _).
  { reflexivity. }
  { reflexivity. }
  { repeat constructor; apply fixed_example_boolean_domain; lia. }
  { repeat constructor. }
  exists ctx'. rewrite Hrun. reflexivity.
Defined.

Lemma PresolveEnforcementLiteral_spec_witness :
  exists ctx',
    PresolveEnforcementLiteral (MkConstraint [1; 0] (kBoolOr [2]))
      (fixed_example (MkConstraint [1; 0] (kBoolOr [2])))
    = Some (true, MkConstraint [0] (kBoolOr [2]), ctx') /\
    domains ctx' = domains (fixed_example (MkConstraint [1; 0] (kBoolOr [2]))).
Proof.
  set (ct := MkConstraint [1; 0] (kBoolOr [2])).
  destruct (PresolveEnforcementLiteral ct (fixed_example ct))
    as [[[changed ct'] ctx'] |] eqn:Hrun; [| vm_compute in Hrun; discriminate].
  destruct (PresolveEnforcementLiteral_spec _ _ _ _ _ Hrun)
    as [(Hct & _) | (Hct & Hchanged & _ & Hd & _)].
  - vm_compute in Hrun. injection Hrun as _ <- _. discriminate Hct.
  - exists ctx'. split; [| exact Hd]. rewrite Hct, Hchanged. reflexivity.
Defined.

Lemma small_expression_clauses_equivalent_witness :
  forallb (constraint_holds linear_example_assignment)
    (small_expression_clauses linear_example_constraint
       (ReadDomainFromProto (lin_domain (linear_arg linear_example_constraint))))
  = false.
Proof.
  destruct (small_expression_clauses_equivalent linear_example_constraint
              linear_example_assignment) as [Heq _].
  - reflexivity.
  - repeat constructor.
  - constructor; [left; reflexivity |]. constructor; [right; reflexivity | constructor].
  - rewrite Heq. reflexivity.
Defined.

Lemma PresolveNoOverlap_spec_witness :
  exists ctx',
    PresolveNoOverlap 3 no_overlap_example = Some (false, ctx') /\
    constraints (working_model ctx') !! 3%nat = Some (MkConstraint [] (kNoOverlap [0; 2])).
Proof.
  destruct (PresolveNoOverlap_spec 3 no_overlap_example (MkConstraint [] (kNoOverlap [0; 1; 2])))
    as (ctx' & Hrun & Hcs & _).
  - reflexivity.
  - repeat constructor; eexists; reflexivity.
  - exists ctx'. split; [exact Hrun |]. rewrite Hcs. reflexivity.
Defined.

Lemma clause_example_linked lits :
  usage_graph_linked (map UsedVariables (constraints (working_model (clause_example [0; 1; 2]))))
    (var_to_constraints (clause_example lits)).
Proof.
  intros c v s Hs.
  assert (Hs' : s = {[0; 1]} /\ (v < 3)%nat).
  { destruct v as [| [| [| v]]]; simpl in Hs; try discriminate;
      injection Hs as <-; split; (reflexivity || lia). }
  destruct Hs' as [-> Hv].
  assert (Hvars : forall x, x ∈ [0; 1; 2] <-> x = 0 \/ x = 1 \/ x = 2).
  { intros x. rewrite !elem_of_cons, elem_of_nil. tauto. }
  destruct c as [| [| c]].
  - split; [intros _ | intros _; set_solver].
    eexists. split; [reflexivity |]. vm_compute UsedVariables. apply Hvars. lia.
  - split; [intros _ | intros _; set_solver].
    eexists. split; [reflexivity |]. vm_compute UsedVariables. apply Hvars. lia.
  - split.
    + intros Hin. exfalso. apply elem_of_union in Hin as [Hin | Hin];
        apply elem_of_singleton in Hin; lia.
    + intros (vars & Hlook & _). discriminate.
Qed.

Lemma UpdateConstraintVariableUsage_restores_witness :
  exists ctx',
    UpdateConstraintVariableUsage 0
      (store_constraint 0 (MkConstraint [] (kBoolOr [0; 1])) (clause_example [0; 1; 2]))
    = Some ctx' /\
    ConstraintVariableUsageIsConsistent ctx' = true /\
    usage_graph_linked (constraint_to_vars ctx') (var_to_constraints ctx').
Proof.
  destruct (UpdateConstraintVariableUsage 0
              (store_constraint 0 (MkConstraint [] (kBoolOr [0; 1])) (clause_example [0; 1; 2])))
    as [ctx' |] eqn:Hrun; [| vm_compute in Hrun; discriminate].
  destruct (UpdateConstraintVariableUsage_restores (clause_example [0; 1; 2]) 0 _ ctx' eq_refl
              (clause_example_linked [0; 1; 2]) Hrun) as (Hok & _ & Hlinked & _).
  exists ctx'. auto.
Defined.

Lemma UpdateNewConstraintsVariableUsage_extends_witness :
  exists ctx',
    UpdateNewConstraintsVariableUsage
      (append_constraint (MkConstraint [] (kBoolOr [0; 1])) (clause_example [0; 1; 2]))
    = Some ctx' /\
    ConstraintVariableUsageIsConsistent ctx' = true /\
    length (constraint_to_vars ctx') = 3%nat.
Proof.
  destruct (UpdateNewConstraintsVariableUsage
              (append_constraint (MkConstraint [] (kBoolOr [0; 1])) (clause_example [0; 1; 2])))
    as [ctx' |] eqn:Hrun; [| vm_compute in Hrun; discriminate].
  destruct (UpdateNewConstraintsVariableUsage_extends
              (append_constraint (MkConstraint [] (kBoolOr [0; 1])) (clause_example [0; 1; 2]))
              ctx' eq_refl (clause_example_linked [0; 1; 2]) Hrun) as (Hok & Hrec & _).
  exists ctx'. split; [reflexivity |]. split; [exact Hok |].
  rewrite Hrec, length_map.
  vm_compute in Hrun. injection Hrun as <-. reflexivity.
Defined.

Lemma InitializeNewDomains_spec_witness :
  exists ctx',
    InitializeNewDomains new_variables_example = Some ctx' /\
    domains ctx' = [[MkInterval 0 1]; [MkInterval 1 1]; [MkInterval 1 1]] /\
    length (var_to_constraints ctx') = 3%nat.
Proof.
  destruct (InitializeNewDomains new_variables_example) as [ctx' |] eqn:Hrun;
    [| vm_compute in Hrun; discriminate].
  destruct (InitializeNewDomains_spec new_variables_example ctx') as (Hd & _ & Hlen & _).
  - intros value ref Hlook.
    change ((∅ : gmap Z Z) !! value = Some ref) in Hlook.
    rewrite lookup_empty in Hlook. discriminate.
  - exact Hrun.
  - exists ctx'. split; [reflexivity |]. split; [exact Hd |].
    rewrite Hlen, Hd. reflexivity.
Defined.

(** ** The canonical literals of the encoder *)

Section EncoderFacts.
Import Domain.

Lemma last_In {A} (l : list A) (x d : A) : In (List.last (x :: l) d) (x :: l).
Proof.
  revert x. induction l as [| y l IH]; intros x; [left; reflexivity |].
  right. exact (IH y).
Qed.

(** The scan of the intervals that follow an interval ending at
    [previous], for a bound above [previous]. *)
Lemma canonicalize_scan_spec (intervals : t) previous b :
  wf intervals ->
  Forall (fun i => previous < start i) intervals ->
  previous <= b - 1 ->
  Exists (fun i => b <= end_ i) intervals ->
  let r := canonicalize_scan intervals previous (b - 1) b in
  least_value_from intervals b (snd r) /\
  previous <= fst r < b /\
  (fst r = previous \/ elem (fst r) intervals) /\
  (forall x, elem x intervals -> x < b -> x <= fst r).
Proof.
  revert previous.
  induction intervals as [| i rest IH]; intros previous Hwf Hsep Hprev Hex; [inversion Hex |].
  apply Forall_cons in Hsep as [Hsep_i Hsep].
  pose proof (wf_nonempty_intervals (i :: rest) i Hwf (or_introl eq_refl)) as Hi.
  cbn [canonicalize_scan]. cbv zeta.
  destruct (Z.ltb_spec b (start i)) as [Hlt | Hge].
  - (* The bound is in the hole before the interval. *)
    assert (Hb : (if (previous <? b - 1) && (b - 1 <? start i) then previous else b - 1)
                 = previous).
    { destruct (Z.ltb_spec previous (b - 1)); destruct (Z.ltb_spec (b - 1) (start i));
        simpl; lia. }
    assert (Ha : (previous <? b) && true = true) by (apply andb_true_iff; split; [apply Z.ltb_lt; lia | reflexivity]).
    rewrite Hb, Ha. destruct (Z.leb_spec (start i) (end_ i)); [| lia]. simpl.
    split; [| split; [lia | split; [left; reflexivity |]]].
    + split; [apply elem_cons; left; lia |]. split; [lia |].
      intros x Hx _. apply elem_cons in Hx as [Hx | Hx]; [lia |].
      apply elem_iff in Hx as (j & Hj & Hxj).
      pose proof (wf_head_separated i rest j Hwf Hj). lia.
    + intros x Hx Hxb. exfalso. apply elem_cons in Hx as [Hx | Hx]; [lia |].
      apply elem_iff in Hx as (j & Hj & Hxj).
      pose proof (wf_head_separated i rest j Hwf Hj). lia.
  - rewrite andb_false_r.
    destruct (Z.leb_spec b (end_ i)) as [Hin | Hout].
    + (* The bound is in the interval. *)
      simpl.
      split; [| split; [| split]].
      * split; [apply elem_cons; left; lia |]. split; [lia | auto].
      * destruct (Z.ltb_spec previous (b - 1)); destruct (Z.ltb_spec (b - 1) (start i));
          simpl; lia.
      * destruct (Z.ltb_spec (b - 1) (start i)) as [Hs | Hs].
        -- left. destruct (Z.ltb_spec previous (b - 1)); simpl; lia.
        -- right. rewrite andb_false_r. apply elem_cons. left. lia.
      * intros x Hx Hxb.
        destruct (Z.ltb_spec (b - 1) (start i)) as [Hs | Hs].
        -- exfalso. apply elem_cons in Hx as [Hx | Hx]; [lia |].
           apply elem_iff in Hx as (j & Hj & Hxj).
           pose proof (wf_head_separated i rest j Hwf Hj). lia.
        -- rewrite andb_false_r. simpl. lia.
    + (* The bound is above the interval. *)
      assert (Hb : (if (previous <? b - 1) && (b - 1 <? start i) then previous else b - 1)
                   = b - 1).
      { destruct (Z.ltb_spec (b - 1) (start i)); [lia |]. rewrite andb_false_r. reflexivity. }
      rewrite Hb.
      apply Exists_cons in Hex as [Hex | Hex]; [lia |].
      destruct (IH (end_ i) (wf_tail _ _ Hwf)) as (Hleast & Hrange & Hfrom & Hbelow); auto.
      { apply Forall_forall. intros j Hj. apply list_elem_of_In in Hj.
        pose proof (wf_head_separated i rest j Hwf Hj). lia. }
      { lia. }
      set (r := canonicalize_scan rest (end_ i) (b - 1) b) in *.
      split; [| split; [lia | split]].
      * destruct Hleast as (He & Hle & Hmin).
        split; [apply elem_cons; right; exact He |]. split; [exact Hle |].
        intros x Hx Hxb. apply elem_cons in Hx as [Hx | Hx]; [lia | auto].
      * right. apply elem_cons. destruct Hfrom as [-> | Hfrom]; [left; lia | right; auto].
      * intros x Hx Hxb. apply elem_cons in Hx as [Hx | Hx]; [lia | auto].
Qed.

(** X13.  [IntegerEncoder::Canonicalize] on a literal [(var >= bound)]
    whose variable has a domain in normal form: it aborts on its two
    [CHECK]s unless [Min <= bound - 1] and [bound <= Max]; otherwise it
    returns [(var >= after)] and [(var <= before)] where [after] is the
    least value of the domain at or above [bound] and [before] the
    greatest value of the domain below [bound]: both are values of the
    domain, no value of the domain lies strictly between them, and on the
    values of the domain [x >= after] says the same as [x >= bound] and
    [x <= before] the same as [x < bound]. *)
Theorem Canonicalize_spec (domains : list t) (i_lit : IntegerLiteral) (d : t) :
  at_index domains (il_var i_lit) = Some d ->
  wf d -> IsEmpty d = false -> kint64min < Min d ->
  (il_bound i_lit - 1 < Min d \/ Max d < il_bound i_lit -> Canonicalize domains i_lit = None) /\
  (Min d <= il_bound i_lit - 1 -> il_bound i_lit <= Max d ->
   exists before after,
     Canonicalize domains i_lit
     = Some (GreaterOrEqual (il_var i_lit) after, LowerOrEqual (il_var i_lit) before) /\
     least_value_from d (il_bound i_lit) after /\
     elem before d /\ before < il_bound i_lit /\
     (forall x, elem x d -> x < il_bound i_lit -> x <= before) /\
     (forall x, elem x d -> ~ (before < x < after)) /\
     (forall x, elem x d -> (after <= x <-> il_bound i_lit <= x) /\
                            (x <= before <-> x < il_bound i_lit))).
Proof.
  intros Hd Hwf Hne Hmin. unfold Canonicalize. rewrite Hd. simpl. split.
  - intros Hout.
    destruct (guard (Min d <= il_bound i_lit - 1)) as [Hlow |]; [simpl | reflexivity].
    destruct (guard (il_bound i_lit <= Max d)) as [Hhigh |]; [exfalso; lia | reflexivity].
  - intros Hlow Hhigh.
    rewrite (option_guard_True _ _ Hlow). rewrite (option_guard_True _ _ Hhigh).
    set (b := il_bound i_lit) in *.
    destruct d as [| i rest]; [discriminate |].
    destruct (canonicalize_scan_spec (i :: rest) kint64min b Hwf)
      as (Hleast & Hrange & Hfrom & Hbelow).
    { apply Forall_forall. intros j Hj. apply list_elem_of_In in Hj.
      unfold Min in Hmin. simpl in Hmin.
      destruct Hj as [<- | Hj]; [exact Hmin |].
      pose proof (wf_head_separated i rest j Hwf Hj).
      pose proof (wf_nonempty_intervals (i :: rest) i Hwf (or_introl eq_refl)). lia. }
    { unfold Min in Hlow, Hmin. simpl in Hlow, Hmin. lia. }
    { apply Exists_exists. exists (List.last (i :: rest) (MkInterval 0 0)).
      split; [apply list_elem_of_In, last_In | exact Hhigh]. }
    set (r := canonicalize_scan (i :: rest) kint64min (b - 1) b) in *.
    exists (fst r), (snd r). split; [reflexivity |].
    assert (Hmin_elem : elem (Min (i :: rest)) (i :: rest)) by (apply not_IsEmpty_elem; auto).
    assert (Hbefore : elem (fst r) (i :: rest)).
    { destruct Hfrom as [Heq | Hfrom]; [| exact Hfrom].
      pose proof (Hbelow _ Hmin_elem ltac:(lia)). lia. }
    destruct Hleast as (Hafter & Hle & Hleast).
    split; [repeat split; auto |]. split; [exact Hbefore |]. split; [lia |].
    split; [exact Hbelow |]. split.
    + intros x Hx [H1 H2].
      destruct (Z.lt_ge_cases x b) as [Hxb | Hxb].
      * pose proof (Hbelow x Hx Hxb). lia.
      * pose proof (Hleast x Hx Hxb). lia.
    + intros x Hx. split; split; intros Hc.
      * lia.
      * apply Hleast; auto.
      * lia.
      * apply Hbelow; auto.
Qed.

End EncoderFacts.

(** ** What [Enqueue] never does *)

Section EnqueueGrowthFacts.
Context {B : Type} `{!BooleanSide B}.
Implicit Type t : IntegerTrail B.

Lemma bounds_not_lowered_same t t' :
  vars_ t' = vars_ t -> num_enqueues_ t <= num_enqueues_ t' -> bounds_not_lowered t t'.
Proof.
  intros Hv Hn. split; [rewrite Hv; reflexivity |]. split; [exact Hn |].
  intros v lb Hlb. exists lb. unfold LowerBound in *. rewrite Hv. split; [exact Hlb | lia].
Qed.

Lemma bounds_not_lowered_trans t1 t2 t3 :
  bounds_not_lowered t1 t2 -> bounds_not_lowered t2 t3 -> bounds_not_lowered t1 t3.
Proof.
  intros (L1 & N1 & B1) (L2 & N2 & B2). split; [congruence |]. split; [lia |].
  intros v lb Hlb. destruct (B1 v lb Hlb) as (lb1 & H1 & Hle1).
  destruct (B2 v lb1 H1) as (lb2 & H2 & Hle2). exists lb2. split; [exact H2 | lia].
Qed.

(** Raising the bound of one variable. *)
Lemma bounds_not_lowered_store t t' v info new_bound idx vs :
  at_index (vars_ t) v = Some info ->
  current_bound info <= new_bound ->
  store_at (vars_ t) v (MkVarInfo new_bound idx) = Some vs ->
  vars_ t' = vs -> num_enqueues_ t <= num_enqueues_ t' ->
  bounds_not_lowered t t'.
Proof.
  intros Hinfo Hle Hstore Hv Hn.
  apply store_at_Some in Hstore as (Hpos & Hlt & ->).
  split; [rewrite Hv; apply length_insert |]. split; [exact Hn |].
  intros w lb Hlb. unfold LowerBound in *. rewrite Hv.
  destruct (at_index (vars_ t) w) as [iw |] eqn:Hw; [| discriminate].
  simpl in Hlb. injection Hlb as <-.
  apply at_index_Some in Hw as [Hwpos Hw].
  unfold at_index. destruct (Z.leb_spec 0 w); [| lia].
  destruct (decide (Z.to_nat w = Z.to_nat v)) as [E | E].
  - rewrite E, list_lookup_insert_eq by exact Hlt. simpl.
    eexists. split; [reflexivity |].
    assert (w = v) by lia. subst w.
    apply at_index_Some in Hinfo as [_ Hinfo]. rewrite Hinfo in Hw.
    injection Hw as <-. exact Hle.
  - rewrite list_lookup_insert_ne by congruence. rewrite Hw. simpl.
    eexists. split; [reflexivity | lia].
Qed.

Lemma canonicalize_literal_counters i_lit t new_bound t1 :
  canonicalize_literal i_lit t = Some (Some (new_bound, t1)) ->
  num_enqueues_ t1 = num_enqueues_ t.
Proof.
  unfold canonicalize_literal. intros Hrun.
  destruct (at_index (domains_ t) (il_var i_lit)) as [d |]; [| discriminate].
  simpl in Hrun. destruct (1 <? Domain.NumIntervals d).
  - destruct (RevMap_FindOrDie _ _) as [index |]; [| discriminate]. simpl in Hrun.
    destruct (canonicalize_bound d index (il_bound i_lit)) as [[[index' nb] |] |];
      try discriminate; simpl in Hrun.
    injection Hrun as _ <-. reflexivity.
  - injection Hrun as _ <-. reflexivity.
Qed.

Lemma enqueue_empty_domain_counters v new_bound lr ir t r :
  enqueue_empty_domain v new_bound lr ir t = Some r ->
  num_enqueues_ (snd r) = num_enqueues_ t.
Proof.
  unfold enqueue_empty_domain. intros Hrun.
  destruct (IsOptional t v) as [optional |]; [| discriminate]. simpl in Hrun.
  destruct (at_index (is_ignored_literals_ t) v) as [ig |]; [| discriminate].
  simpl in Hrun.
  destruct (negb optional || _).
  - injection Hrun as <-. reflexivity.
  - unfold EnqueueLiteral in Hrun.
    destruct (integer_search_levels_ t) eqn:El; injection Hrun as <-; reflexivity.
Qed.

Lemma EnqueueAssociatedLiteral_counters literal idx lr ir same t b t' :
  EnqueueAssociatedLiteral literal idx lr ir same t = Some (b, t') ->
  num_enqueues_ t' = num_enqueues_ t.
Proof.
  unfold EnqueueAssociatedLiteral. intros Hrun.
  destruct (negb (VariableIsAssigned t literal)).
  - destruct (integer_search_levels_ t); [injection Hrun as _ <-; reflexivity |].
    destruct (negb (same =? kNoBooleanVariable)); injection Hrun as _ <-; reflexivity.
  - destruct (AssignmentLiteralIsFalse (trail_ t) literal); injection Hrun as _ <-;
      reflexivity.
Qed.

Lemma save_reason_counters lr ir same t r t1 :
  save_reason lr ir same t = Some (r, t1) -> num_enqueues_ t1 = num_enqueues_ t.
Proof.
  unfold save_reason. intros Hrun.
  destruct (size_ (integer_trail_ t) <=? same).
  - destruct (guard _) as [? |]; [| discriminate]. simpl in Hrun.
    injection Hrun as _ <-. reflexivity.
  - destruct (at_index (integer_trail_ t) same); [| discriminate].
    simpl in Hrun. injection Hrun as _ <-. reflexivity.
Qed.

Lemma push_bound_counters v new_bound reason t t' :
  push_bound v new_bound reason t = Some t' ->
  num_enqueues_ t' = num_enqueues_ t /\
  exists info vs,
    at_index (vars_ t) v = Some info /\
    store_at (vars_ t) v (MkVarInfo new_bound (size_ (integer_trail_ t))) = Some vs /\
    vars_ t' = vs.
Proof.
  unfold push_bound. intros Hrun.
  destruct (at_index (vars_ t) v) as [old |]; [| discriminate]. simpl in Hrun.
  destruct (store_at (vars_ t) v _) as [vs |] eqn:Es; [| discriminate]. simpl in Hrun.
  injection Hrun as <-. split; [reflexivity |].
  exists old, vs. split; [reflexivity |]. split; [| reflexivity].
  rewrite <- Es. do 2 f_equal. unfold size_. rewrite length_app. simpl. lia.
Qed.

Lemma UpdateInitialDomain_with_grows enqueue v d t b t' :
  (forall l lr ir s r, enqueue l lr ir s = Some r -> bounds_not_lowered s (snd r)) ->
  UpdateInitialDomain_with enqueue v d t = Some (b, t') ->
  bounds_not_lowered t t'.
Proof.
  intros Henq Hrun. unfold UpdateInitialDomain_with in Hrun.
  outer_guard Hrun.
  destruct (at_index (domains_ t) v) as [old |]; [| discriminate]. simpl in Hrun.
  case_decide.
  { injection Hrun as _ <-. apply bounds_not_lowered_same; [reflexivity | lia]. }
  destruct (Domain.IsEmpty _).
  { injection Hrun as _ <-. apply bounds_not_lowered_same; [reflexivity | lia]. }
  destruct (store_at (domains_ t) v _) as [ds1 |]; [| discriminate]. simpl in Hrun.
  destruct (store_at ds1 (NegationOf v) _) as [ds2 |]; [| discriminate]. simpl in Hrun.
  set (t1 := if 1 <? _ then _ else with_domains_ ds2 t) in Hrun.
  assert (H1 : bounds_not_lowered t t1).
  { subst t1. destruct (1 <? _); apply bounds_not_lowered_same; (reflexivity || simpl; lia). }
  destruct (enqueue (GreaterOrEqual v _) [] [] t1) as [r1 |] eqn:E1; [| discriminate].
  simpl in Hrun. outer_guard Hrun.
  destruct (enqueue (LowerOrEqual v _) [] [] (snd r1)) as [r2 |] eqn:E2; [| discriminate].
  simpl in Hrun. outer_guard Hrun.
  injection Hrun as _ <-.
  pose proof (Henq _ _ _ _ _ E1) as H2.
  pose proof (Henq _ _ _ _ _ E2) as H3.
  eapply bounds_not_lowered_trans; [exact H1 |].
  eapply bounds_not_lowered_trans; [exact H2 |].
  eapply bounds_not_lowered_trans; [exact H3 |].
  apply bounds_not_lowered_same; [reflexivity | simpl; lia].
Qed.

Lemma enqueue_at_level_zero_grows enqueue v new_bound t info b t' :
  (forall l lr ir s r, enqueue l lr ir s = Some r -> bounds_not_lowered s (snd r)) ->
  at_index (vars_ t) v = Some info -> current_bound info <= new_bound ->
  enqueue_at_level_zero enqueue v new_bound t = Some (b, t') ->
  bounds_not_lowered t t'.
Proof.
  intros Henq Hinfo Hle Hrun. unfold enqueue_at_level_zero in Hrun.
  rewrite Hinfo in Hrun. simpl in Hrun.
  destruct (store_at (vars_ t) v _) as [vs |] eqn:Es; [| discriminate]. simpl in Hrun.
  destruct (at_index (integer_trail_ t) v) as [entry |]; [| discriminate]. simpl in Hrun.
  destruct (store_at (integer_trail_ t) v _) as [tr |]; [| discriminate]. simpl in Hrun.
  destruct (LowerBound _ v) as [lb |]; [| discriminate]. simpl in Hrun.
  destruct (UpperBound _ v) as [ub |]; [| discriminate]. simpl in Hrun.
  eapply bounds_not_lowered_trans;
    [| eapply UpdateInitialDomain_with_grows; [exact Henq | exact Hrun]].
  eapply bounds_not_lowered_store; [exact Hinfo | exact Hle | exact Es | reflexivity |].
  simpl. lia.
Qed.

(** [Enqueue] never lowers a bound, and its counter of enqueues grows by
    at least one as soon as the call goes past its two early returns. *)
Lemma Enqueue_same_reason_grows fuel :
  forall i_lit lr ir same t r,
    Enqueue_same_reason fuel i_lit lr ir same t = Some r ->
    bounds_not_lowered t (snd r) /\
    (r = (true, t) \/ num_enqueues_ t < num_enqueues_ (snd r)) /\
    (forall info,
        IsCurrentlyIgnored t (il_var i_lit) = Some false ->
        at_index (vars_ t) (il_var i_lit) = Some info ->
        current_bound info < il_bound i_lit ->
        num_enqueues_ t < num_enqueues_ (snd r)).
Proof.
  induction fuel as [| fuel IH]; intros i_lit lr ir same t r Hrun; [discriminate |].
  rewrite Enqueue_same_reason_unfold in Hrun.
  destruct (IsCurrentlyIgnored t (il_var i_lit)) as [ignored |]; [| discriminate].
  simpl in Hrun. destruct ignored.
  { injection Hrun as <-.
    split; [apply bounds_not_lowered_same; (reflexivity || lia) |].
    split; [auto | discriminate]. }
  destruct (at_index (vars_ t) (il_var i_lit)) as [info |] eqn:Hinfo; [| discriminate].
  simpl in Hrun.
  destruct (Z.leb_spec (il_bound i_lit) (current_bound info)) as [Hle | Hbetter].
  { injection Hrun as <-.
    split; [apply bounds_not_lowered_same; (reflexivity || lia) |].
    split; [auto |]. intros info' _ [= <-] Hlt. lia. }
  enough (Hgrow : bounds_not_lowered t (snd r) /\ num_enqueues_ t < num_enqueues_ (snd r))
    by (destruct Hgrow; auto).
  unfold enqueue_better_bound in Hrun.
  set (t0 := with_counters _ _ t) in Hrun.
  assert (H0 : vars_ t0 = vars_ t /\ num_enqueues_ t0 = num_enqueues_ t + 1) by (split; reflexivity).
  destruct H0 as [Hv0 Hn0].
  destruct (canonicalize_literal i_lit t0) as [[[new_bound t1] |] |] eqn:Ec;
    try discriminate; simpl in Hrun.
  2:{ injection Hrun as <-. simpl.
      split; [apply bounds_not_lowered_same; [reflexivity | simpl; lia] | lia]. }
  pose proof (canonicalize_literal_counters _ _ _ _ Ec) as Hn1.
  apply canonicalize_literal_core in Ec as ((Hv1 & _) & _ & Hnb & _).
  destruct (UpperBound t1 (il_var i_lit)) as [ub |]; [| discriminate]. simpl in Hrun.
  destruct (ub <? new_bound).
  { pose proof (enqueue_empty_domain_counters _ _ _ _ _ _ Hrun) as Hn.
    apply enqueue_empty_domain_domains in Hrun as [_ Hv].
    split; [apply bounds_not_lowered_same; [congruence | lia] | lia]. }
  set (t2 := with_watchers _ t1) in Hrun.
  destruct (if negb (_ =? kNoLiteralIndex) then _ else Some (true, t2))
    as [[b t3] |] eqn:Ea; [| discriminate].
  simpl in Hrun.
  assert (H3 : vars_ t3 = vars_ t2 /\ num_enqueues_ t3 = num_enqueues_ t2).
  { destruct (negb (_ =? kNoLiteralIndex)).
    - split; [eapply EnqueueAssociatedLiteral_core; eauto
             | eapply EnqueueAssociatedLiteral_counters; eauto].
    - injection Ea as <- <-. auto. }
  destruct H3 as [Hv3 Hn3].
  assert (Hv3' : vars_ t3 = vars_ t) by (rewrite Hv3; simpl; congruence).
  assert (Hn3' : num_enqueues_ t3 = num_enqueues_ t + 1) by (rewrite Hn3; simpl; lia).
  destruct b; simpl in Hrun.
  2:{ injection Hrun as <-. simpl.
      split; [apply bounds_not_lowered_same; [exact Hv3' | lia] | lia]. }
  assert (Hstep : bounds_not_lowered t t3)
    by (apply bounds_not_lowered_same; [exact Hv3' | lia]).
  assert (Hinfo3 : at_index (vars_ t3) (il_var i_lit) = Some info) by (rewrite Hv3'; exact Hinfo).
  destruct (integer_search_levels_ t3) eqn:El3.
  - destruct r as [b' t']. simpl.
    assert (Hz : bounds_not_lowered t3 t').
    { eapply (enqueue_at_level_zero_grows _ (il_var i_lit) new_bound t3 info);
        [| exact Hinfo3 | | exact Hrun]; [| lia].
      intros l lr' ir' s r' Hr'. simpl in Hr'. exact (proj1 (IH _ _ _ _ _ _ Hr')). }
    split; [exact (bounds_not_lowered_trans _ _ _ Hstep Hz) |].
    destruct Hz as (_ & Hn & _). lia.
  - destruct (save_reason _ _ _ t3) as [[r0 t4] |] eqn:Es; [| discriminate].
    simpl in Hrun.
    destruct (push_bound _ _ _ t4) as [t5 |] eqn:Ep; [| discriminate].
    simpl in Hrun. injection Hrun as <-. simpl.
    pose proof (save_reason_counters _ _ _ _ _ _ Es) as Hn4.
    apply save_reason_effect in Es as (Hv4 & _).
    apply push_bound_counters in Ep as (Hn5 & info' & vs & Hinfo' & Hstore & Hv5).
    rewrite Hv4, Hinfo3 in Hinfo'. injection Hinfo' as <-.
    split; [| lia].
    eapply (bounds_not_lowered_store t _ (il_var i_lit) info new_bound _ vs);
      [exact Hinfo | | | exact Hv5 | lia].
    + lia.
    + rewrite <- Hv3', <- Hv4. exact Hstore.
Qed.

(** X14.  [Enqueue] never weakens a bound: whatever the level, the
    reasons and the result, after the call no variable was added or
    removed, every lower bound is at least what it was and every upper
    bound at most what it was. *)
Theorem Enqueue_never_weakens_a_bound fuel i_lit literal_reason integer_reason same t b t' :
  Enqueue_same_reason fuel i_lit literal_reason integer_reason same t = Some (b, t') ->
  size_ (vars_ t') = size_ (vars_ t) /\
  (forall v lb, LowerBound t v = Some lb ->
                exists lb', LowerBound t' v = Some lb' /\ lb <= lb') /\
  (forall v ub, UpperBound t v = Some ub ->
                exists ub', UpperBound t' v = Some ub' /\ ub' <= ub).
Proof.
  intros Hrun.
  destruct (Enqueue_same_reason_grows _ _ _ _ _ _ _ Hrun) as ((Hlen & _ & Hlb) & _).
  simpl in Hlen, Hlb.
  split; [unfold size_; rewrite Hlen; reflexivity |]. split; [exact Hlb |].
  intros v ub Hub.
  assert (Hneg : LowerBound t (NegationOf v) = Some (- ub)).
  { unfold UpperBound, LowerBound in *.
    destruct (at_index (vars_ t) (NegationOf v)); [| discriminate].
    simpl in *. injection Hub as <-. f_equal. lia. }
  destruct (Hlb _ _ Hneg) as (lb' & Hlb' & Hle).
  exists (- lb'). split; [| lia].
  unfold UpperBound, LowerBound in *.
  destruct (at_index (vars_ t') (NegationOf v)); [| discriminate].
  simpl in *. injection Hlb' as <-. reflexivity.
Qed.

(** X15.  The counter [num_enqueues_] tells whether [Enqueue] did
    anything: it never decreases; when it is unchanged the call returned
    true and changed nothing at all; and it has grown whenever the
    variable was not ignored and the bound was better than the current
    one, also when the call ended in a conflict. *)
Theorem Enqueue_timestamp fuel i_lit literal_reason integer_reason same t b t' :
  Enqueue_same_reason fuel i_lit literal_reason integer_reason same t = Some (b, t') ->
  num_enqueues_ t <= num_enqueues_ t' /\
  (num_enqueues_ t' = num_enqueues_ t -> b = true /\ t' = t) /\
  (forall info,
      IsCurrentlyIgnored t (il_var i_lit) = Some false ->
      at_index (vars_ t) (il_var i_lit) = Some info ->
      current_bound info < il_bound i_lit ->
      num_enqueues_ t < num_enqueues_ t').
Proof.
  intros Hrun.
  destruct (Enqueue_same_reason_grows _ _ _ _ _ _ _ Hrun) as ((_ & Hn & _) & Hcase & Hgrow).
  simpl in *. split; [exact Hn |]. split; [| exact Hgrow].
  intros Heq. destruct Hcase as [[= -> ->] | Hlt]; [auto | lia].
Qed.

End EnqueueGrowthFacts.

(** ** The explanation of a bound *)

Section ExplainFacts.
Context {B : Type} `{!BooleanSide B}.
Implicit Type t : IntegerTrail B.

Lemma forallb_imap_lookup {A} (f : nat -> A -> bool) (l : list A) (g : nat -> nat) :
  forallb (fun p => f (fst p) (snd p)) (imap (fun i x => (g i, x)) l) = true ->
  forall i x, l !! i = Some x -> f (g i) x = true.
Proof.
  revert g. induction l as [| y l IH]; intros g Hall i x Hi; [discriminate |].
  rewrite imap_cons in Hall. simpl in Hall. apply andb_true_iff in Hall as [H0 Hrest].
  destruct i as [| i]; simpl in Hi.
  - injection Hi as <-. exact H0.
  - exact (IH (fun k => g (S k)) Hrest i x Hi).
Qed.

Lemma trail_chained_facts t :
  trail_chained t = true ->
  (length (vars_ t) <= length (integer_trail_ t))%nat /\
  (forall i e, integer_trail_ t !! i = Some e -> entry_chained t i e = true) /\
  (forall v info, vars_ t !! v = Some info -> var_chained t v info = true).
Proof.
  unfold trail_chained. intros Hall.
  apply andb_true_iff in Hall as [Hall Hvars]. apply andb_true_iff in Hall as [Hlen Hentries].
  split; [apply Nat.leb_le; exact Hlen |]. split.
  - exact (forallb_imap_lookup (entry_chained t) (integer_trail_ t) (fun i => i) Hentries).
  - exact (forallb_imap_lookup (var_chained t) (vars_ t) (fun i => i) Hvars).
Qed.

(** The loop, started at an entry of the variable [v] whose bound is at
    least [b], stops at the lowest entry of the chain of [v] whose bound
    is at least [b]. *)
Lemma explain_bound_loop_spec t (v : nat) b e0 :
  trail_chained t = true ->
  (v < length (vars_ t))%nat ->
  integer_trail_ t !! v = Some e0 -> bound e0 < b ->
  forall (idx fuel : nat) prev e,
    (idx < fuel)%nat ->
    integer_trail_ t !! idx = Some e -> var e = Z.of_nat v -> b <= bound e ->
    exists (r : nat) er p,
      explain_bound_loop fuel (integer_trail_ t) b (Z.of_nat idx) prev = Some (Z.of_nat r) /\
      integer_trail_ t !! r = Some er /\ var er = Z.of_nat v /\ b <= bound er /\
      (length (vars_ t) <= r <= idx)%nat /\
      at_index (integer_trail_ t) (prev_trail_index er) = Some p /\
      var p = Z.of_nat v /\ bound p < b.
Proof.
  intros Hch Hv He0 Hlow.
  destruct (trail_chained_facts t Hch) as (Hlen & Hentries & _).
  induction idx as [idx IH] using lt_wf_ind.
  intros fuel prev e Hfuel He Hvar Hb.
  destruct fuel as [| fuel]; [lia |].
  (* The entry is not a level-zero entry. *)
  assert (Hhigh : (length (vars_ t) <= idx)%nat).
  { destruct (Nat.lt_ge_cases idx (length (vars_ t))) as [Hlt | Hge]; [exfalso | exact Hge].
    pose proof (Hentries idx e He) as Hc. unfold entry_chained in Hc.
    destruct (Nat.ltb_spec idx (length (vars_ t))); [| lia].
    apply Z.eqb_eq in Hc. assert (idx = v) by lia. subst idx.
    rewrite He0 in He. injection He as <-. lia. }
  pose proof (Hentries idx e He) as Hc. unfold entry_chained in Hc.
  destruct (Nat.ltb_spec idx (length (vars_ t))); [lia |].
  destruct (Z.ltb_spec (var e) 0); [lia |].
  apply andb_true_iff in Hc as [Hc Hp]. apply andb_true_iff in Hc as [Hp0 Hp1].
  apply Z.leb_le in Hp0. apply Z.ltb_lt in Hp1.
  destruct (at_index (integer_trail_ t) (prev_trail_index e)) as [p |] eqn:Hprev;
    [| discriminate].
  apply andb_true_iff in Hp as [Hpv Hpb]. apply Z.eqb_eq in Hpv. apply Z.ltb_lt in Hpb.
  cbn [explain_bound_loop]. rewrite at_index_nat, He. simpl.
  destruct (Z.eqb_spec (bound e) b) as [Heq | Hne].
  - exists idx, e, p. repeat split; auto; try lia; congruence.
  - destruct (Z.ltb_spec (bound e) b); [lia |].
    set (i' := Z.to_nat (prev_trail_index e)).
    assert (Hi' : prev_trail_index e = Z.of_nat i') by (unfold i'; lia).
    assert (Hlook' : integer_trail_ t !! i' = Some p).
    { apply at_index_Some in Hprev as [_ Hprev]. exact Hprev. }
    rewrite Hi'.
    destruct (Z.le_gt_cases b (bound p)) as [Hbp | Hbp].
    + destruct (IH i' ltac:(lia) fuel (Z.of_nat idx) p ltac:(lia) Hlook' ltac:(congruence) Hbp)
        as (r & er & q & Hrun & Hr & Hrv & Hrb & Hrange & Hq & Hqv & Hqb).
      exists r, er, q. repeat split; auto; lia.
    + destruct fuel as [| fuel]; [lia |].
      cbn [explain_bound_loop]. rewrite at_index_nat, Hlook'. simpl.
      destruct (Z.eqb_spec (bound p) b); [lia |].
      destruct (Z.ltb_spec (bound p) b); [| lia].
      exists idx, e, p. repeat split; auto; try lia; congruence.
Qed.

(** X16.  [FindLowestTrailIndexThatExplainBound] on a trail linked as
    [Enqueue] links it, for a literal [(var >= bound)] that holds: when
    the bound holds at level zero it returns -1 and changes nothing;
    otherwise it returns (the loop ends) the index, above the level-zero
    entries, of an entry of the variable whose bound is at least [bound]
    and whose previous entry, of the same variable, has a bound below
    [bound]; that index is stored in the cache of the variable and nothing
    else changes. *)
Theorem FindLowestTrailIndexThatExplainBound_spec t i_lit info lzb :
  trail_chained t = true ->
  at_index (vars_ t) (il_var i_lit) = Some info ->
  LevelZeroBound t (il_var i_lit) = Some lzb ->
  il_bound i_lit <= current_bound info ->
  (il_bound i_lit <= lzb ->
   forall fuel, FindLowestTrailIndexThatExplainBound fuel i_lit t = Some (-1, t)) /\
  (lzb < il_bound i_lit ->
   exists r e p t',
     FindLowestTrailIndexThatExplainBound (length (integer_trail_ t)) i_lit t = Some (r, t') /\
     at_index (integer_trail_ t) r = Some e /\
     var e = il_var i_lit /\ il_bound i_lit <= bound e /\
     size_ (vars_ t) <= r /\
     at_index (integer_trail_ t) (prev_trail_index e) = Some p /\
     var p = il_var i_lit /\ bound p < il_bound i_lit /\
     at_index (var_trail_index_cache_ t') (il_var i_lit) = Some r /\
     vars_ t' = vars_ t /\ integer_trail_ t' = integer_trail_ t /\
     domains_ t' = domains_ t /\ trail_ t' = trail_ t).
Proof.
  intros Hch Hinfo Hlzb Hholds.
  unfold FindLowestTrailIndexThatExplainBound. rewrite Hlzb. simpl. split.
  - intros Hle fuel. destruct (Z.leb_spec (il_bound i_lit) lzb); [reflexivity | lia].
  - intros Hgt. destruct (Z.leb_spec (il_bound i_lit) lzb); [lia |].
    rewrite Hinfo. simpl.
    destruct (trail_chained_facts t Hch) as (Hlen & Hentries & Hvars).
    apply at_index_Some in Hinfo as [Hvpos Hinfo].
    set (v := Z.to_nat (il_var i_lit)) in *.
    assert (Hv : il_var i_lit = Z.of_nat v) by (unfold v; lia).
    assert (Hvlt : (v < length (vars_ t))%nat) by (eapply lookup_lt_Some; eauto).
    (* The level-zero entry of the variable. *)
    unfold LevelZeroBound in Hlzb.
    destruct (at_index (integer_trail_ t) (il_var i_lit)) as [e0 |] eqn:He0; [| discriminate].
    simpl in Hlzb. injection Hlzb as <-.
    apply at_index_Some in He0 as [_ He0]. fold v in He0.
    (* The current entry of the variable and its cached index. *)
    pose proof (Hvars v info Hinfo) as Hc. unfold var_chained in Hc.
    destruct (at_index (integer_trail_ t) (current_trail_index info)) as [ec |] eqn:Hec;
      [| discriminate].
    destruct (var_trail_index_cache_ t !! v) as [cached |] eqn:Hcache; [| discriminate].
    apply andb_true_iff in Hc as [Hc Hcpos]. apply andb_true_iff in Hc as [Hcv Hcb].
    apply Z.eqb_eq in Hcv, Hcb. apply Z.leb_le in Hcpos.
    assert (Hcache' : at_index (var_trail_index_cache_ t) (il_var i_lit) = Some cached).
    { rewrite Hv, at_index_nat. exact Hcache. }
    rewrite Hcache'. simpl.
    (* The index the loop starts from. *)
    assert (Hstart : exists (idx : nat) e,
               (if cached <? current_trail_index info then
                  entry ← at_index (integer_trail_ t) cached;
                  Some (if (var entry =? il_var i_lit) && (il_bound i_lit <=? bound entry)
                        then cached else current_trail_index info)
                else Some (current_trail_index info)) = Some (Z.of_nat idx) /\
               integer_trail_ t !! idx = Some e /\ var e = Z.of_nat v /\
               il_bound i_lit <= bound e).
    { pose proof (at_index_lt _ _ _ Hec) as Hrange.
      apply at_index_Some in Hec as [Hcpos' Hec].
      assert (Hdefault : exists (idx : nat) e,
                 Some (current_trail_index info) = Some (Z.of_nat idx) /\
                 integer_trail_ t !! idx = Some e /\ var e = Z.of_nat v /\
                 il_bound i_lit <= bound e).
      { exists (Z.to_nat (current_trail_index info)), ec.
        split; [f_equal; lia |]. split; [exact Hec |]. split; [exact Hcv | lia]. }
      destruct (Z.ltb_spec cached (current_trail_index info)) as [Hlt | Hge];
        [| exact Hdefault].
      assert (Hin : (Z.to_nat cached < length (integer_trail_ t))%nat)
        by (unfold size_ in Hrange; lia).
      destruct (lookup_lt_is_Some_2 _ _ Hin) as [ecached Hecached].
      assert (Hat : at_index (integer_trail_ t) cached = Some ecached).
      { unfold at_index. destruct (Z.leb_spec 0 cached); [exact Hecached | lia]. }
      rewrite Hat. simpl.
      destruct (Z.eqb_spec (var ecached) (il_var i_lit)) as [Hsame | _];
        [| exact Hdefault].
      destruct (Z.leb_spec (il_bound i_lit) (bound ecached)) as [Hok | _];
        [| exact Hdefault].
      simpl. exists (Z.to_nat cached), ecached.
      split; [f_equal; lia |]. split; [exact Hecached |]. split; [congruence | exact Hok]. }
    destruct Hstart as (idx & e & -> & He & Hev & Heb). simpl.
    destruct (explain_bound_loop_spec t v (il_bound i_lit) e0 Hch Hvlt He0 ltac:(lia)
                idx (length (integer_trail_ t)) (Z.of_nat idx) e)
      as (r & er & p & Hrun & Hr & Hrv & Hrb & Hrange & Hp & Hpv & Hpb); auto.
    { eapply lookup_lt_Some; eauto. }
    rewrite Hrun. simpl.
    assert (Hclen : (v < length (var_trail_index_cache_ t))%nat)
      by (eapply lookup_lt_Some; eauto).
    unfold store_at.
    destruct (Z.leb_spec 0 (il_var i_lit)); [| lia].
    destruct (Z.ltb_spec (il_var i_lit) (Z.of_nat (length (var_trail_index_cache_ t))));
      [| lia].
    simpl. eexists (Z.of_nat r), er, p, _. split; [reflexivity |].
    split; [rewrite at_index_nat; exact Hr |].
    split; [congruence |]. split; [exact Hrb |].
    split; [unfold size_; lia |]. split; [exact Hp |]. split; [congruence |].
    split; [exact Hpb |]. split; [| auto].
    simpl. unfold at_index. destruct (Z.leb_spec 0 (il_var i_lit)); [| lia].
    apply list_lookup_insert_eq. exact Hclen.
Qed.

End ExplainFacts.

(** ** The bounds pushed since level zero *)

Section NewBoundsFacts.
Context {B : Type} `{!BooleanSide B}.
Implicit Type t : IntegerTrail B.

Lemma append_new_bounds_spec entries num_vars :
  forall marked output out',
    append_new_bounds entries num_vars marked output = Some out' ->
    NoDup marked ->
    exists new,
      out' = output ++ new /\
      NoDup (marked ++ map il_var new) /\
      (forall l, l ∈ new ->
         exists (k : nat) e,
           entries !! k = Some e /\ l = GreaterOrEqual (var e) (bound e) /\
           0 <= var e < num_vars /\ (var e ∉ marked) /\
           forall j e', (j < k)%nat -> entries !! j = Some e' -> var e' <> var e) /\
      (forall k e, entries !! k = Some e -> var e <> kNoIntegerVariable ->
                   var e ∈ marked \/ var e ∈ map il_var new).
Proof.
  induction entries as [| entry rest IH]; intros marked output out' Hrun Hnd.
  - simpl in Hrun. injection Hrun as <-. exists []. rewrite !app_nil_r.
    split; [reflexivity |]. split; [exact Hnd |].
    split; [intros l Hl; inversion Hl | intros k e Hk; discriminate].
  - simpl in Hrun.
    (* Lifting the facts about the rest of the entries over a skipped entry. *)
    assert (Hskip : (var entry = kNoIntegerVariable \/ var entry ∈ marked) ->
                    append_new_bounds rest num_vars marked output = Some out' ->
                    exists new,
                      out' = output ++ new /\
                      NoDup (marked ++ map il_var new) /\
                      (forall l, l ∈ new ->
                         exists (k : nat) e,
                           (entry :: rest) !! k = Some e /\
                           l = GreaterOrEqual (var e) (bound e) /\
                           0 <= var e < num_vars /\ (var e ∉ marked) /\
                           forall j e', (j < k)%nat -> (entry :: rest) !! j = Some e' ->
                                        var e' <> var e) /\
                      (forall k e, (entry :: rest) !! k = Some e ->
                                   var e <> kNoIntegerVariable ->
                                   var e ∈ marked \/ var e ∈ map il_var new)).
    { intros Hwhy Hrest.
      destruct (IH _ _ _ Hrest Hnd) as (new & Hout & Hnd' & Hfirst & Hall).
      exists new. split; [exact Hout |]. split; [exact Hnd' |]. split.
      - intros l Hl. destruct (Hfirst l Hl) as (k & e & Hk & Hlit & Hrange & Hnew & Hbefore).
        exists (S k), e. split; [exact Hk |]. split; [exact Hlit |].
        split; [exact Hrange |]. split; [exact Hnew |].
        intros j e' Hj Hlook. destruct j as [| j]; simpl in Hlook.
        + injection Hlook as <-. intros Heq.
          destruct Hwhy as [Hno | Hin].
          * unfold kNoIntegerVariable in Hno. lia.
          * apply Hnew. rewrite <- Heq. exact Hin.
        + apply (Hbefore j e' ltac:(lia) Hlook).
      - intros k e Hk Hvar. destruct k as [| k]; simpl in Hk.
        + injection Hk as <-. destruct Hwhy as [Hno | Hin]; [contradiction | auto].
        + exact (Hall k e Hk Hvar). }
    destruct (Z.eqb_spec (var entry) kNoIntegerVariable) as [Hno | Hvar].
    { apply Hskip; auto. }
    destruct (guard _) as [Hrange |]; [| discriminate]. simpl in Hrun.
    destruct (decide (var entry ∈ marked)) as [Hin | Hnin].
    { apply Hskip; auto. }
    assert (Hnd1 : NoDup (marked ++ [var entry])).
    { apply NoDup_app. split; [exact Hnd |]. split; [| apply NoDup_singleton].
      intros x Hx Hx'. apply list_elem_of_singleton in Hx'. subst x. contradiction. }
    destruct (IH _ _ _ Hrun Hnd1) as (new & Hout & Hnd' & Hfirst & Hall).
    exists (GreaterOrEqual (var entry) (bound entry) :: new).
    split; [rewrite Hout, <- app_assoc; reflexivity |].
    split; [simpl; rewrite <- app_assoc in Hnd'; exact Hnd' |].
    split.
    + intros l Hl. apply elem_of_cons in Hl as [-> | Hl].
      * exists 0%nat, entry. split; [reflexivity |]. split; [reflexivity |].
        split; [exact Hrange |]. split; [exact Hnin |]. intros j e' Hj. lia.
      * destruct (Hfirst l Hl) as (k & e & Hk & Hlit & Hr & Hnew & Hbefore).
        exists (S k), e. split; [exact Hk |]. split; [exact Hlit |].
        split; [exact Hr |].
        split; [intros Hm; apply Hnew, elem_of_app; left; exact Hm |].
        intros j e' Hj Hlook. destruct j as [| j]; simpl in Hlook.
        -- injection Hlook as <-. intros Heq. apply Hnew, elem_of_app. right.
           rewrite Heq. constructor.
        -- apply (Hbefore j e' ltac:(lia) Hlook).
    + intros k e Hk Hv. destruct k as [| k]; simpl in Hk.
      * injection Hk as <-. right. simpl. constructor.
      * destruct (Hall k e Hk Hv) as [Hm | Hm].
        -- apply elem_of_app in Hm as [Hm | Hm]; [left; exact Hm |].
           apply list_elem_of_singleton in Hm. right. simpl. rewrite Hm. constructor.
        -- right. simpl. constructor. exact Hm.
Qed.

(** X17.  [AppendNewBounds] appends to the output one literal for every
    variable that has a trail entry above the level-zero entries, and no
    other: no variable gets two literals, and the literal of a variable is
    [(var >= bound)] for the bound of the first, that is the oldest and
    weakest, of its entries above level zero. *)
Theorem AppendNewBounds_spec output t out' :
  AppendNewBounds output t = Some out' ->
  exists new,
    out' = output ++ new /\
    NoDup (map il_var new) /\
    (forall l, l ∈ new ->
       exists (i : nat) e,
         integer_trail_ t !! i = Some e /\ (length (vars_ t) <= i)%nat /\
         l = GreaterOrEqual (var e) (bound e) /\
         0 <= var e < size_ (vars_ t) /\
         forall j e', (length (vars_ t) <= j < i)%nat ->
                      integer_trail_ t !! j = Some e' -> var e' <> var e) /\
    (forall i e, integer_trail_ t !! i = Some e -> (length (vars_ t) <= i)%nat ->
                 var e <> kNoIntegerVariable ->
                 exists l, l ∈ new /\ il_var l = var e).
Proof.
  unfold AppendNewBounds. intros Hrun.
  destruct (append_new_bounds_spec _ _ _ _ _ Hrun (NoDup_nil_2))
    as (new & Hout & Hnd & Hfirst & Hall).
  exists new. split; [exact Hout |]. split; [exact Hnd |]. split.
  - intros l Hl. destruct (Hfirst l Hl) as (k & e & Hk & Hlit & Hrange & _ & Hbefore).
    rewrite lookup_drop in Hk.
    exists (length (vars_ t) + k)%nat, e.
    split; [exact Hk |]. split; [lia |]. split; [exact Hlit |]. split; [exact Hrange |].
    intros j e' Hj Hlook.
    apply (Hbefore (j - length (vars_ t))%nat e' ltac:(lia)).
    rewrite lookup_drop. replace (length (vars_ t) + (j - length (vars_ t)))%nat with j by lia.
    exact Hlook.
  - intros i e Hi Hge Hvar.
    destruct (Hall (i - length (vars_ t))%nat e) as [Hm | Hm]; auto.
    + rewrite lookup_drop.
      replace (length (vars_ t) + (i - length (vars_ t)))%nat with i by lia. exact Hi.
    + inversion Hm.
    + apply list_elem_of_fmap in Hm as (l & Hl & Hin). exists l. auto.
Qed.

End NewBoundsFacts.

(** ** Reasons and level zero *)

Section LevelZeroFacts.
Context {B : Type} `{!BooleanSide B}.
Implicit Type t : IntegerTrail B.

(** X18.  [RemoveLevelZeroBounds] keeps, in order, exactly the literals
    of the reason whose bound is above the level-zero bound of their
    variable; the literals it drops are those for which
    [FindLowestTrailIndexThatExplainBound] returns -1 (nothing to
    explain); a second call changes nothing. *)
Theorem RemoveLevelZeroBounds_spec reason t kept :
  RemoveLevelZeroBounds reason t = Some kept ->
  sublist kept reason /\
  Forall (fun l => exists lzb, LevelZeroBound t (il_var l) = Some lzb /\ lzb < il_bound l)
    kept /\
  (forall l, l ∈ reason ->
     l ∈ kept \/
     (exists lzb, LevelZeroBound t (il_var l) = Some lzb /\ il_bound l <= lzb) /\
     forall fuel, FindLowestTrailIndexThatExplainBound fuel l t = Some (-1, t)) /\
  RemoveLevelZeroBounds kept t = Some kept.
Proof.
  revert kept. induction reason as [| literal rest IH]; intros kept Hrun.
  - simpl in Hrun. injection Hrun as <-.
    split; [constructor |]. split; [constructor |].
    split; [intros l Hl; inversion Hl | reflexivity].
  - simpl in Hrun.
    destruct (LevelZeroBound t (il_var literal)) as [lzb |] eqn:Hlzb; [| discriminate].
    simpl in Hrun.
    destruct (RemoveLevelZeroBounds rest t) as [kept0 |] eqn:Hrest; [| discriminate].
    simpl in Hrun. injection Hrun as <-.
    destruct (IH kept0 eq_refl) as (Hsub & Hall & Hcover & Hagain).
    destruct (Z.leb_spec (il_bound literal) lzb) as [Hle | Hgt].
    + split; [constructor; exact Hsub |]. split; [exact Hall |].
      split; [| exact Hagain].
      intros l Hl. apply elem_of_cons in Hl as [-> | Hl]; [| auto].
      right. split; [eauto |]. intros fuel.
      unfold FindLowestTrailIndexThatExplainBound. rewrite Hlzb. simpl.
      destruct (Z.leb_spec (il_bound literal) lzb); [reflexivity | lia].
    + split; [constructor; exact Hsub |].
      split; [constructor; [eauto | exact Hall] |].
      split.
      * intros l Hl. apply elem_of_cons in Hl as [-> | Hl]; [left; constructor |].
        destruct (Hcover l Hl) as [Hin | Hout]; [left; constructor; exact Hin | auto].
      * simpl. rewrite Hlzb, Hagain. simpl.
        destruct (Z.leb_spec (il_bound literal) lzb); [lia | reflexivity].
Qed.

End LevelZeroFacts.

(** ** Examples on the concrete trails *)

Lemma Canonicalize_spec_witness :
  Canonicalize (domains_ (holes_trail 5)) (GreaterOrEqual 0 5)
  = Some (GreaterOrEqual 0 7, LowerOrEqual 0 3) /\
  least_value_from [MkInterval 0 3; MkInterval 7 10] 5 7.
Proof.
  destruct (Canonicalize_spec (domains_ (holes_trail 5)) (GreaterOrEqual 0 5)
              [MkInterval 0 3; MkInterval 7 10] eq_refl holes_domain_wf eq_refl)
    as [_ Hin].
  { vm_compute. reflexivity. }
  destruct Hin as (before & after & Hrun & Hleast & _).
  { vm_compute. discriminate. }
  { vm_compute. discriminate. }
  assert (Hc : Canonicalize (domains_ (holes_trail 5)) (GreaterOrEqual 0 5)
               = Some (GreaterOrEqual 0 7, LowerOrEqual 0 3)) by reflexivity.
  split; [exact Hc |].
  rewrite Hc in Hrun. unfold GreaterOrEqual, LowerOrEqual in Hrun.
  injection Hrun as Hafter _. subst after. exact Hleast.
Defined.

Lemma Enqueue_never_weakens_a_bound_witness :
  exists t',
    Enqueue_same_reason 3 (GreaterOrEqual 0 3) [] [] None example_trail = Some (true, t') /\
    size_ (vars_ t') = 2 /\
    exists ub', UpperBound t' 0 = Some ub' /\ ub' <= 10.
Proof.
  destruct (Enqueue_same_reason 3 (GreaterOrEqual 0 3) [] [] None example_trail)
    as [[b t'] |] eqn:Hrun; [| vm_compute in Hrun; discriminate].
  destruct (Enqueue_never_weakens_a_bound _ _ _ _ _ _ _ _ Hrun) as (Hsize & _ & Hub).
  assert (Hb : b = true) by (vm_compute in Hrun; injection Hrun as <- _; reflexivity).
  subst b. exists t'. split; [reflexivity |]. split; [exact Hsize |].
  apply (Hub 0 10). reflexivity.
Defined.

Lemma Enqueue_timestamp_witness :
  exists b t',
    Enqueue_same_reason 2 (GreaterOrEqual 0 12) [] [] None example_searched = Some (b, t') /\
    num_enqueues_ example_searched < num_enqueues_ t'.
Proof.
  destruct (Enqueue_same_reason 2 (GreaterOrEqual 0 12) [] [] None example_searched)
    as [[b t'] |] eqn:Hrun; [| vm_compute in Hrun; discriminate].
  destruct (Enqueue_timestamp _ _ _ _ _ _ _ _ Hrun) as (_ & _ & Hgrow).
  exists b, t'. split; [reflexivity |].
  apply (Hgrow (MkVarInfo 3 2)); [reflexivity | reflexivity | simpl; lia].
Defined.

Lemma FindLowestTrailIndexThatExplainBound_spec_witness :
  exists t',
    FindLowestTrailIndexThatExplainBound 4 (GreaterOrEqual 0 2) example_searched
    = Some (2, t') /\
    at_index (var_trail_index_cache_ t') 0 = Some 2.
Proof.
  destruct (FindLowestTrailIndexThatExplainBound_spec example_searched (GreaterOrEqual 0 2)
              (MkVarInfo 3 2) 0) as [_ Hfound]; try reflexivity.
  { simpl. lia. }
  destruct Hfound as (r & e & p & t' & Hrun & _ & _ & _ & _ & _ & _ & _ & Hcache & _).
  { simpl. lia. }
  change (length (integer_trail_ example_searched)) with 4%nat in Hrun.
  assert (Hr : r = 2).
  { destruct (FindLowestTrailIndexThatExplainBound 4 (GreaterOrEqual 0 2) example_searched)
      as [[r0 t0] |] eqn:E; [| discriminate].
    injection Hrun as -> _. vm_compute in E. injection E as <- _. reflexivity. }
  subst r. exists t'. split; [exact Hrun | exact Hcache].
Defined.

Lemma AppendNewBounds_spec_witness :
  AppendNewBounds [] example_searched = Some [GreaterOrEqual 0 3; GreaterOrEqual 1 (-7)] /\
  exists new,
    [GreaterOrEqual 0 3; GreaterOrEqual 1 (-7)] = [] ++ new /\ NoDup (map il_var new).
Proof.
  split; [reflexivity |].
  destruct (AppendNewBounds_spec [] example_searched
              [GreaterOrEqual 0 3; GreaterOrEqual 1 (-7)] eq_refl) as (new & Hout & Hnd & _).
  exists new. split; [exact Hout | exact Hnd].
Defined.

Lemma RemoveLevelZeroBounds_spec_witness :
  RemoveLevelZeroBounds [GreaterOrEqual 0 0; GreaterOrEqual 0 3; GreaterOrEqual 1 (-10)]
    example_searched
  = Some [GreaterOrEqual 0 3] /\
  sublist [GreaterOrEqual 0 3] [GreaterOrEqual 0 0; GreaterOrEqual 0 3; GreaterOrEqual 1 (-10)].
Proof.
  split; [reflexivity |].
  destruct (RemoveLevelZeroBounds_spec
              [GreaterOrEqual 0 0; GreaterOrEqual 0 3; GreaterOrEqual 1 (-10)]
              example_searched [GreaterOrEqual 0 3] eq_refl) as (Hsub & _).
  exact Hsub.
Defined.

(** ** The queues of the propagator scheduler *)

Section QueueFacts.
Context {W : Type} `{!PropagatorWorld W}.
Implicit Type g : GenericLiteralWatcher W.
Import Watcher.

Lemma concat_insert_snoc (qs : list (list Z)) p q id :
  qs !! p = Some q -> concat (<[p := q ++ [id]]> qs) ≡ₚ id :: concat qs.
Proof.
  revert p. induction qs as [| q0 qs IH]; intros p Hp; [discriminate |].
  destruct p as [| p]; simpl in *.
  - injection Hp as ->. rewrite <- app_assoc. simpl.
    rewrite <- Permutation_middle. reflexivity.
  - rewrite (IH p Hp). rewrite <- Permutation_middle. reflexivity.
Qed.

Lemma concat_insert_pop (qs : list (list Z)) p id rest :
  qs !! p = Some (id :: rest) -> concat qs ≡ₚ id :: concat (<[p := rest]> qs).
Proof.
  revert p. induction qs as [| q0 qs IH]; intros p Hp; [discriminate |].
  destruct p as [| p]; simpl in *.
  - injection Hp as ->. reflexivity.
  - rewrite (IH p Hp). rewrite <- Permutation_middle. reflexivity.
Qed.

Lemma wakes_refl g : wakes g g.
Proof. intros Hc. auto. Qed.

Lemma wakes_trans g1 g2 g3 : wakes g1 g2 -> wakes g2 g3 -> wakes g1 g3.
Proof.
  intros H12 H23 Hc. destruct (H12 Hc) as [Hc2 Hk2]. destruct (H23 Hc2) as [Hc3 Hk3].
  split; [exact Hc3 |]. intros x Hx Hq. destruct (Hk2 x Hx Hq) as [Hx2 Hq2]. auto.
Qed.

Lemma wakes_same g g' :
  queue_by_priority_ g' = queue_by_priority_ g -> in_queue_ g' = in_queue_ g -> wakes g g'.
Proof.
  intros Hq Hi Hc. unfold queues_consistent in *. rewrite Hq, Hi. auto.
Qed.

Lemma wake_up_wakes entries : forall g g', wake_up entries g = Some g' -> wakes g g'.
Proof.
  induction entries as [| entry rest IH]; intros g g' Hrun.
  - simpl in Hrun. injection Hrun as <-. apply wakes_refl.
  - simpl in Hrun.
    destruct (at_index (in_queue_ g) (watch_id entry)) as [queued |] eqn:Hq; [| discriminate].
    simpl in Hrun.
    destruct (if queued then Some g else _) as [g1 |] eqn:H1; [| discriminate].
    simpl in Hrun.
    destruct (if 0 <=? watch_index entry then _ else Some g1) as [g2 |] eqn:H2;
      [| discriminate].
    simpl in Hrun.
    assert (W1 : wakes g g1).
    { destruct queued; [injection H1 as <-; apply wakes_refl |].
      destruct (at_index (id_to_priority_ g) (watch_id entry)) as [priority |];
        [| discriminate].
      simpl in H1.
      destruct (at_index (queue_by_priority_ g) priority) as [q |] eqn:Hqueue;
        [| discriminate].
      simpl in H1.
      destruct (store_at (in_queue_ g) (watch_id entry) true) as [inq |] eqn:Hinq;
        [| discriminate].
      simpl in H1.
      destruct (store_at (queue_by_priority_ g) priority (q ++ [watch_id entry]))
        as [qs |] eqn:Hqs; [| discriminate].
      simpl in H1. injection H1 as <-.
      apply store_at_Some in Hqs as (_ & _ & ->).
      apply at_index_Some in Hqueue as [_ Hqueue].
      pose proof (concat_insert_snoc _ _ _ (watch_id entry) Hqueue) as Hperm.
      intros [Hnd Hall]. unfold queues_consistent. simpl.
      assert (Hfresh : watch_id entry ∉ concat (queue_by_priority_ g)).
      { intros Hin. rewrite Forall_forall in Hall. specialize (Hall _ Hin). congruence. }
      assert (Hkeep : forall x, at_index (in_queue_ g) x = Some true ->
                                at_index inq x = Some true).
      { intros x Hx. pose proof (at_index_Some _ _ _ Hx) as [Hxpos _].
        destruct (Z.eq_dec x (watch_id entry)) as [-> | Hne].
        - eapply at_index_store_eq; eauto.
        - rewrite (at_index_store_ne _ _ _ _ _ Hinq Hxpos Hne). exact Hx. }
      split; [split |].
      - rewrite Hperm. constructor; auto.
      - rewrite Hperm. constructor.
        + eapply at_index_store_eq; eauto.
        + eapply Forall_impl; [exact Hall |]. intros x Hx. simpl in Hx. auto.
      - intros x Hx Hxq. split; [| auto].
        rewrite Hperm. intros Hin. apply elem_of_cons in Hin as [-> | Hin]; [| contradiction].
        congruence. }
    assert (W2 : wakes g1 g2).
    { destruct (0 <=? watch_index entry); [| injection H2 as <-; apply wakes_refl].
      destruct (at_index (id_to_watch_indices_ g1) (watch_id entry)) as [wi |];
        [| discriminate].
      simpl in H2.
      destruct (store_at (id_to_watch_indices_ g1) (watch_id entry) _) as [wis1 |];
        [| discriminate].
      simpl in H2. injection H2 as <-. apply wakes_same; reflexivity. }
    exact (wakes_trans _ _ _ (wakes_trans _ _ _ W1 W2) (IH _ _ Hrun)).
Qed.

Lemma wake_up_literals_wakes positions :
  forall g g', wake_up_literals positions g = Some g' -> wakes g g'.
Proof.
  induction positions as [| i rest IH]; intros g g' Hrun.
  - simpl in Hrun. injection Hrun as <-. apply wakes_refl.
  - simpl in Hrun.
    set (g0 := with_propagation_index (i + 1) g) in *.
    assert (W0 : wakes g g0) by (apply wakes_same; reflexivity).
    destruct (size_ (literal_to_watcher_ g) <=? world_trail_literal (world g) i).
    + exact (wakes_trans _ _ _ W0 (IH _ _ Hrun)).
    + destruct (at_index (literal_to_watcher_ g) (world_trail_literal (world g) i))
        as [entries |]; [| discriminate].
      simpl in Hrun.
      destruct (wake_up entries g0) as [g1 |] eqn:H1; [| discriminate].
      simpl in Hrun.
      exact (wakes_trans _ _ _ W0
               (wakes_trans _ _ _ (wake_up_wakes _ _ _ H1) (IH _ _ Hrun))).
Qed.

Lemma wake_up_variables_wakes vars :
  forall g g', wake_up_variables vars g = Some g' -> wakes g g'.
Proof.
  induction vars as [| v rest IH]; intros g g' Hrun.
  - simpl in Hrun. injection Hrun as <-. apply wakes_refl.
  - simpl in Hrun.
    destruct (size_ (var_to_watcher_ g) <=? v).
    + exact (IH _ _ Hrun).
    + destruct (at_index (var_to_watcher_ g) v) as [entries |]; [| discriminate].
      simpl in Hrun.
      destruct (wake_up entries g) as [g1 |] eqn:H1; [| discriminate].
      simpl in Hrun.
      exact (wakes_trans _ _ _ (wake_up_wakes _ _ _ H1) (IH _ _ Hrun)).
Qed.

Lemma UpdateCallingNeeds_wakes g g' : UpdateCallingNeeds g = Some g' -> wakes g g'.
Proof.
  unfold UpdateCallingNeeds. intros Hrun.
  destruct (wake_up_literals _ g) as [g1 |] eqn:H1; [| discriminate]. simpl in Hrun.
  destruct (wake_up_variables _ g1) as [g2 |] eqn:H2; [| discriminate]. simpl in Hrun.
  injection Hrun as <-.
  eapply wakes_trans; [exact (wake_up_literals_wakes _ _ _ H1) |].
  eapply wakes_trans; [exact (wake_up_variables_wakes _ _ _ H2) |].
  apply wakes_same; reflexivity.
Qed.

Lemma update_reversible_queues id level g g' :
  update_reversible id level g = Some g' ->
  queue_by_priority_ g' = queue_by_priority_ g /\ in_queue_ g' = in_queue_ g /\
  id_to_watch_indices_ g' = id_to_watch_indices_ g /\
  id_to_idempotence_ g' = id_to_idempotence_ g /\
  watcher_propagation_trail_index_ g' = watcher_propagation_trail_index_ g.
Proof.
  unfold update_reversible. intros Hrun.
  destruct (at_index (id_to_greatest_common_level_since_last_call_ g) id) as [low |];
    [| discriminate].
  simpl in Hrun.
  destruct (at_index (id_to_level_at_last_call_ g) id) as [high |]; [| discriminate].
  simpl in Hrun.
  destruct ((low <? high) || (low <? level)).
  2:{ injection Hrun as <-. auto. }
  destruct (store_at (id_to_level_at_last_call_ g) id level) as [last |]; [| discriminate].
  simpl in Hrun.
  destruct (store_at (id_to_greatest_common_level_since_last_call_ g) id level)
    as [common |]; [| discriminate].
  simpl in Hrun.
  destruct (at_index (id_to_reversible_classes_ g) id) as [classes |]; [| discriminate].
  simpl in Hrun.
  destruct (at_index (id_to_reversible_ints_ g) id) as [ints |]; [| discriminate].
  simpl in Hrun.
  injection Hrun as <-. auto.
Qed.

(** One turn of the loop keeps the queues consistent. *)
Lemma run_front_consistent level cur priority id rest g r :
  at_index (queue_by_priority_ g) cur = Some (id :: rest) ->
  queues_consistent g ->
  run_front level cur priority id rest g = Some r ->
  match r with
  | TurnReturn _ g' | TurnContinue _ g' => queues_consistent g'
  end.
Proof.
  intros Hq [Hnd Hall] Hrun. unfold run_front in Hrun.
  destruct (store_at (queue_by_priority_ g) cur rest) as [qs |] eqn:Hqs; [| discriminate].
  simpl in Hrun.
  apply store_at_Some in Hqs as (_ & _ & ->).
  apply at_index_Some in Hq as [_ Hq].
  pose proof (concat_insert_pop _ _ _ _ Hq) as Hperm.
  rewrite Hperm in Hnd, Hall.
  apply NoDup_cons in Hnd as [Hfresh Hnd].
  apply Forall_cons in Hall as [Hflag Hall].
  set (g0 := with_queues _ (in_queue_ g) (id_to_watch_indices_ g) g) in Hrun.
  destruct (update_reversible id level g0) as [g1 |] eqn:H1; [| discriminate].
  simpl in Hrun.
  apply update_reversible_queues in H1 as (Hq1 & Hi1 & _).
  destruct (at_index (id_to_watch_indices_ g1) id) as [watch_indices |]; [| discriminate].
  simpl in Hrun.
  set (w1 := snd _) in Hrun. set (ok := fst _) in Hrun.
  destruct (store_at (id_to_watch_indices_ _) id []) as [wis |]; [| discriminate].
  simpl in Hrun.
  destruct (store_at (in_queue_ _) id false) as [inq |] eqn:Hinq; [| discriminate].
  simpl in Hrun. simpl in Hinq.
  (* Clearing the flag of the propagator that was run, which is not queued. *)
  assert (Hclear : forall (qs' : list (list Z)) inq0 inq',
             NoDup (concat qs') ->
             Forall (fun x => at_index inq0 x = Some true) (concat qs') ->
             id ∉ concat qs' ->
             store_at inq0 id false = Some inq' ->
             Forall (fun x => at_index inq' x = Some true) (concat qs')).
  { intros qs' inq0 inq' _ Hall' Hout Hstore.
    rewrite Forall_forall in *. intros x Hx.
    pose proof (Hall' x Hx) as Hflagx.
    pose proof (at_index_Some _ _ _ Hflagx) as [Hxpos _].
    rewrite (at_index_store_ne _ _ _ _ _ Hstore Hxpos); [exact Hflagx |].
    intros ->. contradiction. }
  assert (Hc1 : queues_consistent g1).
  { split; rewrite Hq1; [exact Hnd |]. rewrite Hi1. exact Hall. }
  destruct ok; simpl in Hrun.
  2:{ injection Hrun as <-. split; simpl; rewrite Hq1; [exact Hnd |].
      apply (Hclear _ (in_queue_ g1) inq);
        [exact Hnd | rewrite Hi1; exact Hall | exact Hfresh | exact Hinq]. }
  destruct (at_index (id_to_idempotence_ _) id) as [idempotent |]; [| discriminate].
  simpl in Hrun.
  destruct (if idempotent then _ else _) as [g3 |] eqn:H3; [| discriminate].
  simpl in Hrun.
  assert (Hc3 : queues_consistent g3).
  { destruct idempotent.
    - destruct (UpdateCallingNeeds (with_world w1 g1)) as [g2 |] eqn:H2; [| discriminate].
      simpl in H3.
      destruct (store_at (id_to_watch_indices_ g2) id []) as [wis2 |]; [| discriminate].
      simpl in H3.
      destruct (store_at (in_queue_ g2) id false) as [inq2 |] eqn:Hinq2; [| discriminate].
      simpl in H3. injection H3 as <-.
      destruct (UpdateCallingNeeds_wakes _ _ H2) as [[Hnd2 Hall2] Hkeep].
      { exact Hc1. }
      destruct (Hkeep id) as [Hout2 _].
      { simpl. rewrite Hq1. exact Hfresh. }
      { simpl. rewrite Hi1. exact Hflag. }
      split; simpl; [exact Hnd2 |].
      apply (Hclear _ (in_queue_ g2) inq2);
        [exact Hnd2 | exact Hall2 | exact Hout2 | exact Hinq2].
    - apply UpdateCallingNeeds_wakes in H3. apply H3.
      split; simpl; rewrite Hq1; [exact Hnd |].
      apply (Hclear _ (in_queue_ g1) inq);
        [exact Hnd | rewrite Hi1; exact Hall | exact Hfresh | exact Hinq]. }
  destruct (_ <? world_trail_index (world g3)); injection Hrun as <-; exact Hc3.
Qed.

Lemma propagate_loops_consistent fuel level :
  forall current priority g b g',
    queues_consistent g ->
    propagate_loops fuel level current priority g = Some (b, g') ->
    queues_consistent g'.
Proof.
  induction fuel as [| fuel IH]; intros current priority g b g' Hc Hrun; [discriminate |].
  simpl in Hrun. destruct current as [cur |].
  - destruct (at_index (queue_by_priority_ g) cur) as [q |] eqn:Hq; [| discriminate].
    simpl in Hrun. destruct q as [| id rest].
    + exact (IH _ _ _ _ _ Hc Hrun).
    + destruct (run_front level cur priority id rest g) as [r |] eqn:Hr; [| discriminate].
      simpl in Hrun.
      pose proof (run_front_consistent _ _ _ _ _ _ _ Hq Hc Hr) as Hc'.
      destruct r as [result g1 | priority1 g1].
      * injection Hrun as _ <-. exact Hc'.
      * exact (IH _ _ _ _ _ Hc' Hrun).
  - destruct (priority <? size_ (queue_by_priority_ g)).
    + exact (IH _ _ _ _ _ Hc Hrun).
    + injection Hrun as _ <-. exact Hc.
Qed.

(** X19.  The scheduler never queues a propagator twice: from queues
    without duplicates whose propagators are all flagged in [in_queue_],
    [UpdateCallingNeeds] and [Propagate], whatever the propagators do and
    whatever the result, end with queues without duplicates whose
    propagators are all flagged. *)
Theorem Propagate_never_queues_twice fuel g :
  queues_consistent g ->
  (forall g', UpdateCallingNeeds g = Some g' -> queues_consistent g') /\
  (forall b g', Propagate fuel g = Some (b, g') -> queues_consistent g').
Proof.
  intros Hc. split.
  - intros g' Hrun. apply (UpdateCallingNeeds_wakes _ _ Hrun Hc).
  - intros b g' Hrun. unfold Propagate in Hrun.
    destruct (UpdateCallingNeeds g) as [g1 |] eqn:H1; [| discriminate].
    simpl in Hrun.
    eapply propagate_loops_consistent; [| exact Hrun].
    apply (UpdateCallingNeeds_wakes _ _ H1 Hc).
Qed.

End QueueFacts.

(** ** The fixed point of the propagator scheduler *)

Section FixedPointFacts.
Context {W : Type} `{!PropagatorWorld W}.
Implicit Type g : GenericLiteralWatcher W.
Import Watcher.

(** Waking propagators up touches neither the world nor the index of the
    next literal to dispatch. *)
Lemma wake_up_frame entries : forall g g',
  wake_up entries g = Some g' ->
  world g' = world g /\
  watcher_propagation_trail_index_ g' = watcher_propagation_trail_index_ g.
Proof.
  induction entries as [| entry rest IH]; intros g g' Hrun.
  - simpl in Hrun. injection Hrun as <-. auto.
  - simpl in Hrun.
    destruct (at_index (in_queue_ g) (watch_id entry)) as [queued |]; [| discriminate].
    simpl in Hrun.
    destruct (if queued then Some g else _) as [g1 |] eqn:H1; [| discriminate].
    simpl in Hrun.
    destruct (if 0 <=? watch_index entry then _ else Some g1) as [g2 |] eqn:H2;
      [| discriminate].
    simpl in Hrun.
    assert (F1 : world g1 = world g /\
                 watcher_propagation_trail_index_ g1 = watcher_propagation_trail_index_ g).
    { destruct queued; [injection H1 as <-; auto |].
      destruct (at_index (id_to_priority_ g) (watch_id entry)) as [priority |];
        [| discriminate].
      simpl in H1.
      destruct (at_index (queue_by_priority_ g) priority) as [q |]; [| discriminate].
      simpl in H1.
      destruct (store_at (in_queue_ g) (watch_id entry) true) as [inq |]; [| discriminate].
      simpl in H1.
      destruct (store_at (queue_by_priority_ g) priority (q ++ [watch_id entry]))
        as [qs |]; [| discriminate].
      simpl in H1. injection H1 as <-. auto. }
    assert (F2 : world g2 = world g1 /\
                 watcher_propagation_trail_index_ g2 = watcher_propagation_trail_index_ g1).
    { destruct (0 <=? watch_index entry); [| injection H2 as <-; auto].
      destruct (at_index (id_to_watch_indices_ g1) (watch_id entry)) as [wi |];
        [| discriminate].
      simpl in H2.
      destruct (store_at (id_to_watch_indices_ g1) (watch_id entry) _) as [wis1 |];
        [| discriminate].
      simpl in H2. injection H2 as <-. auto. }
    destruct (IH _ _ Hrun) as [E1 E2]. destruct F1 as [F1 F1']. destruct F2 as [F2 F2'].
    split; congruence.
Qed.

Lemma wake_up_literals_frame positions : forall g g',
  wake_up_literals positions g = Some g' ->
  world g' = world g /\
  watcher_propagation_trail_index_ g'
  = foldl (fun _ i => i + 1) (watcher_propagation_trail_index_ g) positions.
Proof.
  induction positions as [| i rest IH]; intros g g' Hrun.
  - simpl in Hrun. injection Hrun as <-. auto.
  - simpl in Hrun.
    destruct (size_ (literal_to_watcher_ g) <=? world_trail_literal (world g) i).
    + destruct (IH _ _ Hrun) as [E1 E2]. simpl in *. auto.
    + destruct (at_index (literal_to_watcher_ g) (world_trail_literal (world g) i))
        as [entries |]; [| discriminate].
      simpl in Hrun.
      destruct (wake_up entries (with_propagation_index (i + 1) g)) as [g1 |] eqn:H1;
        [| discriminate].
      simpl in Hrun.
      destruct (wake_up_frame _ _ _ H1) as [F1 F2].
      destruct (IH _ _ Hrun) as [E1 E2]. simpl in *.
      split; [congruence |]. rewrite E2, F2. reflexivity.
Qed.

Lemma wake_up_variables_frame vars : forall g g',
  wake_up_variables vars g = Some g' ->
  world g' = world g /\
  watcher_propagation_trail_index_ g' = watcher_propagation_trail_index_ g.
Proof.
  induction vars as [| v rest IH]; intros g g' Hrun.
  - simpl in Hrun. injection Hrun as <-. auto.
  - simpl in Hrun.
    destruct (size_ (var_to_watcher_ g) <=? v).
    + exact (IH _ _ Hrun).
    + destruct (at_index (var_to_watcher_ g) v) as [entries |]; [| discriminate].
      simpl in Hrun.
      destruct (wake_up entries g) as [g1 |] eqn:H1; [| discriminate].
      simpl in Hrun.
      destruct (wake_up_frame _ _ _ H1) as [F1 F2].
      destruct (IH _ _ Hrun) as [E1 E2]. split; congruence.
Qed.

Lemma foldl_positions from n start :
  foldl (fun _ i => i + 1) start (map (fun k => from + Z.of_nat k) (seq 0 n))
  = match n with O => start | S _ => from + Z.of_nat n end.
Proof.
  induction n as [| n IH]; [reflexivity |].
  rewrite seq_S, map_app, foldl_app. simpl. lia.
Qed.

(** What [UpdateCallingNeeds] leaves behind: the modified variables are
    reset, and the index of the next literal to dispatch has caught up
    with the Boolean trail. *)
Lemma UpdateCallingNeeds_frame g g' :
  UpdateCallingNeeds g = Some g' ->
  world g' = world_clear_modified_vars (world g) /\
  watcher_propagation_trail_index_ g'
  = Z.max (watcher_propagation_trail_index_ g) (world_trail_index (world g)).
Proof.
  unfold UpdateCallingNeeds. cbv zeta. intros Hrun.
  destruct (wake_up_literals _ g) as [g1 |] eqn:H1; [| discriminate]. simpl in Hrun.
  destruct (wake_up_variables _ g1) as [g2 |] eqn:H2; [| discriminate]. simpl in Hrun.
  injection Hrun as <-. simpl.
  destruct (wake_up_literals_frame _ _ _ H1) as [E1 E2].
  destruct (wake_up_variables_frame _ _ _ H2) as [F1 F2].
  split; [congruence |].
  rewrite F2, E2, foldl_positions.
  destruct (Z.to_nat (world_trail_index (world g) - watcher_propagation_trail_index_ g))
    eqn:Hn; lia.
Qed.

(** With nothing to dispatch, [UpdateCallingNeeds] queues nothing. *)
Lemma UpdateCallingNeeds_nothing g :
  all_dispatched g ->
  UpdateCallingNeeds g = Some (with_world (world_clear_modified_vars (world g)) g).
Proof.
  intros [Hmod Hidx]. unfold UpdateCallingNeeds. cbv zeta.
  replace (Z.to_nat (world_trail_index (world g) - watcher_propagation_trail_index_ g))
    with 0%nat by lia.
  simpl. rewrite Hmod. reflexivity.
Qed.

Lemma foldl_keeps_timestamps {A} (f : W -> A -> W) (l : list A) :
  (forall a, keeps_timestamps (fun w => f w a)) ->
  keeps_timestamps (fun w => foldl f w l).
Proof.
  intros Hf. induction l as [| a l IH]; intros w; simpl; [auto |].
  destruct (IH (f w a)) as (E1 & E2 & E3). destruct (Hf a w) as (F1 & F2 & F3).
  repeat split; congruence.
Qed.

Lemma update_reversible_world id level g g' :
  well_behaved_world ->
  update_reversible id level g = Some g' ->
  world_trail_index (world g') = world_trail_index (world g) /\
  world_num_enqueues (world g') = world_num_enqueues (world g) /\
  world_modified_vars (world g') = world_modified_vars (world g).
Proof.
  intros (_ & _ & Hset & Hsave & _). unfold update_reversible. intros Hrun.
  destruct (at_index (id_to_greatest_common_level_since_last_call_ g) id) as [low |];
    [| discriminate].
  simpl in Hrun.
  destruct (at_index (id_to_level_at_last_call_ g) id) as [high |]; [| discriminate].
  simpl in Hrun.
  destruct ((low <? high) || (low <? level)).
  2:{ injection Hrun as <-. auto. }
  destruct (store_at (id_to_level_at_last_call_ g) id level) as [last |]; [| discriminate].
  simpl in Hrun.
  destruct (store_at (id_to_greatest_common_level_since_last_call_ g) id level)
    as [common |]; [| discriminate].
  simpl in Hrun.
  destruct (at_index (id_to_reversible_classes_ g) id) as [classes |]; [| discriminate].
  simpl in Hrun.
  destruct (at_index (id_to_reversible_ints_ g) id) as [ints |]; [| discriminate].
  simpl in Hrun.
  injection Hrun as <-. simpl.
  match goal with
  | |- context [foldl ?f2 (foldl ?f1 (world g) classes) ints] =>
      pose proof (foldl_keeps_timestamps f2 ints) as K2;
      pose proof (foldl_keeps_timestamps f1 classes) as K1
  end.
  destruct (K1 ltac:(intros rev w;
                     destruct (low <? high), (low <? level); simpl;
                     try (destruct (Hset rev low w) as (? & ? & ?));
                     try (destruct (Hset rev level w) as (? & ? & ?));
                     try (destruct (Hset rev level (reversible_SetLevel rev low w))
                            as (? & ? & ?));
                     repeat split; congruence) (world g)) as (E1 & E2 & E3).
  destruct (K2 ltac:(intros rev_int; apply Hsave)
              (foldl (fun w rev =>
                        let w := if low <? high then reversible_SetLevel rev low w else w in
                        if low <? level then reversible_SetLevel rev level w else w)
                     (world g) classes)) as (F1 & F2 & F3).
  simpl in *. repeat split; congruence.
Qed.

(** One turn of the loop: either it ends the call, with a new literal on
    the Boolean trail when the result is true, or it keeps everything
    dispatched and the queues below the loop variable empty. *)
Lemma run_front_fixed level cur priority id rest g r :
  well_behaved_world ->
  at_index (queue_by_priority_ g) cur = Some (id :: rest) ->
  all_dispatched g ->
  priority = cur \/ priority < 0 ->
  (forall k q, 0 <= k < priority -> at_index (queue_by_priority_ g) k = Some q -> q = []) ->
  run_front level cur priority id rest g = Some r ->
  match r with
  | TurnReturn true g' => world_trail_index (world g) < world_trail_index (world g')
  | TurnReturn false g' => True
  | TurnContinue priority' g' =>
      all_dispatched g' /\ (priority' = cur \/ priority' < 0) /\
      world_trail_index (world g) <= world_trail_index (world g') /\
      (forall k q, 0 <= k < priority' ->
                   at_index (queue_by_priority_ g') k = Some q -> q = [])
  end.
Proof.
  intros Hworld Hq [Hmod Hidx] Hprio Hlow Hrun. unfold run_front in Hrun.
  pose proof Hworld as (Hrun1 & Hrun2 & _ & _ & Hclear).
  destruct (store_at (queue_by_priority_ g) cur rest) as [qs |] eqn:Hqs; [| discriminate].
  simpl in Hrun.
  pose proof (at_index_Some _ _ _ Hq) as [Hcur _].
  assert (Hqs_low : forall k q, 0 <= k < priority -> at_index qs k = Some q -> q = []).
  { intros k q Hk Hkq. apply (Hlow k q Hk).
    rewrite <- (at_index_store_ne _ _ _ _ _ Hqs) by lia. exact Hkq. }
  destruct (update_reversible id level
              (with_queues qs (in_queue_ g) (id_to_watch_indices_ g) g))
    as [g1 |] eqn:H1; [| discriminate].
  simpl in Hrun.
  destruct (update_reversible_world _ _ _ _ Hworld H1) as (Hi1 & He1 & Hm1).
  apply update_reversible_queues in H1 as (Hq1 & _ & _ & _ & Hp1).
  simpl in Hi1, He1, Hm1, Hq1, Hp1.
  destruct (at_index (id_to_watch_indices_ g1) id) as [watch_indices |]; [| discriminate].
  simpl in Hrun.
  set (r1 := match watch_indices with
             | [] => run_Propagate id (world g1)
             | _ :: _ => run_IncrementalPropagate id watch_indices (world g1)
             end) in Hrun.
  assert (Hforward :
            world_trail_index (world g1) <= world_trail_index (snd r1) /\
            world_num_enqueues (world g1) <= world_num_enqueues (snd r1) /\
            (world_num_enqueues (snd r1) = world_num_enqueues (world g1) ->
             world_modified_vars (snd r1) = [])).
  { unfold r1. destruct watch_indices as [| wi0 wis0].
    - destruct (Hrun1 id (world g1)) as (A1 & A2 & A3).
      repeat split; [exact A1 | exact A2 |]. intros He. apply A3; congruence.
    - destruct (Hrun2 id (wi0 :: wis0) (world g1)) as (A1 & A2 & A3).
      repeat split; [exact A1 | exact A2 |]. intros He. apply A3; congruence. }
  destruct Hforward as (Hf1 & Hf2 & Hf3).
  destruct (store_at (id_to_watch_indices_ g1) id []) as [wis |]; [| discriminate].
  simpl in Hrun.
  destruct (store_at (in_queue_ g1) id false) as [inq |]; [| discriminate].
  simpl in Hrun.
  destruct (fst r1); simpl in Hrun.
  2:{ injection Hrun as <-. exact I. }
  destruct (at_index (id_to_idempotence_ g1) id) as [idempotent |]; [| discriminate].
  simpl in Hrun.
  destruct (if idempotent then _ else _) as [g3 |] eqn:H3; [| discriminate].
  simpl in Hrun.
  (* What the second [UpdateCallingNeeds] leaves, in both orders. *)
  assert (Hg3 :
            world g3 = world_clear_modified_vars (snd r1) /\
            world_trail_index (snd r1) <= watcher_propagation_trail_index_ g3 /\
            (world_trail_index (snd r1) <= world_trail_index (world g1) ->
             world_num_enqueues (snd r1) = world_num_enqueues (world g1) ->
             queue_by_priority_ g3 = qs)).
  { destruct idempotent.
    - destruct (UpdateCallingNeeds (with_world (snd r1) g1)) as [g2 |] eqn:H2;
        [| discriminate].
      simpl in H3.
      destruct (store_at (id_to_watch_indices_ g2) id []) as [wis2 |]; [| discriminate].
      simpl in H3.
      destruct (store_at (in_queue_ g2) id false) as [inq2 |]; [| discriminate].
      simpl in H3. injection H3 as <-. simpl.
      destruct (UpdateCallingNeeds_frame _ _ H2) as [E1 E2]. simpl in E1, E2.
      split; [exact E1 |]. split; [lia |].
      intros Hsame_index Hsame_enqueues.
      rewrite UpdateCallingNeeds_nothing in H2.
      + injection H2 as <-. simpl. exact Hq1.
      + split; simpl; [apply Hf3; exact Hsame_enqueues | lia].
    - destruct (UpdateCallingNeeds_frame _ _ H3) as [E1 E2]. simpl in E1, E2.
      split; [exact E1 |]. split; [lia |].
      intros Hsame_index Hsame_enqueues.
      rewrite UpdateCallingNeeds_nothing in H3.
      + injection H3 as <-. simpl. exact Hq1.
      + split; simpl; [apply Hf3; exact Hsame_enqueues | lia]. }
  destruct Hg3 as (Hw3 & Hp3 & Hq3).
  destruct (Hclear (snd r1)) as (Hc1 & Hc2 & Hc3).
  rewrite Hw3 in Hrun. rewrite Hc2, Hc3 in Hrun.
  destruct (Z.ltb_spec (world_trail_index (world g1)) (world_trail_index (snd r1)))
    as [Hgrew | Hsame].
  - injection Hrun as <-. rewrite Hw3, Hc2. lia.
  - injection Hrun as <-.
    split; [split; rewrite Hw3; [exact Hc1 | rewrite Hc2; exact Hp3] |].
    rewrite Hw3, Hc2.
    destruct (Z.ltb_spec (world_num_enqueues (world g1)) (world_num_enqueues (snd r1)))
      as [Hmore | Hless].
    + split; [right; lia |]. split; [lia |]. intros k q Hk. lia.
    + split; [exact Hprio |]. split; [lia |].
      rewrite Hq3 by lia. exact Hqs_low.
Qed.

Lemma propagate_loops_fixed fuel level :
  well_behaved_world ->
  forall current priority g g',
    all_dispatched g ->
    match current with Some cur => priority = cur \/ priority < 0 | None => True end ->
    (forall k q, 0 <= k < priority ->
                 at_index (queue_by_priority_ g) k = Some q -> q = []) ->
    propagate_loops fuel level current priority g = Some (true, g') ->
    world_trail_index (world g) < world_trail_index (world g') \/
    (Forall (fun q => q = []) (queue_by_priority_ g') /\ all_dispatched g').
Proof.
  intros Hworld.
  induction fuel as [| fuel IH]; intros current priority g g' Hd Hprio Hlow Hrun;
    [discriminate |].
  simpl in Hrun. destruct current as [cur |].
  - destruct (at_index (queue_by_priority_ g) cur) as [q |] eqn:Hq; [| discriminate].
    simpl in Hrun. destruct q as [| id rest].
    + apply (IH None (priority + 1) g g' Hd I) in Hrun; [exact Hrun |].
      intros k q Hk Hkq. destruct Hprio as [-> | Hneg]; [| lia].
      destruct (Z.eq_dec k cur) as [-> | Hne]; [congruence |].
      apply (Hlow k q); [lia | exact Hkq].
    + destruct (run_front level cur priority id rest g) as [r |] eqn:Hr; [| discriminate].
      simpl in Hrun.
      pose proof (run_front_fixed _ _ _ _ _ _ _ Hworld Hq Hd Hprio Hlow Hr) as Hturn.
      destruct r as [result g1 | priority1 g1].
      * injection Hrun as -> <-. left. exact Hturn.
      * destruct Hturn as (Hd1 & Hprio1 & Hle & Hlow1).
        destruct (IH (Some cur) priority1 g1 g' Hd1 Hprio1 Hlow1 Hrun) as [Hgrew | Hdone];
          [left; lia | right; exact Hdone].
  - destruct (Z.ltb_spec priority (size_ (queue_by_priority_ g))) as [Hlt | Hge].
    + apply (IH (Some priority) priority g g' Hd) in Hrun;
        [exact Hrun | left; reflexivity | exact Hlow].
    + injection Hrun as <-. right. split; [| exact Hd].
      apply Forall_lookup. intros i q Hi.
      apply (Hlow (Z.of_nat i) q).
      * apply lookup_lt_Some in Hi. unfold size_ in Hge. lia.
      * rewrite at_index_nat. exact Hi.
Qed.

(** X20.  [Propagate] stops at a fixed point: when the propagators only
    move the Boolean trail and the counter of enqueues forward and mark a
    variable as modified only when they enqueue, a call that returns true
    without a new literal on the Boolean trail leaves every queue empty,
    no modified variable and no literal of the trail to dispatch. *)
Theorem Propagate_reaches_fixed_point fuel g g' :
  well_behaved_world ->
  Propagate fuel g = Some (true, g') ->
  world_trail_index (world g') <= world_trail_index (world g) ->
  Forall (fun q => q = []) (queue_by_priority_ g') /\ all_dispatched g'.
Proof.
  intros Hworld Hrun Hindex. unfold Propagate in Hrun.
  pose proof Hworld as (_ & _ & _ & _ & Hclear).
  destruct (UpdateCallingNeeds g) as [g1 |] eqn:H1; [| discriminate].
  simpl in Hrun.
  destruct (UpdateCallingNeeds_frame _ _ H1) as [E1 E2].
  destruct (Hclear (world g)) as (Hc1 & Hc2 & Hc3).
  assert (Hd : all_dispatched g1).
  { split; rewrite E1; [exact Hc1 | rewrite Hc2; lia]. }
  destruct (propagate_loops_fixed fuel (world_level (world g)) Hworld None 0 g1 g' Hd I)
    as [Hgrew | Hdone].
  - intros k q Hk. lia.
  - exact Hrun.
  - rewrite E1, Hc2 in Hgrew. lia.
  - exact Hdone.
Qed.

End FixedPointFacts.

(** ** Backtracking and registration in the scheduler *)

Section RegistrationFacts.
Context {W : Type} `{!PropagatorWorld W}.
Implicit Type g : GenericLiteralWatcher W.
Import Watcher.

Lemma clear_watch_indices_spec ids : forall wis wis',
  clear_watch_indices ids wis = Some wis' ->
  length wis' = length wis /\
  (forall id, id ∈ ids -> at_index wis' id = Some []) /\
  (forall id, (id ∉ ids) -> at_index wis' id = at_index wis id).
Proof.
  induction ids as [| id0 rest IH]; intros wis wis' Hrun.
  - simpl in Hrun. injection Hrun as <-.
    split; [reflexivity |]. split; [| auto]. intros id Hin. inversion Hin.
  - simpl in Hrun.
    destruct (store_at wis id0 []) as [wis1 |] eqn:H1; [| discriminate].
    simpl in Hrun.
    destruct (IH _ _ Hrun) as (Hlen & Hin & Hout).
    split; [rewrite Hlen; exact (store_at_length _ _ _ _ H1) |]. split.
    + intros id Hid.
      destruct (decide (id ∈ rest)) as [Hrest | Hrest]; [exact (Hin id Hrest) |].
      apply elem_of_cons in Hid as [-> | Hid]; [| contradiction].
      rewrite (Hout id0 Hrest). exact (at_index_store_eq _ _ _ _ H1).
    + intros id Hid. apply not_elem_of_cons in Hid as [Hne Hid].
      rewrite (Hout id Hid).
      destruct (Z.leb_spec 0 id) as [Hpos | Hneg].
      * exact (at_index_store_ne _ _ _ _ _ H1 Hpos Hne).
      * unfold at_index. destruct (Z.leb_spec 0 id); [lia | reflexivity].
Qed.

Lemma concat_map_nil {A B} (l : list A) : concat (map (fun _ => @nil B) l) = [].
Proof. induction l as [| x l IH]; [reflexivity | exact IH]. Qed.

(** X21.  Backtracking below what was dispatched resets the scheduler:
    [Untrail] to an index under [propagation_trail_index_] leaves every
    queue empty and no propagator flagged as queued, clears the watch
    indices of exactly the propagators that were queued, resets the
    modified variables, moves the propagation index to the given one and
    leaves no greatest common level above the current level. *)
Theorem Untrail_resets trail_index g g' :
  trail_index < watcher_propagation_trail_index_ g ->
  Untrail trail_index g = Some g' ->
  Forall (fun q => q = []) (queue_by_priority_ g') /\
  length (queue_by_priority_ g') = length (queue_by_priority_ g) /\
  Forall (fun flag => flag = false) (in_queue_ g') /\
  length (in_queue_ g') = length (in_queue_ g) /\
  queues_consistent g' /\
  watcher_propagation_trail_index_ g' = trail_index /\
  world g' = world_clear_modified_vars (world g) /\
  (forall id, id ∈ concat (queue_by_priority_ g) ->
              at_index (id_to_watch_indices_ g') id = Some []) /\
  (forall id, (id ∉ concat (queue_by_priority_ g)) ->
              at_index (id_to_watch_indices_ g') id
              = at_index (id_to_watch_indices_ g) id) /\
  Forall (fun ref => ref <= world_level (world g))
    (id_to_greatest_common_level_since_last_call_ g').
Proof.
  intros Hlt Hrun. unfold Untrail in Hrun.
  destruct (Z.leb_spec (watcher_propagation_trail_index_ g) trail_index); [lia |].
  destruct (clear_watch_indices (concat (queue_by_priority_ g)) (id_to_watch_indices_ g))
    as [wis |] eqn:Hwis; [| discriminate].
  simpl in Hrun. injection Hrun as <-. simpl.
  destruct (clear_watch_indices_spec _ _ _ Hwis) as (_ & Hin & Hout).
  pose proof (concat_map_nil (B := Z) (queue_by_priority_ g)) as Hempty.
  split; [apply Forall_forall; intros q Hq; apply list_elem_of_fmap in Hq as (? & -> & _);
          reflexivity |].
  split; [apply length_map |].
  split; [apply Forall_replicate; reflexivity |].
  split; [apply length_replicate |].
  split; [unfold queues_consistent; simpl; rewrite Hempty; split; constructor |].
  split; [reflexivity |]. split; [reflexivity |].
  split; [exact Hin |]. split; [exact Hout |].
  apply Forall_forall. intros ref Href.
  apply list_elem_of_fmap in Href as (ref0 & -> & _). lia.
Qed.

Lemma store_at_in_range {A} (l : list A) i x :
  0 <= i < size_ l -> store_at l i x = Some (<[Z.to_nat i := x]> l).
Proof.
  unfold size_, store_at. intros Hi.
  destruct (Z.leb_spec 0 i); [| lia].
  destruct (Z.ltb_spec i (Z.of_nat (length l))); [reflexivity | lia].
Qed.

Lemma concat_replicate_nil {A} n : concat (replicate n (@nil A)) = [].
Proof. induction n as [| n IH]; [reflexivity | exact IH]. Qed.

(** X22.  [Register] gives the new propagator the next id, which nothing
    in the queues has, flags it and queues it at the default priority 1,
    keeping the queues consistent.  A later [SetPropagatorPriority] with a
    priority that is not negative records the priority and makes room for
    its queue, every new queue being empty, but leaves the propagator in
    the queue of priority 1: its first run does not respect the new
    priority. *)
Theorem Register_then_SetPropagatorPriority g id g1 priority :
  queues_consistent g ->
  length (id_to_priority_ g) = length (in_queue_ g) ->
  Register g = Some (id, g1) ->
  0 <= priority ->
  id = size_ (in_queue_ g) /\
  (id ∉ concat (queue_by_priority_ g)) /\
  queues_consistent g1 /\
  at_index (in_queue_ g1) id = Some true /\
  at_index (id_to_priority_ g1) id = Some 1 /\
  exists g2,
    SetPropagatorPriority id priority g1 = Some g2 /\
    at_index (id_to_priority_ g2) id = Some priority /\
    priority < size_ (queue_by_priority_ g2) /\
    queues_consistent g2 /\
    (exists q, at_index (queue_by_priority_ g2) 1 = Some (q ++ [id])) /\
    (forall k q, at_index (queue_by_priority_ g1) k = Some q ->
                 at_index (queue_by_priority_ g2) k = Some q) /\
    (forall k, size_ (queue_by_priority_ g1) <= k <= priority ->
               at_index (queue_by_priority_ g2) k = Some []).
Proof.
  intros [Hnd Hall] Hlen Hrun Hprio. unfold Register in Hrun.
  destruct (at_index (queue_by_priority_ g) 1) as [q |] eqn:Hq; [| discriminate].
  simpl in Hrun.
  destruct (store_at (queue_by_priority_ g) 1 (q ++ [size_ (in_queue_ g)]))
    as [qs |] eqn:Hqs; [| discriminate].
  simpl in Hrun. injection Hrun as <- <-.
  pose proof (at_index_store_eq _ _ _ _ Hqs) as Hq1.
  apply store_at_Some in Hqs as (_ & Hlt1 & ->).
  apply at_index_Some in Hq as [_ Hq].
  pose proof (concat_insert_snoc _ _ _ (size_ (in_queue_ g)) Hq) as Hperm.
  assert (Hfresh : size_ (in_queue_ g) ∉ concat (queue_by_priority_ g)).
  { intros Hin. rewrite Forall_forall in Hall.
    pose proof (at_index_lt _ _ _ (Hall _ Hin)). lia. }
  assert (Hc1 : NoDup (concat (<[Z.to_nat 1 := q ++ [size_ (in_queue_ g)]]>
                                 (queue_by_priority_ g))) /\
                Forall (fun x => at_index (in_queue_ g ++ [true]) x = Some true)
                  (concat (<[Z.to_nat 1 := q ++ [size_ (in_queue_ g)]]>
                             (queue_by_priority_ g)))).
  { rewrite Hperm. split.
    - constructor; assumption.
    - constructor; [apply at_index_size_app |].
      eapply Forall_impl; [exact Hall |]. intros x Hx. simpl in Hx.
      apply at_index_app_l. exact Hx. }
  assert (Hid : size_ (in_queue_ g) = size_ (id_to_priority_ g))
    by (unfold size_; rewrite Hlen; reflexivity).
  split; [reflexivity |]. split; [exact Hfresh |].
  split; [exact Hc1 |]. simpl.
  split; [apply at_index_size_app |].
  split; [rewrite Hid; apply at_index_size_app |].
  unfold SetPropagatorPriority. simpl.
  rewrite store_at_in_range.
  2:{ unfold size_ in *. rewrite length_app. simpl. lia. }
  simpl.
  destruct (Z.ltb_spec priority 0) as [Hneg | _]; [lia |].
  set (queues := <[Z.to_nat 1 := q ++ [size_ (in_queue_ g)]]> (queue_by_priority_ g)) in *.
  assert (Hstored : at_index
                      (<[Z.to_nat (size_ (in_queue_ g)) := priority]> (id_to_priority_ g ++ [1]))
                      (size_ (in_queue_ g)) = Some priority).
  { apply (at_index_insert_eq _ _ _ 1). rewrite Hid. apply at_index_size_app. }
  destruct (Z.leb_spec (size_ queues) priority) as [Hsmall | Hlarge].
  - simpl. eexists. split; [reflexivity |]. simpl.
    assert (Hge : (length queues <= Z.to_nat (priority + 1))%nat)
      by (unfold size_ in Hsmall; lia).
    assert (Hold : forall k x, at_index queues k = Some x ->
                               at_index (resize (Z.to_nat (priority + 1)) [] queues) k
                               = Some x).
    { intros k x Hk. pose proof (at_index_lt _ _ _ Hk) as Hrange.
      apply at_index_Some in Hk as [Hkpos Hk]. unfold at_index.
      destruct (Z.leb_spec 0 k); [| lia].
      rewrite lookup_resize; [exact Hk | unfold size_ in *; lia | unfold size_ in *; lia]. }
    split; [exact Hstored |].
    split; [unfold size_; rewrite length_resize; lia |].
    split.
    { unfold queues_consistent. simpl. rewrite (resize_ge _ _ _ Hge).
      rewrite concat_app, concat_replicate_nil, app_nil_r. exact Hc1. }
    split; [exists q; apply Hold; exact Hq1 |].
    split; [exact Hold |].
    intros k Hk. unfold at_index. destruct (Z.leb_spec 0 k); [| unfold size_ in Hk; lia].
    rewrite (resize_ge _ _ _ Hge).
    rewrite lookup_app_r by (unfold size_ in Hk; lia).
    apply lookup_replicate_2. unfold size_ in Hk. lia.
  - simpl. eexists. split; [reflexivity |]. simpl.
    split; [exact Hstored |]. split; [exact Hlarge |].
    split; [exact Hc1 |].
    split; [exists q; exact Hq1 |].
    split; [auto |]. intros k Hk. lia.
Qed.

End RegistrationFacts.

(** ** The scheduler on the scripted world *)

Lemma run_scripted_moves_forward id :
  Watcher.run_moves_forward (W := ScriptedWorld) (run_scripted id).
Proof.
  intros w. unfold run_scripted.
  destruct (head (default [] (at_index (sw_scripts w) id))) as [[| v | literal |] |];
    simpl; rewrite ?length_app; simpl; repeat split; intros; try lia; assumption.
Qed.

Lemma scripted_world_well_behaved : Watcher.well_behaved_world (W := ScriptedWorld).
Proof.
  split; [exact run_scripted_moves_forward |].
  split; [intros id indices; exact (run_scripted_moves_forward id) |].
  split; [intros rev level w; repeat split |].
  split; [intros rev_int w; repeat split |].
  intros w. repeat split.
Qed.

Lemma Propagate_never_queues_twice_witness :
  Watcher.queues_consistent (example_watcher (PushBound 0)) /\
  exists b g',
    Propagate 20 (example_watcher (PushBound 0)) = Some (b, g') /\
    Watcher.queues_consistent g'.
Proof.
  assert (Hc : Watcher.queues_consistent (example_watcher (PushBound 0)))
    by (split; constructor).
  split; [exact Hc |].
  destruct (Propagate 20 (example_watcher (PushBound 0))) as [[b g'] |] eqn:Hrun;
    [| vm_compute in Hrun; discriminate].
  exists b, g'. split; [reflexivity |].
  exact (proj2 (Propagate_never_queues_twice 20 _ Hc) b g' Hrun).
Defined.

Lemma Propagate_reaches_fixed_point_witness :
  exists g',
    Propagate 20 (example_watcher (PushBound 0)) = Some (true, g') /\
    world_trail_index (world g') <= world_trail_index (world (example_watcher (PushBound 0))) /\
    Forall (fun q => q = []) (queue_by_priority_ g') /\ Watcher.all_dispatched g'.
Proof.
  eexists. split; [vm_compute; reflexivity |].
  split; [vm_compute; discriminate |].
  apply (Propagate_reaches_fixed_point 20 (example_watcher (PushBound 0))).
  - exact scripted_world_well_behaved.
  - vm_compute. reflexivity.
  - vm_compute. discriminate.
Defined.

Lemma Untrail_resets_witness :
  exists g1 g',
    UpdateCallingNeeds (example_watcher PushNothing) = Some g1 /\
    0 < watcher_propagation_trail_index_ g1 /\
    Watcher.Untrail 0 g1 = Some g' /\
    Forall (fun q => q = []) (queue_by_priority_ g') /\
    Forall (fun flag => flag = false) (in_queue_ g').
Proof.
  eexists. eexists. split; [vm_compute; reflexivity |].
  split; [vm_compute; reflexivity |].
  split; [vm_compute; reflexivity |].
  match goal with
  | |- Forall _ (queue_by_priority_ ?g') /\ _ =>
      destruct (Untrail_resets 0
                  (MkWatcher [[]; [0; 1]] [true; true; false] [1; 1; 0] [false; false; false]
                     [[]; []; []] [0; 0; 0] [0; 0; 0] [[]; []; []] [[]; []; []]
                     [[MkWatch 0 (-1); MkWatch 1 (-1)]] [[MkWatch 2 (-1)]] 1
                     (MkWorld 0 [0] 0 2 [] [] [[PushNothing]; []; []]))
                  g') as (Hq & _ & Hflags & _)
  end.
  - vm_compute. reflexivity.
  - vm_compute. reflexivity.
  - split; [exact Hq | exact Hflags].
Defined.

Lemma Register_then_SetPropagatorPriority_witness :
  exists g1 g2,
    Watcher.Register (example_watcher PushNothing) = Some (3, g1) /\
    Watcher.SetPropagatorPriority 3 4 g1 = Some g2 /\
    at_index (id_to_priority_ g2) 3 = Some 4 /\
    at_index (queue_by_priority_ g2) 1 = Some [3] /\
    at_index (queue_by_priority_ g2) 4 = Some [].
Proof.
  destruct (Watcher.Register (example_watcher PushNothing)) as [[id g1] |] eqn:Hrun;
    [| vm_compute in Hrun; discriminate].
  destruct (Register_then_SetPropagatorPriority (example_watcher PushNothing) id g1 4)
    as (Hid & _ & _ & _ & _ & g2 & Hset & Hprio & _ & _ & _ & _ & _).
  - split; constructor.
  - reflexivity.
  - exact Hrun.
  - vm_compute. discriminate.
  - vm_compute in Hid. subst id.
    exists g1, g2. split; [reflexivity |]. split; [exact Hset |].
    split; [exact Hprio |].
    vm_compute in Hrun. injection Hrun as <-.
    vm_compute in Hset. injection Hset as <-.
    split; reflexivity.
Defined.
